(** * perftester: report formatter and benchmark runner

    A shallow embedding of the packages [config], [report] and [check] of
    storj.io/perftester, and the properties of its natural-language
    specification.

    Go values are modelled as follows.
    - [int], [int64] and [time.Duration] are [Z]; lengths, sizes and times
      are taken to stay inside the 64-bit range, and the wrap-around of
      [Seed + int64(i)], which a large seed reaches, is written out
      ([wrap64]).
    - [string] is [string] (a sequence of bytes), [len] is its length in bytes
      and [<] on strings is the bytewise lexicographic order.
    - a [map] is a [gmap]; reading a missing key gives the zero value.
    - a pointer that may be [nil] is an [option].
    - [float64] is the IEEE-754 binary64 format, computed exactly with the
      [SpecFloat] operations (precision 53, maximal exponent 1024).
    - [error] is [option string]: [None] is [nil], [Some msg] an error whose
      [Error()] is [msg].
    - a function that may return an error or panic returns a [res]. *)

From Stdlib Require Import ZArith Ascii String List Permutation Sorting.Sorted.
From Stdlib Require Import SpecFloat.
From Stdlib Require Strings.Byte.
From stdpp Require Import base decidable option list numbers strings pretty
  countable finite gmap fin_maps sorting.

Local Open Scope Z_scope.

(** ** Results of fallible functions *)

Inductive res (A : Type) : Type :=
  | Ok (a : A)
  | Err (msg : string)
  | Panic (msg : string).
Arguments Ok {A} a.
Arguments Err {A} msg.
Arguments Panic {A} msg.

Global Instance res_ret : MRet res := λ A a, Ok a.

Global Instance res_bind : MBind res := λ A B f m,
  match m with
  | Ok a => f a
  | Err e => Err e
  | Panic e => Panic e
  end.

(** [for i, x := range l { s, err = body(i, x, s) }], leaving at the first
    error. *)
Fixpoint rangeM_from {A S} (i : nat) (l : list A)
    (body : nat → A → S → res S) (s : S) : res S :=
  match l with
  | [] => Ok s
  | x :: l' => s' ← body i x s; rangeM_from (Datatypes.S i) l' body s'
  end.

Definition rangeM {A S} (l : list A) (body : nat → A → S → res S) (s : S)
    : res S :=
  rangeM_from 0%nat l body s.

(** The same loop with a body that cannot fail. *)
Fixpoint range_from {A S} (i : nat) (l : list A)
    (body : nat → A → S → S) (s : S) : S :=
  match l with
  | [] => s
  | x :: l' => range_from (Datatypes.S i) l' body (body i x s)
  end.

Definition range {A S} (l : list A) (body : nat → A → S → S) (s : S) : S :=
  range_from 0%nat l body s.

(** ** The Go library functions the program calls *)

Module Go.

Definition error := option string.

Definition len (s : string) : Z := Z.of_nat (String.length s).

Definition len_slice {A} (l : list A) : Z := Z.of_nat (length l).

Fixpoint repeat_string (s : string) (n : nat) : string :=
  match n with
  | O => ""
  | Datatypes.S n' => s +:+ repeat_string s n'
  end.

(** [strings.Repeat]: panics on a negative count. *)
Definition Repeat (s : string) (count : Z) : res string :=
  if count <? 0 then Panic "strings: negative Repeat count"
  else Ok (repeat_string s (Z.to_nat count)).

(** [strconv.Itoa]. *)
Definition Itoa (i : Z) : string := pretty i.

(** The [int64] that an integer wraps around to. *)
Definition wrap64 (x : Z) : Z :=
  (x + 2 ^ 63) `mod` 2 ^ 64 - 2 ^ 63.

(** *** float64 *)

Definition prec : Z := 53.
Definition emax : Z := 1024.
Definition float64 := spec_float.

(** Conversion of an integer, and of an integer constant, to [float64]. *)
Definition float64_of_int (n : Z) : float64 :=
  binary_normalize prec emax n 0 false.
Definition fmul : float64 → float64 → float64 := SFmul prec emax.
Definition fdiv : float64 → float64 → float64 := SFdiv prec emax.
Definition fadd : float64 → float64 → float64 := SFadd prec emax.

Definition is_finite (x : float64) : bool :=
  match x with
  | S754_zero _ | S754_finite _ _ _ => true
  | _ => false
  end.

(** The integer nearest to [a * 2^e], ties to even ([a] is not negative). *)
Definition round_half_even (a e : Z) : Z :=
  if 0 <=? e then a * 2 ^ e
  else
    let d := 2 ^ (- e) in
    let q := a `div` d in
    let r := a `mod` d in
    if 2 * r <? d then q
    else if d <? 2 * r then q + 1
    else if Z.even q then q else q + 1.

Definition digit (n : Z) : ascii := pretty_N_char (Z.to_N n).

Definition sign_string (s : bool) : string := if s then "-" else "".

(** The decimal digits of [n] hundredths: integer part, point, two digits. *)
Definition fixed2 (n : Z) : string :=
  pretty (n `div` 100) +:+ ("." +:+
  String (digit ((n `mod` 100) `div` 10)) (String (digit (n `mod` 10)) "")).

(** [strconv.FormatFloat(x, 'f', 2, 64)]: the exact value of [x] rounded to
    two decimals, ties to even. *)
Definition FormatFloat_f2 (x : float64) : string :=
  match x with
  | S754_nan => "NaN"
  | S754_infinity false => "+Inf"
  | S754_infinity true => "-Inf"
  | S754_zero s => sign_string s +:+ "0.00"
  | S754_finite s m e =>
      sign_string s +:+ fixed2 (round_half_even (Z.pos m * 100) e)
  end.

(** *** time.Duration, in nanoseconds *)

Definition Duration := Z.
Definition Microsecond : Z := 1000.
Definition Millisecond : Z := 1000000.
Definition Second : Z := 1000000000.

(** [Duration.Seconds]. *)
Definition Seconds (d : Duration) : float64 :=
  let sec := Z.quot d Second in
  let nsec := Z.rem d Second in
  fadd (float64_of_int sec) (fdiv (float64_of_int nsec) (float64_of_int 1000000000)).

(** [fmtFrac] of package time: the fraction [v / 10^prec] without
    trailing zeros, in front of [buf], and the integer part. *)
Fixpoint fmtFrac_loop (n : nat) (buf : string) (v : Z) (print : bool)
    : string * Z * bool :=
  match n with
  | O => (buf, v, print)
  | Datatypes.S n' =>
      let d := v `mod` 10 in
      let print := print || negb (d =? 0) in
      let buf := if print then String (digit d) buf else buf in
      fmtFrac_loop n' buf (v `div` 10) print
  end.

Definition fmtFrac (buf : string) (v : Z) (prec : nat) : string * Z :=
  let '(buf, v, print) := fmtFrac_loop prec buf v false in
  (if print then String "."%char buf else buf, v).

(** [fmtInt] of package time. *)
Definition fmtInt (buf : string) (v : Z) : string := pretty v +:+ buf.

(** [Duration.String]. *)
Definition Duration_String (d : Duration) : string :=
  let u := Z.abs d in
  let body :=
    if u <? Second then
      if u =? 0 then "0s"
      else if u <? Microsecond then fmtInt "ns" u
      else if u <? Millisecond then
        let '(buf, u) := fmtFrac "µs" u 3 in fmtInt buf u
      else
        let '(buf, u) := fmtFrac "ms" u 6 in fmtInt buf u
    else
      let '(buf, u) := fmtFrac "s" u 9 in
      let buf := fmtInt buf (u `mod` 60) in
      let u := u `div` 60 in
      if 0 <? u then
        let buf := fmtInt (String "m"%char buf) (u `mod` 60) in
        let u := u `div` 60 in
        if 0 <? u then fmtInt (String "h"%char buf) u else buf
      else buf in
  if d <? 0 then String "-"%char body else body.

End Go.

(** ** Package config *)

Module config.

(** [type ID string]. *)
Abbreviation ID := string (only parsing).

(** [type Operation int], with the constants [Upload], [Download] and
    [Delete] numbered by [iota]. *)
Inductive Operation := Upload | Download | Delete.

Definition Operation_int (o : Operation) : Z :=
  match o with
  | Upload => 0
  | Download => 1
  | Delete => 2
  end.

Definition Operation_String (o : Operation) : string :=
  match o with
  | Upload => "Upload"
  | Download => "Download"
  | Delete => "Delete"
  end.

Global Instance Operation_eq_dec : EqDecision Operation.
Proof. solve_decision. Defined.

Global Instance Operation_countable : Countable Operation.
Proof.
  refine (inj_countable' (λ o, Z.to_nat (Operation_int o))
            (λ n, match n with
                  | O => Upload
                  | Datatypes.S O => Download
                  | _ => Delete
                  end) _).
  by intros [].
Defined.

Record Result := mkResult {
  StartTime : Z;
  Duration : Go.Duration;
  Success : bool;
  Error : string;
}.

Record FileTest := mkFileTest {
  NumParallel : Z;
  Timeout : Go.Duration;
  Size : Z;
  Seed : Z;
}.

(** [StorjEndpoint] and [S3Endpoint], without the field [Client], which
    the program neither sets nor reads. *)
Record StorjEndpoint := mkStorjEndpoint {
  Storj_Access : string;
  Storj_Bucket : string;
  Storj_Path : string;
}.

Record S3Endpoint := mkS3Endpoint {
  S3_Region : string;
  S3_AccessKey : string;
  S3_SecretKey : string;
  S3_Bucket : string;
  S3_Path : string;
  S3_Address : string;
}.

Record Endpoints := mkEndpoints {
  Storj : gmap ID StorjEndpoint;
  S3 : gmap ID S3Endpoint;
}.

Record Monitoring := mkMonitoring {
  Monitoring_Address : string;
  Monitoring_InstanceID : string;
  Monitoring_TracingURL : string;
}.

Record Config := mkConfig {
  FileTests : gmap ID FileTest;
  Config_Endpoints : Endpoints;
  Config_Monitoring : Monitoring;
  Config_Timeout : Go.Duration;
}.

End config.
Export config.

(** ** Package report *)

Module report.

(** [endpointResults], keyed by the endpoint identifier; the values are
    pointers. *)
Abbreviation endpointResults := (gmap ID (option Result)) (only parsing).
Abbreviation operationResults := (gmap Operation (gmap ID (option Result)))
  (only parsing).
(** [fileTestResults], keyed by the file-test identifier. *)
Abbreviation fileTestResults :=
  (gmap ID (gmap Operation (gmap ID (option Result)))) (only parsing).

Record TextReporter := mkTextReporter {
  results : fileTestResults;
  fileTestSizes : gmap ID Z;
}.

Definition NewTextReporter (fileTestSizes : gmap ID Z) : TextReporter :=
  {| results := ∅; fileTestSizes := fileTestSizes |}.

(** [results[fileTestID][operation][endpointID]]: reading through missing
    keys gives [nil]. *)
Definition lookup3 (results : fileTestResults) (fileTestID : ID)
    (operation : Operation) (endpointID : ID) : option Result :=
  default None (default ∅ (default ∅ (results !! fileTestID) !! operation)
                  !! endpointID).

(** [Report]; it returns [nil]. *)
Definition Report (s : TextReporter) (operation : Operation)
    (fileTestID endpointID : ID) (result : option Result)
    : TextReporter * Go.error :=
  let results := results s in
  let results :=
    match results !! fileTestID with
    | Some _ => results
    | None => <[fileTestID := ∅]> results
    end in
  let ops := default ∅ (results !! fileTestID) in
  let results :=
    match ops !! operation with
    | Some _ => results
    | None => <[fileTestID := <[operation := ∅]> ops]> results
    end in
  let ops := default ∅ (results !! fileTestID) in
  let eps := default ∅ (ops !! operation) in
  let results :=
    <[fileTestID := <[operation := <[endpointID := result]> eps]> ops]>
      results in
  ({| results := results; fileTestSizes := fileTestSizes s |}, None).

Definition formatResultForRow (operation : Operation) (fileTestSize : Z)
    (result : option Result) : string :=
  match result with
  | None => "-"
  | Some result =>
      if negb (String.eqb (Error result) "") then "ERR"
      else if decide (operation = Delete)
      then Go.Duration_String (Duration result)
      else
        let megabits :=
          Go.fdiv (Go.fdiv (Go.fmul (Go.float64_of_int fileTestSize)
                              (Go.float64_of_int 8))
                     (Go.float64_of_int 1000))
            (Go.float64_of_int 1000) in
        let seconds := Go.Seconds (Duration result) in
        Go.FormatFloat_f2 (Go.fdiv megabits seconds) +:+ " Mbps"
  end.

(** [sort.Slice] with the given [less]: the ascending arrangement. *)
Definition ascending {A} (less : A → A → bool) : relation A :=
  λ x y, less y x = false.

Global Instance ascending_dec {A} (less : A → A → bool)
  : RelDecision (ascending less).
Proof. intros x y. unfold ascending. apply _. Defined.

Definition sort_Slice {A} (less : A → A → bool) (l : list A) : list A :=
  merge_sort (ascending less) l.

Definition ID_less (a b : ID) : bool := String.ltb a b.

Definition Operation_less (a b : Operation) : bool :=
  Operation_int a <? Operation_int b.

(** The lists and the [seen] sets of [uniqueSortedIDs]. *)
Record idsState := mkIds {
  fileTestIDs : list ID;
  endpointIDs : list ID;
  operations : list Operation;
  seenFileTestIDs : gset ID;
  seenEndpointIDs : gset ID;
  seenOperations : gset Operation;
}.

Definition noteFileTestID (st : idsState) (fileTestID : ID) : idsState :=
  if decide (fileTestID ∈ seenFileTestIDs st) then st
  else {| fileTestIDs := fileTestIDs st ++ [fileTestID];
          endpointIDs := endpointIDs st;
          operations := operations st;
          seenFileTestIDs := {[fileTestID]} ∪ seenFileTestIDs st;
          seenEndpointIDs := seenEndpointIDs st;
          seenOperations := seenOperations st |}.

Definition noteOperation (st : idsState) (operation : Operation)
    : idsState :=
  if decide (operation ∈ seenOperations st) then st
  else {| fileTestIDs := fileTestIDs st;
          endpointIDs := endpointIDs st;
          operations := operations st ++ [operation];
          seenFileTestIDs := seenFileTestIDs st;
          seenEndpointIDs := seenEndpointIDs st;
          seenOperations := {[operation]} ∪ seenOperations st |}.

Definition noteEndpointID (st : idsState) (endpointID : ID) : idsState :=
  if decide (endpointID ∈ seenEndpointIDs st) then st
  else {| fileTestIDs := fileTestIDs st;
          endpointIDs := endpointIDs st ++ [endpointID];
          operations := operations st;
          seenFileTestIDs := seenFileTestIDs st;
          seenEndpointIDs := {[endpointID]} ∪ seenEndpointIDs st;
          seenOperations := seenOperations st |}.

(** The three nested [range] loops of [uniqueSortedIDs]; a map is ranged
    over in the order of [map_to_list]. *)
Definition collectIDs (results : fileTestResults) : idsState :=
  foldl (λ st '(fileTestID, operationResults),
    foldl (λ st '(operation, endpointResults),
      foldl (λ st '(endpointID, _), noteEndpointID st endpointID)
        (noteOperation st operation)
        (map_to_list (endpointResults : gmap ID (option Result))))
      (noteFileTestID st fileTestID)
      (map_to_list (operationResults : gmap Operation (gmap ID (option Result)))))
    (mkIds [] [] [] ∅ ∅ ∅)
    (map_to_list results).

Definition uniqueSortedIDs (results : fileTestResults)
    : list ID * list ID * list Operation :=
  let st := collectIDs results in
  (sort_Slice ID_less (fileTestIDs st),
   sort_Slice ID_less (endpointIDs st),
   sort_Slice Operation_less (operations st)).

(** The loops of [uniqueSortedIDs] when the maps are ranged over in the
    orders given: Go leaves the order of a [range] over a map open. The
    order of a map of operations may depend on its file-test, the order of
    a map of endpoints on its file-test and its operation. *)
Definition collectIDsIn
    (orderFileTests : fileTestResults →
       list (ID * gmap Operation (gmap ID (option Result))))
    (orderOperations : ID → gmap Operation (gmap ID (option Result)) →
       list (Operation * gmap ID (option Result)))
    (orderEndpoints : ID → Operation → gmap ID (option Result) →
       list (ID * option Result))
    (results : fileTestResults) : idsState :=
  foldl (λ st '(fileTestID, operationResults),
    foldl (λ st '(operation, endpointResults),
      foldl (λ st '(endpointID, _), noteEndpointID st endpointID)
        (noteOperation st operation)
        (orderEndpoints fileTestID operation endpointResults))
      (noteFileTestID st fileTestID)
      (orderOperations fileTestID operationResults))
    (mkIds [] [] [] ∅ ∅ ∅)
    (orderFileTests results).

Definition uniqueSortedIDsIn
    (orderFileTests : fileTestResults →
       list (ID * gmap Operation (gmap ID (option Result))))
    (orderOperations : ID → gmap Operation (gmap ID (option Result)) →
       list (Operation * gmap ID (option Result)))
    (orderEndpoints : ID → Operation → gmap ID (option Result) →
       list (ID * option Result))
    (results : fileTestResults) : list ID * list ID * list Operation :=
  let st := collectIDsIn orderFileTests orderOperations orderEndpoints
              results in
  (sort_Slice ID_less (fileTestIDs st),
   sort_Slice ID_less (endpointIDs st),
   sort_Slice Operation_less (operations st)).

Definition newline : string := String "010"%char "".

Definition writeBreak (builder : string) : string := builder +:+ newline.

Definition writeWithBreak (builder s : string) : string :=
  writeBreak (builder +:+ s).

Definition padding : Z := 5.

(** [m[i]] on a [map[int]int]. *)
Definition at0 (m : gmap nat Z) (i : nat) : Z := default 0 (m !! i).

(** The body of the first loop of [MakeTable] for one item. *)
Definition noteLength (i : nat) (item : string) (maxColumnLenghts : gmap nat Z)
    : gmap nat Z :=
  if at0 maxColumnLenghts i <? Go.len item
  then <[i := Go.len item]> maxColumnLenghts
  else maxColumnLenghts.

(** The body of the first loop of [MakeTable] for one row. *)
Definition measureRow (row : list string) (st : Z * gmap nat Z)
    : res (Z * gmap nat Z) :=
  let '(numColumns, maxColumnLenghts) := st in
  let numColumns :=
    if numColumns =? 0 then Go.len_slice row else numColumns in
  if negb (Go.len_slice row =? numColumns)
  then Err "Mismatched column numbers"
  else Ok (numColumns, range row noteLength maxColumnLenghts).

(** The body of the inner loop of the second loop of [MakeTable]. *)
Definition writeItem (maxColumnLenghts : gmap nat Z) (row : list string)
    (i : nat) (item : string) (table : string) : res string :=
  postItem ←
    (if Z.of_nat i <? Go.len_slice row - 1
     then Go.Repeat " " (at0 maxColumnLenghts i - Go.len item + padding)
     else Ok newline);
  Ok (table +:+ (item +:+ postItem)).

(** The body of the second loop of [MakeTable]. *)
Definition writeRow (numColumns : Z) (maxColumnLenghts : gmap nat Z)
    (headerSeperator : string) (i : nat) (row : list string)
    (table : string) : res string :=
  table ← rangeM row (writeItem maxColumnLenghts row) table;
  if (i =? 0)%nat && negb (String.eqb headerSeperator "") then
    let totalLength := (numColumns - 1) * padding in
    let totalLength :=
      map_fold (λ _ maxLength totalLength, totalLength + maxLength)
        totalLength maxColumnLenghts in
    rule ← Go.Repeat headerSeperator totalLength;
    Ok (writeWithBreak table rule)
  else Ok table.

Definition MakeTable (rows : list (list string)) (headerSeperator : string)
    : res string :=
  st ← rangeM rows (λ _ row st, measureRow row st) (0, ∅);
  rangeM rows (writeRow st.1 st.2 headerSeperator) "".

Definition filePrefix : string := "File: ".

(** The cell of one endpoint, appended to [row]. *)
Definition formatCell (fileTestSizes : gmap ID Z) (results : fileTestResults)
    (fileTestID : ID) (operation : Operation) (endpointID : ID)
    (row : list string) : res (list string) :=
  let result := lookup3 results fileTestID operation endpointID in
  let fileTestSize := default 0 (fileTestSizes !! fileTestID) in
  if fileTestSize =? 0
  then Err ("Unknown fileTestSize for " +:+ fileTestID)
  else Ok (row ++ [formatResultForRow operation fileTestSize result]).

(** The rows of one file-test: the loop over the operations. *)
Definition formatRows (fileTestSizes : gmap ID Z) (results : fileTestResults)
    (endpointIDs : list ID) (operations : list Operation) (fileTestID : ID)
    : res (list (list string)) :=
  rangeM operations (λ _ operation rows,
    row ← rangeM endpointIDs
             (λ _ endpointID row,
                formatCell fileTestSizes results fileTestID operation
                  endpointID row)
             [Operation_String operation];
    Ok (rows ++ [row])) [].

Definition headerRow (endpointIDs : list ID) : list string :=
  foldl (λ headerRow endpointID, headerRow ++ [endpointID]) ["Operation"]
    endpointIDs.

(** The body of the loop over the file-tests. *)
Definition formatSection (fileTestSizes : gmap ID Z)
    (results : fileTestResults) (endpointIDs : list ID)
    (operations : list Operation) (fileTestID : ID) (reportString : string)
    : res string :=
  stars ← Go.Repeat "*" (Go.len filePrefix + Go.len fileTestID);
  let reportString := writeWithBreak reportString stars in
  let reportString := writeWithBreak reportString (filePrefix +:+ fileTestID) in
  let reportString := writeWithBreak reportString stars in
  let reportString := writeBreak reportString in
  rows ← formatRows fileTestSizes results endpointIDs operations fileTestID;
  let tableRows := foldl (λ tableRows row, tableRows ++ [row])
                     [headerRow endpointIDs] rows in
  tableStr ← MakeTable tableRows "-";
  Ok (writeWithBreak reportString tableStr).

Definition formatResults (fileTestSizes : gmap ID Z)
    (results : fileTestResults) : res string :=
  let '(fileTestIDs, endpointIDs, operations) := uniqueSortedIDs results in
  rangeM fileTestIDs
    (λ _ fileTestID reportString,
       formatSection fileTestSizes results endpointIDs operations fileTestID
         reportString)
    "".

Definition FormatResults (s : TextReporter) : res string :=
  formatResults (fileTestSizes s) (results s).

End report.

(** ** Package check *)

Module check.

(** An [io.Reader], by what reading it to its end gives: the bytes it
    delivers and the error that ends it ([nil] at end of file). *)
Record Reader := mkReader {
  content : list Byte.byte;
  failure : Go.error;
}.

(** An [io.ReadCloser]: a reader and the result of [Close]. *)
Record ReadCloser := mkReadCloser {
  stream : Reader;
  closeErr : Go.error;
}.

(** A [context.Context], by its deadline. *)
Definition Context := option Z.

(** What the program does to the world, in order; the properties are stated
    on this log. *)
Inductive Event :=
  | EUpload (endpointID : ID) (name : string) (data : list Byte.byte)
  | EDownload (endpointID : ID) (name : string)
  | EDelete (endpointID : ID) (name : string)
  | EReport (operation : Operation) (fileTestID endpointID : ID)
      (result : Result) (err : Go.error).

Section World.

(** The state of everything outside the program: the storage back ends,
    the clock and the reporter. *)
Context {W : Type}.

Record State := mkState {
  world : W;
  events : list Event;
}.

(** A computation on the world that returns or panics. *)
Definition M (A : Type) : Type := State → res (A * State).

Definition M_ret {A} (a : A) : M A := λ st, Ok (a, st).

Definition M_bind {A B} (m : M A) (f : A → M B) : M B := λ st,
  match m st with
  | Ok (a, st') => f a st'
  | Err e => Err e
  | Panic e => Panic e
  end.

Definition M_panic {A} (msg : string) : M A := λ _, Panic msg.

(** A call on the world. *)
Definition call {A} (f : W → A * W) : M A := λ st,
  let '(a, w) := f (world st) in
  Ok (a, {| world := w; events := events st |}).

Definition emit (e : Event) : M unit := λ st,
  Ok (tt, {| world := world st; events := events st ++ [e] |}).

(** [client.Client], the methods the checker calls. *)
Record Client := mkClient {
  Client_Upload : Context → string → Reader → W → Go.error * W;
  Client_Download : Context → string → W → (ReadCloser + string) * W;
  Client_Delete : Context → string → W → Go.error * W;
}.

(** [config.Endpoint]. *)
Record Endpoint := mkEndpoint {
  Endpoint_ID : ID;
  Endpoint_Bucket : string;
  Endpoint_Path : string;
  Endpoint_Client : Client;
}.

(** The interface [reporter]. *)
Definition reporter : Type :=
  Operation → ID → ID → Result → W → Go.error * W.

Record Checker := mkChecker {
  endpoints : list Endpoint;
  fileTests : gmap ID FileTest;
  timeout : Go.Duration;
  checker_reporter : reporter;
}.

End World.

Arguments State : clear implicits.
Arguments M : clear implicits.
Arguments Client : clear implicits.
Arguments Endpoint : clear implicits.
Arguments reporter : clear implicits.
Arguments Checker : clear implicits.

Global Instance M_mret {W} : MRet (M W) := @M_ret W.
Global Instance M_mbind {W} : MBind (M W) := λ A B f m, M_bind m f.

(** [for i := 0; i < n; i++ { body(i) }] over the indices [l]. *)
Fixpoint forM {W A B} (l : list A) (body : A → M W B) : M W (list B) :=
  match l with
  | [] => mret []
  | x :: l' => y ← body x; ys ← forM l' body; mret (y :: ys)
  end.

Global Instance byte_eq_dec : EqDecision Byte.byte := Byte.byte_eq_dec.

Definition hexdigit (n : N) : ascii :=
  match n with
  | 10 => "a" | 11 => "b" | 12 => "c" | 13 => "d" | 14 => "e" | 15 => "f"
  | _ => pretty_N_char n
  end%char%N.

(** The verb [%x] on a byte slice. *)
Fixpoint hex (bs : list Byte.byte) : string :=
  match bs with
  | [] => ""
  | b :: bs' =>
      let n := Byte.to_N b in
      String (hexdigit (n `div` 16)%N) (String (hexdigit (n `mod` 16)%N) (hex bs'))
  end.

(** The first error of a list of results, as [errgroup.Group.Wait]
    returns it. *)
Fixpoint firstError (errs : list Go.error) : Go.error :=
  match errs with
  | [] => None
  | Some msg :: _ => Some msg
  | None :: errs' => firstError errs'
  end.

(** A loop that is left by [return err] at the first error. *)
Fixpoint untilError {W A} (l : list A) (body : A → M W Go.error)
    : M W Go.error :=
  match l with
  | [] => mret None
  | x :: l' =>
      err ← body x;
      match err with
      | Some msg => mret (Some msg)
      | None => untilError l' body
      end
  end.

Section Run.

Context {W : Type}.

(** [math/rand]: the first [n] bytes read from the generator seeded with
    [seed]. *)
Variable randRead : Z → nat → list Byte.byte.

(** [crypto/sha256]: the digest of a byte sequence. *)
Variable sha256_Sum : list Byte.byte → list Byte.byte.

(** [time.Now], in nanoseconds. *)
Variable now : W → Z * W.

(** The order in which the [n] workers of a fan-out run. The workers of
    one fan-out are run one after the other in this order, and
    [errgroup.Group.Wait] returns the first error in it. *)
Variable schedule : nat → list nat.

(** The verb [%q] on a string. *)
Variable Quote : string → string.

Definition pathName (id : ID) (i : Z) : string := id +:+ Go.Itoa i.

(** [io.LimitReader(rand.New(rand.NewSource(seed)), size)]: reading from
    the generator does not fail. *)
Definition fileReader (fileTest : FileTest) (i : Z) : Reader :=
  {| content := randRead (Go.wrap64 (Seed fileTest + i))
                  (Z.to_nat (Size fileTest));
     failure := None |}.

Definition newResultNow : M W Result :=
  t ← call now;
  mret {| StartTime := t; Duration := 0; Success := false; Error := "" |}.

(** [time.Since]. *)
Definition Since (start : Z) : M W Go.Duration :=
  t ← call now; mret (t - start).

(** [context.WithTimeout]. *)
Definition WithTimeout (ctx : Context) (d : Go.Duration) : M W Context :=
  t ← call now;
  let deadline := t + d in
  mret (match ctx with
        | Some cur => if cur <? deadline then Some cur else Some deadline
        | None => Some deadline
        end).

Definition runParallel (ctx : Context) (numParallel : Z)
    (f : Z → M W Go.error) : M W Go.error :=
  errs ← forM (schedule (Z.to_nat numParallel)) (λ i, f (Z.of_nat i));
  mret (firstError errs).

(** [c.reporter.Report]. *)
Definition report (c : Checker W) (operation : Operation)
    (fileTestID endpointID : ID) (result : Result) : M W Go.error :=
  err ← call (checker_reporter c operation fileTestID endpointID result);
  _ ← emit (EReport operation fileTestID endpointID result err);
  mret err.

(** The lines of [Upload], [Download] and [Delete] between the call of
    the operation and the call of [Report]. *)
Definition finish (result : Result) (err : Go.error) : M W Result :=
  d ← Since (StartTime result);
  let result := {| StartTime := StartTime result; Duration := d;
                   Success := Success result; Error := Error result |} in
  let result := {| StartTime := StartTime result;
                   Duration := Duration result;
                   Success := bool_decide (err = None);
                   Error := Error result |} in
  mret (match err with
        | Some msg => {| StartTime := StartTime result;
                         Duration := Duration result;
                         Success := Success result;
                         Error := msg |}
        | None => result
        end).

Definition uploadWorker (ctx : Context) (fileTestID : ID)
    (fileTest : FileTest) (endpoint : Endpoint W) (i : Z) : M W Go.error :=
  let r := fileReader fileTest i in
  _ ← emit (EUpload (Endpoint_ID endpoint) (pathName fileTestID i)
              (content r));
  call (Client_Upload (Endpoint_Client endpoint) ctx
          (pathName fileTestID i) r).

Definition upload (ctx : Context) (fileTestID : ID) (fileTest : FileTest)
    (endpoint : Endpoint W) : M W Go.error :=
  ctx ← WithTimeout ctx (Timeout fileTest);
  runParallel ctx (NumParallel fileTest)
    (uploadWorker ctx fileTestID fileTest endpoint).

Definition Checker_Upload (c : Checker W) (ctx : Context) (fileTestID : ID)
    (fileTest : FileTest) (endpoint : Endpoint W) : M W Go.error :=
  result ← newResultNow;
  err ← upload ctx fileTestID fileTest endpoint;
  result ← finish result err;
  report c Upload fileTestID (Endpoint_ID endpoint) result.

Definition delWorker (ctx : Context) (fileTestID : ID)
    (endpoint : Endpoint W) (i : Z) : M W Go.error :=
  _ ← emit (EDelete (Endpoint_ID endpoint) (pathName fileTestID i));
  call (Client_Delete (Endpoint_Client endpoint) ctx
          (pathName fileTestID i)).

Definition del (ctx : Context) (fileTestID : ID) (fileTest : FileTest)
    (endpoint : Endpoint W) : M W Go.error :=
  ctx ← WithTimeout ctx (Timeout fileTest);
  runParallel ctx (NumParallel fileTest) (delWorker ctx fileTestID endpoint).

Definition Checker_Delete (c : Checker W) (ctx : Context) (fileTestID : ID)
    (fileTest : FileTest) (endpoint : Endpoint W) : M W Go.error :=
  result ← newResultNow;
  err ← del ctx fileTestID fileTest endpoint;
  result ← finish result err;
  report c Delete fileTestID (Endpoint_ID endpoint) result.

(** The message of the error of a digest that is not the expected one. *)
Definition unexpectedContents (fileTestID : ID) (i : Z)
    (expected digest : list Byte.byte) : string :=
  "unexpected " +:+ Quote fileTestID +:+ "/" +:+ Go.Itoa i +:+
  " file contents: expected sha256 digest " +:+ hex expected +:+
  "; got " +:+ hex digest.

(** The worker of [download]. Its deferred function assigns
    [errs.Combine(err, strm.Close())] to the local variable [err] once
    the result is set, so the result is without the error of [Close]. *)
Definition downloadWorker (ctx : Context) (fileTestID : ID)
    (endpoint : Endpoint W) (expectedHashes : list (list Byte.byte))
    (i : Z) : M W Go.error :=
  _ ← emit (EDownload (Endpoint_ID endpoint) (pathName fileTestID i));
  r ← call (Client_Download (Endpoint_Client endpoint) ctx
              (pathName fileTestID i));
  match r with
  | inr err => mret (Some err)
  | inl strm =>
      match failure (stream strm) with
      | Some err => mret (Some err)
      | None =>
          let digest := sha256_Sum (content (stream strm)) in
          match expectedHashes !! Z.to_nat i with
          | None => M_panic "index out of range"
          | Some expected =>
              if decide (digest = expected) then mret None
              else mret (Some (unexpectedContents fileTestID i expected
                                 digest))
          end
      end
  end.

Definition download (ctx : Context) (fileTestID : ID) (fileTest : FileTest)
    (endpoint : Endpoint W) (expectedHashes : list (list Byte.byte))
    : M W Go.error :=
  ctx ← WithTimeout ctx (Timeout fileTest);
  runParallel ctx (NumParallel fileTest)
    (downloadWorker ctx fileTestID endpoint expectedHashes).

(** The first loop of [Download]: the digests of the regenerated
    payloads, or the error of [io.Copy]. *)
Fixpoint expectedHashesLoop (fileTest : FileTest) (indices : list nat)
    (expectedHashes : list (list Byte.byte))
    : Go.error + list (list Byte.byte) :=
  match indices with
  | [] => inr expectedHashes
  | i :: indices' =>
      let r := fileReader fileTest (Z.of_nat i) in
      match failure r with
      | Some err => inl (Some err)
      | None =>
          expectedHashesLoop fileTest indices'
            (expectedHashes ++ [sha256_Sum (content r)])
      end
  end.

Definition Checker_Download (c : Checker W) (ctx : Context)
    (fileTestID : ID) (fileTest : FileTest) (endpoint : Endpoint W)
    : M W Go.error :=
  if NumParallel fileTest <? 0
  then M_panic "makeslice: cap out of range"
  else
    match expectedHashesLoop fileTest
            (seq 0 (Z.to_nat (NumParallel fileTest))) [] with
    | inl err => mret err
    | inr expectedHashes =>
        result ← newResultNow;
        err ← download ctx fileTestID fileTest endpoint expectedHashes;
        result ← finish result err;
        report c Download fileTestID (Endpoint_ID endpoint) result
    end.

Definition RunCheck (c : Checker W) (ctx : Context) (fileTestID : ID)
    (fileTest : FileTest) (endpoint : Endpoint W) : M W Go.error :=
  let fileTest :=
    if Timeout fileTest <=? 0
    then {| NumParallel := NumParallel fileTest; Timeout := timeout c;
            Size := Size fileTest; Seed := Seed fileTest |}
    else fileTest in
  fileTest ←
    (if Seed fileTest <=? 0
     then t ← call now;
          mret {| NumParallel := NumParallel fileTest;
                  Timeout := Timeout fileTest;
                  Size := Size fileTest; Seed := t |}
     else mret fileTest);
  let fileTest :=
    if NumParallel fileTest <=? 0
    then {| NumParallel := 1; Timeout := Timeout fileTest;
            Size := Size fileTest; Seed := Seed fileTest |}
    else fileTest in
  err ← Checker_Upload c ctx fileTestID fileTest endpoint;
  match err with
  | Some msg => mret (Some msg)
  | None =>
      err ← Checker_Download c ctx fileTestID fileTest endpoint;
      match err with
      | Some msg => mret (Some msg)
      | None =>
          err ← Checker_Delete c ctx fileTestID fileTest endpoint;
          match err with
          | Some msg => mret (Some msg)
          | None => mret None
          end
      end
  end.

Definition RunChecks (c : Checker W) (ctx : Context) : M W Go.error :=
  untilError (map_to_list (fileTests c)) (λ '(fileTestID, fileTest),
    untilError (endpoints c) (λ endpoint,
      RunCheck c ctx fileTestID fileTest endpoint)).

End Run.

(** [NewChecker]; the logger is not modelled. *)
Definition NewChecker {W} (reporter : reporter W)
    (endpoints : list (Endpoint W)) (fileTests : gmap ID FileTest)
    (timeout : Go.Duration) : Checker W :=
  {| endpoints := endpoints; fileTests := fileTests; timeout := timeout;
     checker_reporter := reporter |}.

End check.

(** ** The layout of a table, as the specification describes it *)

Module layout.

Import report.

(** The width of the cell of a row in column [j] (0 when it has none). *)
Definition cellWidth (row : list string) (j : nat) : Z :=
  default 0 (Go.len <$> row !! j).

(** The width of a column: the largest width of its header and cells. *)
Definition columnWidth (rows : list (list string)) (j : nat) : Z :=
  foldr (λ row w, Z.max (cellWidth row j) w) 0 rows.

Definition spaces (n : Z) : string := Go.repeat_string " " (Z.to_nat n).

(** The cells of a row from column [j] on: every cell but the last is
    followed by spaces up to the width of its column and five more, the
    last one ends the line. *)
Fixpoint line (width : nat → Z) (j : nat) (cells : list string) : string :=
  match cells with
  | [] => ""
  | cell :: cells' =>
      match cells' with
      | [] => cell +:+ newline
      | _ => cell +:+ (spaces (width j - Go.len cell + 5) +:+
                       line width (S j) cells')
      end
  end.

Definition sumWidths (width : nat → Z) (numColumns : nat) : Z :=
  foldr (λ j w, width j + w) 0 (seq 0 numColumns).

(** The sum of the widths of the columns and five for every column but the
    last. *)
Definition totalWidth (width : nat → Z) (numColumns : nat) : Z :=
  sumWidths width numColumns + 5 * (Z.of_nat numColumns - 1).

(** The line under the header: none for the empty separator. *)
Definition rule (width : nat → Z) (numColumns : nat) (separator : string)
    : string :=
  if String.eqb separator "" then ""
  else Go.repeat_string separator (Z.to_nat (totalWidth width numColumns))
       +:+ newline.

Definition concat_strings (l : list string) : string :=
  foldr String.append "" l.

Definition table (rows : list (list string)) (separator : string) : string :=
  match rows with
  | [] => ""
  | header :: body =>
      line (columnWidth rows) 0 header +:+
      (rule (columnWidth rows) (length header) separator +:+
       concat_strings (map (line (columnWidth rows) 0) body))
  end.

(** The rows from the first one that has a cell on. *)
Fixpoint skipEmpty (rows : list (list string)) : list (list string) :=
  match rows with
  | [] :: rows' => skipEmpty rows'
  | _ => rows
  end.

(** Where the cell of column [j] starts in a line: after the columns
    before it, each as wide as its width and five more. *)
Definition offset (width : nat → Z) (j : nat) : Z :=
  foldr (λ k acc, width k + 5 + acc) 0 (seq 0 j).

End layout.

(** The strict order of a [less] function. *)
Definition lt {A} (less : A → A → bool) : relation A :=
  λ a b, less a b = true.

(** ** The report, as the specification describes it *)

Module spec.

Import report layout.

(** One call of [Report]. *)
Record Submission := mkSubmission {
  sub_operation : Operation;
  sub_fileTestID : ID;
  sub_endpointID : ID;
  sub_result : option Result;
}.

Definition submit (s : TextReporter) (sub : Submission) : TextReporter :=
  (Report s (sub_operation sub) (sub_fileTestID sub) (sub_endpointID sub)
     (sub_result sub)).1.

(** The reporter after the calls [subs], in this order. *)
Definition reportAll (fileTestSizes : gmap ID Z) (subs : list Submission)
    : TextReporter :=
  foldl submit (NewTextReporter fileTestSizes) subs.

(** The configured size of a file-test, 0 when it has none. *)
Definition sizeOf (fileTestSizes : gmap ID Z) (fileTestID : ID) : Z :=
  default 0 (fileTestSizes !! fileTestID).

(** The strict orders of the identifiers and of the operations. *)
Abbreviation ID_lt := (lt ID_less).
Abbreviation Operation_lt := (lt Operation_less).

(** The keys of the three levels of a store. *)
Definition hasFileTest (results : fileTestResults) (fileTestID : ID) : Prop :=
  is_Some (results !! fileTestID).

Definition hasOperation (results : fileTestResults) (operation : Operation)
    : Prop :=
  ∃ fileTestID ops,
    results !! fileTestID = Some ops ∧ is_Some (ops !! operation).

Definition hasEndpoint (results : fileTestResults) (endpointID : ID) : Prop :=
  ∃ fileTestID ops operation (eps : gmap ID (option Result)),
    results !! fileTestID = Some ops ∧ ops !! operation = Some eps ∧
    is_Some (eps !! endpointID).

(** The throughput of [size] bytes in the duration [d], in megabits per
    second, as a [float64]. *)
Definition megabitsPerSecond (size : Z) (d : Go.Duration) : Go.float64 :=
  Go.fdiv
    (Go.fdiv (Go.fdiv (Go.fmul (Go.float64_of_int size) (Go.float64_of_int 8))
                (Go.float64_of_int 1000))
       (Go.float64_of_int 1000))
    (Go.Seconds d).

(** The text of the cell of a file-test, an operation and an endpoint. *)
Definition cellOf (fileTestSizes : gmap ID Z) (results : fileTestResults)
    (fileTestID : ID) (operation : Operation) (endpointID : ID) : string :=
  formatResultForRow operation (sizeOf fileTestSizes fileTestID)
    (lookup3 results fileTestID operation endpointID).

(** The row of an operation: its name and one cell for every endpoint. *)
Definition rowOf (fileTestSizes : gmap ID Z) (results : fileTestResults)
    (endpointIDs : list ID) (fileTestID : ID) (operation : Operation)
    : list string :=
  Operation_String operation ::
  map (cellOf fileTestSizes results fileTestID operation) endpointIDs.

(** The table of a file-test: the header and one row for every operation. *)
Definition tableOf (fileTestSizes : gmap ID Z) (results : fileTestResults)
    (endpointIDs : list ID) (operations : list Operation) (fileTestID : ID)
    : list (list string) :=
  ("Operation" :: endpointIDs) ::
  map (rowOf fileTestSizes results endpointIDs fileTestID) operations.

(** The title of a section, between two lines of stars, and an empty
    line. *)
Definition title (fileTestID : ID) : string :=
  let stars := Go.repeat_string "*" (6 + String.length fileTestID) in
  stars +:+ newline +:+ ("File: " +:+ fileTestID) +:+ newline +:+
  stars +:+ newline +:+ newline.

(** The section of a file-test: the title, the table and an empty line. *)
Definition sectionOf (fileTestSizes : gmap ID Z) (results : fileTestResults)
    (endpointIDs : list ID) (operations : list Operation) (fileTestID : ID)
    : string :=
  title fileTestID +:+
  table (tableOf fileTestSizes results endpointIDs operations fileTestID) "-"
  +:+ newline.

Definition reportOf (fileTestSizes : gmap ID Z) (results : fileTestResults)
    (fileTestIDs endpointIDs : list ID) (operations : list Operation)
    : string :=
  concat_strings
    (map (sectionOf fileTestSizes results endpointIDs operations)
       fileTestIDs).

Definition unknownSize (fileTestID : ID) : string :=
  "Unknown fileTestSize for " +:+ fileTestID.

(** The key of a submission in the store. *)
Definition key (sub : Submission) : ID * Operation * ID :=
  (sub_fileTestID sub, sub_operation sub, sub_endpointID sub).

End spec.

(** ** The runs of the checker, as the specification describes them *)

Module runs.

Import check.

(** The computation returns from every state, and its result and the
    events it adds to the log satisfy [Q]. *)
Definition runs {W A} (m : M W A) (Q : A → list Event → Prop) : Prop :=
  ∀ st, ∃ a st' evs,
    m st = Ok (a, st') ∧ events st' = events st ++ evs ∧ Q a evs.

Definition isReport (e : Event) : bool :=
  match e with
  | EReport _ _ _ _ _ => true
  | _ => false
  end.

(** The calls of [Report] of a log. *)
Definition reportsOf (evs : list Event) : list Event :=
  filter (λ e, isReport e = true) evs.

(** What [Report] returned, for an event that is a call of it. *)
Definition returned (e : Event) : Go.error :=
  match e with
  | EReport _ _ _ _ err => err
  | _ => None
  end.

(** The calls of [Report] of a run that returns [err]: all calls but the
    last returned [nil], and the run returns what the last call returned
    when that is an error. *)
Definition stopsAtFirstError (reports : list Event) (err : Go.error) : Prop :=
  (err = None ∧ Forall (λ e, returned e = None) reports) ∨
  (∃ before last msg,
     reports = before ++ [last] ∧
     Forall (λ e, returned e = None) before ∧
     returned last = Some msg ∧ err = Some msg).

(** The calls of [Report] of one check that returns [err]: one call for
    every operation that ran, in the order Upload, Download, Delete; an
    operation runs when the calls before it returned [nil]. *)
Definition checkReports (fileTestID endpointID : ID) (reports : list Event)
    (err : Go.error) : Prop :=
  (∃ r1 msg,
     reports = [EReport Upload fileTestID endpointID r1 (Some msg)] ∧
     err = Some msg) ∨
  (∃ r1 r2 msg,
     reports = [EReport Upload fileTestID endpointID r1 None;
                EReport Download fileTestID endpointID r2 (Some msg)] ∧
     err = Some msg) ∨
  (∃ r1 r2 r3,
     reports = [EReport Upload fileTestID endpointID r1 None;
                EReport Download fileTestID endpointID r2 None;
                EReport Delete fileTestID endpointID r3 err]).

(** An error, if there is one, has a message in [E]. *)
Definition errorIn (E : string → Prop) (err : Go.error) : Prop :=
  ∀ msg, err = Some msg → E msg.

(** The errors of a client have messages in [E]. *)
Definition clientErrorsIn {W} (E : string → Prop) (client : Client W) : Prop :=
  (∀ ctx name r w, errorIn E (Client_Upload client ctx name r w).1) ∧
  (∀ ctx name w,
     match (Client_Download client ctx name w).1 with
     | inl strm => errorIn E (failure (stream strm))
     | inr msg => E msg
     end) ∧
  (∀ ctx name w, errorIn E (Client_Delete client ctx name w).1).

(** A Result of an operation without error, or with an error whose message
    is in [E]. *)
Definition resultOf (E : string → Prop) (r : Result) : Prop :=
  (Success r = true ∧ Error r = "") ∨ (Success r = false ∧ E (Error r)).

Definition reportedResult (E : string → Prop) (e : Event) : Prop :=
  match e with
  | EReport _ _ _ r _ => resultOf E r
  | _ => True
  end.

(** The log of a run of the checker on one file-test and one endpoint. *)
Definition checked (E : string → Prop) (fileTestID endpointID : ID)
    (err : Go.error) (evs : list Event) : Prop :=
  checkReports fileTestID endpointID (reportsOf evs) err ∧
  Forall (reportedResult E) (reportsOf evs).

(** The log of a run of the checker on all file-tests and endpoints. *)
Definition swept (E : string → Prop) (err : Go.error) (evs : list Event)
    : Prop :=
  stopsAtFirstError (reportsOf evs) err ∧
  Forall (reportedResult E) (reportsOf evs).

(** From every state in [P] the computation returns, with a result and a
    state in [Q]. *)
Definition hoare {W A} (P : State W → Prop) (m : M W A)
    (Q : A → State W → Prop) : Prop :=
  ∀ st, P st → ∃ a st', m st = Ok (a, st') ∧ Q a st'.

(** The log is [evs], and the world and the calls of [Report] of the log
    are in [I]. *)
Definition logged {W} (I : W → list Event → Prop) (evs : list Event)
    (st : State W) : Prop :=
  events st = evs ∧ I (world st) (reportsOf evs).

(** The calls of a client keep [I]. *)
Definition clientKeeps {W} (I : W → list Event → Prop) (client : Client W)
    : Prop :=
  (∀ ctx name r w rs, I w rs → I (Client_Upload client ctx name r w).2 rs) ∧
  (∀ ctx name w rs, I w rs → I (Client_Download client ctx name w).2 rs) ∧
  (∀ ctx name w rs, I w rs → I (Client_Delete client ctx name w).2 rs).

(** A call of [Report] keeps [I], with the call added to the log. *)
Definition reporterKeeps {W} (I : W → list Event → Prop) (r : reporter W)
    : Prop :=
  ∀ operation fileTestID endpointID result w rs,
    I w rs →
    I (r operation fileTestID endpointID result w).2
      (rs ++ [EReport operation fileTestID endpointID result
                (r operation fileTestID endpointID result w).1]).

(** The events of the workers [l] of the three fan-outs. *)
Definition uploadEvents (randRead : Z → nat → list Byte.byte)
    (endpointID fileTestID : ID) (fileTest : FileTest) (l : list nat)
    : list Event :=
  map (λ i, EUpload endpointID (pathName fileTestID (Z.of_nat i))
              (content (fileReader randRead fileTest (Z.of_nat i)))) l.

Definition downloadEvents (endpointID fileTestID : ID) (l : list nat)
    : list Event :=
  map (λ i, EDownload endpointID (pathName fileTestID (Z.of_nat i))) l.

Definition deleteEvents (endpointID fileTestID : ID) (l : list nat)
    : list Event :=
  map (λ i, EDelete endpointID (pathName fileTestID (Z.of_nat i))) l.

(** The file-test as [RunCheck] runs it: with the timeout of the checker
    for a timeout that is not positive, one worker for a parallelism that
    is not positive, and a seed of its own for a seed that is not
    positive. *)
Definition resolved {W} (c : Checker W) (fileTest fileTest' : FileTest)
    : Prop :=
  NumParallel fileTest' = Z.max 1 (NumParallel fileTest) ∧
  Timeout fileTest' =
    (if Timeout fileTest <=? 0 then timeout c else Timeout fileTest) ∧
  Size fileTest' = Size fileTest ∧
  (0 < Seed fileTest → Seed fileTest' = Seed fileTest).

(** The log of one check that returns [err]: the uploads and the call of
    [Report] for them; when this call returned [nil], the downloads and
    their call of [Report]; and when this one returned [nil], the deletes
    and their call of [Report]. *)
Definition checkTrace (randRead : Z → nat → list Byte.byte)
    (schedule : nat → list nat) (endpointID fileTestID : ID)
    (fileTest : FileTest) (err : Go.error) (evs : list Event) : Prop :=
  let l := schedule (Z.to_nat (NumParallel fileTest)) in
  ∃ r1 e1 rest1,
    evs = uploadEvents randRead endpointID fileTestID fileTest l ++
          EReport Upload fileTestID endpointID r1 e1 :: rest1 ∧
    match e1 with
    | Some _ => rest1 = [] ∧ err = e1
    | None =>
        ∃ r2 e2 rest2,
          rest1 = downloadEvents endpointID fileTestID l ++
                  EReport Download fileTestID endpointID r2 e2 :: rest2 ∧
          match e2 with
          | Some _ => rest2 = [] ∧ err = e2
          | None =>
              ∃ r3,
                rest2 = deleteEvents endpointID fileTestID l ++
                        [EReport Delete fileTestID endpointID r3 err]
          end
    end.

(** The paths of the objects that a log uploads, downloads and deletes. *)
Definition uploadedPaths (evs : list Event) : list string :=
  omap (λ e, match e with EUpload _ name _ => Some name | _ => None end) evs.

Definition downloadedPaths (evs : list Event) : list string :=
  omap (λ e, match e with EDownload _ name => Some name | _ => None end) evs.

Definition deletedPaths (evs : list Event) : list string :=
  omap (λ e, match e with EDelete _ name => Some name | _ => None end) evs.

(** The paths of the workers of a file-test with [n] workers. *)
Definition pathsOf (fileTestID : ID) (n : nat) : list string :=
  map (λ i, pathName fileTestID (Z.of_nat i)) (seq 0 n).

(** The file-test, operation and endpoint of the calls of [Report] of a
    log. *)
Definition reportKeys (evs : list Event) : list (ID * Operation * ID) :=
  omap (λ e, match e with
             | EReport operation fileTestID endpointID _ _ =>
                 Some (fileTestID, operation, endpointID)
             | _ => None
             end) evs.

(** The calls of [Report] of a check that runs its three operations, and
    of the checks of all file-tests on all endpoints. *)
Definition checkKeys (fileTestID endpointID : ID)
    : list (ID * Operation * ID) :=
  [(fileTestID, Upload, endpointID); (fileTestID, Download, endpointID);
   (fileTestID, Delete, endpointID)].

Definition sweepKeys {W} (c : Checker W) : list (ID * Operation * ID) :=
  flat_map (λ '(fileTestID, _),
    flat_map (λ endpoint, checkKeys fileTestID (Endpoint_ID endpoint))
      (endpoints c))
    (map_to_list (fileTests c)).

(** Nothing is kept of the world. *)
Definition anyWorld {W} : W → list Event → Prop := λ _ _, True.

(** The calls of [Report] of the log after those of [base] returned
    [nil]. *)
Definition allNil {W} (base : list Event) : W → list Event → Prop :=
  λ _ rs, ∃ rs', rs = base ++ rs' ∧ Forall (λ e, returned e = None) rs'.

(** A reporter whose [Report] returns [nil]. *)
Definition quiet {W} (r : reporter W) : Prop :=
  ∀ operation fileTestID endpointID result w,
    (r operation fileTestID endpointID result w).1 = None.

(** A client of a store of objects, as a back end that works behaves:
    an upload of a reader that does not fail stores its bytes under the
    name, a download of a stored object gives a stream of its bytes, and
    a delete of a stored object takes it out of the store. *)
Definition storeClient {W} (objectsOf : W → gmap string (list Byte.byte))
    (client : Client W) : Prop :=
  (∀ ctx name r w,
     failure r = None →
     (Client_Upload client ctx name r w).1 = None ∧
     objectsOf (Client_Upload client ctx name r w).2 =
       <[name := content r]> (objectsOf w)) ∧
  (∀ ctx name w bs,
     objectsOf w !! name = Some bs →
     objectsOf (Client_Download client ctx name w).2 = objectsOf w ∧
     ∃ strm,
       (Client_Download client ctx name w).1 = inl strm ∧
       content (stream strm) = bs ∧ failure (stream strm) = None) ∧
  (∀ ctx name w,
     is_Some (objectsOf w !! name) →
     (Client_Delete client ctx name w).1 = None ∧
     objectsOf (Client_Delete client ctx name w).2 =
       delete name (objectsOf w)).

(** The store is [m] and the log is [evs]. *)
Definition stored {W} (objectsOf : W → gmap string (list Byte.byte))
    (m : gmap string (list Byte.byte)) (evs : list Event) (st : State W)
    : Prop :=
  objectsOf (world st) = m ∧ events st = evs.

(** The store after the uploads, and after the deletes, of the workers
    [l]. *)
Definition uploadAll (randRead : Z → nat → list Byte.byte) (fileTestID : ID)
    (fileTest : FileTest) (l : list nat) (m : gmap string (list Byte.byte))
    : gmap string (list Byte.byte) :=
  foldl (λ m i, <[pathName fileTestID (Z.of_nat i) :=
                    content (fileReader randRead fileTest (Z.of_nat i))]> m)
    m l.

Definition deleteAll (fileTestID : ID) (l : list nat)
    (m : gmap string (list Byte.byte)) : gmap string (list Byte.byte) :=
  foldl (λ m i, delete (pathName fileTestID (Z.of_nat i)) m) m l.

(** The three operations of [RunCheck], on the file-test as it is run. *)
Definition runOperations {W} (randRead : Z → nat → list Byte.byte)
    (sha256_Sum : list Byte.byte → list Byte.byte) (now : W → Z * W)
    (schedule : nat → list nat) (Quote : string → string) (c : Checker W)
    (ctx : Context) (fileTestID : ID) (fileTest : FileTest)
    (endpoint : Endpoint W) : M W Go.error :=
  err ← Checker_Upload randRead now schedule c ctx fileTestID fileTest
          endpoint;
  match err with
  | Some msg => mret (Some msg)
  | None =>
      err ← Checker_Download randRead sha256_Sum now schedule Quote c ctx
              fileTestID fileTest endpoint;
      match err with
      | Some msg => mret (Some msg)
      | None =>
          err ← Checker_Delete now schedule c ctx fileTestID fileTest
                  endpoint;
          match err with
          | Some msg => mret (Some msg)
          | None => mret None
          end
      end
  end.

(** A Result of an operation without error. *)
Definition succeeded (r : Result) : Prop := Success r = true ∧ Error r = "".

(** A client that makes no use of the context of a call. *)
Definition ignoresContext {W} (client : Client W) : Prop :=
  ∀ ctx1 ctx2 name w,
    (∀ r, Client_Upload client ctx1 name r w =
          Client_Upload client ctx2 name r w) ∧
    Client_Download client ctx1 name w = Client_Download client ctx2 name w ∧
    Client_Delete client ctx1 name w = Client_Delete client ctx2 name w.

(** The file-test with another timeout, and the checker with another
    timeout. *)
Definition withTimeout (fileTest : FileTest) (d : Go.Duration) : FileTest :=
  {| NumParallel := NumParallel fileTest; Timeout := d;
     Size := Size fileTest; Seed := Seed fileTest |}.

Definition checkerWithTimeout {W} (c : Checker W) (d : Go.Duration)
    : Checker W :=
  {| endpoints := endpoints c; fileTests := fileTests c; timeout := d;
     checker_reporter := checker_reporter c |}.

(** The world with a record of the calls that the clients and the reporter
    receive, in the order in which they receive them. A call is written in
    the record by the client or the reporter that receives it, with the
    arguments that it is given: the properties of the calls of the checker
    are stated on this record. *)
Definition recordingClock {W} (now : W → Z * W)
    : W * list Event → Z * (W * list Event) :=
  λ wc, ((now wc.1).1, ((now wc.1).2, wc.2)).

(** The client of the endpoint [endpointID] that writes down the name, and
    for an upload the bytes of the reader, of every call before it answers
    as [client] does. *)
Definition recordingClient {W} (endpointID : ID) (client : Client W)
    : Client (W * list Event) := {|
  Client_Upload ctx name r wc :=
    ((Client_Upload client ctx name r wc.1).1,
     ((Client_Upload client ctx name r wc.1).2,
      wc.2 ++ [EUpload endpointID name (content r)]));
  Client_Download ctx name wc :=
    ((Client_Download client ctx name wc.1).1,
     ((Client_Download client ctx name wc.1).2,
      wc.2 ++ [EDownload endpointID name]));
  Client_Delete ctx name wc :=
    ((Client_Delete client ctx name wc.1).1,
     ((Client_Delete client ctx name wc.1).2,
      wc.2 ++ [EDelete endpointID name]));
|}.

Definition recordingEndpoint {W} (endpoint : Endpoint W)
    : Endpoint (W * list Event) :=
  {| Endpoint_ID := Endpoint_ID endpoint;
     Endpoint_Bucket := Endpoint_Bucket endpoint;
     Endpoint_Path := Endpoint_Path endpoint;
     Endpoint_Client :=
       recordingClient (Endpoint_ID endpoint) (Endpoint_Client endpoint) |}.

(** The reporter that writes down every call of [Report], with its
    arguments and with what [r] returns for it. *)
Definition recordingReporter {W} (r : reporter W)
    : reporter (W * list Event) :=
  λ operation fileTestID endpointID result wc,
    ((r operation fileTestID endpointID result wc.1).1,
     ((r operation fileTestID endpointID result wc.1).2,
      wc.2 ++ [EReport operation fileTestID endpointID result
                 (r operation fileTestID endpointID result wc.1).1])).

Definition recordingChecker {W} (c : Checker W) : Checker (W * list Event) :=
  {| endpoints := map recordingEndpoint (endpoints c);
     fileTests := fileTests c;
     timeout := timeout c;
     checker_reporter := recordingReporter (checker_reporter c) |}.

(** The computation returns from every state, and its result and the
    calls that the clients and the reporter received in it satisfy [Q]. *)
Definition recorded {W A} (m : M (W * list Event) A)
    (Q : A → list Event → Prop) : Prop :=
  ∀ st, ∃ a st' calls,
    m st = Ok (a, st') ∧ (world st').2 = (world st).2 ++ calls ∧ Q a calls.

(** The events that a computation adds to the log are the calls that it
    adds to the record. *)
Definition faithful {W A} (m : M (W * list Event) A) : Prop :=
  ∀ st a st',
    m st = Ok (a, st') →
    ∃ evs, events st' = events st ++ evs ∧
           (world st').2 = (world st).2 ++ evs.

(** The Result of an operation that returned [err]: the success flag of
    [err == nil] and the message of [err]. *)
Definition resultFor (err : Go.error) (r : Result) : Prop :=
  Success r = bool_decide (err = None) ∧ Error r = default "" err.

(** In every run, [whole] reads the clock, runs the operation [op], and
    gives to the reporter one Result, the one for the error that [op]
    returned in this run; it returns what the reporter returned. *)
Definition reportsOutcome {W} (now : W * list Event → Z * (W * list Event))
    (operation : Operation) (fileTestID endpointID : ID)
    (op whole : M (W * list Event) Go.error) : Prop :=
  ∀ st, ∃ result st1 err st2 r err' st3,
    newResultNow now st = Ok (result, st1) ∧
    op st1 = Ok (err, st2) ∧
    whole st = Ok (err', st3) ∧
    (world st3).2 =
      (world st2).2 ++ [EReport operation fileTestID endpointID r err'] ∧
    resultFor err r.

(** A call of [Report] of a log has the error that the reporter returns
    for its arguments in some world. *)
Definition fromReporter {W} (rep : reporter W) (e : Event) : Prop :=
  match e with
  | EReport operation fileTestID endpointID result err =>
      ∃ w, err = (rep operation fileTestID endpointID result w).1
  | _ => True
  end.

(** The calls of [Report] of the log after those of [base] are in [P]. *)
Definition allReports {W} (P : Event → Prop) (base : list Event)
    : W → list Event → Prop :=
  λ _ rs, ∃ rs', rs = base ++ rs' ∧ Forall P rs'.

(** The state without the record of calls. *)
Definition erase {W} (st : State (W * list Event)) : State W :=
  {| world := (world st).1; events := events st |}.

(** The computation [m'] in the world with the record does what [m] does
    in the world without it: the same result, the same panic, and the
    same state but for the record. *)
Definition erases {W A} (m' : M (W * list Event) A) (m : M W A) : Prop :=
  ∀ st,
    match m' st with
    | Ok (a, st') => m (erase st) = Ok (a, erase st')
    | Err msg => m (erase st) = Err msg
    | Panic msg => m (erase st) = Panic msg
    end.

End runs.

(** ** A world to run the checker in *)

Module example.

Import check.

(** A clock, the objects of one store in memory and a text reporter. *)
Record World := mkWorld {
  clock : Z;
  objects : gmap string (list Byte.byte);
  textReporter : report.TextReporter;
}.

(** Every reading of the clock is one second after the reading before. *)
Definition now (w : World) : Z * World :=
  (clock w,
   {| clock := clock w + 1000000000; objects := objects w;
      textReporter := textReporter w |}).

(** A generator: the byte [k] of the stream of [seed] is [seed + k]. *)
Definition randRead (seed : Z) (n : nat) : list Byte.byte :=
  map (λ k, default Byte.x00 (Byte.of_N (Z.to_N ((seed + Z.of_nat k) `mod` 256))))
    (seq 0 n).

(** A digest: the sum of the bytes, on one byte. *)
Definition sum_Sum (bs : list Byte.byte) : list Byte.byte :=
  [default Byte.x00
     (Byte.of_N (foldr (λ b acc, (Byte.to_N b + acc) `mod` 256)%N 0%N bs))].

Definition schedule (n : nat) : list nat := seq 0 n.

Definition Quote (s : string) : string := s.

(** A client of the store in memory. *)
Definition memoryClient : Client World := {|
  Client_Upload _ name r w :=
    match failure r with
    | Some msg => (Some ("upload " +:+ name +:+ ": " +:+ msg), w)
    | None =>
        (None, {| clock := clock w;
                  objects := <[name := content r]> (objects w);
                  textReporter := textReporter w |})
    end;
  Client_Download _ name w :=
    match objects w !! name with
    | Some bs =>
        (inl {| stream := {| content := bs; failure := None |};
                closeErr := None |}, w)
    | None => (inr ("no object " +:+ name), w)
    end;
  Client_Delete _ name w :=
    match objects w !! name with
    | Some _ =>
        (None, {| clock := clock w; objects := delete name (objects w);
                  textReporter := textReporter w |})
    | None => (Some ("no object " +:+ name), w)
    end;
|}.

(** A client whose uploads fail with an error whose message is empty. *)
Definition silentClient : Client World := {|
  Client_Upload _ _ _ w := (Some "", w);
  Client_Download _ name w := (inr ("no object " +:+ name), w);
  Client_Delete _ name w := (Some ("no object " +:+ name), w);
|}.

(** The text reporter as the [reporter] of the checker. *)
Definition reportText : reporter World := λ operation fileTestID endpointID
    result w,
  let '(tr, err) :=
    report.Report (textReporter w) operation fileTestID endpointID
      (Some result) in
  (err, {| clock := clock w; objects := objects w; textReporter := tr |}).

Definition memoryEndpoint : Endpoint World :=
  {| Endpoint_ID := "mem"; Endpoint_Bucket := "bucket"; Endpoint_Path := "";
     Endpoint_Client := memoryClient |}.

Definition silentEndpoint : Endpoint World :=
  {| Endpoint_ID := "silent"; Endpoint_Bucket := "bucket";
     Endpoint_Path := ""; Endpoint_Client := silentClient |}.

Definition smallTest : FileTest :=
  {| NumParallel := 2; Timeout := 0; Size := 4; Seed := 7 |}.

Definition checker (endpoints : list (Endpoint World)) : Checker World :=
  {| endpoints := endpoints;
     fileTests := {["ft1" := smallTest]};
     timeout := 60000000000;
     checker_reporter := reportText |}.

Definition initial : State World :=
  {| world := {| clock := 0; objects := ∅;
                 textReporter := report.NewTextReporter {["ft1" := 4]} |};
     events := [] |}.

(** The log of a run. *)
Definition logOf {A} (r : res (A * State World)) : res (A * list Event) :=
  match r with
  | Ok (a, st) => Ok (a, events st)
  | Err msg => Err msg
  | Panic msg => Panic msg
  end.

(** The report after a run. *)
Definition reportAfter {A} (r : res (A * State World)) : res string :=
  match r with
  | Ok (_, st) => report.FormatResults (textReporter (world st))
  | Err msg => Err msg
  | Panic msg => Panic msg
  end.

(** A reporter that refuses the Results of one operation, and takes the
    others as the text reporter does. *)
Definition refusing (refused : Operation) : reporter World :=
  λ operation fileTestID endpointID result w,
    if decide (operation = refused) then (Some "refused", w)
    else reportText operation fileTestID endpointID result w.

Definition refusingChecker (refused : Operation)
    (endpoints : list (Endpoint World)) : Checker World :=
  {| endpoints := endpoints;
     fileTests := {["ft1" := smallTest]};
     timeout := 60000000000;
     checker_reporter := refusing refused |}.

(** The initial state, with an empty record of calls. *)
Definition recordingInitial : State (World * list Event) :=
  {| world := (world initial, []); events := [] |}.

(** The result and the record of calls of a run. *)
Definition recordOf {A} (r : res (A * State (World * list Event)))
    : res (A * list Event) :=
  match r with
  | Ok (a, st) => Ok (a, (world st).2)
  | Err msg => Err msg
  | Panic msg => Panic msg
  end.

End example.

(** ** Package s3client *)

Module s3.

Import check.

Section client.

(** The world, and the sessions of the AWS library. *)
Context {W Session : Type}.

(** [session.NewSession], with the region, the access key, the secret key
    and the address of the configuration. *)
Variable NewSession :
  string → string → string → string → W → (Session + string) * W.

(** The calls of the AWS library, with the bucket and the key:
    [Uploader.Upload], [GetObject] and [DeleteObject]. None of them is
    given the context. *)
Variable Uploader_Upload :
  Session → string → string → Reader → W → Go.error * W.
Variable GetObject :
  Session → string → string → W → (ReadCloser + string) * W.
Variable DeleteObject : Session → string → string → W → Go.error * W.

(** [path.Join] of two elements, and the verb [%q]. *)
Variable path_Join : string → string → string.
Variable Quote : string → string.

Record Client := mkClient {
  cfg : S3Endpoint;
  session : Session;
}.

(** [New]: the four fields that are required, then the session. *)
Definition New (cfg : S3Endpoint) (w : W) : (Client + string) * W :=
  if String.eqb (S3_Region cfg) "" then (inr "region is required", w)
  else if String.eqb (S3_Bucket cfg) "" then (inr "bucket is required", w)
  else if String.eqb (S3_AccessKey cfg) ""
  then (inr "access key is required", w)
  else if String.eqb (S3_SecretKey cfg) ""
  then (inr "secret key is required", w)
  else
    match NewSession (S3_Region cfg) (S3_AccessKey cfg) (S3_SecretKey cfg)
            (S3_Address cfg) w with
    | (inl sess, w') => (inl {| cfg := cfg; session := sess |}, w')
    | (inr err, w') => (inr err, w')
    end.

Definition bucketKey (client : Client) (name : string) : string :=
  if negb (String.eqb (S3_Path (cfg client)) "")
  then path_Join (S3_Path (cfg client)) name
  else name.

Definition Upload (client : Client) (ctx : Context) (name : string)
    (strm : Reader) (w : W) : Go.error * W :=
  match Uploader_Upload (session client) (S3_Bucket (cfg client))
          (bucketKey client name) strm w with
  | (Some err, w') =>
      (Some ("failed to upload file " +:+ Quote name +:+ ": " +:+ err), w')
  | (None, w') => (None, w')
  end.

Definition Download (client : Client) (ctx : Context) (name : string)
    (w : W) : (ReadCloser + string) * W :=
  match GetObject (session client) (S3_Bucket (cfg client))
          (bucketKey client name) w with
  | (inr err, w') =>
      (inr ("failed to download file " +:+ Quote name +:+ ": " +:+ err), w')
  | (inl body, w') => (inl body, w')
  end.

Definition Delete (client : Client) (ctx : Context) (name : string) (w : W)
    : Go.error * W :=
  match DeleteObject (session client) (S3_Bucket (cfg client))
          (bucketKey client name) w with
  | (Some err, w') =>
      (Some ("failed to delete file " +:+ Quote name +:+ ": " +:+ err), w')
  | (None, w') => (None, w')
  end.

(** [IP] and [Close]. *)
Definition IP (client : Client) (ctx : Context) : string * Go.error :=
  ("", None).

Definition Close (client : Client) : Go.error := None.

(** The client as the [client.Client] of an endpoint. *)
Definition asClient (client : Client) : check.Client W := {|
  Client_Upload := Upload client;
  Client_Download := Download client;
  Client_Delete := Delete client;
|}.

(** The endpoint that [run] makes of the client. *)
Definition s3Endpoint (id : ID) (client : Client) : Endpoint W :=
  {| Endpoint_ID := id; Endpoint_Bucket := S3_Bucket (cfg client);
     Endpoint_Path := S3_Path (cfg client);
     Endpoint_Client := asClient client |}.

End client.

End s3.

(** ** Package main *)

Module main.

Import check.

(** The world of the program: the text reporter it makes, what it has
    printed, and everything outside it (the storage back ends, the clock,
    the file of the configuration). *)
Record World (W : Type) := mkWorld {
  reporterOf : report.TextReporter;
  stdout : string;
  outside : W;
}.
Arguments mkWorld {W} reporterOf stdout outside.
Arguments reporterOf {W} w.
Arguments stdout {W} w.
Arguments outside {W} w.

(** A call on what is outside the program. *)
Definition lift {W A} (f : W → A * W) : World W → A * World W := λ w,
  let '(a, o) := f (outside w) in
  (a, {| reporterOf := reporterOf w; stdout := stdout w; outside := o |}).

(** A client, which reaches neither the reporter nor the output. *)
Definition liftClient {W} (client : Client W) : Client (World W) := {|
  Client_Upload ctx name r := lift (Client_Upload client ctx name r);
  Client_Download ctx name := lift (Client_Download client ctx name);
  Client_Delete ctx name := lift (Client_Delete client ctx name);
|}.

Definition liftEndpoint {W} (endpoint : Endpoint W) : Endpoint (World W) :=
  {| Endpoint_ID := Endpoint_ID endpoint;
     Endpoint_Bucket := Endpoint_Bucket endpoint;
     Endpoint_Path := Endpoint_Path endpoint;
     Endpoint_Client := liftClient (Endpoint_Client endpoint) |}.

(** The text reporter of the program as the [reporter] of the checker. *)
Definition textReport {W} : reporter (World W) :=
  λ operation fileTestID endpointID result w,
    let '(s, err) :=
      report.Report (reporterOf w) operation fileTestID endpointID
        (Some result) in
    (err, {| reporterOf := s; stdout := stdout w; outside := outside w |}).

(** The loop that fills [fileTestSizes]; [int] and [int64] are the
    same. *)
Definition sizesOf (fileTests : gmap ID FileTest) : gmap ID Z :=
  foldl (λ fileTestSizes '(fileTestID, fileTest),
           <[fileTestID := Size fileTest]> fileTestSizes)
    ∅ (map_to_list fileTests).

(** The calls of [Report] of a log, as submissions. *)
Definition submissionsOf (evs : list Event) : list spec.Submission :=
  omap (λ e, match e with
             | EReport operation fileTestID endpointID result _ =>
                 Some (spec.mkSubmission operation fileTestID endpointID
                         (Some result))
             | _ => None
             end) evs.

(** The reporter holds the Results of the calls of [Report] after those of
    [base], all of which returned [nil], and the output is [out]. *)
Definition tracks {W} (sizes : gmap ID Z) (out : string) (base : list Event)
    : World W → list Event → Prop :=
  λ w rs, ∃ rs',
    rs = base ++ rs' ∧ Forall (λ e, runs.returned e = None) rs' ∧
    reporterOf w = spec.reportAll sizes (submissionsOf rs') ∧
    stdout w = out.

(** Every file-test has a size that is not zero. *)
Definition sized (fileTests : gmap ID FileTest) : Prop :=
  map_Forall (λ _ fileTest, Size fileTest ≠ 0) fileTests.

Section run.

Context {W : Type}.

Variable randRead : Z → nat → list Byte.byte.
Variable sha256_Sum : list Byte.byte → list Byte.byte.
Variable now : W → Z * W.
Variable schedule : nat → list nat.
Variable Quote : string → string.

(** [zap.NewProduction]; only its error is modelled. *)
Variable NewProduction : W → Go.error * W.

(** [config.LoadConfig], which decodes the file with a library. *)
Variable LoadConfig : string → W → (Config * Go.error) * W.

(** [s3.New] and [storjclient.New]: a client or an error. *)
Variable s3_New : S3Endpoint → W → (Client W + string) * W.
Variable storjclient_New :
  Context → StorjEndpoint → W → (Client W + string) * W.

(** The loop over the S3 endpoints of the configuration. *)
Fixpoint s3Endpoints (l : list (ID * S3Endpoint))
    (endpoints : list (Endpoint W))
    : M (World W) (string + list (Endpoint W)) :=
  match l with
  | [] => mret (inr endpoints)
  | (id, endpoint) :: l' =>
      r ← call (lift (s3_New endpoint));
      match r with
      | inr err => mret (inl err)
      | inl client =>
          s3Endpoints l'
            (endpoints ++
             [{| Endpoint_ID := id; Endpoint_Bucket := S3_Bucket endpoint;
                 Endpoint_Path := S3_Path endpoint;
                 Endpoint_Client := client |}])
      end
  end.

(** The loop over the Storj endpoints of the configuration. *)
Fixpoint storjEndpoints (ctx : Context) (l : list (ID * StorjEndpoint))
    (endpoints : list (Endpoint W))
    : M (World W) (string + list (Endpoint W)) :=
  match l with
  | [] => mret (inr endpoints)
  | (id, endpoint) :: l' =>
      r ← call (lift (storjclient_New ctx endpoint));
      match r with
      | inr err => mret (inl err)
      | inl client =>
          storjEndpoints ctx l'
            (endpoints ++
             [{| Endpoint_ID := id; Endpoint_Bucket := Storj_Bucket endpoint;
                 Endpoint_Path := Storj_Path endpoint;
                 Endpoint_Client := client |}])
      end
  end.

(** The end of [run], from the sizes of the file-tests on. *)
Definition runChecks (ctx : Context) (conf : Config)
    (endpoints : list (Endpoint W)) : M (World W) Go.error :=
  let fileTestSizes := sizesOf (FileTests conf) in
  _ ← call (λ w, (tt, {| reporterOf := report.NewTextReporter fileTestSizes;
                         stdout := stdout w; outside := outside w |}));
  let checker :=
    NewChecker textReport (map liftEndpoint endpoints) (FileTests conf)
      (Config_Timeout conf) in
  err ← RunChecks randRead sha256_Sum (lift now) schedule Quote checker ctx;
  match err with
  | Some msg => mret (Some msg)
  | None =>
      r ← call (λ w, (report.FormatResults (reporterOf w), w));
      match r with
      | Err msg => mret (Some msg)
      | Panic msg => M_panic msg
      | Ok text =>
          _ ← call (λ w, (tt, {| reporterOf := reporterOf w;
                                 stdout := stdout w +:+ text;
                                 outside := outside w |}));
          mret None
      end
  end.

(** [run], for the configuration path [ConfigPath]. *)
Definition run (ConfigPath : string) (ctx : Context)
    : M (World W) Go.error :=
  if String.eqb ConfigPath "" then mret (Some "empty config path")
  else
    err ← call (lift NewProduction);
    match err with
    | Some msg => mret (Some msg)
    | None =>
        r ← call (lift (LoadConfig ConfigPath));
        let '(conf, err) := r in
        match err with
        | Some msg => mret (Some msg)
        | None =>
            r ← s3Endpoints (map_to_list (S3 (Config_Endpoints conf))) [];
            match r with
            | inl msg => mret (Some msg)
            | inr endpoints =>
                r ← storjEndpoints ctx
                      (map_to_list (Storj (Config_Endpoints conf)))
                      endpoints;
                match r with
                | inl msg => mret (Some msg)
                | inr endpoints => runChecks ctx conf endpoints
                end
            end
        end
    end.

End run.

(** Nothing is done between two states of the program: no event is
    logged, nothing is printed and the reporter is as it was. *)
Definition untouched {W} (st st' : State (World W)) : Prop :=
  events st' = events st ∧ stdout (world st') = stdout (world st) ∧
  reporterOf (world st') = reporterOf (world st).

(** The endpoint that [run] makes of an S3 endpoint of the configuration,
    and of a Storj endpoint: it has the identifier, the bucket and the
    path of the configuration, and a client that the constructor returned
    for it. *)
Definition madeS3 {W} (s3_New : S3Endpoint → W → (Client W + string) * W)
    (entry : ID * S3Endpoint) (endpoint : Endpoint W) : Prop :=
  Endpoint_ID endpoint = entry.1 ∧
  Endpoint_Bucket endpoint = S3_Bucket entry.2 ∧
  Endpoint_Path endpoint = S3_Path entry.2 ∧
  ∃ w, (s3_New entry.2 w).1 = inl (Endpoint_Client endpoint).

Definition madeStorj {W}
    (storjclient_New : Context → StorjEndpoint → W → (Client W + string) * W)
    (ctx : Context) (entry : ID * StorjEndpoint) (endpoint : Endpoint W)
    : Prop :=
  Endpoint_ID endpoint = entry.1 ∧
  Endpoint_Bucket endpoint = Storj_Bucket entry.2 ∧
  Endpoint_Path endpoint = Storj_Path entry.2 ∧
  ∃ w, (storjclient_New ctx entry.2 w).1 = inl (Endpoint_Client endpoint).

(** The message of an error that a constructor returned for an endpoint of
    the configuration. *)
Definition constructorError {W}
    (s3_New : S3Endpoint → W → (Client W + string) * W)
    (storjclient_New : Context → StorjEndpoint → W → (Client W + string) * W)
    (ctx : Context) (conf : Config) (msg : string) : Prop :=
  (∃ id cfg w,
     S3 (Config_Endpoints conf) !! id = Some cfg ∧
     (s3_New cfg w).1 = inr msg) ∨
  (∃ id cfg w,
     Storj (Config_Endpoints conf) !! id = Some cfg ∧
     (storjclient_New ctx cfg w).1 = inr msg).

(** A constructor fails for an endpoint of the configuration, whatever the
    world; and the constructors make a client for every endpoint of the
    configuration, whatever the world. *)
Definition someConstructorFails {W}
    (s3_New : S3Endpoint → W → (Client W + string) * W)
    (storjclient_New : Context → StorjEndpoint → W → (Client W + string) * W)
    (ctx : Context) (conf : Config) : Prop :=
  (∃ id cfg,
     S3 (Config_Endpoints conf) !! id = Some cfg ∧
     ∀ w, ∃ msg, (s3_New cfg w).1 = inr msg) ∨
  (∃ id cfg,
     Storj (Config_Endpoints conf) !! id = Some cfg ∧
     ∀ w, ∃ msg, (storjclient_New ctx cfg w).1 = inr msg).

Definition constructorsSucceed {W}
    (s3_New : S3Endpoint → W → (Client W + string) * W)
    (storjclient_New : Context → StorjEndpoint → W → (Client W + string) * W)
    (ctx : Context) (conf : Config) : Prop :=
  (∀ id cfg w,
     S3 (Config_Endpoints conf) !! id = Some cfg →
     ∃ client, (s3_New cfg w).1 = inl client) ∧
  (∀ id cfg w,
     Storj (Config_Endpoints conf) !! id = Some cfg →
     ∃ client, (storjclient_New ctx cfg w).1 = inl client).

End main.

(** ** The program in the world with a store in memory *)

Module main_example.

Import check main report example.

Definition twoTests : Config :=
  {| FileTests := {["ft1" := smallTest;
                    "ft2" := {| NumParallel := 1; Timeout := 0; Size := 0;
                                Seed := 3 |}]};
     Config_Endpoints := {| Storj := ∅; S3 := ∅ |};
     Config_Monitoring :=
       {| Monitoring_Address := ""; Monitoring_InstanceID := "";
          Monitoring_TracingURL := "" |};
     Config_Timeout := 60000000000 |}.

Definition oneTest : Config :=
  {| FileTests := {["ft1" := smallTest]};
     Config_Endpoints := {| Storj := ∅; S3 := ∅ |};
     Config_Monitoring :=
       {| Monitoring_Address := ""; Monitoring_InstanceID := "";
          Monitoring_TracingURL := "" |};
     Config_Timeout := 60000000000 |}.

Definition start : State (main.World example.World) :=
  {| world := {| reporterOf := NewTextReporter ∅; stdout := "";
                 outside := world initial |};
     events := [] |}.

(** A configuration with one S3 endpoint. *)
Definition s3Test : Config :=
  {| FileTests := {["ft1" := smallTest]};
     Config_Endpoints :=
       {| Storj := ∅;
          S3 := {["s3" := {| S3_Region := "r"; S3_AccessKey := "a";
                             S3_SecretKey := "s"; S3_Bucket := "b";
                             S3_Path := ""; S3_Address := "" |}]} |};
     Config_Monitoring :=
       {| Monitoring_Address := ""; Monitoring_InstanceID := "";
          Monitoring_TracingURL := "" |};
     Config_Timeout := 60000000000 |}.

End main_example.

(** ** The shape of printed text *)

Definition isDigit (c : ascii) : bool :=
  match Ascii.is_nat c with
  | Some _ => true
  | None => false
  end.

Fixpoint allDigits (s : string) : bool :=
  match s with
  | "" => true
  | String c s' => isDigit c && allDigits s'
  end.

(** A number printed with exactly two decimal digits: an optional sign, at
    least one digit, the point and two digits. *)
Definition twoDecimals (s : string) : Prop :=
  ∃ (negative : bool) (units : string) (d1 d2 : ascii),
    s = Go.sign_string negative +:+ (units +:+ ("." +:+ String d1 (String d2 "")))
    ∧ units ≠ "" ∧ allDigits units = true ∧ isDigit d1 = true ∧ isDigit d2 = true.

Fixpoint hasChar (c : ascii) (s : string) : bool :=
  match s with
  | "" => false
  | String a s' => Ascii.eqb a c || hasChar c s'
  end.

(** [sub] occurs in [s]. *)
Fixpoint contains (sub s : string) : bool :=
  String.prefix sub s ||
  match s with
  | "" => false
  | String _ s' => contains sub s'
  end.

(** A [less] function that is a strict total order. *)
Class LessOrder {A} (less : A → A → bool) : Prop := {
  less_po :: PartialOrder (report.ascending less);
  less_total :: Total (report.ascending less);
  less_strict a b : less a b = true ↔ report.ascending less a b ∧ a ≠ b;
}.

(** The entries of [maxColumnLenghts] are not negative. *)
Definition nonneg (m : gmap nat Z) : Prop := ∀ j, 0 ≤ report.at0 m j.

(** The lists of [uniqueSortedIDs] have no duplicates and are the [seen]
    sets. *)
Definition wfIds (st : report.idsState) : Prop :=
  NoDup (report.fileTestIDs st) ∧ NoDup (report.endpointIDs st) ∧
  NoDup (report.operations st) ∧
  (∀ x, x ∈ report.seenFileTestIDs st ↔ x ∈ report.fileTestIDs st) ∧
  (∀ x, x ∈ report.seenEndpointIDs st ↔ x ∈ report.endpointIDs st) ∧
  (∀ x, x ∈ report.seenOperations st ↔ x ∈ report.operations st).

(** * Properties *)

(** ** Strings *)

Lemma str_app_cons a s t : String a s +:+ t = String a (s +:+ t).
Proof. reflexivity. Qed.

Lemma str_app_nil_l t : "" +:+ t = t.
Proof. reflexivity. Qed.

Lemma str_app_nil_r s : s +:+ "" = s.
Proof. induction s as [|a s IH]; [done|]. by rewrite str_app_cons, IH. Qed.

Lemma str_app_assoc s t u : (s +:+ t) +:+ u = s +:+ (t +:+ u).
Proof.
  induction s as [|a s IH]; [done|]. by rewrite !str_app_cons, IH.
Qed.

Lemma str_length_app s t :
  String.length (s +:+ t) = (String.length s + String.length t)%nat.
Proof.
  induction s as [|a s IH]; [done|]. rewrite str_app_cons. simpl. by rewrite IH.
Qed.

Lemma length_repeat_string s n :
  String.length (Go.repeat_string s n) = (n * String.length s)%nat.
Proof.
  induction n as [|n IH]; [done|]. simpl. by rewrite str_length_app, IH.
Qed.

Lemma eqb_empty_false s : s ≠ "" → String.eqb s "" = false.
Proof. intros. by apply String.eqb_neq. Qed.

(** ** Loops *)

Lemma rangeM_from_app {A S} (l1 l2 : list A) (body : nat → A → S → res S) i s :
  rangeM_from i (l1 ++ l2) body s =
  (s' ← rangeM_from i l1 body s; rangeM_from (i + length l1)%nat l2 body s').
Proof.
  revert i s. induction l1 as [|x l1 IH]; intros i s; simpl.
  - by rewrite Nat.add_0_r.
  - destruct (body i x s) as [s'| |]; simpl; [|done..].
    rewrite IH. by replace (Datatypes.S i + length l1)%nat
      with (i + Datatypes.S (length l1))%nat by lia.
Qed.

Lemma rangeM_from_ext {A S} (l : list A) (body1 body2 : nat → A → S → res S) i s :
  (∀ j x s, l !! j = Some x → body1 (i + j)%nat x s = body2 (i + j)%nat x s) →
  rangeM_from i l body1 s = rangeM_from i l body2 s.
Proof.
  revert i s. induction l as [|x l IH]; intros i s Hext; simpl; [done|].
  specialize (Hext 0%nat x s eq_refl) as Hx. rewrite Nat.add_0_r in Hx.
  rewrite Hx. destruct (body2 i x s) as [s'| |]; simpl; [|done..].
  apply IH. intros j y t Hj.
  replace (Datatypes.S i + j)%nat with (i + Datatypes.S j)%nat by lia.
  by apply Hext.
Qed.

(** ** MakeTable *)

Section MakeTable.

Import report layout.

Lemma nonneg_empty : nonneg ∅.
Proof. intros j. unfold at0. by rewrite lookup_empty. Qed.

Lemma len_nonneg s : 0 ≤ Go.len s.
Proof. unfold Go.len. lia. Qed.

Lemma at0_insert_eq (m : gmap nat Z) i x : at0 (<[i:=x]> m) i = x.
Proof. unfold at0. by rewrite lookup_insert_eq. Qed.

Lemma at0_insert_ne (m : gmap nat Z) i j x :
  i ≠ j → at0 (<[i:=x]> m) j = at0 m j.
Proof. intros. unfold at0. by rewrite lookup_insert_ne. Qed.

Lemma at0_noteLength i item m j :
  at0 (noteLength i item m) j =
  if decide (i = j) then Z.max (at0 m j) (Go.len item) else at0 m j.
Proof.
  unfold noteLength. destruct (Z.ltb_spec (at0 m i) (Go.len item)) as [Hlt|Hge].
  - destruct (decide (i = j)) as [->|Hne].
    + rewrite at0_insert_eq. lia.
    + by rewrite at0_insert_ne.
  - destruct (decide (i = j)) as [->|Hne]; simpl; [lia|done].
Qed.

Lemma noteLength_dom i item m j :
  is_Some (noteLength i item m !! j) → is_Some (m !! j) ∨ i = j.
Proof.
  unfold noteLength. destruct (at0 m i <? Go.len item); [|by left].
  destruct (decide (i = j)) as [->|Hne]; [by right|].
  rewrite lookup_insert_ne by done. by left.
Qed.

Lemma cellWidth_nonneg row j : 0 ≤ cellWidth row j.
Proof.
  unfold cellWidth. destruct (row !! j); simpl; [apply len_nonneg|done].
Qed.

Lemma columnWidth_nonneg rows j : 0 ≤ columnWidth rows j.
Proof. induction rows as [|row rows IH]; simpl; lia. Qed.

Lemma columnWidth_ge rows row j c :
  row ∈ rows → row !! j = Some c → Go.len c ≤ columnWidth rows j.
Proof.
  intros Hin Hc. induction Hin as [row rows|row row' rows Hin IH]; simpl.
  - unfold cellWidth. rewrite Hc. simpl. lia.
  - specialize (IH Hc). lia.
Qed.

Lemma range_noteLength row : ∀ i m,
  nonneg m →
  nonneg (range_from i row noteLength m) ∧
  (∀ j, at0 (range_from i row noteLength m) j =
        Z.max (at0 m j)
          (if decide (i ≤ j)%nat then cellWidth row (j - i) else 0)) ∧
  (∀ j, is_Some (range_from i row noteLength m !! j) →
        is_Some (m !! j) ∨ (i ≤ j < i + length row)%nat).
Proof.
  induction row as [|c row IH]; intros i m Hm; simpl.
  - split; [done|]. split.
    + intros j. specialize (Hm j). unfold cellWidth.
      rewrite lookup_nil. simpl. case_decide; lia.
    + intros j ?. by left.
  - assert (nonneg (noteLength i c m)) as Hm'.
    { intros j. rewrite at0_noteLength. specialize (Hm j).
      pose proof (len_nonneg c). case_decide; lia. }
    destruct (IH (Datatypes.S i) _ Hm') as (Hnn & Hat & Hdom).
    split; [done|]. split.
    + intros j. rewrite Hat, at0_noteLength. unfold cellWidth.
      specialize (Hm j). pose proof (len_nonneg c).
      repeat case_decide; simplify_eq; try lia.
      * rewrite Nat.sub_diag. simpl. lia.
      * replace (j - i)%nat with (Datatypes.S (j - Datatypes.S i)) by lia.
        done.
    + intros j Hj. destruct (Hdom j Hj) as [Hs|?]; [|right; lia].
      destruct (noteLength_dom _ _ _ _ Hs) as [?| ->]; [by left|right; lia].
Qed.

Lemma measure_rows n rows : ∀ i nc m,
  Forall (λ row, length row = n) rows →
  nc = 0 ∨ nc = Z.of_nat n →
  nonneg m →
  ∃ m',
    rangeM_from i rows (λ _ row st, measureRow row st) (nc, m) =
      Ok (match rows with [] => nc | _ => Z.of_nat n end, m') ∧
    nonneg m' ∧
    (∀ j, at0 m' j = Z.max (at0 m j) (columnWidth rows j)) ∧
    (∀ j, is_Some (m' !! j) → is_Some (m !! j) ∨ (j < n)%nat).
Proof.
  induction rows as [|row rows IH]; intros i nc m Hrect Hnc Hm; simpl.
  - exists m. split; [done|]. split; [done|]. split; [|by left].
    intros j. specialize (Hm j). lia.
  - apply Forall_cons in Hrect as [Hrow Hrect].
    assert ((if nc =? 0 then Go.len_slice row else nc) = Z.of_nat n) as ->.
    { unfold Go.len_slice. rewrite Hrow.
      destruct (Z.eqb_spec nc 0); lia. }
    unfold Go.len_slice. rewrite Hrow, Z.eqb_refl. simpl.
    destruct (range_noteLength row 0%nat m Hm) as (Hnn & Hat & Hdom).
    destruct (IH (Datatypes.S i) (Z.of_nat n) _ Hrect (or_intror eq_refl) Hnn)
      as (m' & Hrun & Hnn' & Hat' & Hdom').
    exists m'. unfold range. split.
    { rewrite Hrun. by destruct rows. }
    split; [done|]. split.
    + intros j. rewrite Hat', Hat. rewrite decide_True by lia.
      rewrite Nat.sub_0_r. lia.
    + intros j Hj. destruct (Hdom' j Hj) as [Hs|?]; [|by right].
      destruct (Hdom j Hs) as [?|?]; [by left|right; lia].
Qed.

Lemma line_ext w1 w2 cells : ∀ j,
  (∀ k, w1 k = w2 k) → line w1 j cells = line w2 j cells.
Proof.
  induction cells as [|c cells IH]; intros j Hw; [done|]. simpl.
  destruct cells as [|c' cells]; [done|]. by rewrite Hw, (IH (Datatypes.S j)).
Qed.

Lemma sumWidths_ext w1 w2 n :
  (∀ k, w1 k = w2 k) → sumWidths w1 n = sumWidths w2 n.
Proof.
  intros Hw. unfold sumWidths. generalize 0%nat.
  induction n as [|n IH]; intros k; simpl; [done|]. by rewrite Hw, IH.
Qed.

Lemma sumWidths_nonneg w n : (∀ k, 0 ≤ w k) → 0 ≤ sumWidths w n.
Proof.
  intros Hw. unfold sumWidths. generalize 0%nat.
  induction n as [|n IH]; intros k; simpl; [done|].
  specialize (Hw k). specialize (IH (Datatypes.S k)). lia.
Qed.

Lemma writeItem_last m row i c table :
  Go.len_slice row - 1 ≤ Z.of_nat i →
  writeItem m row i c table = Ok (table +:+ (c +:+ newline)).
Proof.
  intros Hi. unfold writeItem. by rewrite (proj2 (Z.ltb_ge _ _)) by lia.
Qed.

Lemma writeItem_inner m row i c table :
  Z.of_nat i < Go.len_slice row - 1 →
  Go.len c ≤ at0 m i →
  writeItem m row i c table =
    Ok (table +:+ (c +:+ spaces (at0 m i - Go.len c + 5))).
Proof.
  intros Hi Hc. unfold writeItem, Go.Repeat, padding.
  rewrite (proj2 (Z.ltb_lt _ _)) by lia.
  by rewrite (proj2 (Z.ltb_ge _ _)) by lia.
Qed.

(** The inner loop of the second loop writes the line of the row. *)
Lemma writeItems m row : ∀ cells pre table,
  row = pre ++ cells →
  (∀ j c, cells !! j = Some c → Go.len c ≤ at0 m (length pre + j)) →
  rangeM_from (length pre) cells (writeItem m row) table =
    Ok (table +:+ line (at0 m) (length pre) cells).
Proof.
  induction cells as [|c cells IH]; intros pre table Hrow Hlen.
  - simpl. by rewrite str_app_nil_r.
  - assert (Go.len_slice row = Z.of_nat (length pre) + 1 + Go.len_slice cells)
      as Hlenrow.
    { unfold Go.len_slice. rewrite Hrow, length_app. simpl. lia. }
    unfold Go.len_slice in Hlenrow.
    cbn [rangeM_from]. destruct cells as [|c' cells].
    + rewrite writeItem_last by (unfold Go.len_slice; simpl in *; lia).
      done.
    + specialize (Hlen 0%nat c eq_refl) as Hc. rewrite Nat.add_0_r in Hc.
      rewrite writeItem_inner by (unfold Go.len_slice; simpl in *; lia || done).
      specialize (IH (pre ++ [c]) (table +:+ (c +:+
        spaces (at0 m (length pre) - Go.len c + 5)))).
      rewrite length_app in IH. simpl length in IH.
      rewrite Nat.add_1_r in IH. change (Ok ?x ≫= ?f) with (f x).
      cbv beta. rewrite IH.
      * f_equal. cbn [line]. rewrite !str_app_assoc. done.
      * by rewrite <- app_assoc.
      * intros j d Hj. specialize (Hlen (Datatypes.S j) d Hj).
        by replace (Datatypes.S (length pre) + j)%nat
          with (length pre + Datatypes.S j)%nat by lia.
Qed.

Lemma sum_seq_zero (w : nat → Z) n : ∀ k,
  (∀ j, w j = 0) → foldr (λ j acc, w j + acc) 0 (seq k n) = 0.
Proof.
  induction n as [|n IH]; intros k Hw; simpl; [done|].
  rewrite Hw, IH by done. done.
Qed.

Lemma sum_seq_ext (w w' : nat → Z) n : ∀ k,
  (∀ j, (k ≤ j < k + n)%nat → w' j = w j) →
  foldr (λ j acc, w' j + acc) 0 (seq k n) =
  foldr (λ j acc, w j + acc) 0 (seq k n).
Proof.
  induction n as [|n IH]; intros k Hw; simpl; [done|].
  rewrite Hw, (IH (Datatypes.S k)); [done| |lia].
  intros j Hj. apply Hw. lia.
Qed.

Lemma sum_seq_update (w w' : nat → Z) i x n : ∀ k,
  (k ≤ i < k + n)%nat →
  (∀ j, j ≠ i → w' j = w j) →
  w' i = w i + x →
  foldr (λ j acc, w' j + acc) 0 (seq k n) =
  foldr (λ j acc, w j + acc) 0 (seq k n) + x.
Proof.
  induction n as [|n IH]; intros k Hi Hne Heq; simpl; [lia|].
  destruct (decide (k = i)) as [->|Hk].
  - rewrite Heq. assert (foldr (λ j acc, w' j + acc) 0 (seq (Datatypes.S i) n)
      = foldr (λ j acc, w j + acc) 0 (seq (Datatypes.S i) n)) as ->; [|lia].
    apply sum_seq_ext. intros j Hj. apply Hne. lia.
  - rewrite (Hne k Hk), (IH (Datatypes.S k)) by (done || lia). lia.
Qed.

(** The loop that adds up the entries of [maxColumnLenghts]. *)
Lemma map_fold_sum (m : gmap nat Z) b :
  ∀ n, (∀ j, is_Some (m !! j) → (j < n)%nat) →
  map_fold (λ _ maxLength totalLength, totalLength + maxLength) b m =
  b + sumWidths (at0 m) n.
Proof.
  apply (map_fold_weak_ind (λ r (m : gmap nat Z),
    ∀ n, (∀ j, is_Some (m !! j) → (j < n)%nat) →
         r = b + sumWidths (at0 m) n)); clear m.
  - intros n _. unfold sumWidths. rewrite sum_seq_zero; [lia|].
    intros j. unfold at0. by rewrite lookup_empty.
  - intros i x m r Hi IH n Hdom.
    assert (i < n)%nat as Hin.
    { apply Hdom. rewrite lookup_insert_eq. by eexists. }
    rewrite (IH n).
    + unfold sumWidths.
      rewrite (sum_seq_update (at0 m) (at0 (<[i:=x]> m)) i x); [lia|lia| |].
      * intros j Hj. by apply at0_insert_ne.
      * rewrite at0_insert_eq. unfold at0. rewrite Hi. simpl. lia.
    + intros j Hj. apply Hdom. destruct (decide (i = j)) as [->|Hne].
      * rewrite lookup_insert_eq. by eexists.
      * by rewrite lookup_insert_ne.
Qed.

Lemma writeRow_body nc m sep i row table :
  (∀ j c, row !! j = Some c → Go.len c ≤ at0 m j) →
  writeRow nc m sep (Datatypes.S i) row table =
    Ok (table +:+ line (at0 m) 0 row).
Proof.
  intros Hlen. unfold writeRow, rangeM.
  pose proof (writeItems m row row [] table eq_refl Hlen) as Hrun.
  simpl length in Hrun. by rewrite Hrun.
Qed.

Lemma writeRow_header n m sep row table :
  (∀ j c, row !! j = Some c → Go.len c ≤ at0 m j) →
  nonneg m →
  (∀ j, is_Some (m !! j) → (j < n)%nat) →
  (0 < n)%nat ∨ sep = "" →
  writeRow (Z.of_nat n) m sep 0 row table =
    Ok (table +:+ (line (at0 m) 0 row +:+ rule (at0 m) n sep)).
Proof.
  intros Hlen Hnn Hdom Hsep. unfold writeRow, rangeM.
  pose proof (writeItems m row row [] table eq_refl Hlen) as Hrun.
  simpl length in Hrun. rewrite Hrun.
  change (Ok ?x ≫= ?f) with (f x). cbv beta. simpl andb. unfold rule.
  destruct (String.eqb_spec sep "") as [->|Hne]; simpl negb; cbv iota.
  - by rewrite str_app_nil_r.
  - destruct Hsep as [Hn|?]; [|done].
    rewrite (map_fold_sum m _ n Hdom). unfold Go.Repeat.
    pose proof (sumWidths_nonneg (at0 m) n Hnn).
    destruct (Z.ltb_spec ((Z.of_nat n - 1) * padding + sumWidths (at0 m) n) 0)
      as [Hlt|_]; [unfold padding in Hlt; lia|].
    change (Ok ?x ≫= ?f) with (f x). cbv beta.
    unfold writeWithBreak, writeBreak, totalWidth, padding.
    replace ((Z.of_nat n - 1) * 5 + sumWidths (at0 m) n)
      with (sumWidths (at0 m) n + 5 * (Z.of_nat n - 1)) by lia.
    by rewrite !str_app_assoc.
Qed.

Lemma writeRows_body nc m sep body : ∀ i table,
  (∀ row j c, row ∈ body → row !! j = Some c → Go.len c ≤ at0 m j) →
  rangeM_from (Datatypes.S i) body (writeRow nc m sep) table =
    Ok (table +:+ concat_strings (map (line (at0 m) 0) body)).
Proof.
  induction body as [|row body IH]; intros i table Hlen; simpl.
  - by rewrite str_app_nil_r.
  - rewrite writeRow_body by (intros j c; apply Hlen; left).
    change (Ok ?x ≫= ?f) with (f x). cbv beta.
    rewrite IH by (intros row' j c ?; apply Hlen; by right).
    by rewrite str_app_assoc.
Qed.

(** The table of a rectangular input is the layout. *)
Lemma MakeTable_rect (header : list string) (body : list (list string))
    (sep : string) :
  Forall (λ row, length row = length header) body →
  header ≠ [] ∨ sep = "" →
  MakeTable (header :: body) sep = Ok (table (header :: body) sep).
Proof.
  intros Hrect Hsep. set (rows := header :: body).
  assert (Forall (λ row, length row = length header) rows) as Hrows.
  { by apply Forall_cons. }
  destruct (measure_rows (length header) rows 0%nat 0 ∅ Hrows
              (or_introl eq_refl) nonneg_empty)
    as (m & Hrun & Hnn & Hat & Hdom).
  assert (∀ j, at0 m j = columnWidth rows j) as Hw.
  { intros j. rewrite Hat. pose proof (nonneg_empty j) as H0.
    assert (at0 ∅ j = 0) as -> by (unfold at0; by rewrite lookup_empty).
    pose proof (columnWidth_nonneg rows j). lia. }
  assert (∀ row j c, row ∈ rows → row !! j = Some c → Go.len c ≤ at0 m j)
    as Hlen.
  { intros row j c Hin Hc. rewrite Hw. by eapply columnWidth_ge. }
  unfold MakeTable, rangeM. rewrite Hrun.
  change (Ok ?x ≫= ?f) with (f x). cbv beta. simpl fst. simpl snd.
  subst rows. cbn [rangeM_from].
  rewrite writeRow_header.
  - change (Ok ?x ≫= ?f) with (f x). cbv beta.
    rewrite writeRows_body.
    + unfold table. rewrite !str_app_nil_l. f_equal.
      rewrite (line_ext _ _ header 0%nat Hw). rewrite str_app_assoc.
      f_equal. f_equal.
      * unfold rule, totalWidth. by rewrite (sumWidths_ext _ _ _ Hw).
      * f_equal. apply map_ext. intros row. by apply line_ext.
    + intros row j c Hin. apply Hlen. by right.
  - intros j c. apply Hlen. by left.
  - done.
  - intros j Hj. destruct (Hdom j Hj) as [Hs|?]; [|done].
    rewrite lookup_empty in Hs. by destruct Hs.
  - destruct Hsep as [Hne|?]; [left|by right].
    destruct header; [done|simpl; lia].
Qed.

End MakeTable.

(** ** formatResults, given the sorted identifiers *)

Section formatResults.

Import report layout spec.

Variable fileTestSizes : gmap ID Z.
Variable results : gmap ID (gmap Operation (gmap ID (option Result))).

Lemma formatCell_ok fileTestID operation endpointID row :
  sizeOf fileTestSizes fileTestID ≠ 0 →
  formatCell fileTestSizes results fileTestID operation endpointID row =
  Ok (row ++ [cellOf fileTestSizes results fileTestID operation endpointID]).
Proof.
  intros Hsize. unfold formatCell. fold (sizeOf fileTestSizes fileTestID).
  by rewrite (proj2 (Z.eqb_neq _ _) Hsize).
Qed.

Lemma formatCell_err fileTestID operation endpointID row :
  sizeOf fileTestSizes fileTestID = 0 →
  formatCell fileTestSizes results fileTestID operation endpointID row =
  Err (unknownSize fileTestID).
Proof.
  intros Hsize. unfold formatCell. fold (sizeOf fileTestSizes fileTestID).
  by rewrite Hsize.
Qed.

Lemma formatCells_ok fileTestID operation endpointIDs : ∀ i row,
  sizeOf fileTestSizes fileTestID ≠ 0 →
  rangeM_from i endpointIDs
    (λ _ endpointID row,
       formatCell fileTestSizes results fileTestID operation endpointID row)
    row =
  Ok (row ++ map (cellOf fileTestSizes results fileTestID operation)
               endpointIDs).
Proof.
  intros i row Hsize. revert i row.
  induction endpointIDs as [|ep eps IH]; intros i row; simpl.
  - by rewrite app_nil_r.
  - rewrite formatCell_ok by done.
    change (Ok ?x ≫= ?f) with (f x). cbv beta. rewrite IH.
    by rewrite <- app_assoc.
Qed.

Lemma formatCells_err fileTestID operation endpointIDs i row :
  sizeOf fileTestSizes fileTestID = 0 →
  endpointIDs ≠ [] →
  rangeM_from i endpointIDs
    (λ _ endpointID row,
       formatCell fileTestSizes results fileTestID operation endpointID row)
    row =
  Err (unknownSize fileTestID).
Proof.
  intros Hsize Hne. destruct endpointIDs as [|ep eps]; [done|]. simpl.
  by rewrite formatCell_err.
Qed.

Lemma formatRows_from_ok endpointIDs fileTestID operations : ∀ i rows,
  sizeOf fileTestSizes fileTestID ≠ 0 ∨ endpointIDs = [] →
  rangeM_from i operations (λ _ operation rows,
    row ← rangeM endpointIDs
             (λ _ endpointID row,
                formatCell fileTestSizes results fileTestID operation
                  endpointID row)
             [Operation_String operation];
    Ok (rows ++ [row])) rows =
  Ok (rows ++ map (rowOf fileTestSizes results endpointIDs fileTestID)
                operations).
Proof.
  intros i rows Hok. revert i rows.
  induction operations as [|op ops IH]; intros i rows; simpl.
  - by rewrite app_nil_r.
  - assert (rangeM endpointIDs
             (λ _ endpointID row,
                formatCell fileTestSizes results fileTestID op endpointID row)
             [Operation_String op] =
            Ok (rowOf fileTestSizes results endpointIDs fileTestID op))
      as ->.
    { destruct Hok as [Hsize| ->]; [|done].
      unfold rangeM. by rewrite formatCells_ok. }
    change (Ok ?x ≫= ?f) with (f x). cbv beta.
    change (Ok ?x ≫= ?f) with (f x). cbv beta. rewrite IH.
    by rewrite <- app_assoc.
Qed.

Lemma formatRows_ok endpointIDs operations fileTestID :
  sizeOf fileTestSizes fileTestID ≠ 0 ∨ endpointIDs = [] ∨ operations = [] →
  formatRows fileTestSizes results endpointIDs operations fileTestID =
  Ok (map (rowOf fileTestSizes results endpointIDs fileTestID) operations).
Proof.
  intros Hok. destruct Hok as [Hsize|[Heps| ->]]; [| |done].
  - exact (formatRows_from_ok endpointIDs fileTestID operations 0%nat []
             (or_introl Hsize)).
  - exact (formatRows_from_ok endpointIDs fileTestID operations 0%nat []
             (or_intror Heps)).
Qed.

Lemma formatRows_err endpointIDs operations fileTestID :
  sizeOf fileTestSizes fileTestID = 0 →
  endpointIDs ≠ [] →
  operations ≠ [] →
  formatRows fileTestSizes results endpointIDs operations fileTestID =
  Err (unknownSize fileTestID).
Proof.
  intros Hsize Heps Hops. destruct operations as [|op ops]; [done|].
  unfold formatRows, rangeM. cbn [rangeM_from].
  by rewrite formatCells_err.
Qed.

Lemma foldl_snoc {A} (l0 l : list A) :
  foldl (λ acc x, acc ++ [x]) l0 l = l0 ++ l.
Proof.
  revert l0. induction l as [|x l IH]; intros l0; simpl.
  - by rewrite app_nil_r.
  - by rewrite IH, <- app_assoc.
Qed.

Lemma headerRow_eq endpointIDs : headerRow endpointIDs = "Operation" :: endpointIDs.
Proof. unfold headerRow. by rewrite foldl_snoc. Qed.

Lemma Repeat_stars (fileTestID : ID) :
  Go.Repeat "*" (Go.len filePrefix + Go.len fileTestID) =
  Ok (Go.repeat_string "*" (6 + String.length fileTestID)).
Proof.
  unfold Go.Repeat, Go.len. simpl String.length.
  destruct (Z.ltb_spec (Z.of_nat 6 + Z.of_nat (String.length fileTestID)) 0)
    as [Hlt|_]; [lia|].
  do 2 f_equal. lia.
Qed.

Lemma tableOf_rect endpointIDs operations fileTestID :
  Forall (λ row, length row = length ("Operation" :: endpointIDs))
    (map (rowOf fileTestSizes results endpointIDs fileTestID) operations).
Proof.
  apply Forall_map, Forall_forall. intros op _. unfold rowOf. simpl.
  by rewrite length_map.
Qed.

(** One section is written when the size of the file-test is asked for
    and known, or is not asked for because there is no cell. *)
Lemma formatSection_ok endpointIDs operations fileTestID reportString :
  sizeOf fileTestSizes fileTestID ≠ 0 ∨ endpointIDs = [] ∨ operations = [] →
  formatSection fileTestSizes results endpointIDs operations fileTestID
    reportString =
  Ok (reportString +:+
      sectionOf fileTestSizes results endpointIDs operations fileTestID).
Proof.
  intros Hok. unfold formatSection. rewrite Repeat_stars.
  change (Ok ?x ≫= ?f) with (f x). cbv beta zeta.
  rewrite formatRows_ok by done.
  change (Ok ?x ≫= ?f) with (f x). cbv beta zeta.
  rewrite foldl_snoc, headerRow_eq.
  change (["Operation" :: endpointIDs] ++ ?l) with (("Operation" :: endpointIDs) :: l).
  rewrite MakeTable_rect; [|apply tableOf_rect|by left].
  change (Ok ?x ≫= ?f) with (f x). cbv beta.
  unfold sectionOf, title, tableOf, writeWithBreak, writeBreak, filePrefix.
  by rewrite !str_app_assoc.
Qed.

Lemma formatSection_err endpointIDs operations fileTestID reportString :
  sizeOf fileTestSizes fileTestID = 0 →
  endpointIDs ≠ [] →
  operations ≠ [] →
  formatSection fileTestSizes results endpointIDs operations fileTestID
    reportString =
  Err (unknownSize fileTestID).
Proof.
  intros Hsize Heps Hops. unfold formatSection. rewrite Repeat_stars.
  change (Ok ?x ≫= ?f) with (f x). cbv beta zeta.
  by rewrite formatRows_err.
Qed.

Lemma formatSections_ok endpointIDs operations fileTestIDs : ∀ i reportString,
  endpointIDs = [] ∨ operations = [] ∨
    Forall (λ fileTestID, sizeOf fileTestSizes fileTestID ≠ 0) fileTestIDs →
  rangeM_from i fileTestIDs
    (λ _ fileTestID reportString,
       formatSection fileTestSizes results endpointIDs operations fileTestID
         reportString)
    reportString =
  Ok (reportString +:+
      reportOf fileTestSizes results fileTestIDs endpointIDs operations).
Proof.
  intros i reportString Hok. revert i reportString.
  induction fileTestIDs as [|ft fts IH]; intros i reportString; simpl.
  - unfold reportOf. simpl. by rewrite str_app_nil_r.
  - rewrite formatSection_ok.
    + change (Ok ?x ≫= ?f) with (f x). cbv beta. rewrite IH.
      * unfold reportOf. simpl. by rewrite str_app_assoc.
      * destruct Hok as [?|[?|Hall]]; [by left|by right; left|].
        right; right. by apply Forall_cons in Hall as [_ Hall].
    + destruct Hok as [?|[?|Hall]]; [by right; left|by right; right|].
      left. by apply Forall_cons in Hall as [Hft _].
Qed.

Lemma formatSections_err endpointIDs operations before fileTestID after :
  ∀ i reportString,
  endpointIDs ≠ [] →
  operations ≠ [] →
  Forall (λ fileTestID, sizeOf fileTestSizes fileTestID ≠ 0) before →
  sizeOf fileTestSizes fileTestID = 0 →
  rangeM_from i (before ++ fileTestID :: after)
    (λ _ fileTestID reportString,
       formatSection fileTestSizes results endpointIDs operations fileTestID
         reportString)
    reportString =
  Err (unknownSize fileTestID).
Proof.
  intros i reportString Heps Hops Hbefore Hsize.
  rewrite rangeM_from_app, formatSections_ok by by right; right.
  change (Ok ?x ≫= ?f) with (f x). cbv beta. cbn [rangeM_from].
  by rewrite formatSection_err.
Qed.

End formatResults.

(** ** Sorting *)

Section sorting.

Import report spec.

Lemma compare_refl (s : string) : String.compare s s = Eq.
Proof.
  induction s as [|a s IH]; simpl; [done|].
  unfold Ascii.compare. by rewrite N.compare_refl.
Qed.

Lemma ascending_ID_le a b : ascending ID_less a b ↔ String.le a b.
Proof.
  unfold ascending, ID_less, String.le, String.ltb, String.leb.
  rewrite (String.compare_antisym a b).
  destruct (String.compare b a); simpl; naive_solver.
Qed.

Global Instance ID_less_order : LessOrder ID_less.
Proof.
  split.
  - split; [split|].
    + intros a. apply ascending_ID_le. done.
    + intros a b c ?%ascending_ID_le ?%ascending_ID_le.
      apply ascending_ID_le. by etrans.
    + intros a b ?%ascending_ID_le ?%ascending_ID_le. by apply (anti_symm String.le).
  - intros a b.
    destruct (total String.le a b); [left|right]; by apply ascending_ID_le.
  - intros a b. unfold ascending, ID_less, String.ltb.
    rewrite (String.compare_antisym b a).
    destruct (String.compare a b) eqn:Hc; simpl.
    + apply String.compare_eq_iff in Hc. split; [done|]. by intros [_ ?].
    + split; [|done]. intros _. split; [done|]. intros ->.
      by rewrite compare_refl in Hc.
    + split; [done|]. by intros [? _].
Qed.

Lemma Operation_int_inj a b : Operation_int a = Operation_int b → a = b.
Proof. by destruct a, b. Qed.

Lemma ascending_Operation_le a b :
  ascending Operation_less a b ↔ Operation_int a ≤ Operation_int b.
Proof. unfold ascending, Operation_less. apply Z.ltb_ge. Qed.

Global Instance Operation_less_order : LessOrder Operation_less.
Proof.
  split.
  - split; [split|].
    + intros a. apply ascending_Operation_le. lia.
    + intros a b c ?%ascending_Operation_le ?%ascending_Operation_le.
      apply ascending_Operation_le. lia.
    + intros a b ?%ascending_Operation_le ?%ascending_Operation_le.
      apply Operation_int_inj. lia.
  - intros a b.
    destruct (Z.le_ge_cases (Operation_int a) (Operation_int b));
      [left|right]; apply ascending_Operation_le; lia.
  - intros a b. rewrite ascending_Operation_le. unfold Operation_less.
    rewrite Z.ltb_lt. split.
    + intros Hlt. split; [lia|]. intros ->. lia.
    + intros [Hle Hne].
      destruct (decide (Operation_int a = Operation_int b)) as [Heq|?];
        [|lia].
      by apply Operation_int_inj in Heq.
Qed.

Context {A : Type} (less : A → A → bool) `{!LessOrder less}.

Lemma sort_Slice_Permutation l : sort_Slice less l ≡ₚ l.
Proof. apply merge_sort_Permutation. Qed.

Lemma sort_Slice_elem_of l x : x ∈ sort_Slice less l ↔ x ∈ l.
Proof. by rewrite sort_Slice_Permutation. Qed.

Lemma StronglySorted_strict l :
  StronglySorted (ascending less) l → NoDup l → StronglySorted (lt less) l.
Proof.
  induction 1 as [|x l Hl IH Hx]; intros Hnd; [constructor|].
  apply NoDup_cons in Hnd as [Hx' Hnd]. constructor; [by apply IH|].
  apply Forall_forall. intros y Hy. apply (less_strict x y). split.
  - rewrite Forall_forall in Hx. by apply Hx.
  - by intros ->.
Qed.

Lemma sort_Slice_sorted l : NoDup l → StronglySorted (lt less) (sort_Slice less l).
Proof.
  intros Hnd. apply StronglySorted_strict.
  - apply StronglySorted_merge_sort; apply _.
  - by rewrite sort_Slice_Permutation.
Qed.

Lemma StronglySorted_lt_ascending l :
  StronglySorted (lt less) l → StronglySorted (ascending less) l ∧ NoDup l.
Proof.
  induction 1 as [|x l Hl [IH1 IH2] Hx]; [split; constructor|].
  rewrite Forall_forall in Hx. split.
  - constructor; [done|]. apply Forall_forall. intros y Hy.
    by apply less_strict, Hx.
  - apply NoDup_cons. split; [|done]. intros Hin.
    by destruct (proj1 (less_strict x x) (Hx x Hin)).
Qed.

(** There is one strictly ascending list of given elements. *)
Lemma strictly_sorted_unique l1 l2 :
  StronglySorted (lt less) l1 → StronglySorted (lt less) l2 →
  (∀ x, x ∈ l1 ↔ x ∈ l2) → l1 = l2.
Proof.
  intros [Hs1 Hnd1]%StronglySorted_lt_ascending
         [Hs2 Hnd2]%StronglySorted_lt_ascending Hel.
  apply (StronglySorted_unique (ascending less)); [done..|].
  by apply NoDup_Permutation.
Qed.

End sorting.

(** ** The identifiers that uniqueSortedIDs collects *)

Section collectIDs.

Import report spec.

Lemma NoDup_snoc_fresh {A} (l : list A) x : NoDup l → x ∉ l → NoDup (l ++ [x]).
Proof.
  intros Hnd Hx. apply NoDup_app. split; [done|]. split.
  - intros y Hy ->%list_elem_of_singleton. done.
  - apply NoDup_singleton.
Qed.

Lemma noteFileTestID_spec st x :
  wfIds st →
  wfIds (noteFileTestID st x) ∧
  (∀ y, y ∈ fileTestIDs (noteFileTestID st x) ↔ y ∈ fileTestIDs st ∨ y = x) ∧
  endpointIDs (noteFileTestID st x) = endpointIDs st ∧
  operations (noteFileTestID st x) = operations st.
Proof.
  intros Hwf. pose proof Hwf as (Hf & He & Ho & Hsf & Hse & Hso).
  unfold noteFileTestID.
  destruct (decide (x ∈ seenFileTestIDs st)) as [Hin|Hnin].
  - split; [done|]. split; [|done].
    intros y. split; [by left|]. intros [?| ->]; [done|]. by apply Hsf.
  - split; [|split; [|done]]; simpl.
    + unfold wfIds; simpl. split_and!; try done.
      * apply NoDup_snoc_fresh; [done|]. by rewrite <- Hsf.
      * intros y. rewrite elem_of_union, elem_of_singleton, elem_of_app,
          list_elem_of_singleton, Hsf. tauto.
    + intros y. by rewrite elem_of_app, list_elem_of_singleton.
Qed.

Lemma noteOperation_spec st x :
  wfIds st →
  wfIds (noteOperation st x) ∧
  (∀ y, y ∈ operations (noteOperation st x) ↔ y ∈ operations st ∨ y = x) ∧
  endpointIDs (noteOperation st x) = endpointIDs st ∧
  fileTestIDs (noteOperation st x) = fileTestIDs st.
Proof.
  intros Hwf. pose proof Hwf as (Hf & He & Ho & Hsf & Hse & Hso).
  unfold noteOperation.
  destruct (decide (x ∈ seenOperations st)) as [Hin|Hnin].
  - split; [done|]. split; [|done].
    intros y. split; [by left|]. intros [?| ->]; [done|]. by apply Hso.
  - split; [|split; [|done]]; simpl.
    + unfold wfIds; simpl. split_and!; try done.
      * apply NoDup_snoc_fresh; [done|]. by rewrite <- Hso.
      * intros y. rewrite elem_of_union, elem_of_singleton, elem_of_app,
          list_elem_of_singleton, Hso. tauto.
    + intros y. by rewrite elem_of_app, list_elem_of_singleton.
Qed.

Lemma noteEndpointID_spec st x :
  wfIds st →
  wfIds (noteEndpointID st x) ∧
  (∀ y, y ∈ endpointIDs (noteEndpointID st x) ↔ y ∈ endpointIDs st ∨ y = x) ∧
  operations (noteEndpointID st x) = operations st ∧
  fileTestIDs (noteEndpointID st x) = fileTestIDs st.
Proof.
  intros Hwf. pose proof Hwf as (Hf & He & Ho & Hsf & Hse & Hso).
  unfold noteEndpointID.
  destruct (decide (x ∈ seenEndpointIDs st)) as [Hin|Hnin].
  - split; [done|]. split; [|done].
    intros y. split; [by left|]. intros [?| ->]; [done|]. by apply Hse.
  - split; [|split; [|done]]; simpl.
    + unfold wfIds; simpl. split_and!; try done.
      * apply NoDup_snoc_fresh; [done|]. by rewrite <- Hse.
      * intros y. rewrite elem_of_union, elem_of_singleton, elem_of_app,
          list_elem_of_singleton, Hse. tauto.
    + intros y. by rewrite elem_of_app, list_elem_of_singleton.
Qed.

Lemma elem_of_keys `{Countable K} {V} (m : gmap K V) (k : K) :
  k ∈ (map_to_list m).*1 ↔ is_Some (m !! k).
Proof.
  rewrite list_elem_of_fmap. split.
  - intros [[k' v] [-> Hin]]. apply elem_of_map_to_list in Hin. by eexists.
  - intros [v Hv]. exists (k, v). split; [done|]. by apply elem_of_map_to_list.
Qed.

Lemma collect_endpoints (l : list (ID * option Result)) : ∀ st,
  wfIds st →
  let st' := foldl (λ st '(endpointID, _), noteEndpointID st endpointID) st l in
  wfIds st' ∧ fileTestIDs st' = fileTestIDs st ∧
  operations st' = operations st ∧
  ∀ y, y ∈ endpointIDs st' ↔ y ∈ endpointIDs st ∨ y ∈ l.*1.
Proof.
  induction l as [|[e r] l IH]; intros st Hwf; simpl.
  - split; [done|]. split; [done|]. split; [done|].
    intros y. rewrite elem_of_nil. tauto.
  - destruct (noteEndpointID_spec st e Hwf) as (Hwf' & Hel & Hops & Hfts).
    destruct (IH _ Hwf') as (Hwf'' & Hfts' & Hops' & Hel').
    split; [done|]. split; [congruence|]. split; [congruence|].
    intros y. rewrite Hel', Hel, elem_of_cons. tauto.
Qed.

Lemma collect_operations (l : list (Operation * gmap ID (option Result))) :
  ∀ st,
  wfIds st →
  let st' :=
    foldl (λ st '(operation, endpointResults),
      foldl (λ st '(endpointID, _), noteEndpointID st endpointID)
        (noteOperation st operation)
        (map_to_list endpointResults)) st l in
  wfIds st' ∧ fileTestIDs st' = fileTestIDs st ∧
  (∀ o, o ∈ operations st' ↔ o ∈ operations st ∨ o ∈ l.*1) ∧
  (∀ e, e ∈ endpointIDs st' ↔
        e ∈ endpointIDs st ∨
        ∃ o (eps : gmap ID (option Result)), (o, eps) ∈ l ∧ is_Some (eps !! e)).
Proof.
  induction l as [|[o eps] l IH]; intros st Hwf; simpl.
  - split; [done|]. split; [done|]. split.
    + intros y. rewrite elem_of_nil. tauto.
    + intros e. split; [by left|]. intros [?|(? & ? & []%elem_of_nil & _)].
      done.
  - destruct (noteOperation_spec st o Hwf) as (Hwf1 & Hop1 & Hep1 & Hft1).
    destruct (collect_endpoints (map_to_list eps) _ Hwf1)
      as (Hwf2 & Hft2 & Hop2 & Hep2).
    destruct (IH _ Hwf2) as (Hwf3 & Hft3 & Hop3 & Hep3).
    split; [done|]. split; [congruence|]. split.
    + intros y. rewrite Hop3, Hop2, Hop1, elem_of_cons. tauto.
    + intros e. rewrite Hep3, Hep2, Hep1, elem_of_keys. split.
      * intros [[?|?]|(o' & eps' & Hin & Hs)]; [by left| |].
        -- right. exists o, eps. split; [left|done].
        -- right. exists o', eps'. split; [by right|done].
      * intros [?|(o' & eps' & Hin & Hs)]; [by left; left|].
        apply elem_of_cons in Hin as [[= -> ->]|Hin]; [by left; right|].
        right. by exists o', eps'.
Qed.

Lemma collect_fileTests
    (l : list (ID * gmap Operation (gmap ID (option Result)))) : ∀ st,
  wfIds st →
  let st' :=
    foldl (λ st '(fileTestID, operationResults),
      foldl (λ st '(operation, endpointResults),
        foldl (λ st '(endpointID, _), noteEndpointID st endpointID)
          (noteOperation st operation)
          (map_to_list endpointResults))
        (noteFileTestID st fileTestID)
        (map_to_list operationResults)) st l in
  wfIds st' ∧
  (∀ x, x ∈ fileTestIDs st' ↔ x ∈ fileTestIDs st ∨ x ∈ l.*1) ∧
  (∀ o, o ∈ operations st' ↔
        o ∈ operations st ∨
        ∃ x (ops : gmap Operation (gmap ID (option Result))),
          (x, ops) ∈ l ∧ is_Some (ops !! o)) ∧
  (∀ e, e ∈ endpointIDs st' ↔
        e ∈ endpointIDs st ∨
        ∃ x (ops : gmap Operation (gmap ID (option Result))) o
          (eps : gmap ID (option Result)),
          (x, ops) ∈ l ∧ ops !! o = Some eps ∧ is_Some (eps !! e)).
Proof.
  induction l as [|[x ops] l IH]; intros st Hwf; simpl.
  - split; [done|]. split; [|split].
    + intros y. rewrite elem_of_nil. tauto.
    + intros o. split; [by left|]. intros [?|(? & ? & []%elem_of_nil & _)].
      done.
    + intros e. split; [by left|].
      intros [?|(? & ? & ? & ? & []%elem_of_nil & _)]. done.
  - destruct (noteFileTestID_spec st x Hwf) as (Hwf1 & Hft1 & Hep1 & Hop1).
    destruct (collect_operations (map_to_list ops) _ Hwf1)
      as (Hwf2 & Hft2 & Hop2 & Hep2).
    destruct (IH _ Hwf2) as (Hwf3 & Hft3 & Hop3 & Hep3).
    split; [done|]. split; [|split].
    + intros y. rewrite Hft3, Hft2, Hft1, elem_of_cons. tauto.
    + intros o. rewrite Hop3, Hop2, Hop1, elem_of_keys. split.
      * intros [[?|?]|(x' & ops' & Hin & Hs)]; [by left| |].
        -- right. exists x, ops. split; [left|done].
        -- right. exists x', ops'. split; [by right|done].
      * intros [?|(x' & ops' & Hin & Hs)]; [by left; left|].
        apply elem_of_cons in Hin as [[= -> ->]|Hin]; [by left; right|].
        right. by exists x', ops'.
    + intros e. rewrite Hep3, Hep2, Hep1. split.
      * intros [[?|(o & eps & Hin & Hs)]|(x' & ops' & o & eps & Hin & Ho & Hs)];
          [by left| |].
        -- right. exists x, ops, o, eps. split; [left|].
           split; [by apply elem_of_map_to_list|done].
        -- right. exists x', ops', o, eps. split; [by right|done].
      * intros [?|(x' & ops' & o & eps & Hin & Ho & Hs)]; [by left; left|].
        apply elem_of_cons in Hin as [[= -> ->]|Hin].
        -- left; right. exists o, eps. split; [|done].
           by apply elem_of_map_to_list.
        -- right. by exists x', ops', o, eps.
Qed.

Lemma wfIds_init : wfIds (mkIds [] [] [] ∅ ∅ ∅).
Proof.
  unfold wfIds; simpl. split_and!; try apply NoDup_nil_2;
    intros x; rewrite elem_of_nil; set_solver.
Qed.

Lemma collectIDs_spec results :
  wfIds (collectIDs results) ∧
  (∀ x, x ∈ fileTestIDs (collectIDs results) ↔ hasFileTest results x) ∧
  (∀ o, o ∈ operations (collectIDs results) ↔ hasOperation results o) ∧
  (∀ e, e ∈ endpointIDs (collectIDs results) ↔ hasEndpoint results e).
Proof.
  destruct (collect_fileTests (map_to_list results) _ wfIds_init)
    as (Hwf & Hft & Hop & Hep).
  split; [done|]. split; [|split].
  - intros x. unfold collectIDs. rewrite Hft, elem_of_keys. simpl.
    rewrite elem_of_nil. unfold hasFileTest. tauto.
  - intros o. unfold collectIDs. rewrite Hop. simpl. rewrite elem_of_nil.
    unfold hasOperation. split.
    + intros [[]|(x & ops & Hin%elem_of_map_to_list & Hs)]. by exists x, ops.
    + intros (x & ops & Hin & Hs). right. exists x, ops.
      split; [by apply elem_of_map_to_list|done].
  - intros e. unfold collectIDs. rewrite Hep. simpl. rewrite elem_of_nil.
    unfold hasEndpoint. split.
    + intros [[]|(x & ops & o & eps & Hin%elem_of_map_to_list & Ho & Hs)].
      by exists x, ops, o, eps.
    + intros (x & ops & o & eps & Hin & Ho & Hs). right.
      exists x, ops, o, eps. split; [by apply elem_of_map_to_list|done].
Qed.

End collectIDs.

(** ** uniqueSortedIDs and formatResults *)

Section uniqueSortedIDs.

Import report layout spec.

Lemma uniqueSortedIDs_spec results fts eps ops :
  uniqueSortedIDs results = (fts, eps, ops) →
  (StronglySorted ID_lt fts ∧ ∀ x, x ∈ fts ↔ hasFileTest results x) ∧
  (StronglySorted ID_lt eps ∧ ∀ e, e ∈ eps ↔ hasEndpoint results e) ∧
  (StronglySorted Operation_lt ops ∧ ∀ o, o ∈ ops ↔ hasOperation results o).
Proof.
  unfold uniqueSortedIDs. intros [= <- <- <-].
  destruct (collectIDs_spec results)
    as ((Hf & He & Ho & _) & Hft & Hop & Hep).
  split_and!.
  - by apply sort_Slice_sorted; [apply _|].
  - intros x. by rewrite sort_Slice_elem_of.
  - by apply sort_Slice_sorted; [apply _|].
  - intros x. by rewrite sort_Slice_elem_of.
  - by apply sort_Slice_sorted; [apply _|].
  - intros x. by rewrite sort_Slice_elem_of.
Qed.

(** The sorted identifiers are determined by the keys of the store. *)
Lemma uniqueSortedIDs_keys results1 results2 :
  (∀ x, hasFileTest results1 x ↔ hasFileTest results2 x) →
  (∀ e, hasEndpoint results1 e ↔ hasEndpoint results2 e) →
  (∀ o, hasOperation results1 o ↔ hasOperation results2 o) →
  uniqueSortedIDs results1 = uniqueSortedIDs results2.
Proof.
  intros Hft Hep Hop.
  destruct (uniqueSortedIDs results1) as [[fts1 eps1] ops1] eqn:E1.
  destruct (uniqueSortedIDs results2) as [[fts2 eps2] ops2] eqn:E2.
  apply uniqueSortedIDs_spec in E1 as ((S1 & F1) & (S2 & F2) & (S3 & F3)).
  apply uniqueSortedIDs_spec in E2 as ((T1 & G1) & (T2 & G2) & (T3 & G3)).
  f_equal; [f_equal|].
  - apply (strictly_sorted_unique ID_less); [done..|].
    intros x. by rewrite F1, G1.
  - apply (strictly_sorted_unique ID_less); [done..|].
    intros x. by rewrite F2, G2.
  - apply (strictly_sorted_unique Operation_less); [done..|].
    intros x. by rewrite F3, G3.
Qed.

Lemma formatResults_ok fileTestSizes results fts eps ops :
  uniqueSortedIDs results = (fts, eps, ops) →
  eps = [] ∨ ops = [] ∨
    Forall (λ fileTestID, sizeOf fileTestSizes fileTestID ≠ 0) fts →
  formatResults fileTestSizes results =
  Ok (reportOf fileTestSizes results fts eps ops).
Proof.
  intros Hids Hok. unfold formatResults. rewrite Hids. unfold rangeM.
  by rewrite formatSections_ok.
Qed.

Lemma formatResults_err fileTestSizes results fts eps ops before x after :
  uniqueSortedIDs results = (fts, eps, ops) →
  eps ≠ [] → ops ≠ [] →
  fts = before ++ x :: after →
  Forall (λ fileTestID, sizeOf fileTestSizes fileTestID ≠ 0) before →
  sizeOf fileTestSizes x = 0 →
  formatResults fileTestSizes results = Err (unknownSize x).
Proof.
  intros Hids Heps Hops -> Hbefore Hx. unfold formatResults. rewrite Hids.
  unfold rangeM. by rewrite formatSections_err.
Qed.

(** A list splits at its first element that satisfies a decidable
    property. *)
Lemma first_split {A} (P : A → Prop) `{!∀ x, Decision (P x)} (l : list A) :
  Forall (λ x, ¬ P x) l ∨
  ∃ before x after,
    l = before ++ x :: after ∧ Forall (λ x, ¬ P x) before ∧ P x.
Proof.
  induction l as [|y l IH]; [by left|].
  destruct (decide (P y)) as [Hy|Hy].
  - right. exists [], y, l. by split_and!.
  - destruct IH as [Hall|(before & x & after & -> & Hb & Hx)].
    + left. by constructor.
    + right. exists (y :: before), x, after. split_and!; [done| |done].
      by constructor.
Qed.

End uniqueSortedIDs.

(** ** The store and Report *)

Section Report.

Import report layout spec.

Implicit Types results : gmap ID (gmap Operation (gmap ID (option Result))).

(** [Report] writes one entry and leaves the others. *)
Lemma Report_results s operation fileTestID endpointID result :
  let ops := default ∅ (results s !! fileTestID) in
  let eps := default ∅ (ops !! operation) in
  results (Report s operation fileTestID endpointID result).1 =
  <[fileTestID := <[operation := <[endpointID := result]> eps]> ops]>
    (results s).
Proof.
  unfold Report. simpl.
  destruct (results s !! fileTestID) as [ops|] eqn:Hft; simpl.
  - rewrite Hft. simpl. destruct (ops !! operation) as [eps|] eqn:Hop; simpl.
    + by rewrite Hft; simpl; rewrite Hop.
    + rewrite lookup_insert_eq. simpl. rewrite lookup_insert_eq. simpl.
      by rewrite !insert_insert_eq.
  - rewrite lookup_insert_eq. simpl. rewrite lookup_empty.
    rewrite lookup_insert_eq. simpl. rewrite lookup_insert_eq. simpl.
    by rewrite !insert_insert_eq.
Qed.

Lemma Report_sizes s operation fileTestID endpointID result :
  fileTestSizes (Report s operation fileTestID endpointID result).1 =
  fileTestSizes s.
Proof. done. Qed.

Lemma Report_nil s operation fileTestID endpointID result :
  (Report s operation fileTestID endpointID result).2 = None.
Proof. done. Qed.

Lemma is_Some_default_empty `{Countable K} {V} (o : option (gmap K V)) k :
  is_Some (default ∅ o !! k) → ∃ m, o = Some m ∧ is_Some (m !! k).
Proof.
  destruct o as [m|]; simpl.
  - intros Hs. by exists m.
  - rewrite lookup_empty. by intros [? ?].
Qed.

Lemma hasFileTest_Report s operation fileTestID endpointID result x :
  hasFileTest (results (Report s operation fileTestID endpointID result).1) x
  ↔ x = fileTestID ∨ hasFileTest (results s) x.
Proof.
  rewrite Report_results. unfold hasFileTest.
  destruct (decide (fileTestID = x)) as [->|Hne].
  - rewrite lookup_insert_eq. split; [by left|by eexists].
  - rewrite lookup_insert_ne by done. split; [by right|].
    by intros [->|?].
Qed.

Lemma hasOperation_Report s operation fileTestID endpointID result o :
  hasOperation (results (Report s operation fileTestID endpointID result).1) o
  ↔ o = operation ∨ hasOperation (results s) o.
Proof.
  rewrite Report_results. unfold hasOperation. split.
  - intros (x & ops & Hx & Ho).
    destruct (decide (fileTestID = x)) as [->|Hne].
    + rewrite lookup_insert_eq in Hx. injection Hx as <-.
      destruct (decide (operation = o)) as [->|Hneo]; [by left|].
      rewrite lookup_insert_ne in Ho by done.
      apply is_Some_default_empty in Ho as (m & Hm & Hs).
      right. by exists x, m.
    + rewrite lookup_insert_ne in Hx by done. right. by exists x, ops.
  - intros [->|(x & ops & Hx & Ho)].
    + eexists fileTestID, _. rewrite !lookup_insert_eq.
      split; [done|]. rewrite ?lookup_insert_eq. by eexists.
    + destruct (decide (fileTestID = x)) as [->|Hne].
      * eexists x, _. rewrite lookup_insert_eq. split; [done|].
        rewrite Hx. simpl. destruct (decide (operation = o)) as [->|Hneo].
        -- rewrite lookup_insert_eq. by eexists.
        -- by rewrite lookup_insert_ne.
      * exists x, ops. by rewrite lookup_insert_ne.
Qed.

Lemma hasEndpoint_Report s operation fileTestID endpointID result e :
  hasEndpoint (results (Report s operation fileTestID endpointID result).1) e
  ↔ e = endpointID ∨ hasEndpoint (results s) e.
Proof.
  rewrite Report_results. unfold hasEndpoint. split.
  - intros (x & ops & o & eps & Hx & Ho & He).
    destruct (decide (fileTestID = x)) as [->|Hne].
    + rewrite lookup_insert_eq in Hx. injection Hx as <-.
      destruct (decide (operation = o)) as [->|Hneo].
      * rewrite lookup_insert_eq in Ho. injection Ho as <-.
        destruct (decide (endpointID = e)) as [->|Hnee]; [by left|].
        rewrite lookup_insert_ne in He by done.
        apply is_Some_default_empty in He as (m & Hm & Hs).
        destruct (results s !! x) as [ops|] eqn:Hrx; simpl in Hm.
        -- right. by exists x, ops, o, m.
        -- by rewrite lookup_empty in Hm.
      * rewrite lookup_insert_ne in Ho by done.
        destruct (results s !! x) as [ops|] eqn:Hrx; simpl in Ho.
        -- right. by exists x, ops, o, eps.
        -- by rewrite lookup_empty in Ho.
    + rewrite lookup_insert_ne in Hx by done. right.
      by exists x, ops, o, eps.
  - intros [->|(x & ops & o & eps & Hx & Ho & He)].
    + eexists fileTestID, _, operation, _. rewrite !lookup_insert_eq.
      split; [done|]. rewrite ?lookup_insert_eq. split; [done|].
      rewrite ?lookup_insert_eq. by eexists.
    + destruct (decide (fileTestID = x)) as [->|Hne].
      * rewrite Hx. simpl. destruct (decide (operation = o)) as [->|Hneo].
        -- rewrite Ho. simpl.
           exists x, (<[o := <[endpointID := result]> eps]> ops), o,
             (<[endpointID := result]> eps).
           rewrite !lookup_insert_eq. split; [done|]. split; [done|].
           destruct (decide (endpointID = e)) as [->|Hnee].
           ++ rewrite lookup_insert_eq. by eexists.
           ++ by rewrite lookup_insert_ne.
        -- eexists x, _, o, eps. rewrite lookup_insert_eq. split; [done|].
           by rewrite lookup_insert_ne.
      * exists x, ops, o, eps. by rewrite lookup_insert_ne.
Qed.

Lemma lookup3_Report s operation fileTestID endpointID result x o e :
  lookup3 (results (Report s operation fileTestID endpointID result).1) x o e =
  if decide (x = fileTestID ∧ o = operation ∧ e = endpointID) then result
  else lookup3 (results s) x o e.
Proof.
  rewrite Report_results. unfold lookup3.
  destruct (decide (fileTestID = x)) as [->|Hne].
  - rewrite lookup_insert_eq. simpl.
    destruct (decide (operation = o)) as [->|Hneo].
    + rewrite lookup_insert_eq. simpl.
      destruct (decide (endpointID = e)) as [->|Hnee].
      * rewrite lookup_insert_eq. simpl. by rewrite decide_True.
      * rewrite lookup_insert_ne by done. rewrite decide_False; [done|].
        by intros (_ & _ & ->).
    + rewrite lookup_insert_ne by done. rewrite decide_False; [done|].
      by intros (_ & -> & _).
  - rewrite lookup_insert_ne by done. rewrite decide_False; [done|].
    by intros (-> & _).
Qed.

End Report.

(** ** Stores built by Report *)

Section reportAll.

Import report layout spec.

Lemma submit_sizes s sub : fileTestSizes (submit s sub) = fileTestSizes s.
Proof. done. Qed.

Lemma foldl_submit_sizes subs : ∀ s,
  fileTestSizes (foldl submit s subs) = fileTestSizes s.
Proof. induction subs as [|sub subs IH]; intros s; simpl; [done|]. by rewrite IH. Qed.

Lemma reportAll_sizes sizes subs : fileTestSizes (reportAll sizes subs) = sizes.
Proof. unfold reportAll. by rewrite foldl_submit_sizes. Qed.

Lemma foldl_submit_fileTests subs : ∀ s x,
  hasFileTest (results (foldl submit s subs)) x ↔
  hasFileTest (results s) x ∨ x ∈ map sub_fileTestID subs.
Proof.
  induction subs as [|sub subs IH]; intros s x; simpl.
  - rewrite elem_of_nil. tauto.
  - rewrite IH. unfold submit. rewrite hasFileTest_Report, elem_of_cons.
    tauto.
Qed.

Lemma foldl_submit_operations subs : ∀ s o,
  hasOperation (results (foldl submit s subs)) o ↔
  hasOperation (results s) o ∨ o ∈ map sub_operation subs.
Proof.
  induction subs as [|sub subs IH]; intros s x; simpl.
  - rewrite elem_of_nil. tauto.
  - rewrite IH. unfold submit. rewrite hasOperation_Report, elem_of_cons.
    tauto.
Qed.

Lemma foldl_submit_endpoints subs : ∀ s e,
  hasEndpoint (results (foldl submit s subs)) e ↔
  hasEndpoint (results s) e ∨ e ∈ map sub_endpointID subs.
Proof.
  induction subs as [|sub subs IH]; intros s x; simpl.
  - rewrite elem_of_nil. tauto.
  - rewrite IH. unfold submit. rewrite hasEndpoint_Report, elem_of_cons.
    tauto.
Qed.

Lemma hasFileTest_empty x : ¬ hasFileTest ∅ x.
Proof. unfold hasFileTest. rewrite lookup_empty. by intros [? ?]. Qed.

Lemma hasOperation_empty o : ¬ hasOperation ∅ o.
Proof. intros (x & ops & Hx & _). by rewrite lookup_empty in Hx. Qed.

Lemma hasEndpoint_empty e : ¬ hasEndpoint ∅ e.
Proof. intros (x & ops & o & eps & Hx & _). by rewrite lookup_empty in Hx. Qed.

(** The keys of a store built by [Report] are those of the submissions. *)
Lemma reportAll_fileTests sizes subs x :
  hasFileTest (results (reportAll sizes subs)) x ↔
  x ∈ map sub_fileTestID subs.
Proof.
  unfold reportAll. rewrite foldl_submit_fileTests. simpl.
  pose proof (hasFileTest_empty x). tauto.
Qed.

Lemma reportAll_operations sizes subs o :
  hasOperation (results (reportAll sizes subs)) o ↔
  o ∈ map sub_operation subs.
Proof.
  unfold reportAll. rewrite foldl_submit_operations. simpl.
  pose proof (hasOperation_empty o). tauto.
Qed.

Lemma reportAll_endpoints sizes subs e :
  hasEndpoint (results (reportAll sizes subs)) e ↔
  e ∈ map sub_endpointID subs.
Proof.
  unfold reportAll. rewrite foldl_submit_endpoints. simpl.
  pose proof (hasEndpoint_empty e). tauto.
Qed.

(** The sorted identifiers do not depend on the order of the calls. *)
Lemma reportAll_ids_Permutation sizes1 sizes2 subs1 subs2 :
  subs1 ≡ₚ subs2 →
  uniqueSortedIDs (results (reportAll sizes1 subs1)) =
  uniqueSortedIDs (results (reportAll sizes2 subs2)).
Proof.
  intros Hperm. apply uniqueSortedIDs_keys.
  - intros x. rewrite !reportAll_fileTests. by rewrite Hperm.
  - intros x. rewrite !reportAll_endpoints. by rewrite Hperm.
  - intros x. rewrite !reportAll_operations. by rewrite Hperm.
Qed.

Lemma lookup3_submit s sub x o e :
  lookup3 (results (submit s sub)) x o e =
  if decide (x = sub_fileTestID sub ∧ o = sub_operation sub ∧
             e = sub_endpointID sub)
  then sub_result sub else lookup3 (results s) x o e.
Proof. apply lookup3_Report. Qed.

Lemma foldl_submit_lookup3_other subs x o e : ∀ s,
  Forall (λ sub, ¬ (sub_fileTestID sub = x ∧ sub_operation sub = o ∧
                    sub_endpointID sub = e)) subs →
  lookup3 (results (foldl submit s subs)) x o e = lookup3 (results s) x o e.
Proof.
  induction subs as [|sub subs IH]; intros s Hall; cbn [foldl]; [done|].
  apply Forall_cons in Hall as [Hsub Hall]. rewrite IH by done.
  rewrite lookup3_submit. rewrite decide_False; [done|].
  intros (-> & -> & ->). by apply Hsub.
Qed.

(** The entry of a triple is the result of its last submission. *)
Lemma reportAll_lookup3_last sizes subs sub :
  lookup3 (results (reportAll sizes (subs ++ [sub])))
    (sub_fileTestID sub) (sub_operation sub) (sub_endpointID sub) =
  sub_result sub.
Proof.
  unfold reportAll. rewrite foldl_app. cbn [foldl].
  rewrite lookup3_submit. by rewrite decide_True.
Qed.

Lemma reportAll_lookup3_none sizes subs x o e :
  Forall (λ sub, ¬ (sub_fileTestID sub = x ∧ sub_operation sub = o ∧
                    sub_endpointID sub = e)) subs →
  lookup3 (results (reportAll sizes subs)) x o e = None.
Proof.
  intros Hall. unfold reportAll.
  rewrite foldl_submit_lookup3_other by done. unfold lookup3. simpl.
  by rewrite lookup_empty.
Qed.

End reportAll.

(** ** Printed numbers *)

Section printing.

Lemma isDigit_pretty_N_char n : isDigit (pretty_N_char n) = true.
Proof. unfold pretty_N_char. by repeat case_match. Qed.

Lemma allDigits_app s t :
  allDigits (s +:+ t) = allDigits s && allDigits t.
Proof.
  induction s as [|c s IH]; [done|]. rewrite str_app_cons. simpl.
  by rewrite IH, andb_assoc.
Qed.

Lemma pretty_N_go_digits x : ∀ s,
  allDigits s = true → allDigits (pretty_N_go x s) = true.
Proof.
  induction (N.lt_wf_0 x) as [x _ IH]; intros s Hs.
  destruct (decide (x = 0%N)) as [->|Hx]; [by rewrite pretty_N_go_0|].
  rewrite pretty_N_go_step by lia. apply IH.
  - apply N.div_lt; lia.
  - simpl. by rewrite isDigit_pretty_N_char, Hs.
Qed.

Lemma pretty_N_go_length x : ∀ s,
  (String.length s ≤ String.length (pretty_N_go x s))%nat.
Proof.
  induction (N.lt_wf_0 x) as [x _ IH]; intros s.
  destruct (decide (x = 0%N)) as [->|Hx]; [by rewrite pretty_N_go_0|].
  rewrite pretty_N_go_step by lia.
  etrans; [|apply IH; apply N.div_lt; lia]. simpl. lia.
Qed.

Lemma pretty_N_digits (n : N) :
  allDigits (pretty n) = true ∧ pretty n ≠ "".
Proof.
  unfold pretty, pretty_N. destruct (decide (n = 0%N)) as [->|Hn]; [done|].
  split; [by apply pretty_N_go_digits|].
  rewrite pretty_N_go_step by lia. intros Heq.
  pose proof (pretty_N_go_length (n `div` 10)
                (String (pretty_N_char (n `mod` 10)) "")) as Hlen.
  rewrite Heq in Hlen. simpl in Hlen. lia.
Qed.

Lemma pretty_Z_digits (z : Z) :
  0 ≤ z → allDigits (pretty z) = true ∧ pretty z ≠ "".
Proof.
  intros Hz. destruct z as [|p|p]; [done| |lia].
  apply (pretty_N_digits (N.pos p)).
Qed.

Lemma round_half_even_nonneg a e : 0 ≤ a → 0 ≤ Go.round_half_even a e.
Proof.
  intros Ha. unfold Go.round_half_even.
  destruct (0 <=? e) eqn:He.
  - apply Z.mul_nonneg_nonneg; [done|]. apply Z.pow_nonneg. lia.
  - assert (0 < 2 ^ (- e)) by (apply Z.pow_pos_nonneg; lia).
    assert (0 ≤ a `div` 2 ^ (- e)) by (apply Z.div_pos; lia).
    repeat case_match; lia.
Qed.

Lemma fixed2_twoDecimals negative n :
  0 ≤ n → twoDecimals (Go.sign_string negative +:+ Go.fixed2 n).
Proof.
  intros Hn. unfold Go.fixed2.
  exists negative, (pretty (n `div` 100)), (Go.digit ((n `mod` 100) `div` 10)),
    (Go.digit (n `mod` 10)).
  destruct (pretty_Z_digits (n `div` 100)) as [Hd Hne].
  { apply Z.div_pos; lia. }
  split_and!; try done; apply isDigit_pretty_N_char.
Qed.

(** A finite number is printed with two decimals. *)
Lemma FormatFloat_f2_finite x :
  Go.is_finite x = true → twoDecimals (Go.FormatFloat_f2 x).
Proof.
  destruct x as [s|s| |s m e]; simpl; try done; intros _.
  - by exists s, "0", "0"%char, "0"%char.
  - apply fixed2_twoDecimals, round_half_even_nonneg. lia.
Qed.

Lemma hasChar_app c s t : hasChar c (s +:+ t) = hasChar c s || hasChar c t.
Proof.
  induction s as [|a s IH]; [done|]. rewrite str_app_cons. simpl.
  by rewrite IH, orb_assoc.
Qed.

Lemma twoDecimals_point s : twoDecimals s → hasChar "." s = true.
Proof.
  intros (negative & units & d1 & d2 & -> & _).
  rewrite !hasChar_app. simpl. by rewrite !orb_true_r.
Qed.

Lemma prefix_app sub post : String.prefix sub (sub +:+ post) = true.
Proof.
  induction sub as [|a sub IH]; [by destruct post|].
  rewrite str_app_cons. simpl. destruct (ascii_dec a a); [done|done].
Qed.

Lemma contains_app sub before after :
  contains sub (before +:+ (sub +:+ after)) = true.
Proof.
  induction before as [|a before IH].
  - rewrite str_app_nil_l. pose proof (prefix_app sub after) as Hpre.
    destruct (sub +:+ after); cbn [contains]; by rewrite Hpre.
  - rewrite str_app_cons. cbn [contains]. rewrite IH. apply orb_true_r.
Qed.

End printing.

(** ** The table *)

Section table.

Import report layout.

Lemma columnWidth_no_cell rows j :
  Forall (λ row, row !! j = None) rows → columnWidth rows j = 0.
Proof.
  induction 1 as [|row rows Hrow _ IH]; simpl; [done|].
  unfold cellWidth. rewrite Hrow, IH. done.
Qed.

Lemma columnWidth_attained rows j :
  Exists (λ row, is_Some (row !! j)) rows →
  ∃ row cell,
    row ∈ rows ∧ row !! j = Some cell ∧ Go.len cell = columnWidth rows j.
Proof.
  induction rows as [|r rows IH]; intros Hex; [by apply Exists_nil in Hex|].
  cbn [columnWidth foldr]. fold (columnWidth rows j).
  destruct (decide (Exists (λ row, is_Some (row !! j)) rows)) as [Hrs|Hrs].
  - destruct (IH Hrs) as (row & cell & Hin & Hcell & Hlen).
    destruct (Z.le_gt_cases (cellWidth r j) (columnWidth rows j)) as [Hle|Hgt].
    + exists row, cell. split_and!; [by right|done|lia].
    + unfold cellWidth in *. destruct (r !! j) as [c|] eqn:Hc; simpl in *.
      * exists r, c. split_and!; [by left|done|lia].
      * pose proof (columnWidth_nonneg rows j). lia.
  - apply not_Exists_Forall in Hrs; [|intros row; apply _].
    assert (Forall (λ row, row !! j = None) rows) as Hnone.
    { eapply Forall_impl; [exact Hrs|]. intros row Hrow. simpl in Hrow.
      destruct (row !! j); [|done]. destruct Hrow. by eexists. }
    rewrite (columnWidth_no_cell _ _ Hnone).
    apply Exists_cons in Hex as [[c Hc]|Hex].
    + exists r, c. split_and!; [by left|done|].
      unfold cellWidth. rewrite Hc. simpl. pose proof (len_nonneg c). lia.
    + apply Exists_exists in Hex as (row & Hin & Hs).
      rewrite Forall_forall in Hnone. rewrite (Hnone row Hin) in Hs.
      by destruct Hs.
Qed.

Lemma length_spaces n : String.length (spaces n) = Z.to_nat n.
Proof. unfold spaces. rewrite length_repeat_string. simpl. lia. Qed.

(** [MakeTable] leaves at the first row that has not the number of
    columns of a header that is not empty. *)
Lemma measure_rows_mismatch n rows : ∀ i m,
  (0 < n)%nat →
  ¬ Forall (λ row, length row = n) rows →
  rangeM_from i rows (λ _ row st, measureRow row st) (Z.of_nat n, m) =
    Err "Mismatched column numbers".
Proof.
  induction rows as [|row rows IH]; intros i m Hn Hrect; simpl.
  - by destruct Hrect.
  - assert ((if Z.of_nat n =? 0 then Go.len_slice row else Z.of_nat n)
            = Z.of_nat n) as ->.
    { destruct (Z.eqb_spec (Z.of_nat n) 0); [lia|done]. }
    unfold Go.len_slice.
    destruct (Z.eqb_spec (Z.of_nat (length row)) (Z.of_nat n)) as [Heq|Hne];
      simpl; [|done].
    apply IH; [done|]. intros Hrows. apply Hrect. constructor; [lia|done].
Qed.

Lemma measureRow_first header m :
  measureRow header (0, m) =
  Ok (Go.len_slice header, range header noteLength m).
Proof.
  unfold measureRow. change (0 =? 0) with true. cbv iota.
  by rewrite Z.eqb_refl.
Qed.

Lemma MakeTable_mismatch header body sep :
  header ≠ [] →
  ¬ Forall (λ row, length row = length header) body →
  MakeTable (header :: body) sep = Err "Mismatched column numbers".
Proof.
  intros Hne Hrect. unfold MakeTable, rangeM. cbn [rangeM_from].
  rewrite measureRow_first.
  change (Ok ?x ≫= ?f) with (f x). cbv beta.
  unfold Go.len_slice. rewrite measure_rows_mismatch; [done| |done].
  destruct header; [done|simpl; lia].
Qed.

End table.

(** * The properties of the specification *)

Section MakeTable_properties.

Import report layout.

(** C9. [MakeTable], on a header and rows of as many cells as the header
    (a header without cells only with the empty separator), returns the
    layout: the width of a column is the largest length of its header and
    cells; in every line a cell that is not the last is followed by spaces
    up to the width of its column and five more, and the last cell ends the
    line; under the header there is a line of the separator repeated
    (for a separator of one character, as long as the sum of the widths
    plus five for every column but the last), and for the empty separator
    there is no such line. *)
Theorem MakeTable_layout (header : list string) (body : list (list string))
    (separator : string) :
  Forall (λ row, length row = length header) body →
  header ≠ [] ∨ separator = "" →
  let rows := header :: body in
  let width := columnWidth rows in
  let numColumns := length header in
  MakeTable rows separator =
    Ok (line width 0 header +:+
        (rule width numColumns separator +:+
         concat_strings (map (line width 0) body))) ∧
  (∀ j, (j < numColumns)%nat →
        (∀ row cell, row ∈ rows → row !! j = Some cell →
                     Go.len cell ≤ width j) ∧
        (∃ row cell, row ∈ rows ∧ row !! j = Some cell ∧
                     Go.len cell = width j)) ∧
  (∀ row j cell, row ∈ rows → row !! j = Some cell →
     Z.of_nat (String.length (cell +:+ spaces (width j - Go.len cell + 5))) =
     width j + 5) ∧
  (separator = "" → rule width numColumns separator = "") ∧
  (String.length separator = 1%nat →
     ∃ r, rule width numColumns separator = r +:+ newline ∧
          Z.of_nat (String.length r) =
          sumWidths width numColumns + 5 * (Z.of_nat numColumns - 1)).
Proof.
  intros Hrect Hsep rows width numColumns. split_and!.
  - exact (MakeTable_rect header body separator Hrect Hsep).
  - intros j Hj. split.
    + intros row cell Hin Hcell. by eapply columnWidth_ge.
    + apply columnWidth_attained. apply Exists_cons. left.
      by apply lookup_lt_is_Some.
  - intros row j cell Hin Hcell.
    pose proof (columnWidth_ge rows row j cell Hin Hcell).
    rewrite str_length_app, length_spaces. unfold Go.len in *.
    fold width in H. lia.
  - intros ->. done.
  - intros Hlen. assert (separator ≠ "") as Hne by (by intros ->).
    destruct Hsep as [Hhd|?]; [|done].
    unfold rule. rewrite eqb_empty_false by done.
    eexists. split; [done|]. rewrite length_repeat_string, Hlen.
    assert (0 ≤ sumWidths width numColumns).
    { apply sumWidths_nonneg. intros k. apply columnWidth_nonneg. }
    assert (0 < numColumns)%nat.
    { subst numColumns. destruct header; [done|simpl; lia]. }
    unfold totalWidth. lia.
Qed.

Lemma MakeTable_layout_witness :
  MakeTable [["this"; "is"; "a"; "header"]; ["here"; "we"; "find"; "row2"];
             ["different"; "items"; "a"; "b"]] "-" =
  Ok (table [["this"; "is"; "a"; "header"]; ["here"; "we"; "find"; "row2"];
             ["different"; "items"; "a"; "b"]] "-").
Proof.
  apply (MakeTable_layout ["this"; "is"; "a"; "header"]
           [["here"; "we"; "find"; "row2"]; ["different"; "items"; "a"; "b"]]
           "-").
  - repeat constructor.
  - left. discriminate.
Defined.

(** C8. [MakeTable] accepts a header without cells followed by a row of one
    cell: it keeps the number of columns in a variable that is 0 until a
    row sets it, so the first row that is not empty sets it. *)
Theorem MakeTable_empty_header :
  MakeTable [[]; ["a"]] "-" = Ok ("-" +:+ newline +:+ "a" +:+ newline).
Proof. reflexivity. Qed.

(** The tests of the table. *)
Example TestMakeTable :
  MakeTable [["this"; "is"; "a"; "header"]; ["here"; "we"; "find"; "row2"];
             ["different"; "items"; "a"; "b"]] "i" =
  Ok ("this          is        a        header" +:+ newline +:+
      "iiiiiiiiiiiiiiiiiiiiiiiiiiiiiiiiiiiiiii" +:+ newline +:+
      "here          we        find     row2" +:+ newline +:+
      "different     items     a        b" +:+ newline).
Proof. reflexivity. Qed.

(** A table of rows without cells and a separator: the count of
    [strings.Repeat] is negative. *)
Example MakeTable_no_columns :
  MakeTable [[]] "-" = Panic "strings: negative Repeat count".
Proof. reflexivity. Qed.

End MakeTable_properties.

Section report_properties.

Import report layout spec.

Lemma StronglySorted_filter {A} (R : relation A) (P : A → Prop)
    `{!∀ x, Decision (P x)} l :
  StronglySorted R l → StronglySorted R (filter P l).
Proof.
  induction 1 as [|x l Hl IH Hx]; [constructor|].
  rewrite filter_cons. case_decide; [|done].
  constructor; [done|]. apply Forall_forall. intros y Hy.
  apply list_elem_of_filter in Hy as [_ Hy].
  rewrite Forall_forall in Hx. by apply Hx.
Qed.

(** Operations in ascending order are in the order Upload, Download,
    Delete. *)
Lemma sorted_operations_sublist ops :
  StronglySorted Operation_lt ops → ops `sublist_of` [Upload; Download; Delete].
Proof.
  intros Hs.
  assert (ops = filter (λ o, o ∈ ops) [Upload; Download; Delete]) as ->.
  { apply (strictly_sorted_unique Operation_less); [done| |].
    - apply StronglySorted_filter. by repeat constructor.
    - intros o. rewrite list_elem_of_filter. split; [|tauto].
      intros Ho. split; [done|]. destruct o; set_solver. }
  apply sublist_filter.
Qed.

(** What [formatResults] returns, from the sorted identifiers. *)
Lemma formatResults_cases sizes results fts eps ops :
  uniqueSortedIDs results = (fts, eps, ops) →
  (formatResults sizes results = Ok (reportOf sizes results fts eps ops) ∧
   (eps = [] ∨ ops = [] ∨ Forall (λ x, sizeOf sizes x ≠ 0) fts)) ∨
  (∃ before x after,
     fts = before ++ x :: after ∧
     Forall (λ x, sizeOf sizes x ≠ 0) before ∧ sizeOf sizes x = 0 ∧
     eps ≠ [] ∧ ops ≠ [] ∧
     formatResults sizes results = Err (unknownSize x)).
Proof.
  intros Hids.
  destruct (decide (eps = [])) as [Heps|Heps].
  { left. split; [|by left]. apply formatResults_ok; [done|by left]. }
  destruct (decide (ops = [])) as [Hops|Hops].
  { left. split; [|by right; left]. apply formatResults_ok; [done|].
    by right; left. }
  destruct (first_split (λ x, sizeOf sizes x = 0) fts)
    as [Hall|(before & x & after & Hfts & Hbefore & Hx)].
  - left. split; [|by right; right]. apply formatResults_ok; [done|].
    by right; right.
  - right. exists before, x, after. split_and!; try done.
    by eapply formatResults_err.
Qed.

Lemma formatResults_Ok_inv sizes results fts eps ops out :
  uniqueSortedIDs results = (fts, eps, ops) →
  formatResults sizes results = Ok out →
  out = reportOf sizes results fts eps ops ∧
  (eps = [] ∨ ops = [] ∨ Forall (λ x, sizeOf sizes x ≠ 0) fts).
Proof.
  intros Hids Hout.
  destruct (formatResults_cases sizes results fts eps ops Hids)
    as [[Hok Hcond]|(before & x & after & _ & _ & _ & _ & _ & Herr)].
  - rewrite Hok in Hout. by injection Hout as <-.
  - by rewrite Herr in Hout.
Qed.

(** C5. The sections of the report are in ascending order of the
    file-test identifiers, the rows of every section in the order Upload,
    Download, Delete and the columns in ascending order of the endpoint
    identifiers, whatever the order of the calls of [Report]. *)
Theorem report_order (sizes : gmap ID Z) (subs1 subs2 : list Submission) :
  subs1 ≡ₚ subs2 →
  ∃ fts eps ops,
    uniqueSortedIDs (results (reportAll sizes subs1)) = (fts, eps, ops) ∧
    uniqueSortedIDs (results (reportAll sizes subs2)) = (fts, eps, ops) ∧
    StronglySorted ID_lt fts ∧
    StronglySorted ID_lt eps ∧
    ops `sublist_of` [Upload; Download; Delete] ∧
    (∀ x, x ∈ fts ↔ x ∈ map sub_fileTestID subs1) ∧
    (∀ e, e ∈ eps ↔ e ∈ map sub_endpointID subs1) ∧
    (∀ o, o ∈ ops ↔ o ∈ map sub_operation subs1) ∧
    ∀ subs out,
      subs = subs1 ∨ subs = subs2 →
      FormatResults (reportAll sizes subs) = Ok out →
      out =
      concat_strings
        (map (λ ft,
                title ft +:+
                table
                  (("Operation" :: eps) ::
                   map (λ op,
                          Operation_String op ::
                          map (cellOf sizes (results (reportAll sizes subs))
                                 ft op) eps) ops) "-"
                +:+ newline) fts).
Proof.
  intros Hperm.
  destruct (uniqueSortedIDs (results (reportAll sizes subs1)))
    as [[fts eps] ops] eqn:Hids.
  pose proof Hids as Hids2.
  rewrite (reportAll_ids_Permutation sizes sizes subs1 subs2 Hperm) in Hids2.
  pose proof (uniqueSortedIDs_spec _ _ _ _ Hids)
    as ((Hs1 & He1) & (Hs2 & He2) & (Hs3 & He3)).
  exists fts, eps, ops. split_and!; try done.
  - by apply sorted_operations_sublist.
  - intros x. by rewrite He1, reportAll_fileTests.
  - intros x. by rewrite He2, reportAll_endpoints.
  - intros x. by rewrite He3, reportAll_operations.
  - intros subs out Hsubs Hout. unfold FormatResults in Hout.
    rewrite reportAll_sizes in Hout.
    destruct Hsubs as [-> | ->].
    + by destruct (formatResults_Ok_inv _ _ _ _ _ _ Hids Hout) as [-> _].
    + by destruct (formatResults_Ok_inv _ _ _ _ _ _ Hids2 Hout) as [-> _].
Qed.

Lemma report_order_witness :
  let a := mkSubmission Download "ft2" "end2"
             (Some (mkResult 0 8000000000 true "")) in
  let b := mkSubmission Upload "ft1" "end1"
             (Some (mkResult 0 5000000000 true "")) in
  ∃ fts eps ops,
    uniqueSortedIDs (results (reportAll ∅ [a; b])) = (fts, eps, ops) ∧
    uniqueSortedIDs (results (reportAll ∅ [b; a])) = (fts, eps, ops).
Proof.
  intros a b.
  destruct (report_order ∅ [a; b] [b; a] (perm_swap b a []))
    as (fts & eps & ops & H1 & H2 & _).
  exists fts, eps, ops. exact (conj H1 H2).
Defined.

Lemma lookup3_Some_keys results x o e r :
  lookup3 results x o e = Some r →
  hasFileTest results x ∧ hasOperation results o ∧ hasEndpoint results e.
Proof.
  unfold lookup3, hasFileTest, hasOperation, hasEndpoint. intros Hr.
  destruct (results !! x) as [ops|] eqn:Hx; simpl in Hr;
    [|by rewrite lookup_empty in Hr].
  destruct (ops !! o) as [eps|] eqn:Ho; simpl in Hr;
    [|by rewrite lookup_empty in Hr].
  destruct (eps !! e) as [p|] eqn:He; simpl in Hr; [|done].
  split_and!.
  - by eexists.
  - exists x, ops. split; [done|]. by eexists.
  - exists x, ops, o, eps. split_and!; [done..|]. by eexists.
Qed.

(** C1, as the code has it. In a report that [formatResults] returns, the
    cell of a file-test, an operation and an endpoint is: ["-"] without a
    Result; ["ERR"] for a Result with an error message, whatever its
    duration and success flag; the text of the duration for Delete;
    otherwise the [float64] quotient of the megabits by the seconds,
    printed by [FormatFloat] with precision 2, and [" Mbps"]. The
    quotient is printed with exactly two decimal digits when it is
    finite. *)
Theorem report_cells (sizes : gmap ID Z)
    (results : gmap ID (gmap Operation (gmap ID (option Result))))
    (out : string) :
  formatResults sizes results = Ok out →
  ∃ fts eps ops,
    uniqueSortedIDs results = (fts, eps, ops) ∧
    out =
    concat_strings
      (map (λ ft,
              title ft +:+
              table
                (("Operation" :: eps) ::
                 map (λ op,
                        Operation_String op ::
                        map (cellOf sizes results ft op) eps) ops) "-"
              +:+ newline) fts) ∧
    ∀ ft op ep,
      (lookup3 results ft op ep = None →
       cellOf sizes results ft op ep = "-") ∧
      (∀ r, lookup3 results ft op ep = Some r → Error r ≠ "" →
            cellOf sizes results ft op ep = "ERR") ∧
      (∀ r, lookup3 results ft op ep = Some r → Error r = "" →
            op = Delete →
            cellOf sizes results ft op ep = Go.Duration_String (Duration r)) ∧
      (∀ r, lookup3 results ft op ep = Some r → Error r = "" →
            op = Upload ∨ op = Download →
            let q := megabitsPerSecond (sizeOf sizes ft) (Duration r) in
            cellOf sizes results ft op ep = Go.FormatFloat_f2 q +:+ " Mbps" ∧
            (Go.is_finite q = true → twoDecimals (Go.FormatFloat_f2 q))).
Proof.
  intros Hout.
  destruct (uniqueSortedIDs results) as [[fts eps] ops] eqn:Hids.
  destruct (formatResults_Ok_inv _ _ _ _ _ _ Hids Hout) as [-> _].
  exists fts, eps, ops. split; [done|]. split; [done|].
  intros ft op ep. unfold cellOf, formatResultForRow. split_and!.
  - by intros ->.
  - intros r -> Herr. by rewrite eqb_empty_false.
  - intros r -> -> ->. done.
  - intros r -> -> Hop. cbv zeta. split.
    + simpl. by destruct Hop as [-> | ->].
    + apply FormatFloat_f2_finite.
Qed.

Lemma report_cells_witness :
  let results :=
    results (reportAll ∅ [mkSubmission Upload "ft1" "end1"
                            (Some (mkResult 0 5000000000 true ""))]) in
  let sizes : gmap ID Z := {["ft1" := 10000000]} in
  ∃ fts eps ops, uniqueSortedIDs results = (fts, eps, ops).
Proof.
  intros results sizes.
  assert (formatResults sizes results =
          Ok (reportOf sizes results ["ft1"] ["end1"] [Upload])) as Hout.
  { vm_compute. reflexivity. }
  destruct (report_cells sizes results _ Hout) as (fts & eps & ops & H1 & _).
  exists fts, eps, ops. exact H1.
Defined.

(** C1, as it is stated, fails for a Result without error whose duration
    is zero: the quotient is infinite and the cell is ["+Inf Mbps"], which
    is not a number with two decimal digits followed by [" Mbps"]. *)
Lemma zero_duration_cell :
  let r := mkResult 0 0 true "" in
  let s := reportAll {["ft1" := 10000000]}
             [mkSubmission Upload "ft1" "end1" (Some r)] in
  FormatResults s =
    Ok ("*********" +:+ newline +:+ "File: ft1" +:+ newline +:+
        "*********" +:+ newline +:+ newline +:+
        "Operation     end1" +:+ newline +:+
        "-----------------------" +:+ newline +:+
        "Upload        +Inf Mbps" +:+ newline +:+ newline) ∧
  lookup3 (results s) "ft1" Upload "end1" = Some r ∧
  Error r = "" ∧
  cellOf (fileTestSizes s) (results s) "ft1" Upload "end1" = "+Inf Mbps" ∧
  ¬ ∃ number,
      twoDecimals number ∧
      cellOf (fileTestSizes s) (results s) "ft1" Upload "end1" =
      number +:+ " Mbps".
Proof.
  intros r s. split_and!; try (vm_compute; reflexivity).
  intros (number & Hnum%twoDecimals_point & Hcell).
  assert (hasChar "." (number +:+ " Mbps") = true) as Hpoint.
  { rewrite hasChar_app, Hnum. done. }
  rewrite <- Hcell in Hpoint. vm_compute in Hpoint.
  exact (Bool.diff_false_true Hpoint).
Qed.

(** The first test of the reporter. *)
Example TestTextReporter :
  FormatResults
    (reportAll {["ft1" := 10000000; "ft2" := 20000000]}
       [mkSubmission Upload "ft1" "end1" (Some (mkResult 0 5000000000 true ""));
        mkSubmission Upload "ft1" "end2" (Some (mkResult 0 8000000000 true ""));
        mkSubmission Download "ft1" "end2" (Some (mkResult 0 8000000000 true ""));
        mkSubmission Download "ft2" "end2" (Some (mkResult 0 8000000000 true ""))]) =
  Ok ("*********" +:+ newline +:+ "File: ft1" +:+ newline +:+
      "*********" +:+ newline +:+ newline +:+
      "Operation     end1           end2" +:+ newline +:+
      "---------------------------------------" +:+ newline +:+
      "Upload        16.00 Mbps     10.00 Mbps" +:+ newline +:+
      "Download      -              10.00 Mbps" +:+ newline +:+ newline +:+
      "*********" +:+ newline +:+ "File: ft2" +:+ newline +:+
      "*********" +:+ newline +:+ newline +:+
      "Operation     end1     end2" +:+ newline +:+
      "---------------------------------" +:+ newline +:+
      "Upload        -        -" +:+ newline +:+
      "Download      -        20.00 Mbps" +:+ newline +:+ newline).
Proof. vm_compute. reflexivity. Qed.

(** The second test of the reporter: a Result with an error and the
    success flag. *)
Example TestTextReporter_error :
  FormatResults
    (reportAll {["ft1" := 10000000]}
       [mkSubmission Upload "ft1" "end1"
          (Some (mkResult 0 5000000000 true "Here is an error"))]) =
  Ok ("*********" +:+ newline +:+ "File: ft1" +:+ newline +:+
      "*********" +:+ newline +:+ newline +:+
      "Operation     end1" +:+ newline +:+
      "------------------" +:+ newline +:+
      "Upload        ERR" +:+ newline +:+ newline).
Proof. vm_compute. reflexivity. Qed.

Lemma foldl_submit_results subs : ∀ s1 s2,
  results s1 = results s2 →
  results (foldl submit s1 subs) = results (foldl submit s2 subs).
Proof.
  induction subs as [|sub subs IH]; intros s1 s2 Heq; cbn [foldl]; [done|].
  apply IH. unfold submit. by rewrite !Report_results, Heq.
Qed.

(** The store does not depend on the configured sizes. *)
Lemma reportAll_results sizes1 sizes2 subs :
  results (reportAll sizes1 subs) = results (reportAll sizes2 subs).
Proof. by apply foldl_submit_results. Qed.

Lemma reportOf_sizes_ext sizes1 sizes2 results fts eps ops :
  (∀ x, x ∈ fts → sizeOf sizes1 x = sizeOf sizes2 x) →
  reportOf sizes1 results fts eps ops = reportOf sizes2 results fts eps ops.
Proof.
  intros Hext. unfold reportOf. f_equal. apply map_ext_in.
  intros ft Hft%list_elem_of_In. unfold sectionOf, tableOf. do 4 f_equal.
  apply map_ext. intros op. unfold rowOf. f_equal. apply map_ext.
  intros ep. unfold cellOf. by rewrite Hext.
Qed.

(** [formatResults] reads the sizes of the file-tests of the store
    only. *)
Lemma formatResults_sizes_ext sizes1 sizes2 results :
  (∀ x, hasFileTest results x → sizeOf sizes1 x = sizeOf sizes2 x) →
  formatResults sizes1 results = formatResults sizes2 results.
Proof.
  intros Hext.
  destruct (uniqueSortedIDs results) as [[fts eps] ops] eqn:Hids.
  destruct (uniqueSortedIDs_spec _ _ _ _ Hids) as ((_ & Hel) & _).
  assert (∀ x, x ∈ fts → sizeOf sizes1 x = sizeOf sizes2 x) as Hext'.
  { intros x Hx. by apply Hext, Hel. }
  destruct (formatResults_cases sizes1 results fts eps ops Hids)
    as [[Hok Hcond]|(before & x & after & Hfts & Hbefore & Hx & He & Ho & Herr)].
  - rewrite Hok. symmetry.
    rewrite (formatResults_ok sizes2 results fts eps ops Hids).
    + f_equal. symmetry. by apply reportOf_sizes_ext.
    + destruct Hcond as [?|[?|Hall]]; [by left|by right; left|].
      right; right. rewrite Forall_forall in Hall. apply Forall_forall.
      intros y Hy. rewrite <- Hext' by done. by apply Hall.
  - rewrite Herr. symmetry.
    apply (formatResults_err sizes2 results fts eps ops before x after);
      try done.
    + rewrite Forall_forall in Hbefore. apply Forall_forall.
      intros y Hy. rewrite <- Hext'; [by apply Hbefore|].
      rewrite Hfts. apply elem_of_app. by left.
    + rewrite <- Hext'; [done|]. rewrite Hfts. apply elem_of_app. right.
      by left.
Qed.

Lemma sizeOf_insert_ne sizes x y n :
  x ≠ y → sizeOf (<[x := n]> sizes) y = sizeOf sizes y.
Proof. intros. unfold sizeOf. by rewrite lookup_insert_ne. Qed.

(** C2, as the code has it. A file-test without submission has no section
    in the report, whether its size is configured or not, and its size is
    not read: the report, or the error, is the same for every size of it.
    The sections are those of the file-tests with a submission, and a cell
    without Result in them is ["-"]. *)
Theorem no_section_without_submission (sizes : gmap ID Z)
    (subs : list Submission) (x : ID) :
  x ∉ map sub_fileTestID subs →
  ∃ fts eps ops,
    uniqueSortedIDs (results (reportAll sizes subs)) = (fts, eps, ops) ∧
    (x ∉ fts) ∧
    (∀ ft, ft ∈ fts ↔ ft ∈ map sub_fileTestID subs) ∧
    (∀ n, FormatResults (reportAll (<[x := n]> sizes) subs) =
          FormatResults (reportAll sizes subs)) ∧
    ∀ out,
      FormatResults (reportAll sizes subs) = Ok out →
      out = reportOf sizes (results (reportAll sizes subs)) fts eps ops ∧
      ∀ ft op ep,
        lookup3 (results (reportAll sizes subs)) ft op ep = None →
        cellOf sizes (results (reportAll sizes subs)) ft op ep = "-".
Proof.
  intros Hx.
  destruct (uniqueSortedIDs (results (reportAll sizes subs)))
    as [[fts eps] ops] eqn:Hids.
  destruct (uniqueSortedIDs_spec _ _ _ _ Hids) as ((_ & Hel) & _).
  assert (∀ ft, ft ∈ fts ↔ ft ∈ map sub_fileTestID subs) as Hfts.
  { intros ft. by rewrite Hel, reportAll_fileTests. }
  exists fts, eps, ops. split_and!; [done| |done| |].
  - by rewrite Hfts.
  - intros n. unfold FormatResults. rewrite !reportAll_sizes.
    rewrite (reportAll_results (<[x := n]> sizes) sizes).
    apply formatResults_sizes_ext. intros y Hy.
    apply sizeOf_insert_ne. intros <-. apply Hx.
    by apply reportAll_fileTests in Hy.
  - intros out Hout. unfold FormatResults in Hout.
    rewrite reportAll_sizes in Hout.
    destruct (formatResults_Ok_inv _ _ _ _ _ _ Hids Hout) as [-> _].
    split; [done|]. intros ft op ep Hnone.
    unfold cellOf. by rewrite Hnone.
Qed.

Lemma no_section_without_submission_witness :
  let subs := [mkSubmission Upload "ft1" "end1"
                 (Some (mkResult 0 5000000000 true ""))] in
  ∃ fts eps ops,
    uniqueSortedIDs (results (reportAll ∅ subs)) = (fts, eps, ops) ∧
    "ft2" ∉ fts.
Proof.
  intros subs.
  assert ("ft2" ∉ map sub_fileTestID subs) as Hx.
  { simpl. intros Hin%list_elem_of_singleton. discriminate. }
  destruct (no_section_without_submission ∅ subs "ft2" Hx)
    as (fts & eps & ops & H1 & H2 & _).
  exists fts, eps, ops. exact (conj H1 H2).
Defined.

(** C2, as it is stated, fails: the file-test ["ft2"] has a configured
    size and no submission, and the report has no section for it. *)
Lemma configured_without_submission :
  let sizes : gmap ID Z := {["ft1" := 10000000; "ft2" := 20000000]} in
  let subs := [mkSubmission Upload "ft1" "end1"
                 (Some (mkResult 0 5000000000 true ""))] in
  ("ft2" ∉ map sub_fileTestID subs) ∧
  sizeOf sizes "ft2" = 20000000 ∧
  FormatResults (reportAll sizes subs) =
    Ok ("*********" +:+ newline +:+ "File: ft1" +:+ newline +:+
        "*********" +:+ newline +:+ newline +:+
        "Operation     end1" +:+ newline +:+
        "------------------------" +:+ newline +:+
        "Upload        16.00 Mbps" +:+ newline +:+ newline) ∧
  ¬ ∃ out before after,
      FormatResults (reportAll sizes subs) = Ok out ∧
      out = before +:+ (title "ft2" +:+ after).
Proof.
  intros sizes subs. split_and!.
  - simpl. intros Hin%list_elem_of_singleton. discriminate.
  - vm_compute. reflexivity.
  - vm_compute. reflexivity.
  - intros (out & before & after & Hout & Heq).
    pose proof (contains_app (title "ft2") before after) as Hc.
    rewrite <- Heq in Hc.
    assert (FormatResults (reportAll sizes subs) =
      Ok ("*********" +:+ newline +:+ "File: ft1" +:+ newline +:+
          "*********" +:+ newline +:+ newline +:+
          "Operation     end1" +:+ newline +:+
          "------------------------" +:+ newline +:+
          "Upload        16.00 Mbps" +:+ newline +:+ newline)) as Hrun.
    { vm_compute. reflexivity. }
    rewrite Hrun in Hout. injection Hout as <-.
    vm_compute in Hc. exact (Bool.diff_false_true Hc).
Qed.

(** C3, as the code has it. When the store has a Result for a file-test
    whose size is unknown or zero, [formatResults] returns no report but
    the error that names the least file-test identifier of the store whose
    size is unknown or zero: the file-test itself when no smaller one of
    the store is unknown or zero. *)
Theorem unknown_size_error (sizes : gmap ID Z)
    (results : gmap ID (gmap Operation (gmap ID (option Result))))
    (x : ID) (o : Operation) (e : ID) (r : Result) :
  lookup3 results x o e = Some r →
  sizeOf sizes x = 0 →
  ∃ y,
    formatResults sizes results = Err ("Unknown fileTestSize for " +:+ y) ∧
    hasFileTest results y ∧
    sizeOf sizes y = 0 ∧
    (∀ z, hasFileTest results z → sizeOf sizes z = 0 → z = y ∨ ID_lt y z) ∧
    ((∀ z, hasFileTest results z → ID_lt z x → sizeOf sizes z ≠ 0) → y = x).
Proof.
  intros Hr Hx.
  destruct (lookup3_Some_keys _ _ _ _ _ Hr) as (Hkx & Hko & Hke).
  destruct (uniqueSortedIDs results) as [[fts eps] ops] eqn:Hids.
  destruct (uniqueSortedIDs_spec _ _ _ _ Hids)
    as ((Hs1 & He1) & (_ & He2) & (_ & He3)).
  apply He1 in Hkx. apply He2 in Hke. apply He3 in Hko.
  destruct (formatResults_cases sizes results fts eps ops Hids)
    as [[_ Hcond]|(before & y & after & Hfts & Hbefore & Hy & _ & _ & Herr)].
  { destruct Hcond as [->|[->|Hall]].
    - by apply elem_of_nil in Hke.
    - by apply elem_of_nil in Hko.
    - rewrite Forall_forall in Hall. by destruct (Hall x Hkx). }
  subst fts.
  apply StronglySorted_app in Hs1 as (Hlt & _ & Hs1).
  apply StronglySorted_cons in Hs1 as [Hafter _].
  rewrite Forall_forall in Hbefore, Hafter.
  assert (∀ z, z ∈ before ++ y :: after → sizeOf sizes z = 0 →
               z = y ∨ ID_lt y z) as Hleast.
  { intros z Hz Hz0. apply elem_of_app in Hz as [Hz|Hz].
    - by destruct (Hbefore z Hz).
    - apply elem_of_cons in Hz as [->|Hz]; [by left|right; by apply Hafter]. }
  exists y. split_and!; try done.
  - apply He1, elem_of_app. right. by left.
  - intros z Hz. apply Hleast. by apply He1.
  - intros Hsmaller. destruct (Hleast x Hkx Hx) as [->|Hlt']; [done|].
    destruct (Hsmaller y); [|done..].
    apply He1, elem_of_app. right. by left.
Qed.

Lemma unknown_size_error_witness :
  let r := mkResult 0 5000000000 true "" in
  let results := results (reportAll ∅ [mkSubmission Upload "a" "e" (Some r)]) in
  ∃ y, formatResults ∅ results = Err ("Unknown fileTestSize for " +:+ y).
Proof.
  intros r results.
  assert (lookup3 results "a" Upload "e" = Some r) as Hr.
  { vm_compute. reflexivity. }
  assert (sizeOf ∅ "a" = 0) as Hx.
  { vm_compute. reflexivity. }
  destruct (unknown_size_error ∅ results "a" Upload "e" r Hr Hx)
    as (y & Hy & _).
  exists y. exact Hy.
Defined.

(** C3, as it is stated, fails: the store has a Result for the file-test
    ["b"], whose size is unknown, and so has the file-test ["a"]; the
    error names ["a"] and not ["b"]. *)
Lemma unknown_size_names_least :
  let r := mkResult 0 5000000000 true "" in
  let results :=
    results (reportAll ∅ [mkSubmission Upload "a" "e" (Some r);
                          mkSubmission Upload "b" "e" (Some r)]) in
  lookup3 results "b" Upload "e" = Some r ∧
  sizeOf ∅ "b" = 0 ∧
  formatResults ∅ results = Err "Unknown fileTestSize for a" ∧
  formatResults ∅ results ≠ Err ("Unknown fileTestSize for " +:+ "b").
Proof.
  intros r results.
  assert (formatResults ∅ results = Err "Unknown fileTestSize for a") as Hrun.
  { vm_compute. reflexivity. }
  split_and!; try (vm_compute; reflexivity).
  rewrite Hrun. intros [=].
Qed.

End report_properties.

(** ** Runs *)

Section runs.

Import check runs.

Context {W : Type}.

Lemma runs_ret {A} (a : A) (Q : A → list Event → Prop) :
  Q a [] → runs (mret a : M W A) Q.
Proof.
  intros HQ st. exists a, st, []. split; [done|].
  by rewrite app_nil_r.
Qed.

Lemma runs_bind {A B} (m : M W A) (f : A → M W B)
    (P : A → list Event → Prop) (Q : B → list Event → Prop) :
  runs m P →
  (∀ a evs1, P a evs1 → runs (f a) (λ b evs2, Q b (evs1 ++ evs2))) →
  runs (m ≫= f) Q.
Proof.
  intros Hm Hf st. destruct (Hm st) as (a & st1 & evs1 & Hrun1 & Hev1 & HP).
  destruct (Hf a evs1 HP st1) as (b & st2 & evs2 & Hrun2 & Hev2 & HQ).
  exists b, st2, (evs1 ++ evs2). split_and!; [|by rewrite Hev2, Hev1, app_assoc|done].
  unfold mbind, M_mbind, M_bind. by rewrite Hrun1.
Qed.

Lemma runs_weaken {A} (m : M W A) (P Q : A → list Event → Prop) :
  runs m P → (∀ a evs, P a evs → Q a evs) → runs m Q.
Proof.
  intros Hm HPQ st. destruct (Hm st) as (a & st1 & evs1 & Hrun1 & Hev1 & HP).
  exists a, st1, evs1. eauto.
Qed.

Lemma runs_call {A} (f : W → A * W) (Q : A → list Event → Prop) :
  (∀ w, Q (f w).1 []) → runs (call f) Q.
Proof.
  intros HQ st. unfold call. specialize (HQ (world st)).
  destruct (f (world st)) as [a w] eqn:Hf.
  exists a, {| world := w; events := events st |}, []. simpl.
  split_and!; [done|by rewrite app_nil_r|done].
Qed.

Lemma runs_emit (e : Event) (Q : unit → list Event → Prop) :
  Q tt [e] → runs (emit e : M W unit) Q.
Proof.
  intros HQ st. by exists tt, {| world := world st; events := events st ++ [e] |}, [e].
Qed.

Lemma runs_forM {A B} (l : list A) (body : A → M W B) (P : B → Prop)
    (Inv : list Event → Prop) :
  Inv [] →
  (∀ evs1 evs2, Inv evs1 → Inv evs2 → Inv (evs1 ++ evs2)) →
  (∀ x, x ∈ l → runs (body x) (λ y evs, P y ∧ Inv evs)) →
  runs (forM l body) (λ ys evs, Forall P ys ∧ Inv evs).
Proof.
  intros Hnil Happ. induction l as [|x l IH]; intros Hbody; simpl.
  - by apply runs_ret.
  - eapply runs_bind; [apply Hbody; by left|].
    intros y evs1 [Hy Hevs1]. eapply runs_bind.
    + apply IH. intros z Hz. apply Hbody. by right.
    + intros ys evs2 [Hys Hevs2]. apply runs_ret.
      rewrite app_nil_r. split; [by constructor|by apply Happ].
Qed.

Lemma runs_untilError {A} (l : list A) (body : A → M W Go.error)
    (P : Go.error → list Event → Prop) :
  P None [] →
  (∀ evs1 evs2 err, P None evs1 → P err evs2 → P err (evs1 ++ evs2)) →
  (∀ x, x ∈ l → runs (body x) P) →
  runs (untilError l body) P.
Proof.
  intros Hnil Happ. induction l as [|x l IH]; intros Hbody; simpl.
  - by apply runs_ret.
  - eapply runs_bind; [apply Hbody; by left|].
    intros [msg|] evs1 Hevs1.
    + apply runs_ret. by rewrite app_nil_r.
    + eapply runs_weaken.
      * apply IH. intros z Hz. apply Hbody. by right.
      * intros err evs2 Hevs2. by apply Happ.
Qed.

Lemma reportsOf_app evs1 evs2 :
  reportsOf (evs1 ++ evs2) = reportsOf evs1 ++ reportsOf evs2.
Proof. apply filter_app. Qed.

Lemma errorIn_firstError E errs :
  Forall (errorIn E) errs → errorIn E (firstError errs).
Proof.
  induction 1 as [|[msg|] errs Herr _ IH]; simpl; [by intros ?| |done].
  intros msg' [= <-]. by apply Herr.
Qed.

Lemma firstError_None errs :
  firstError errs = None ↔ Forall (λ err, err = None) errs.
Proof.
  induction errs as [|[msg|] errs IH]; simpl.
  - split; [constructor|done].
  - split; [done|]. by intros [[=] _]%Forall_cons.
  - rewrite IH. split; [by constructor|]. by intros [_ ?]%Forall_cons.
Qed.

End runs.

(** ** The checker *)

Section checker.

Import check runs.

Context {W : Type}.
Variable randRead : Z → nat → list Byte.byte.
Variable sha256_Sum : list Byte.byte → list Byte.byte.
Variable now : W → Z * W.
Variable schedule : nat → list nat.
Variable Quote : string → string.

(** Every worker of a fan-out runs once. *)
Hypothesis schedule_perm : ∀ n, schedule n ≡ₚ seq 0 n.

(** The messages of the errors. *)
Variable E : string → Prop.
Hypothesis E_unexpected : ∀ fileTestID i expected digest,
  E (unexpectedContents Quote fileTestID i expected digest).

Lemma newResultNow_runs :
  runs (newResultNow now) (λ r evs, evs = [] ∧ Error r = "").
Proof.
  unfold newResultNow. eapply runs_bind; [by apply (runs_call now (λ _ evs, evs = []))|].
  intros t evs1 ->. by apply runs_ret.
Qed.

Lemma WithTimeout_runs ctx d :
  runs (WithTimeout now ctx d) (λ _ evs, evs = []).
Proof.
  unfold WithTimeout. eapply runs_bind; [by apply (runs_call now (λ _ evs, evs = []))|].
  intros t evs1 ->. by apply runs_ret.
Qed.

Lemma Since_runs start : runs (Since now start) (λ _ evs, evs = []).
Proof.
  unfold Since. eapply runs_bind; [by apply (runs_call now (λ _ evs, evs = []))|].
  intros t evs1 ->. by apply runs_ret.
Qed.

Lemma finish_runs result err :
  Error result = "" →
  errorIn E err →
  runs (finish now result err) (λ r evs, evs = [] ∧ resultOf E r).
Proof.
  intros Hres Herr. unfold finish.
  eapply runs_bind; [apply Since_runs|].
  intros d evs1 ->. apply runs_ret. split; [done|].
  destruct err as [msg|]; simpl.
  - right. split; [done|]. by apply Herr.
  - by left.
Qed.

Lemma report_runs (c : Checker W) operation fileTestID endpointID result :
  runs (report c operation fileTestID endpointID result)
    (λ err evs,
       evs = [EReport operation fileTestID endpointID result err]).
Proof.
  unfold report. eapply runs_bind.
  { by apply (runs_call _ (λ _ evs, evs = [])). }
  intros err evs1 ->. eapply runs_bind.
  { by apply (runs_emit _ (λ _ evs,
      evs = [EReport operation fileTestID endpointID result err])). }
  intros [] evs2 ->. apply runs_ret. by rewrite app_nil_r.
Qed.

Lemma runParallel_runs ctx numParallel (f : Z → M W Go.error) :
  (∀ i, (i < Z.to_nat numParallel)%nat →
        runs (f (Z.of_nat i)) (λ err evs, errorIn E err ∧ reportsOf evs = [])) →
  runs (runParallel schedule ctx numParallel f)
    (λ err evs, errorIn E err ∧ reportsOf evs = []).
Proof.
  intros Hf. unfold runParallel. eapply runs_bind.
  - apply (runs_forM _ _ (errorIn E) (λ evs, reportsOf evs = [])).
    + done.
    + intros evs1 evs2 H1 H2. by rewrite reportsOf_app, H1, H2.
    + intros i Hi. apply Hf. rewrite schedule_perm in Hi.
      apply elem_of_seq in Hi. lia.
  - intros errs evs1 [Herrs Hevs1]. apply runs_ret. rewrite app_nil_r.
    split; [by apply errorIn_firstError|done].
Qed.

Lemma uploadWorker_runs ctx fileTestID fileTest (endpoint : Endpoint W) i :
  clientErrorsIn E (Endpoint_Client endpoint) →
  runs (uploadWorker randRead ctx fileTestID fileTest endpoint i)
    (λ err evs, errorIn E err ∧ reportsOf evs = []).
Proof.
  intros (Hup & _ & _). unfold uploadWorker.
  eapply runs_bind; [by apply (runs_emit _ (λ _ evs, reportsOf evs = []))|].
  intros [] evs1 Hevs1. apply runs_call. intros w. rewrite app_nil_r.
  split; [apply Hup|done].
Qed.

Lemma delWorker_runs ctx fileTestID (endpoint : Endpoint W) i :
  clientErrorsIn E (Endpoint_Client endpoint) →
  runs (delWorker ctx fileTestID endpoint i)
    (λ err evs, errorIn E err ∧ reportsOf evs = []).
Proof.
  intros (_ & _ & Hdel). unfold delWorker.
  eapply runs_bind; [by apply (runs_emit _ (λ _ evs, reportsOf evs = []))|].
  intros [] evs1 Hevs1. apply runs_call. intros w. rewrite app_nil_r.
  split; [apply Hdel|done].
Qed.

Lemma downloadWorker_runs ctx fileTestID (endpoint : Endpoint W)
    expectedHashes i :
  clientErrorsIn E (Endpoint_Client endpoint) →
  (Z.to_nat i < length expectedHashes)%nat →
  runs (downloadWorker sha256_Sum Quote ctx fileTestID endpoint
          expectedHashes i)
    (λ err evs, errorIn E err ∧ reportsOf evs = []).
Proof.
  intros (_ & Hdown & _) Hi. unfold downloadWorker.
  eapply runs_bind; [by apply (runs_emit _ (λ _ evs, reportsOf evs = []))|].
  intros [] evs1 Hevs1. eapply runs_bind.
  { apply (runs_call _ (λ r evs,
      evs = [] ∧
      match r with
      | inl strm => errorIn E (failure (stream strm))
      | inr msg => E msg
      end)).
    intros w. split; [done|]. apply Hdown. }
  intros r evs2 [-> Hr]. destruct r as [strm|msg].
  - destruct (failure (stream strm)) as [msg|] eqn:Hfail.
    + apply runs_ret. simpl. rewrite ?app_nil_r. split; [|done].
      intros ? [= <-]. by apply Hr.
    + destruct (lookup_lt_is_Some_2 expectedHashes (Z.to_nat i) Hi)
        as [expected Hexp].
      rewrite Hexp. case_decide.
      * apply runs_ret. simpl. by rewrite ?app_nil_r.
      * apply runs_ret. simpl. rewrite ?app_nil_r. split; [|done].
        intros ? [= <-]. apply E_unexpected.
  - apply runs_ret. simpl. rewrite ?app_nil_r. split; [|done].
    by intros ? [= <-].
Qed.

Lemma upload_runs ctx fileTestID fileTest (endpoint : Endpoint W) :
  clientErrorsIn E (Endpoint_Client endpoint) →
  runs (upload randRead now schedule ctx fileTestID fileTest endpoint)
    (λ err evs, errorIn E err ∧ reportsOf evs = []).
Proof.
  intros Hcl. unfold upload. eapply runs_bind; [apply WithTimeout_runs|].
  intros ctx' evs1 ->. apply runParallel_runs. intros i _.
  by apply uploadWorker_runs.
Qed.

Lemma del_runs ctx fileTestID fileTest (endpoint : Endpoint W) :
  clientErrorsIn E (Endpoint_Client endpoint) →
  runs (del now schedule ctx fileTestID fileTest endpoint)
    (λ err evs, errorIn E err ∧ reportsOf evs = []).
Proof.
  intros Hcl. unfold del. eapply runs_bind; [apply WithTimeout_runs|].
  intros ctx' evs1 ->. apply runParallel_runs. intros i _.
  by apply delWorker_runs.
Qed.

Lemma download_runs ctx fileTestID fileTest (endpoint : Endpoint W)
    expectedHashes :
  clientErrorsIn E (Endpoint_Client endpoint) →
  length expectedHashes = Z.to_nat (NumParallel fileTest) →
  runs (download sha256_Sum now schedule Quote ctx fileTestID fileTest
          endpoint expectedHashes)
    (λ err evs, errorIn E err ∧ reportsOf evs = []).
Proof.
  intros Hcl Hlen. unfold download.
  eapply runs_bind; [apply WithTimeout_runs|].
  intros ctx' evs1 ->. apply runParallel_runs. intros i Hi.
  apply downloadWorker_runs; [done|]. rewrite Nat2Z.id. lia.
Qed.

(** The first loop of [Download] does not leave with an error: it has the
    digests of the payloads of all workers. *)
Lemma expectedHashesLoop_inr fileTest indices : ∀ expectedHashes,
  expectedHashesLoop randRead sha256_Sum fileTest indices expectedHashes =
  inr (expectedHashes ++
       map (λ i, sha256_Sum (content (fileReader randRead fileTest
                                        (Z.of_nat i)))) indices).
Proof.
  induction indices as [|i indices IH]; intros expectedHashes; simpl.
  - by rewrite app_nil_r.
  - by rewrite IH, <- app_assoc.
Qed.

(** The end of an operation: the duration, the success flag, the error
    message and the call of [Report]. *)
Lemma finish_report_runs (c : Checker W) operation fileTestID endpointID
    result err :
  Error result = "" →
  errorIn E err →
  runs (result' ← finish now result err;
        report c operation fileTestID endpointID result')
    (λ err' evs,
       ∃ r, evs = [EReport operation fileTestID endpointID r err'] ∧
            resultOf E r).
Proof.
  intros Hres Herr. eapply runs_bind; [by apply finish_runs|].
  intros r evs1 [-> Hr]. eapply runs_weaken; [apply report_runs|].
  intros err' evs2 ->. by exists r.
Qed.

Lemma Checker_Upload_runs (c : Checker W) ctx fileTestID fileTest endpoint :
  clientErrorsIn E (Endpoint_Client endpoint) →
  runs (Checker_Upload randRead now schedule c ctx fileTestID fileTest
          endpoint)
    (λ err evs,
       ∃ r, reportsOf evs =
              [EReport Upload fileTestID (Endpoint_ID endpoint) r err] ∧
            resultOf E r).
Proof.
  intros Hcl. unfold Checker_Upload.
  eapply runs_bind; [apply newResultNow_runs|].
  intros result evs1 [-> Hres]. eapply runs_bind; [by apply upload_runs|].
  intros err evs2 [Herr Hevs2].
  eapply runs_weaken; [by apply finish_report_runs|].
  intros err' evs3 (r & -> & Hr). exists r. split; [|done].
  simpl. by rewrite reportsOf_app, Hevs2.
Qed.

Lemma Checker_Delete_runs (c : Checker W) ctx fileTestID fileTest endpoint :
  clientErrorsIn E (Endpoint_Client endpoint) →
  runs (Checker_Delete now schedule c ctx fileTestID fileTest endpoint)
    (λ err evs,
       ∃ r, reportsOf evs =
              [EReport Delete fileTestID (Endpoint_ID endpoint) r err] ∧
            resultOf E r).
Proof.
  intros Hcl. unfold Checker_Delete.
  eapply runs_bind; [apply newResultNow_runs|].
  intros result evs1 [-> Hres]. eapply runs_bind; [by apply del_runs|].
  intros err evs2 [Herr Hevs2].
  eapply runs_weaken; [by apply finish_report_runs|].
  intros err' evs3 (r & -> & Hr). exists r. split; [|done].
  simpl. by rewrite reportsOf_app, Hevs2.
Qed.

Lemma Checker_Download_runs (c : Checker W) ctx fileTestID fileTest endpoint :
  clientErrorsIn E (Endpoint_Client endpoint) →
  0 ≤ NumParallel fileTest →
  runs (Checker_Download randRead sha256_Sum now schedule Quote c ctx
          fileTestID fileTest endpoint)
    (λ err evs,
       ∃ r, reportsOf evs =
              [EReport Download fileTestID (Endpoint_ID endpoint) r err] ∧
            resultOf E r).
Proof.
  intros Hcl Hn. unfold Checker_Download.
  rewrite (proj2 (Z.ltb_ge _ _) Hn), expectedHashesLoop_inr.
  eapply runs_bind; [apply newResultNow_runs|].
  intros result evs1 [-> Hres]. eapply runs_bind.
  { apply download_runs; [done|]. simpl. by rewrite length_map, length_seq. }
  intros err evs2 [Herr Hevs2].
  eapply runs_weaken; [by apply finish_report_runs|].
  intros err' evs3 (r & -> & Hr). exists r. split; [|done].
  simpl. by rewrite reportsOf_app, Hevs2.
Qed.

Lemma checkReports_stops fileTestID endpointID reports err :
  checkReports fileTestID endpointID reports err →
  stopsAtFirstError reports err.
Proof.
  intros [(r1 & msg & -> & ->)|[(r1 & r2 & msg & -> & ->)|(r1 & r2 & r3 & ->)]].
  - right. by exists [], (EReport Upload fileTestID endpointID r1 (Some msg)), msg.
  - right. exists [EReport Upload fileTestID endpointID r1 None],
      (EReport Download fileTestID endpointID r2 (Some msg)), msg.
    split_and!; try done. by repeat constructor.
  - destruct err as [msg|].
    + right. exists [EReport Upload fileTestID endpointID r1 None;
                     EReport Download fileTestID endpointID r2 None],
        (EReport Delete fileTestID endpointID r3 (Some msg)), msg.
      split_and!; try done. by repeat constructor.
    + left. split; [done|]. by repeat constructor.
Qed.

Lemma stopsAtFirstError_app reports1 reports2 err :
  stopsAtFirstError reports1 None →
  stopsAtFirstError reports2 err →
  stopsAtFirstError (reports1 ++ reports2) err.
Proof.
  intros [[_ H1]|(? & ? & ? & _ & _ & _ & [=])].
  intros [[-> H2]|(before & last & msg & -> & H2 & Hlast & ->)].
  - left. split; [done|]. by apply Forall_app.
  - right. exists (reports1 ++ before), last, msg.
    split_and!; [by rewrite app_assoc| |done..]. by apply Forall_app.
Qed.

Lemma RunCheck_runs (c : Checker W) ctx fileTestID fileTest endpoint :
  clientErrorsIn E (Endpoint_Client endpoint) →
  runs (RunCheck randRead sha256_Sum now schedule Quote c ctx fileTestID
          fileTest endpoint)
    (checked E fileTestID (Endpoint_ID endpoint)).
Proof.
  intros Hcl. unfold RunCheck.
  eapply runs_bind.
  { instantiate (1 := λ _ evs, evs = []).
    case_match.
    - eapply runs_bind; [by apply (runs_call now (λ _ evs, evs = []))|].
      intros t evs1 ->. by apply runs_ret.
    - by apply runs_ret. }
  intros fileTest2 evs0 ->.
  match goal with
  | |- runs (Checker_Upload _ _ _ _ _ _ ?ft _ ≫= _) _ =>
      assert (0 ≤ NumParallel ft) as Hn by (case_match; simpl; lia);
      generalize dependent ft; intros fileTest3 Hn
  end.
  eapply runs_bind; [by apply Checker_Upload_runs|].
  intros err1 evs1 (r1 & Hevs1 & Hr1). destruct err1 as [msg1|].
  { apply runs_ret. rewrite !app_nil_r. simpl. split.
    - left. by exists r1, msg1.
    - rewrite Hevs1. by apply Forall_singleton. }
  eapply runs_bind; [by apply Checker_Download_runs|].
  intros err2 evs2 (r2 & Hevs2 & Hr2). destruct err2 as [msg2|].
  { apply runs_ret. rewrite !app_nil_r. simpl. split.
    - right; left. exists r1, r2, msg2. by rewrite reportsOf_app, Hevs1, Hevs2.
    - rewrite reportsOf_app, Hevs1, Hevs2.
      apply Forall_cons. split; [done|]. by apply Forall_singleton. }
  eapply runs_bind; [by apply Checker_Delete_runs|].
  intros err3 evs3 (r3 & Hevs3 & Hr3).
  assert (reportsOf ([] ++ evs1 ++ evs2 ++ evs3 ++ []) =
          [EReport Upload fileTestID (Endpoint_ID endpoint) r1 None;
           EReport Download fileTestID (Endpoint_ID endpoint) r2 None;
           EReport Delete fileTestID (Endpoint_ID endpoint) r3 err3]) as Hall.
  { rewrite app_nil_r. simpl.
    by rewrite !reportsOf_app, Hevs1, Hevs2, Hevs3. }
  assert (Forall (reportedResult E)
            (reportsOf ([] ++ evs1 ++ evs2 ++ evs3 ++ []))) as Hres.
  { rewrite Hall. apply Forall_cons. split; [done|].
    apply Forall_cons. split; [done|]. by apply Forall_singleton. }
  destruct err3 as [msg3|]; apply runs_ret; (split; [|done]).
  - right; right. by exists r1, r2, r3.
  - right; right. by exists r1, r2, r3.
Qed.

Lemma swept_nil : swept E None [].
Proof. split; [left|]; by repeat constructor. Qed.

Lemma swept_app evs1 evs2 err :
  swept E None evs1 → swept E err evs2 → swept E err (evs1 ++ evs2).
Proof.
  intros [H1 G1] [H2 G2]. split; rewrite reportsOf_app.
  - by apply stopsAtFirstError_app.
  - by apply Forall_app.
Qed.

Lemma RunChecks_runs (c : Checker W) ctx :
  Forall (λ endpoint, clientErrorsIn E (Endpoint_Client endpoint))
    (endpoints c) →
  runs (RunChecks randRead sha256_Sum now schedule Quote c ctx) (swept E).
Proof.
  intros Hcl. unfold RunChecks.
  apply runs_untilError; [apply swept_nil|apply swept_app|].
  intros [fileTestID fileTest] _.
  apply runs_untilError; [apply swept_nil|apply swept_app|].
  intros endpoint Hin. rewrite Forall_forall in Hcl.
  eapply runs_weaken; [apply RunCheck_runs; by apply Hcl|].
  intros err evs [Hcheck Hres]. split; [|done].
  by eapply checkReports_stops.
Qed.

End checker.

Section runner_properties.

Import check runs.

Context {W : Type}.
Variable randRead : Z → nat → list Byte.byte.
Variable sha256_Sum : list Byte.byte → list Byte.byte.
Variable now : W → Z * W.
Variable schedule : nat → list nat.
Variable Quote : string → string.

Hypothesis schedule_perm : ∀ n, schedule n ≡ₚ seq 0 n.

Lemma any_error (err : Go.error) : errorIn (λ _, True) err.
Proof. by intros msg _. Qed.

Lemma any_client (client : Client W) : clientErrorsIn (λ _, True) client.
Proof.
  split_and!; intros; try apply any_error. by case_match; [apply any_error|].
Qed.

Lemma unexpectedContents_nonempty fileTestID i expected digest :
  unexpectedContents Quote fileTestID i expected digest ≠ "".
Proof. unfold unexpectedContents. by rewrite str_app_cons. Qed.

(** A call of Download with a negative parallelism panics when it makes
    the slice of the digests. *)
Lemma Checker_Download_negative (c : Checker W) ctx fileTestID fileTest
    endpoint st :
  NumParallel fileTest < 0 →
  Checker_Download randRead sha256_Sum now schedule Quote c ctx fileTestID
    fileTest endpoint st =
  Panic "makeslice: cap out of range".
Proof.
  intros Hn. unfold Checker_Download.
  by rewrite (proj2 (Z.ltb_lt _ _) Hn).
Qed.

Lemma reported_elem_of (P : Event → Prop) evs e :
  Forall P (reportsOf evs) → e ∈ evs → isReport e = true → P e.
Proof.
  intros Hall Hin Hrep. rewrite Forall_forall in Hall. apply Hall.
  by apply list_elem_of_filter.
Qed.

Lemma uploadWorker_event ctx fileTestID fileTest (endpoint : Endpoint W) i :
  runs (uploadWorker randRead ctx fileTestID fileTest endpoint i)
    (λ _ evs,
       evs = [EUpload (Endpoint_ID endpoint) (pathName fileTestID i)
                (content (fileReader randRead fileTest i))]).
Proof.
  unfold uploadWorker. eapply runs_bind.
  { by apply (runs_emit _ (λ _ evs,
      evs = [EUpload (Endpoint_ID endpoint) (pathName fileTestID i)
               (content (fileReader randRead fileTest i))])). }
  intros [] evs1 ->. by apply runs_call.
Qed.

Lemma delWorker_event ctx fileTestID (endpoint : Endpoint W) i :
  runs (delWorker ctx fileTestID endpoint i)
    (λ _ evs,
       evs = [EDelete (Endpoint_ID endpoint) (pathName fileTestID i)]).
Proof.
  unfold delWorker. eapply runs_bind.
  { by apply (runs_emit _ (λ _ evs,
      evs = [EDelete (Endpoint_ID endpoint) (pathName fileTestID i)])). }
  intros [] evs1 ->. by apply runs_call.
Qed.

Lemma downloadWorker_event ctx fileTestID (endpoint : Endpoint W)
    expectedHashes i :
  (Z.to_nat i < length expectedHashes)%nat →
  runs (downloadWorker sha256_Sum Quote ctx fileTestID endpoint
          expectedHashes i)
    (λ _ evs,
       evs = [EDownload (Endpoint_ID endpoint) (pathName fileTestID i)]).
Proof.
  intros Hi. unfold downloadWorker. eapply runs_bind.
  { by apply (runs_emit _ (λ _ evs,
      evs = [EDownload (Endpoint_ID endpoint) (pathName fileTestID i)])). }
  intros [] evs1 ->. eapply runs_bind.
  { by apply (runs_call _ (λ _ evs, evs = [])). }
  intros r evs2 ->. destruct r as [strm|msg]; [|by apply runs_ret].
  destruct (failure (stream strm)); [by apply runs_ret|].
  destruct (lookup_lt_is_Some_2 expectedHashes (Z.to_nat i) Hi)
    as [expected ->].
  case_decide; by apply runs_ret.
Qed.

(** C6. The payload of a worker is a function of the sum of the seed and
    the index of the worker, as an [int64], and of the size only; and the
    digest that Download expects for a worker is the digest of the bytes
    that Upload gives to the client for this worker, for the same
    file-test. *)
Theorem payload_deterministic :
  (∀ fileTest1 fileTest2 i1 i2,
     Go.wrap64 (Seed fileTest1 + i1) = Go.wrap64 (Seed fileTest2 + i2) →
     Size fileTest1 = Size fileTest2 →
     fileReader randRead fileTest1 i1 = fileReader randRead fileTest2 i2) ∧
  (∀ ctx fileTestID fileTest (endpoint : Endpoint W) (n i : nat),
     (i < n)%nat →
     ∃ expectedHashes data,
       expectedHashesLoop randRead sha256_Sum fileTest (seq 0 n) [] =
         inr expectedHashes ∧
       runs (uploadWorker randRead ctx fileTestID fileTest endpoint
               (Z.of_nat i))
         (λ _ evs,
            evs = [EUpload (Endpoint_ID endpoint)
                     (pathName fileTestID (Z.of_nat i)) data]) ∧
       expectedHashes !! i = Some (sha256_Sum data)).
Proof.
  split.
  - intros fileTest1 fileTest2 i1 i2 Hseed Hsize. unfold fileReader.
    by rewrite Hseed, Hsize.
  - intros ctx fileTestID fileTest endpoint n i Hi.
    eexists _, _. split; [apply expectedHashesLoop_inr|].
    split; [apply uploadWorker_event|].
    rewrite app_nil_l, list_lookup_fmap, lookup_seq_lt by done. done.
Qed.

End runner_properties.

(** ** The checker in a world with a store in memory *)

Section example.

Import check runs example.

Lemma schedule_Permutation n : schedule n ≡ₚ seq 0 n.
Proof. done. Qed.

Lemma memoryClient_errors : clientErrorsIn (λ msg, msg ≠ "") memoryClient.
Proof.
  split_and!.
  - intros ctx name r w msg. simpl. destruct (failure r); simpl; [|done].
    by intros [= <-].
  - intros ctx name w. simpl. by destruct (objects w !! name).
  - intros ctx name w msg. simpl. destruct (objects w !! name); simpl; [done|].
    by intros [= <-].
Qed.

(** The report of the checks with a client whose uploads fail with an
    error whose message is empty: the upload that failed has a
    throughput. *)
Example silent_report :
  reportAfter (RunChecks randRead sum_Sum now schedule Quote
                 (checker [silentEndpoint]) None initial) =
  Ok ("*********" +:+ report.newline +:+ "File: ft1" +:+ report.newline +:+
      "*********" +:+ report.newline +:+ report.newline +:+
      "Operation     silent" +:+ report.newline +:+
      "-----------------------" +:+ report.newline +:+
      "Upload        0.00 Mbps" +:+ report.newline +:+
      "Download      ERR" +:+ report.newline +:+
      "Delete        ERR" +:+ report.newline +:+ report.newline).
Proof. vm_compute. reflexivity. Qed.

Lemma payload_deterministic_witness :
  ∃ expectedHashes data,
    expectedHashesLoop randRead sum_Sum smallTest (seq 0 2) [] =
      inr expectedHashes ∧
    expectedHashes !! 1%nat = Some (sum_Sum data).
Proof.
  destruct (proj2 (payload_deterministic (W := World) randRead sum_Sum)
              None "ft1" smallTest memoryEndpoint 2%nat 1%nat
              (Nat.lt_succ_diag_r 1))
    as (expectedHashes & data & H1 & _ & H3).
  exists expectedHashes, data. exact (conj H1 H3).
Defined.

End example.

(** * Further properties of the code *)

(** ** The outcomes of MakeTable *)

Section MakeTable_outcomes.

Import report layout.

Lemma skipEmpty_head rows header body :
  skipEmpty rows = header :: body → header ≠ [].
Proof.
  induction rows as [|[|c row] rows IH]; simpl; [done|done|].
  by intros [= <- _].
Qed.

Lemma skipEmpty_nil rows : skipEmpty rows = [] ↔ Forall (λ row, row = []) rows.
Proof.
  induction rows as [|[|c row] rows IH]; simpl.
  - done.
  - rewrite IH. split; [by constructor|]. by intros [_ ?]%Forall_cons.
  - split; [done|]. by intros [? _]%Forall_cons.
Qed.

Lemma skipEmpty_elem_of rows row : row ∈ skipEmpty rows → row ∈ rows.
Proof.
  induction rows as [|[|c r] rows IH]; simpl; [done| |done].
  intros ?. right. by apply IH.
Qed.

Lemma columnWidth_skipEmpty rows j :
  columnWidth (skipEmpty rows) j = columnWidth rows j.
Proof.
  induction rows as [|[|c r] rows IH]; simpl; [done| |done].
  rewrite IH. unfold cellWidth. simpl.
  pose proof (columnWidth_nonneg rows j). lia.
Qed.

(** The first loop of [MakeTable] passes the rows without cells that come
    first. *)
Lemma measure_skipEmpty rows m : ∀ i,
  ∃ k,
    rangeM_from i rows (λ _ row st, measureRow row st) (0, m) =
    rangeM_from k (skipEmpty rows) (λ _ row st, measureRow row st) (0, m).
Proof.
  induction rows as [|[|c r] rows IH]; intros i.
  - by exists i.
  - destruct (IH (Datatypes.S i)) as [k Hk]. exists k.
    cbn [rangeM_from skipEmpty]. rewrite measureRow_first. exact Hk.
  - by exists i.
Qed.

Lemma MakeTable_ragged rows sep header body :
  skipEmpty rows = header :: body →
  ¬ Forall (λ row, length row = length header) body →
  MakeTable rows sep = Err "Mismatched column numbers".
Proof.
  intros Hskip Hrect. unfold MakeTable, rangeM.
  destruct (measure_skipEmpty rows ∅ 0%nat) as [k ->]. rewrite Hskip.
  cbn [rangeM_from]. rewrite measureRow_first.
  change (Ok ?x ≫= ?f) with (f x). cbv beta.
  unfold Go.len_slice. rewrite measure_rows_mismatch; [done| |done].
  apply skipEmpty_head in Hskip. destruct header; [done|simpl; lia].
Qed.

Lemma MakeTable_skipEmpty r0 rest sep header body :
  skipEmpty (r0 :: rest) = header :: body →
  Forall (λ row, length row = length header) body →
  let rows := r0 :: rest in
  MakeTable rows sep =
    Ok (line (columnWidth rows) 0 r0 +:+
        (rule (columnWidth rows) (length header) sep +:+
         concat_strings (map (line (columnWidth rows) 0) rest))).
Proof.
  intros Hskip Hrect rows.
  assert (Forall (λ row, length row = length header) (header :: body))
    as Hrows by (by apply Forall_cons).
  destruct (measure_skipEmpty rows ∅ 0%nat) as [k Hk].
  destruct (measure_rows (length header) (header :: body) k 0 ∅ Hrows
              (or_introl eq_refl) nonneg_empty)
    as (m & Hrun & Hnn & Hat & Hdom).
  assert (∀ j, at0 m j = columnWidth rows j) as Hw.
  { intros j. rewrite Hat. unfold rows.
    rewrite <- (columnWidth_skipEmpty (r0 :: rest)), Hskip.
    assert (at0 ∅ j = 0) as -> by (unfold at0; by rewrite lookup_empty).
    pose proof (columnWidth_nonneg (header :: body) j). lia. }
  assert (∀ row j c, row ∈ rows → row !! j = Some c → Go.len c ≤ at0 m j)
    as Hlen.
  { intros row j c Hin Hc. rewrite Hw. by eapply columnWidth_ge. }
  subst rows. rewrite Hskip in Hk.
  unfold MakeTable, rangeM. rewrite Hk, Hrun.
  change (Ok ?x ≫= ?f) with (f x). cbv beta. simpl fst. simpl snd.
  cbn [rangeM_from].
  rewrite writeRow_header.
  - change (Ok ?x ≫= ?f) with (f x). cbv beta.
    rewrite writeRows_body.
    + rewrite !str_app_nil_l. f_equal.
      rewrite (line_ext _ _ r0 0%nat Hw). rewrite str_app_assoc.
      f_equal. f_equal.
      * unfold rule, totalWidth. by rewrite (sumWidths_ext _ _ _ Hw).
      * f_equal. apply map_ext. intros row. by apply line_ext.
    + intros row j c Hin. apply Hlen. by right.
  - intros j c. apply Hlen. by left.
  - done.
  - intros j Hj. destruct (Hdom j Hj) as [Hs|?]; [|done].
    rewrite lookup_empty in Hs. by destruct Hs.
  - left. apply skipEmpty_head in Hskip. destruct header; [done|simpl; lia].
Qed.

Lemma lines_empty w rest :
  Forall (λ row, row = []) rest →
  concat_strings (map (line w 0) rest) = "".
Proof.
  induction 1 as [|row rest -> _ IH]; simpl; [done|]. by rewrite IH.
Qed.

Lemma MakeTable_no_cells rows sep :
  Forall (λ row, row = []) rows →
  MakeTable rows sep =
    if decide (rows = [] ∨ sep = "") then Ok ""
    else Panic "strings: negative Repeat count".
Proof.
  intros Hall. unfold MakeTable, rangeM.
  destruct (measure_skipEmpty rows ∅ 0%nat) as [k ->].
  rewrite (proj2 (skipEmpty_nil rows) Hall). cbn [rangeM_from].
  change (Ok ?x ≫= ?f) with (f x). cbv beta. simpl fst. simpl snd.
  destruct Hall as [|r0 rest -> Hrest]; [done|].
  cbn [rangeM_from].
  destruct (String.eqb_spec sep "") as [->|Hne].
  - rewrite decide_True by (by right).
    rewrite (writeRow_header 0 ∅ "" [] "").
    + change (Ok ?x ≫= ?f) with (f x). cbv beta.
      rewrite writeRows_body.
      * by rewrite lines_empty.
      * intros row j c Hin. rewrite Forall_forall in Hrest.
        by rewrite (Hrest row Hin).
    + done.
    + apply nonneg_empty.
    + intros j Hj. rewrite lookup_empty in Hj. by destruct Hj.
    + by right.
  - rewrite decide_False by (intros [?|?]; done).
    unfold writeRow, rangeM. cbn [rangeM_from].
    change (Ok ?x ≫= ?f) with (f x). cbv beta.
    rewrite (eqb_empty_false sep Hne). simpl andb. cbv iota.
    rewrite map_fold_empty. done.
Qed.

(** X1. [MakeTable] returns an error exactly when, after the rows without
    cells that come first, a row has not as many cells as the first of
    them; the error is ["Mismatched column numbers"], and no table is
    returned with it. *)
Theorem MakeTable_error_iff (rows : list (list string)) (sep msg : string) :
  MakeTable rows sep = Err msg ↔
  msg = "Mismatched column numbers" ∧
  ∃ header body,
    skipEmpty rows = header :: body ∧
    ¬ Forall (λ row, length row = length header) body.
Proof.
  split.
  - intros Herr. destruct (skipEmpty rows) as [|header body] eqn:Hskip.
    + apply skipEmpty_nil in Hskip.
      rewrite (MakeTable_no_cells rows sep Hskip) in Herr.
      by case_decide.
    + destruct (decide (Forall (λ row, length row = length header) body))
        as [Hrect|Hrect].
      * destruct rows as [|r0 rest]; [done|].
        by rewrite (MakeTable_skipEmpty r0 rest sep header body Hskip Hrect)
          in Herr.
      * rewrite (MakeTable_ragged rows sep header body Hskip Hrect) in Herr.
        injection Herr as <-. split; [done|]. by exists header, body.
  - intros (-> & header & body & Hskip & Hrect).
    by apply (MakeTable_ragged rows sep header body).
Qed.

(** X2. [MakeTable] panics exactly when there is a row, no row has a
    cell and the separator is not empty: the count of [strings.Repeat] for
    the line under the header is then negative. *)
Theorem MakeTable_panic_iff (rows : list (list string)) (sep msg : string) :
  MakeTable rows sep = Panic msg ↔
  msg = "strings: negative Repeat count" ∧
  rows ≠ [] ∧ Forall (λ row, row = []) rows ∧ sep ≠ "".
Proof.
  split.
  - intros Hp. destruct (skipEmpty rows) as [|header body] eqn:Hskip.
    + apply skipEmpty_nil in Hskip.
      rewrite (MakeTable_no_cells rows sep Hskip) in Hp.
      case_decide as Hd; [done|]. injection Hp as <-.
      split; [done|]. split; [tauto|]. split; [done|tauto].
    + destruct (decide (Forall (λ row, length row = length header) body))
        as [Hrect|Hrect].
      * destruct rows as [|r0 rest]; [done|].
        by rewrite (MakeTable_skipEmpty r0 rest sep header body Hskip Hrect)
          in Hp.
      * by rewrite (MakeTable_ragged rows sep header body Hskip Hrect) in Hp.
  - intros (-> & Hne & Hall & Hsep).
    rewrite (MakeTable_no_cells rows sep Hall).
    rewrite decide_False; [done|]. by intros [?|?].
Qed.

(** X3. When the first row has no cell and the rows that follow it are
    accepted, [MakeTable] writes the line of the separator first, as wide
    as the columns of the first row with cells, and then the rows. *)
Theorem MakeTable_empty_first_row (rest : list (list string)) (sep : string)
    (header : list string) (body : list (list string)) :
  skipEmpty rest = header :: body →
  Forall (λ row, length row = length header) body →
  MakeTable ([] :: rest) sep =
    Ok (rule (columnWidth rest) (length header) sep +:+
        concat_strings (map (line (columnWidth rest) 0) rest)).
Proof.
  intros Hskip Hrect.
  rewrite (MakeTable_skipEmpty [] rest sep header body Hskip Hrect).
  cbn [line]. rewrite str_app_nil_l.
  assert (∀ j, columnWidth ([] :: rest) j = columnWidth rest j) as Hw.
  { intros j. simpl. unfold cellWidth. simpl.
    pose proof (columnWidth_nonneg rest j). lia. }
  f_equal. f_equal.
  - unfold rule, totalWidth. by rewrite (sumWidths_ext _ _ _ Hw).
  - f_equal. apply map_ext. intros row. by apply line_ext.
Qed.

Lemma MakeTable_empty_first_row_witness :
  MakeTable [[]; ["a"; "bc"]; ["def"; "g"]] "=" =
  Ok ("==========" +:+ newline +:+
      "a       bc" +:+ newline +:+
      "def     g" +:+ newline).
Proof.
  apply (MakeTable_empty_first_row [["a"; "bc"]; ["def"; "g"]] "="
           ["a"; "bc"] [["def"; "g"]]).
  - reflexivity.
  - repeat constructor.
Defined.

Lemma offset_S w j : offset w (S j) = offset w j + (w j + 5).
Proof.
  unfold offset. rewrite seq_S, foldr_app. simpl.
  generalize (seq 0 j). intros l. induction l as [|k l IH]; simpl; lia.
Qed.

Lemma line_cell w cells : ∀ j0 j cell,
  (∀ k c, cells !! k = Some c → Go.len c ≤ w (j0 + k)%nat) →
  cells !! j = Some cell →
  ∃ before after,
    line w j0 cells = before +:+ (cell +:+ after) ∧
    Z.of_nat (String.length before) = offset w (j0 + j) - offset w j0.
Proof.
  induction cells as [|c cells IH]; intros j0 j cell Hlen Hcell; [done|].
  destruct j as [|j]; simpl in Hcell.
  - injection Hcell as ->. exists "". cbn [line].
    destruct cells; eexists; (split; [by rewrite str_app_nil_l|]);
      rewrite Nat.add_0_r; simpl; lia.
  - destruct cells as [|c' cells']; [done|].
    destruct (IH (S j0) j cell) as (before & after & Hline & Hoff).
    { intros k d Hk. replace (S j0 + k)%nat with (j0 + S k)%nat by lia.
      by apply Hlen. }
    { done. }
    exists (c +:+ (spaces (w j0 - Go.len c + 5) +:+ before)), after.
    split.
    + change (line w j0 (c :: c' :: cells'))
        with (c +:+ (spaces (w j0 - Go.len c + 5) +:+
                     line w (S j0) (c' :: cells'))).
      rewrite Hline. by rewrite !str_app_assoc.
    + rewrite !str_length_app, length_spaces.
      specialize (Hlen 0%nat c eq_refl). rewrite Nat.add_0_r in Hlen.
      unfold Go.len in Hlen.
      replace (j0 + S j)%nat with (S j0 + j)%nat by lia.
      rewrite offset_S in Hoff.
      unfold Go.len. lia.
Qed.

(** X4. The columns of the table are aligned: in the line of every row,
    the cell of column [j] starts after as many bytes as the widths of the
    columns before it and five for each of them. *)
Theorem MakeTable_aligned (header : list string) (body : list (list string))
    (sep : string) :
  Forall (λ row, length row = length header) body →
  header ≠ [] ∨ sep = "" →
  let rows := header :: body in
  let width := columnWidth rows in
  MakeTable rows sep =
    Ok (line width 0 header +:+
        (rule width (length header) sep +:+
         concat_strings (map (line width 0) body))) ∧
  ∀ row j cell,
    row ∈ rows → row !! j = Some cell →
    ∃ before after,
      line width 0 row = before +:+ (cell +:+ after) ∧
      Z.of_nat (String.length before) = offset width j.
Proof.
  intros Hrect Hsep rows width. split.
  - exact (MakeTable_rect header body sep Hrect Hsep).
  - intros row j cell Hin Hcell.
    destruct (line_cell width row 0 j cell) as (before & after & Hl & Hoff).
    + intros k c Hk. by eapply columnWidth_ge.
    + done.
    + exists before, after. split; [done|]. rewrite Hoff. simpl.
      unfold offset. simpl. lia.
Qed.

Lemma MakeTable_aligned_witness :
  ∃ before after,
    line (columnWidth [["this"; "is"]; ["different"; "items"]]) 0
      ["this"; "is"] = before +:+ ("is" +:+ after) ∧
    Z.of_nat (String.length before) = 14.
Proof.
  destruct (MakeTable_aligned ["this"; "is"] [["different"; "items"]] "-")
    as [_ H].
  - repeat constructor.
  - left. discriminate.
  - apply (H ["this"; "is"] 1%nat "is"); [left|reflexivity].
Defined.

(** X5. [MakeTable] repeats the separator once for every byte of the
    width of the table: the line under the header is as long as the
    separator times that width, so it is as wide as the table for a
    separator of one byte only. *)
Theorem MakeTable_separator_width (header : list string)
    (body : list (list string)) (sep : string) :
  Forall (λ row, length row = length header) body →
  header ≠ [] →
  sep ≠ "" →
  let rows := header :: body in
  let width := columnWidth rows in
  ∃ r,
    MakeTable rows sep =
      Ok (line width 0 header +:+
          ((r +:+ newline) +:+ concat_strings (map (line width 0) body))) ∧
    Z.of_nat (String.length r) =
      Go.len sep *
      (offset width (length header - 1) + width (length header - 1)%nat).
Proof.
  intros Hrect Hne Hsep rows width.
  exists (Go.repeat_string sep
            (Z.to_nat (totalWidth width (length header)))).
  split.
  - unfold rows. rewrite (MakeTable_rect header body sep Hrect (or_introl Hne)).
    unfold table, rule. by rewrite (eqb_empty_false sep Hsep).
  - rewrite length_repeat_string.
    assert (∀ n, sumWidths width n + 5 * Z.of_nat n = offset width n) as Hoff.
    { intros n. unfold sumWidths, offset. generalize 0%nat.
      induction n as [|n IH]; intros k; simpl; [done|].
      specialize (IH (S k)). lia. }
    assert (0 ≤ sumWidths width (length header)).
    { apply sumWidths_nonneg. intros k. apply columnWidth_nonneg. }
    destruct header as [|c header]; [done|]. simpl length in *.
    replace (S (length header) - 1)%nat with (length header) by lia.
    rewrite <- Hoff. unfold totalWidth, Go.len.
    assert (sumWidths width (S (length header)) =
            sumWidths width (length header) + width (length header)) as Hs.
    { unfold sumWidths. rewrite seq_S, foldr_app. simpl.
      generalize (seq 0 (length header)). intros l.
      induction l as [|k l IH]; simpl; lia. }
    rewrite Hs in *. nia.
Qed.

Lemma MakeTable_separator_width_witness :
  ∃ r,
    MakeTable [["a"; "b"]; ["c"; "d"]] "=-" =
      Ok ("a     b" +:+ newline +:+
          ((r +:+ newline) +:+ ("c     d" +:+ newline))) ∧
    Z.of_nat (String.length r) = 14.
Proof.
  destruct (MakeTable_separator_width ["a"; "b"] [["c"; "d"]] "=-")
    as (r & H1 & H2).
  - repeat constructor.
  - discriminate.
  - discriminate.
  - exists r. split; [exact H1|exact H2].
Defined.

End MakeTable_outcomes.

(** ** The store of the reporter *)

Section Report_properties.

Import report layout spec.

Implicit Types results : gmap ID (gmap Operation (gmap ID (option Result))).

Lemma TextReporter_eq (s1 s2 : TextReporter) :
  results s1 = results s2 → fileTestSizes s1 = fileTestSizes s2 → s1 = s2.
Proof. destruct s1, s2. simpl. by intros -> ->. Qed.

Lemma submit_submit_eq s sub1 sub2 :
  key sub1 = key sub2 →
  submit (submit s sub1) sub2 = submit s sub2.
Proof.
  destruct sub1 as [o1 x1 e1 r1], sub2 as [o2 x2 e2 r2]. unfold key. simpl.
  intros [= -> -> ->]. apply TextReporter_eq; [|done].
  unfold submit.
  cbn [sub_operation sub_fileTestID sub_endpointID sub_result].
  rewrite !Report_results. cbv zeta.
  rewrite !lookup_insert_eq. simpl. rewrite !lookup_insert_eq. simpl.
  by rewrite !insert_insert_eq.
Qed.

Lemma submit_submit_ne s sub1 sub2 :
  key sub1 ≠ key sub2 →
  submit (submit s sub1) sub2 = submit (submit s sub2) sub1.
Proof.
  destruct sub1 as [o1 x1 e1 r1], sub2 as [o2 x2 e2 r2]. unfold key. simpl.
  intros Hne. apply TextReporter_eq; [|done].
  unfold submit.
  cbn [sub_operation sub_fileTestID sub_endpointID sub_result].
  rewrite !Report_results. cbv zeta.
  destruct (decide (x1 = x2)) as [->|Hx].
  - rewrite !lookup_insert_eq. simpl.
    destruct (decide (o1 = o2)) as [->|Ho].
    + rewrite !lookup_insert_eq. simpl.
      assert (e1 ≠ e2) as He by congruence.
      rewrite !insert_insert_eq. f_equal. f_equal.
      by apply insert_insert_ne.
    + rewrite !lookup_insert_ne by done.
      rewrite !insert_insert_eq. f_equal.
      by apply insert_insert_ne.
  - rewrite !lookup_insert_ne by done.
    by apply insert_insert_ne.
Qed.

Lemma foldl_submit_Permutation subs1 subs2 :
  subs1 ≡ₚ subs2 →
  NoDup (map key subs1) →
  ∀ s, foldl submit s subs1 = foldl submit s subs2.
Proof.
  induction 1 as [|sub subs1 subs2 Hperm IH|sub1 sub2 subs|subs1 subs2 subs3
                   Hp1 IH1 Hp2 IH2]; intros Hnd s.
  - done.
  - simpl. apply IH. simpl in Hnd. by apply NoDup_cons_1_2 in Hnd.
  - simpl. f_equal. apply submit_submit_ne. simpl in Hnd.
    apply NoDup_cons_1_1 in Hnd. intros Heq. apply Hnd. rewrite Heq. left.
  - rewrite IH1 by done. apply IH2. by rewrite <- Hp1.
Qed.

(** X6. [Report] returns [nil], keeps the configured sizes, stores the
    Result under its file-test, operation and endpoint, leaves every other
    entry of the store as it was and takes no file-test out of it. *)
Theorem Report_round_trip (s : TextReporter) (operation : Operation)
    (fileTestID endpointID : ID) (result : option Result) :
  let s' := (Report s operation fileTestID endpointID result).1 in
  (Report s operation fileTestID endpointID result).2 = None ∧
  fileTestSizes s' = fileTestSizes s ∧
  lookup3 (results s') fileTestID operation endpointID = result ∧
  (∀ x o e,
     (x, o, e) ≠ (fileTestID, operation, endpointID) →
     lookup3 (results s') x o e = lookup3 (results s) x o e) ∧
  (∀ x, hasFileTest (results s) x → hasFileTest (results s') x) ∧
  hasFileTest (results s') fileTestID.
Proof.
  intros s'. split; [done|]. split; [done|]. split; [|split; [|split]].
  - unfold s'. rewrite lookup3_Report. by rewrite decide_True.
  - intros x o e Hne. unfold s'. rewrite lookup3_Report.
    rewrite decide_False; [done|]. intros (-> & -> & ->). by apply Hne.
  - intros x Hx. apply hasFileTest_Report. by right.
  - apply hasFileTest_Report. by left.
Qed.

(** X7. A second [Report] for the same file-test, operation and
    endpoint replaces the Result of the first: the reporter is as if the
    first call had not been made. *)
Theorem Report_last_wins (s : TextReporter) (operation : Operation)
    (fileTestID endpointID : ID) (result1 result2 : option Result) :
  (Report (Report s operation fileTestID endpointID result1).1
     operation fileTestID endpointID result2).1 =
  (Report s operation fileTestID endpointID result2).1.
Proof.
  exact (submit_submit_eq s
           (mkSubmission operation fileTestID endpointID result1)
           (mkSubmission operation fileTestID endpointID result2) eq_refl).
Qed.

(** X8. Calls of [Report] for different entries can be made in any
    order: the reporter and the text of the report are the same. *)
Theorem FormatResults_any_order (sizes : gmap ID Z)
    (subs1 subs2 : list Submission) :
  subs1 ≡ₚ subs2 →
  NoDup (map key subs1) →
  reportAll sizes subs1 = reportAll sizes subs2 ∧
  FormatResults (reportAll sizes subs1) = FormatResults (reportAll sizes subs2).
Proof.
  intros Hperm Hnd.
  assert (reportAll sizes subs1 = reportAll sizes subs2) as Heq.
  { by apply foldl_submit_Permutation. }
  by rewrite Heq.
Qed.

Lemma FormatResults_any_order_witness :
  let a := mkSubmission Download "ft2" "end2"
             (Some (mkResult 0 8000000000 true "")) in
  let b := mkSubmission Upload "ft1" "end1"
             (Some (mkResult 0 5000000000 true "")) in
  FormatResults (reportAll {["ft1" := 10; "ft2" := 20]} [a; b]) =
  FormatResults (reportAll {["ft1" := 10; "ft2" := 20]} [b; a]).
Proof.
  intros a b.
  apply (FormatResults_any_order {["ft1" := 10; "ft2" := 20]} [a; b] [b; a]).
  - apply perm_swap.
  - apply NoDup_cons. split.
    + intros Hin%list_elem_of_singleton. discriminate.
    + apply NoDup_singleton.
Defined.

Lemma title_nonempty x after : title x +:+ after ≠ "".
Proof. unfold title. simpl. by rewrite !str_app_cons. Qed.

(** X9. The report is the empty text exactly when the store is
    empty. *)
Theorem formatResults_empty_iff (sizes : gmap ID Z)
    (results : gmap ID (gmap Operation (gmap ID (option Result)))) :
  formatResults sizes results = Ok "" ↔ results = ∅.
Proof.
  split.
  - intros Hout.
    destruct (uniqueSortedIDs results) as [[fts eps] ops] eqn:Hids.
    destruct (uniqueSortedIDs_spec _ _ _ _ Hids) as ((_ & Hel) & _).
    destruct (formatResults_Ok_inv _ _ _ _ _ _ Hids Hout) as [Hrep _].
    destruct fts as [|x fts].
    + apply map_eq. intros x. rewrite lookup_empty.
      destruct (results !! x) eqn:Hx; [|done].
      assert (x ∈ []) as Hin by (apply Hel; by eexists).
      by apply elem_of_nil in Hin.
    + unfold reportOf in Hrep. simpl in Hrep. unfold sectionOf in Hrep.
      rewrite !str_app_assoc in Hrep. symmetry in Hrep.
      by apply title_nonempty in Hrep.
  - intros ->. reflexivity.
Qed.

Lemma formatResults_cases_inv (sizes : gmap ID Z)
    (results : gmap ID (gmap Operation (gmap ID (option Result)))) :
  (∀ msg, formatResults sizes results ≠ Panic msg) ∧
  (∀ msg, formatResults sizes results = Err msg →
          ∃ x, msg = "Unknown fileTestSize for " +:+ x ∧
               hasFileTest results x ∧ sizeOf sizes x = 0).
Proof.
  destruct (uniqueSortedIDs results) as [[fts eps] ops] eqn:Hids.
  destruct (uniqueSortedIDs_spec _ _ _ _ Hids) as ((_ & Hel) & _).
  destruct (formatResults_cases sizes results fts eps ops Hids)
    as [[Hok _]|(before & x & after & Hfts & _ & Hx & _ & _ & Herr)].
  - split; intros msg; by rewrite Hok.
  - split; intros msg; rewrite Herr; [done|].
    intros [= <-]. exists x. split; [done|]. split; [|done].
    apply Hel. rewrite Hfts. apply elem_of_app. right. left.
Qed.

(** X11. [formatResults] does not panic, and the only error it returns
    is the one of a file-test of the store whose size is unknown or zero:
    the tables it builds are never rejected by [MakeTable]. *)
Theorem formatResults_outcomes (sizes : gmap ID Z)
    (results : gmap ID (gmap Operation (gmap ID (option Result)))) :
  (∀ msg, formatResults sizes results ≠ Panic msg) ∧
  (∀ msg, formatResults sizes results = Err msg →
          ∃ x, msg = "Unknown fileTestSize for " +:+ x ∧
               hasFileTest results x ∧ sizeOf sizes x = 0).
Proof. exact (formatResults_cases_inv sizes results). Qed.

Lemma FormatResults_Ok_iff (sizes : gmap ID Z)
    (subs : list Submission) :
  (∃ out, FormatResults (reportAll sizes subs) = Ok out) ↔
  ∀ sub, sub ∈ subs → sizeOf sizes (sub_fileTestID sub) ≠ 0.
Proof.
  unfold FormatResults. rewrite reportAll_sizes.
  destruct (uniqueSortedIDs (results (reportAll sizes subs)))
    as [[fts eps] ops] eqn:Hids.
  destruct (uniqueSortedIDs_spec _ _ _ _ Hids)
    as ((_ & Hel1) & (_ & Hel2) & (_ & Hel3)).
  assert (∀ x, x ∈ fts ↔ x ∈ map sub_fileTestID subs) as Hfts.
  { intros x. by rewrite Hel1, reportAll_fileTests. }
  assert (∀ e, e ∈ eps ↔ e ∈ map sub_endpointID subs) as Heps.
  { intros e. by rewrite Hel2, reportAll_endpoints. }
  assert (∀ o, o ∈ ops ↔ o ∈ map sub_operation subs) as Hops.
  { intros o. by rewrite Hel3, reportAll_operations. }
  destruct (formatResults_cases sizes _ fts eps ops Hids)
    as [[Hok Hcond]|(before & x & after & Hx & _ & Hzero & _ & _ & Herr)].
  - split; [|by eexists]. intros _ sub Hin.
    destruct Hcond as [->|[->|Hall]].
    + assert (sub_endpointID sub ∈ []) as Hnil.
      { apply Heps. by apply list_elem_of_fmap_2. }
      by apply elem_of_nil in Hnil.
    + assert (sub_operation sub ∈ []) as Hnil.
      { apply Hops. by apply list_elem_of_fmap_2. }
      by apply elem_of_nil in Hnil.
    + rewrite Forall_forall in Hall. apply Hall, Hfts.
      by apply list_elem_of_fmap_2.
  - split.
    + intros [out Hout]. by rewrite Herr in Hout.
    + intros Hall. exfalso.
      assert (x ∈ map sub_fileTestID subs) as Hin.
      { apply Hfts. rewrite Hx. apply elem_of_app. right. left. }
      apply list_elem_of_fmap in Hin as (sub & -> & Hin).
      by apply (Hall sub Hin).
Qed.

(** X10. After any calls of [Report], [FormatResults] returns a report
    exactly when every file-test reported for has a configured size that
    is not zero. *)
Theorem FormatResults_succeeds_iff (sizes : gmap ID Z)
    (subs : list Submission) :
  (∃ out, FormatResults (reportAll sizes subs) = Ok out) ↔
  ∀ sub, sub ∈ subs → sizeOf sizes (sub_fileTestID sub) ≠ 0.
Proof. exact (FormatResults_Ok_iff sizes subs). Qed.

End Report_properties.

(** ** A logic of the runs, and the log of the checker *)

Section hoare.

Import check runs.

Context {W : Type}.

Lemma hoare_ret {A} (a : A) (P : State W → Prop) (Q : A → State W → Prop) :
  (∀ st, P st → Q a st) → hoare P (mret a) Q.
Proof. intros HQ st HP. exists a, st. split; [done|]. by apply HQ. Qed.

Lemma hoare_bind {A B} (m : M W A) (f : A → M W B) (P : State W → Prop)
    (R : A → State W → Prop) (Q : B → State W → Prop) :
  hoare P m R → (∀ a, hoare (R a) (f a) Q) → hoare P (m ≫= f) Q.
Proof.
  intros Hm Hf st HP. destruct (Hm st HP) as (a & st1 & Hrun & HR).
  destruct (Hf a st1 HR) as (b & st2 & Hrun2 & HQ).
  exists b, st2. split; [|done].
  unfold mbind, M_mbind, M_bind. by rewrite Hrun.
Qed.

Lemma hoare_conseq {A} (m : M W A) (P P' : State W → Prop)
    (Q Q' : A → State W → Prop) :
  hoare P' m Q' →
  (∀ st, P st → P' st) → (∀ a st, Q' a st → Q a st) → hoare P m Q.
Proof.
  intros Hm HP HQ st Hst. destruct (Hm st (HP st Hst)) as (a & st' & ? & ?).
  exists a, st'. split; [done|]. by apply HQ.
Qed.

Lemma hoare_call {A} (f : W → A * W) (P : State W → Prop)
    (Q : A → State W → Prop) :
  (∀ st, P st →
         Q (f (world st)).1
           {| world := (f (world st)).2; events := events st |}) →
  hoare P (call f) Q.
Proof.
  intros HQ st HP. specialize (HQ st HP). unfold call.
  destruct (f (world st)) as [a w]. by exists a, {| world := w; events := events st |}.
Qed.

Lemma hoare_emit (e : Event) (P : State W → Prop)
    (Q : unit → State W → Prop) :
  (∀ st, P st → Q tt {| world := world st; events := events st ++ [e] |}) →
  hoare P (emit e) Q.
Proof. intros HQ st HP. eexists _, _. split; [done|]. by apply HQ. Qed.

(** A loop over [l], with what holds after the elements [pre]. *)
Lemma hoare_forM {A B} (l : list A) (body : A → M W B)
    (Inv : list A → State W → Prop) :
  (∀ pre x post, l = pre ++ x :: post →
     hoare (Inv pre) (body x) (λ _, Inv (pre ++ [x]))) →
  hoare (Inv []) (forM l body) (λ _, Inv l).
Proof.
  assert (∀ l2 l1, l = l1 ++ l2 →
    (∀ pre x post, l = pre ++ x :: post →
       hoare (Inv pre) (body x) (λ _, Inv (pre ++ [x]))) →
    hoare (Inv l1) (forM l2 body) (λ _, Inv l)) as Hgen.
  { induction l2 as [|x l2 IH]; intros l1 Hl Hbody.
    - rewrite app_nil_r in Hl. subst l1. by apply hoare_ret.
    - simpl. eapply hoare_bind; [by apply (Hbody l1 x l2)|].
      intros y. eapply hoare_bind.
      + apply (IH (l1 ++ [x])); [|done]. by rewrite <- app_assoc.
      + intros ys. by apply hoare_ret. }
  intros Hbody. by apply (Hgen l []).
Qed.

(** A loop that is left at the first error: [Inv] holds after the elements
    that gave no error. *)
Lemma hoare_untilError {A} (l : list A) (body : A → M W Go.error)
    (Inv : list A → State W → Prop) (Q : Go.error → State W → Prop) :
  (∀ pre x post, l = pre ++ x :: post →
     hoare (Inv pre) (body x)
       (λ err st, match err with
                  | None => Inv (pre ++ [x]) st
                  | Some _ => Q err st
                  end)) →
  (∀ st, Inv l st → Q None st) →
  hoare (Inv []) (untilError l body) Q.
Proof.
  assert (∀ l2 l1, l = l1 ++ l2 →
    (∀ pre x post, l = pre ++ x :: post →
       hoare (Inv pre) (body x)
         (λ err st, match err with
                    | None => Inv (pre ++ [x]) st
                    | Some _ => Q err st
                    end)) →
    (∀ st, Inv l st → Q None st) →
    hoare (Inv l1) (untilError l2 body) Q) as Hgen.
  { induction l2 as [|x l2 IH]; intros l1 Hl Hbody Hend.
    - rewrite app_nil_r in Hl. subst l1. by apply hoare_ret.
    - simpl. eapply hoare_bind; [by apply (Hbody l1 x l2)|].
      intros [msg|]; [by apply hoare_ret|].
      apply (IH (l1 ++ [x])); [|done..]. by rewrite <- app_assoc. }
  intros Hbody Hend. by apply (Hgen l []).
Qed.

End hoare.

Section logged.

Import check runs.

Context {W : Type}.
Variable randRead : Z → nat → list Byte.byte.
Variable sha256_Sum : list Byte.byte → list Byte.byte.
Variable now : W → Z * W.
Variable schedule : nat → list nat.
Variable Quote : string → string.

Hypothesis schedule_perm : ∀ n, schedule n ≡ₚ seq 0 n.

Variable I : W → list Event → Prop.
Hypothesis I_now : ∀ w rs, I w rs → I (now w).2 rs.

Variable c : Checker W.
Hypothesis I_report : reporterKeeps I (checker_reporter c).

Lemma reportsOf_snoc_other evs e :
  isReport e = false → reportsOf (evs ++ [e]) = reportsOf evs.
Proof.
  intros He. rewrite reportsOf_app. unfold reportsOf at 2.
  rewrite filter_cons_False, filter_nil, app_nil_r; [done|].
  by rewrite He.
Qed.

Lemma reportsOf_snoc_report evs operation fileTestID endpointID r err :
  reportsOf (evs ++ [EReport operation fileTestID endpointID r err]) =
  reportsOf evs ++ [EReport operation fileTestID endpointID r err].
Proof. by rewrite reportsOf_app. Qed.

Lemma now_hoare evs : hoare (logged I evs) (call now) (λ _, logged I evs).
Proof.
  apply hoare_call. intros st [Hev HI]. split; [done|]. by apply I_now.
Qed.

Lemma newResultNow_hoare evs :
  hoare (logged I evs) (newResultNow now) (λ _, logged I evs).
Proof.
  unfold newResultNow. eapply hoare_bind; [apply now_hoare|].
  intros t. by apply hoare_ret.
Qed.

Lemma WithTimeout_hoare evs ctx d :
  hoare (logged I evs) (WithTimeout now ctx d) (λ _, logged I evs).
Proof.
  unfold WithTimeout. eapply hoare_bind; [apply now_hoare|].
  intros t. by apply hoare_ret.
Qed.

Lemma finish_hoare evs result err :
  hoare (logged I evs) (finish now result err) (λ _, logged I evs).
Proof.
  unfold finish, Since. apply (hoare_bind _ _ _ (λ _, logged I evs)).
  { eapply hoare_bind; [apply now_hoare|]. intros t. by apply hoare_ret. }
  intros d. by apply hoare_ret.
Qed.

Lemma report_hoare evs operation fileTestID endpointID result :
  hoare (logged I evs) (report c operation fileTestID endpointID result)
    (λ err, logged I (evs ++ [EReport operation fileTestID endpointID
                                result err])).
Proof.
  unfold report. eapply hoare_bind.
  { apply (hoare_call _ _ (λ err st,
      events st = evs ∧
      I (world st)
        (reportsOf evs ++ [EReport operation fileTestID endpointID
                             result err]))).
    intros st [Hev HI]. split; [done|]. simpl. by apply I_report. }
  intros err. eapply hoare_bind.
  { apply (hoare_emit _ _ (λ _, logged I
      (evs ++ [EReport operation fileTestID endpointID result err]))).
    intros st [Hev HI]. split; simpl; [by rewrite Hev|].
    by rewrite reportsOf_snoc_report. }
  intros []. by apply hoare_ret.
Qed.

Lemma emit_hoare evs e :
  isReport e = false →
  hoare (logged I evs) (emit e) (λ _, logged I (evs ++ [e])).
Proof.
  intros He. apply hoare_emit. intros st [Hev HI]. split; simpl.
  - by rewrite Hev.
  - by rewrite reportsOf_snoc_other.
Qed.

(** A fan-out whose workers write one event each. *)
Lemma runParallel_hoare evs ctx numParallel (f : Z → M W Go.error)
    (g : nat → Event) :
  (∀ i evs', i ∈ schedule (Z.to_nat numParallel) →
     hoare (logged I evs') (f (Z.of_nat i)) (λ _, logged I (evs' ++ [g i]))) →
  hoare (logged I evs) (runParallel schedule ctx numParallel f)
    (λ _, logged I (evs ++ map g (schedule (Z.to_nat numParallel)))).
Proof.
  intros Hf. unfold runParallel.
  apply (hoare_bind _ _ _
           (λ _, logged I (evs ++ map g (schedule (Z.to_nat numParallel))))).
  - eapply hoare_conseq.
    + apply (hoare_forM _ _ (λ pre, logged I (evs ++ map g pre))).
      intros pre i post Hl. eapply hoare_conseq.
      * apply (Hf i (evs ++ map g pre)). rewrite Hl.
        apply elem_of_app. right. left.
      * done.
      * intros a st Hst. simpl. by rewrite map_app, app_assoc.
    + intros st Hst. simpl. by rewrite app_nil_r.
    + done.
  - intros errs. by apply hoare_ret.
Qed.

Lemma uploadWorker_hoare evs ctx fileTestID fileTest (endpoint : Endpoint W)
    i :
  clientKeeps I (Endpoint_Client endpoint) →
  hoare (logged I evs)
    (uploadWorker randRead ctx fileTestID fileTest endpoint i)
    (λ _, logged I
       (evs ++ [EUpload (Endpoint_ID endpoint) (pathName fileTestID i)
                  (content (fileReader randRead fileTest i))])).
Proof.
  intros (Hup & _ & _). unfold uploadWorker.
  eapply hoare_bind; [by apply emit_hoare|].
  intros []. apply hoare_call. intros st [Hev HI]. split; [done|].
  by apply Hup.
Qed.

Lemma delWorker_hoare evs ctx fileTestID (endpoint : Endpoint W) i :
  clientKeeps I (Endpoint_Client endpoint) →
  hoare (logged I evs) (delWorker ctx fileTestID endpoint i)
    (λ _, logged I
       (evs ++ [EDelete (Endpoint_ID endpoint) (pathName fileTestID i)])).
Proof.
  intros (_ & _ & Hdel). unfold delWorker.
  eapply hoare_bind; [by apply emit_hoare|].
  intros []. apply hoare_call. intros st [Hev HI]. split; [done|].
  by apply Hdel.
Qed.

Lemma downloadWorker_hoare evs ctx fileTestID (endpoint : Endpoint W)
    expectedHashes i :
  clientKeeps I (Endpoint_Client endpoint) →
  (Z.to_nat i < length expectedHashes)%nat →
  hoare (logged I evs)
    (downloadWorker sha256_Sum Quote ctx fileTestID endpoint expectedHashes i)
    (λ _, logged I
       (evs ++ [EDownload (Endpoint_ID endpoint) (pathName fileTestID i)])).
Proof.
  intros (_ & Hdown & _) Hi. unfold downloadWorker.
  eapply hoare_bind; [by apply emit_hoare|].
  intros []. eapply hoare_bind.
  { apply (hoare_call _ _ (λ _, logged I
      (evs ++ [EDownload (Endpoint_ID endpoint) (pathName fileTestID i)]))).
    intros st [Hev HI]. split; [done|]. by apply Hdown. }
  intros [strm|msg]; [|by apply hoare_ret].
  destruct (failure (stream strm)); [by apply hoare_ret|].
  destruct (lookup_lt_is_Some_2 expectedHashes (Z.to_nat i) Hi)
    as [expected ->].
  case_decide; by apply hoare_ret.
Qed.

Lemma schedule_lt n i : i ∈ schedule n → (i < n)%nat.
Proof.
  rewrite (schedule_perm n). intros Hi%elem_of_seq. lia.
Qed.

Lemma Checker_Upload_hoare evs ctx fileTestID fileTest (endpoint : Endpoint W) :
  clientKeeps I (Endpoint_Client endpoint) →
  hoare (logged I evs)
    (Checker_Upload randRead now schedule c ctx fileTestID fileTest endpoint)
    (λ err st, ∃ r,
       logged I
         (evs ++
          uploadEvents randRead (Endpoint_ID endpoint) fileTestID fileTest
            (schedule (Z.to_nat (NumParallel fileTest))) ++
          [EReport Upload fileTestID (Endpoint_ID endpoint) r err]) st).
Proof.
  intros Hcl. unfold Checker_Upload.
  eapply hoare_bind; [apply newResultNow_hoare|].
  intros result. eapply hoare_bind.
  { unfold upload. eapply hoare_bind; [apply WithTimeout_hoare|].
    intros ctx'.
    apply (runParallel_hoare evs ctx' _ _
             (λ i, EUpload (Endpoint_ID endpoint)
                     (pathName fileTestID (Z.of_nat i))
                     (content (fileReader randRead fileTest (Z.of_nat i))))).
    intros i evs' _. by apply uploadWorker_hoare. }
  intros err. eapply hoare_bind; [apply finish_hoare|].
  intros r. eapply hoare_conseq; [apply report_hoare|done|].
  intros err' st Hst. exists r. cbv beta in Hst.
  by rewrite <- app_assoc in Hst.
Qed.

Lemma Checker_Delete_hoare evs ctx fileTestID fileTest (endpoint : Endpoint W) :
  clientKeeps I (Endpoint_Client endpoint) →
  hoare (logged I evs)
    (Checker_Delete now schedule c ctx fileTestID fileTest endpoint)
    (λ err st, ∃ r,
       logged I
         (evs ++
          deleteEvents (Endpoint_ID endpoint) fileTestID
            (schedule (Z.to_nat (NumParallel fileTest))) ++
          [EReport Delete fileTestID (Endpoint_ID endpoint) r err]) st).
Proof.
  intros Hcl. unfold Checker_Delete.
  eapply hoare_bind; [apply newResultNow_hoare|].
  intros result. eapply hoare_bind.
  { unfold del. eapply hoare_bind; [apply WithTimeout_hoare|].
    intros ctx'.
    apply (runParallel_hoare evs ctx' _ _
             (λ i, EDelete (Endpoint_ID endpoint)
                     (pathName fileTestID (Z.of_nat i)))).
    intros i evs' _. by apply delWorker_hoare. }
  intros err. eapply hoare_bind; [apply finish_hoare|].
  intros r. eapply hoare_conseq; [apply report_hoare|done|].
  intros err' st Hst. exists r. cbv beta in Hst.
  by rewrite <- app_assoc in Hst.
Qed.

Lemma Checker_Download_hoare evs ctx fileTestID fileTest
    (endpoint : Endpoint W) :
  clientKeeps I (Endpoint_Client endpoint) →
  0 ≤ NumParallel fileTest →
  hoare (logged I evs)
    (Checker_Download randRead sha256_Sum now schedule Quote c ctx fileTestID
       fileTest endpoint)
    (λ err st, ∃ r,
       logged I
         (evs ++
          downloadEvents (Endpoint_ID endpoint) fileTestID
            (schedule (Z.to_nat (NumParallel fileTest))) ++
          [EReport Download fileTestID (Endpoint_ID endpoint) r err]) st).
Proof.
  intros Hcl Hn. unfold Checker_Download.
  rewrite (proj2 (Z.ltb_ge _ _) Hn), expectedHashesLoop_inr.
  eapply hoare_bind; [apply newResultNow_hoare|].
  intros result. eapply hoare_bind.
  { unfold download. eapply hoare_bind; [apply WithTimeout_hoare|].
    intros ctx'.
    apply (runParallel_hoare evs ctx' _ _
             (λ i, EDownload (Endpoint_ID endpoint)
                     (pathName fileTestID (Z.of_nat i)))).
    intros i evs' Hi. apply downloadWorker_hoare; [done|].
    apply schedule_lt in Hi. simpl.
    rewrite length_map, length_seq. lia. }
  intros err. eapply hoare_bind; [apply finish_hoare|].
  intros r. eapply hoare_conseq; [apply report_hoare|done|].
  intros err' st Hst. exists r. cbv beta in Hst.
  by rewrite <- app_assoc in Hst.
Qed.

Lemma RunCheck_hoare evs ctx fileTestID fileTest (endpoint : Endpoint W) :
  clientKeeps I (Endpoint_Client endpoint) →
  hoare (logged I evs)
    (RunCheck randRead sha256_Sum now schedule Quote c ctx fileTestID
       fileTest endpoint)
    (λ err st, ∃ fileTest' evs',
       resolved c fileTest fileTest' ∧
       checkTrace randRead schedule (Endpoint_ID endpoint) fileTestID
         fileTest' err evs' ∧
       logged I (evs ++ evs') st).
Proof.
  intros Hcl. unfold RunCheck.
  set (ft1 := if Timeout fileTest <=? 0 then _ else fileTest).
  eapply hoare_bind.
  { instantiate (1 := λ ft2 st,
      logged I evs st ∧ NumParallel ft2 = NumParallel fileTest ∧
      Timeout ft2 = Timeout ft1 ∧ Size ft2 = Size fileTest ∧
      (0 < Seed fileTest → Seed ft2 = Seed fileTest)).
    assert (NumParallel ft1 = NumParallel fileTest ∧
            Size ft1 = Size fileTest ∧ Seed ft1 = Seed fileTest)
      as (Hn1 & Hs1 & Hd1) by (unfold ft1; by case_match).
    destruct (Z.leb_spec (Seed ft1) 0) as [Hle|Hlt].
    - eapply hoare_bind; [apply now_hoare|]. intros t.
      apply hoare_ret. intros st Hst. simpl. split_and!; (done || lia).
    - apply hoare_ret. intros st Hst. split_and!; (done || lia). }
  intros ft2.
  set (ft3 := if NumParallel ft2 <=? 0 then _ else ft2).
  assert (∀ st,
    (logged I evs st ∧ NumParallel ft2 = NumParallel fileTest ∧
     Timeout ft2 = Timeout ft1 ∧ Size ft2 = Size fileTest ∧
     (0 < Seed fileTest → Seed ft2 = Seed fileTest)) →
    logged I evs st ∧ resolved c fileTest ft3 ∧ 0 ≤ NumParallel ft3) as Hres.
  { intros st (Hst & Hn & Ht & Hs & Hd). split; [done|].
    assert (Timeout ft1 =
            if Timeout fileTest <=? 0 then timeout c else Timeout fileTest)
      as Ht1 by (unfold ft1; by case_match).
    unfold ft3. destruct (Z.leb_spec (NumParallel ft2) 0); simpl.
    - split; [|lia]. split_and!; simpl; [lia|congruence|done..].
    - split; [|lia]. split_and!; simpl; [lia|congruence|done..]. }
  eapply hoare_conseq with
    (P' := λ st, logged I evs st ∧ resolved c fileTest ft3 ∧
                 0 ≤ NumParallel ft3)
    (Q' := λ err st, ∃ fileTest' evs',
       resolved c fileTest fileTest' ∧
       checkTrace randRead schedule (Endpoint_ID endpoint) fileTestID
         fileTest' err evs' ∧
       logged I (evs ++ evs') st); [|exact Hres|done].
  clearbody ft3. clear Hres ft2 ft1.
  intros st (Hst & Hr & Hn). revert st Hst.
  change (hoare (logged I evs)
    (err ← Checker_Upload randRead now schedule c ctx fileTestID ft3 endpoint;
     match err with
     | Some msg => mret (Some msg)
     | None =>
         err ← Checker_Download randRead sha256_Sum now schedule Quote c ctx
                 fileTestID ft3 endpoint;
         match err with
         | Some msg => mret (Some msg)
         | None =>
             err ← Checker_Delete now schedule c ctx fileTestID ft3 endpoint;
             match err with
             | Some msg => mret (Some msg)
             | None => mret None
             end
         end
     end)
    (λ err st, ∃ fileTest' evs',
       resolved c fileTest fileTest' ∧
       checkTrace randRead schedule (Endpoint_ID endpoint) fileTestID
         fileTest' err evs' ∧
       logged I (evs ++ evs') st)).
  eapply hoare_bind.
  { instantiate (1 := λ err st, ∃ r,
      logged I
        (evs ++
         uploadEvents randRead (Endpoint_ID endpoint) fileTestID ft3
           (schedule (Z.to_nat (NumParallel ft3))) ++
         [EReport Upload fileTestID (Endpoint_ID endpoint) r err]) st).
    by apply Checker_Upload_hoare. }
  intros [msg1|].
  { apply hoare_ret. intros st (r1 & Hst). eexists ft3, _.
    split; [done|]. split; [|exact Hst].
    eexists r1, (Some msg1), []. by split. }
  intros st (r1 & Hst). revert st Hst.
  match goal with |- ∀ st, ?P st → _ => change (hoare P
    (err ← Checker_Download randRead sha256_Sum now schedule Quote c ctx
             fileTestID ft3 endpoint;
     match err with
     | Some msg => mret (Some msg)
     | None =>
         err ← Checker_Delete now schedule c ctx fileTestID ft3 endpoint;
         match err with
         | Some msg => mret (Some msg)
         | None => mret None
         end
     end)
    (λ err st, ∃ fileTest' evs',
       resolved c fileTest fileTest' ∧
       checkTrace randRead schedule (Endpoint_ID endpoint) fileTestID
         fileTest' err evs' ∧
       logged I (evs ++ evs') st)) end.
  eapply hoare_bind; [by apply Checker_Download_hoare|].
  intros [msg2|].
  { apply hoare_ret. intros st (r2 & Hst). eexists ft3, _.
    split; [done|]. split.
    - eexists r1, None, _. split; [done|]. eexists r2, (Some msg2), [].
      by split.
    - rewrite <- !app_assoc in Hst. exact Hst. }
  intros st (r2 & Hst). revert st Hst.
  match goal with |- ∀ st, ?P st → _ => change (hoare P
    (err ← Checker_Delete now schedule c ctx fileTestID ft3 endpoint;
     match err with
     | Some msg => mret (Some msg)
     | None => mret None
     end)
    (λ err st, ∃ fileTest' evs',
       resolved c fileTest fileTest' ∧
       checkTrace randRead schedule (Endpoint_ID endpoint) fileTestID
         fileTest' err evs' ∧
       logged I (evs ++ evs') st)) end.
  eapply hoare_bind; [by apply Checker_Delete_hoare|].
  intros err3.
  assert (hoare
    (λ st, ∃ r,
       logged I
         (((evs ++
           uploadEvents randRead (Endpoint_ID endpoint) fileTestID ft3
             (schedule (Z.to_nat (NumParallel ft3))) ++
           [EReport Upload fileTestID (Endpoint_ID endpoint) r1 None]) ++
          downloadEvents (Endpoint_ID endpoint) fileTestID
            (schedule (Z.to_nat (NumParallel ft3))) ++
          [EReport Download fileTestID (Endpoint_ID endpoint) r2 None]) ++
         deleteEvents (Endpoint_ID endpoint) fileTestID
           (schedule (Z.to_nat (NumParallel ft3))) ++
         [EReport Delete fileTestID (Endpoint_ID endpoint) r err3]) st)
    (mret err3 : M W Go.error)
    (λ err st, ∃ fileTest' evs',
       resolved c fileTest fileTest' ∧
       checkTrace randRead schedule (Endpoint_ID endpoint) fileTestID
         fileTest' err evs' ∧
       logged I (evs ++ evs') st)) as Hend.
  { apply hoare_ret. intros st (r3 & Hst). eexists ft3, _.
    split; [done|]. split.
    - eexists r1, None, _. split; [done|]. eexists r2, None, _.
      split; [done|]. by exists r3.
    - rewrite <- !app_assoc in Hst. exact Hst. }
  by destruct err3.
Qed.

(** The checks of all file-tests on all endpoints, with a reporter that
    returns [nil]. *)
Lemma I_returned_nil evs0 evs st operation fileTestID endpointID r err :
  (∀ w rs, I w (reportsOf evs0 ++ rs) → Forall (λ e, returned e = None) rs) →
  logged I (evs0 ++ evs) st →
  EReport operation fileTestID endpointID r err ∈ evs →
  err = None.
Proof.
  intros HI [_ Hst] Hin. rewrite reportsOf_app in Hst. apply HI in Hst.
  rewrite Forall_forall in Hst.
  apply (Hst (EReport operation fileTestID endpointID r err)).
  by apply list_elem_of_filter.
Qed.

Lemma reportKeys_app evs1 evs2 :
  reportKeys (evs1 ++ evs2) = reportKeys evs1 ++ reportKeys evs2.
Proof. apply omap_app. Qed.

Lemma reportKeys_uploadEvents endpointID fileTestID fileTest l :
  reportKeys (uploadEvents randRead endpointID fileTestID fileTest l) = [].
Proof. by induction l. Qed.

Lemma reportKeys_downloadEvents endpointID fileTestID l :
  reportKeys (downloadEvents endpointID fileTestID l) = [].
Proof. by induction l. Qed.

Lemma reportKeys_deleteEvents endpointID fileTestID l :
  reportKeys (deleteEvents endpointID fileTestID l) = [].
Proof. by induction l. Qed.

Lemma RunCheck_quiet evs0 evs ctx fileTestID fileTest (endpoint : Endpoint W) :
  (∀ w rs, I w (reportsOf evs0 ++ rs) → Forall (λ e, returned e = None) rs) →
  clientKeeps I (Endpoint_Client endpoint) →
  hoare (logged I (evs0 ++ evs))
    (RunCheck randRead sha256_Sum now schedule Quote c ctx fileTestID
       fileTest endpoint)
    (λ err st, err = None ∧ ∃ evs',
       reportKeys evs' = checkKeys fileTestID (Endpoint_ID endpoint) ∧
       logged I (evs0 ++ evs ++ evs') st).
Proof.
  intros HI Hcl. eapply hoare_conseq; [by apply RunCheck_hoare|done|].
  intros err st (ft' & evs' & _ & Htrace & Hst).
  rewrite <- app_assoc in Hst.
  destruct Htrace as (r1 & e1 & rest1 & -> & H1).
  assert (e1 = None) as ->.
  { eapply (I_returned_nil _ _ _ _ _ _ _ _ HI Hst).
    apply elem_of_app. right. apply elem_of_app. right. left. }
  destruct H1 as (r2 & e2 & rest2 & -> & H2).
  assert (e2 = None) as ->.
  { eapply (I_returned_nil _ _ _ _ _ _ _ _ HI Hst).
    apply elem_of_app. right. apply elem_of_app. right. right.
    apply elem_of_app. right. left. }
  destruct H2 as (r3 & ->).
  assert (err = None) as ->.
  { eapply (I_returned_nil _ _ _ _ _ _ _ _ HI Hst).
    apply elem_of_app. right. apply elem_of_app. right. right.
    apply elem_of_app. right. right.
    apply elem_of_app. right. left. }
  split; [done|]. eexists. split; [|exact Hst].
  rewrite reportKeys_app, reportKeys_uploadEvents. simpl.
  rewrite reportKeys_app, reportKeys_downloadEvents. simpl.
  by rewrite reportKeys_app, reportKeys_deleteEvents.
Qed.

Lemma RunChecks_quiet evs ctx :
  (∀ w rs, I w (reportsOf evs ++ rs) → Forall (λ e, returned e = None) rs) →
  Forall (λ endpoint, clientKeeps I (Endpoint_Client endpoint))
    (endpoints c) →
  hoare (logged I evs)
    (RunChecks randRead sha256_Sum now schedule Quote c ctx)
    (λ err st, err = None ∧ ∃ evs',
       reportKeys evs' = sweepKeys c ∧ logged I (evs ++ evs') st).
Proof.
  intros HI Hcl. unfold RunChecks, sweepKeys.
  set (inner := λ fileTestID : ID,
         flat_map (λ endpoint : Endpoint W,
                     checkKeys fileTestID (Endpoint_ID endpoint))).
  set (outer := flat_map (λ '(fileTestID, _), inner fileTestID (endpoints c))
                : list (ID * FileTest) → _).
  eapply hoare_conseq.
  - apply (hoare_untilError _ _
      (λ pre st, ∃ evs', reportKeys evs' = outer pre ∧
                         logged I (evs ++ evs') st)
      (λ err st, err = None ∧ ∃ evs',
         reportKeys evs' = outer (map_to_list (fileTests c)) ∧
         logged I (evs ++ evs') st)).
    + intros pre [fileTestID fileTest] post Hl.
      intros st (evs1 & Hk1 & Hst).
      assert (hoare (logged I (evs ++ evs1))
        (untilError (endpoints c) (λ endpoint,
           RunCheck randRead sha256_Sum now schedule Quote c ctx fileTestID
             fileTest endpoint))
        (λ err st, err = None ∧ ∃ evs',
           reportKeys evs' = inner fileTestID (endpoints c) ∧
           logged I (evs ++ evs1 ++ evs') st)) as Hinner.
      { eapply hoare_conseq.
        - apply (hoare_untilError _ _
            (λ pre st, ∃ evs', reportKeys evs' = inner fileTestID pre ∧
                               logged I (evs ++ evs1 ++ evs') st)
            (λ err st, err = None ∧ ∃ evs',
               reportKeys evs' = inner fileTestID (endpoints c) ∧
               logged I (evs ++ evs1 ++ evs') st)).
          + intros pre' endpoint post' Hl'. intros st' (evs2 & Hk2 & Hst').
            assert (clientKeeps I (Endpoint_Client endpoint)) as Hep.
            { rewrite Forall_forall in Hcl. apply Hcl. rewrite Hl'.
              apply elem_of_app. right. left. }
            destruct (RunCheck_quiet evs (evs1 ++ evs2) ctx fileTestID
                        fileTest endpoint HI Hep st' Hst')
              as (err & st'' & Hrun & -> & evs3 & Hk3 & Hst'').
            exists None, st''. split; [done|].
            exists (evs2 ++ evs3). split.
            * rewrite reportKeys_app, Hk2, Hk3. unfold inner.
              rewrite flat_map_app. simpl. by rewrite ?app_nil_r.
            * by rewrite <- app_assoc in Hst''.
          + intros st' Hst'. by split.
        - intros st' Hst'. exists []. split; [done|]. by rewrite app_nil_r.
        - done. }
      destruct (Hinner st Hst) as (err & st' & Hrun & -> & evs2 & Hk2 & Hst').
      exists None, st'. split; [done|].
      exists (evs1 ++ evs2). split.
      * rewrite reportKeys_app, Hk1, Hk2. unfold outer.
        rewrite flat_map_app. simpl. by rewrite ?app_nil_r.
      * done.
    + intros st Hst. by split.
  - intros st Hst. exists []. split; [done|]. by rewrite app_nil_r.
  - done.
Qed.

End logged.

Section checker_traces.

Import check runs example.

Context {W : Type}.
Variable randRead : Z → nat → list Byte.byte.
Variable sha256_Sum : list Byte.byte → list Byte.byte.
Variable now : W → Z * W.
Variable schedule : nat → list nat.
Variable Quote : string → string.

Hypothesis schedule_perm : ∀ n, schedule n ≡ₚ seq 0 n.

Lemma anyWorld_client (client : Client W) : clientKeeps anyWorld client.
Proof. by split_and!. Qed.

Lemma anyWorld_reporter (r : reporter W) : reporterKeeps anyWorld r.
Proof. by intros ? ? ? ? ? ? ?. Qed.

Lemma hoare_runs {A} (m : M W A) (Q : A → list Event → Prop) :
  (∀ evs0, hoare (logged anyWorld evs0) m
             (λ a st, ∃ evs, logged anyWorld (evs0 ++ evs) st ∧ Q a evs)) →
  runs m Q.
Proof.
  intros Hm st.
  destruct (Hm (events st) st) as (a & st' & Hrun & evs & [Hev _] & HQ);
    [done|].
  by exists a, st', evs.
Qed.

Lemma uploadedPaths_app evs1 evs2 :
  uploadedPaths (evs1 ++ evs2) = uploadedPaths evs1 ++ uploadedPaths evs2.
Proof. apply omap_app. Qed.

Lemma downloadedPaths_app evs1 evs2 :
  downloadedPaths (evs1 ++ evs2) =
  downloadedPaths evs1 ++ downloadedPaths evs2.
Proof. apply omap_app. Qed.

Lemma deletedPaths_app evs1 evs2 :
  deletedPaths (evs1 ++ evs2) = deletedPaths evs1 ++ deletedPaths evs2.
Proof. apply omap_app. Qed.

Lemma paths_uploadEvents endpointID fileTestID fileTest l :
  let evs := uploadEvents randRead endpointID fileTestID fileTest l in
  uploadedPaths evs = map (λ i, pathName fileTestID (Z.of_nat i)) l ∧
  downloadedPaths evs = [] ∧ deletedPaths evs = [].
Proof.
  induction l as [|i l (IH1 & IH2 & IH3)]; [done|]. simpl.
  split_and!; [|done..]. f_equal. exact IH1.
Qed.

Lemma paths_downloadEvents endpointID fileTestID l :
  let evs := downloadEvents endpointID fileTestID l in
  uploadedPaths evs = [] ∧
  downloadedPaths evs = map (λ i, pathName fileTestID (Z.of_nat i)) l ∧
  deletedPaths evs = [].
Proof.
  induction l as [|i l (IH1 & IH2 & IH3)]; [done|]. simpl.
  split_and!; [done| |done]. f_equal. exact IH2.
Qed.

Lemma paths_deleteEvents endpointID fileTestID l :
  let evs := deleteEvents endpointID fileTestID l in
  uploadedPaths evs = [] ∧ downloadedPaths evs = [] ∧
  deletedPaths evs = map (λ i, pathName fileTestID (Z.of_nat i)) l.
Proof.
  induction l as [|i l (IH1 & IH2 & IH3)]; [done|]. simpl.
  split_and!; [done..|]. f_equal. exact IH3.
Qed.

Lemma pathsOf_schedule fileTestID n :
  map (λ i, pathName fileTestID (Z.of_nat i)) (schedule n) ≡ₚ
  pathsOf fileTestID n.
Proof. unfold pathsOf. by rewrite (schedule_perm n). Qed.

Lemma RunCheck_trace (c : Checker W) ctx fileTestID fileTest endpoint :
  runs (RunCheck randRead sha256_Sum now schedule Quote c ctx fileTestID
          fileTest endpoint)
    (λ err evs, ∃ fileTest',
       resolved c fileTest fileTest' ∧
       checkTrace randRead schedule (Endpoint_ID endpoint) fileTestID
         fileTest' err evs).
Proof.
  apply hoare_runs. intros evs0. eapply hoare_conseq.
  - by apply (RunCheck_hoare randRead sha256_Sum now schedule Quote
               schedule_perm anyWorld).
  - done.
  - intros err st (ft' & evs' & Hr & Ht & Hst). exists evs'.
    split; [done|]. by exists ft'.
Qed.


End checker_traces.

Section traces_example.

Import check runs example.

Lemma reportText_quiet : quiet reportText.
Proof. by intros operation fileTestID endpointID result w. Qed.


End traces_example.

(** ** The checker on a store of objects *)

Section store.

Import check runs.

Context {W : Type}.
Variable randRead : Z → nat → list Byte.byte.
Variable sha256_Sum : list Byte.byte → list Byte.byte.
Variable now : W → Z * W.
Variable schedule : nat → list nat.
Variable Quote : string → string.

Hypothesis schedule_perm : ∀ n, schedule n ≡ₚ seq 0 n.

Variable objectsOf : W → gmap string (list Byte.byte).
Hypothesis now_objects : ∀ w, objectsOf (now w).2 = objectsOf w.

Variable c : Checker W.
Hypothesis report_objects :
  ∀ operation fileTestID endpointID result w,
    objectsOf (checker_reporter c operation fileTestID endpointID result w).2
    = objectsOf w.
Hypothesis report_quiet : quiet (checker_reporter c).

Lemma hoare_forM_all {A B} (l : list A) (body : A → M W B) (R : B → Prop)
    (Inv : list A → State W → Prop) :
  (∀ pre x post, l = pre ++ x :: post →
     hoare (Inv pre) (body x) (λ y st, R y ∧ Inv (pre ++ [x]) st)) →
  hoare (Inv []) (forM l body) (λ ys st, Forall R ys ∧ Inv l st).
Proof.
  assert (∀ l2 l1, l = l1 ++ l2 →
    (∀ pre x post, l = pre ++ x :: post →
       hoare (Inv pre) (body x) (λ y st, R y ∧ Inv (pre ++ [x]) st)) →
    hoare (Inv l1) (forM l2 body) (λ ys st, Forall R ys ∧ Inv l st)) as Hgen.
  { induction l2 as [|x l2 IH]; intros l1 Hl Hbody.
    - rewrite app_nil_r in Hl. subst l1. by apply hoare_ret.
    - simpl. eapply hoare_bind; [by apply (Hbody l1 x l2)|].
      intros y st [Hy Hst]. revert st Hst.
      change (hoare (Inv (l1 ++ [x]))
                (ys ← forM l2 body; mret (y :: ys))
                (λ ys st, Forall R ys ∧ Inv l st)).
      eapply hoare_bind.
      + apply (IH (l1 ++ [x])); [|done]. by rewrite <- app_assoc.
      + intros ys. apply hoare_ret. intros st [Hys Hst].
        split; [|done]. by apply Forall_cons. }
  intros Hbody. by apply (Hgen l []).
Qed.

Lemma hoare_pure {A} (φ : Prop) (P : State W → Prop) (m : M W A)
    (Q : A → State W → Prop) :
  (φ → hoare P m Q) → hoare (λ st, φ ∧ P st) m Q.
Proof. intros Hm st [Hφ HP]. by apply Hm. Qed.

Lemma hoare_exists {A T} (P : T → State W → Prop) (m : M W A)
    (Q : A → State W → Prop) :
  (∀ x, hoare (P x) m Q) → hoare (λ st, ∃ x, P x st) m Q.
Proof. intros Hm st [x HP]. by apply (Hm x). Qed.

Lemma pathName_inj fileTestID i j :
  pathName fileTestID i = pathName fileTestID j → i = j.
Proof.
  unfold pathName, Go.Itoa. intros Heq.
  apply (inj (String.app fileTestID)) in Heq. by apply (inj pretty) in Heq.
Qed.

Lemma uploadAll_snoc fileTestID fileTest l i m :
  uploadAll randRead fileTestID fileTest (l ++ [i]) m =
  <[pathName fileTestID (Z.of_nat i) :=
      content (fileReader randRead fileTest (Z.of_nat i))]>
    (uploadAll randRead fileTestID fileTest l m).
Proof. unfold uploadAll. by rewrite foldl_app. Qed.

Lemma deleteAll_snoc fileTestID l i m :
  deleteAll fileTestID (l ++ [i]) m =
  delete (pathName fileTestID (Z.of_nat i)) (deleteAll fileTestID l m).
Proof. unfold deleteAll. by rewrite foldl_app. Qed.

Lemma lookup_uploadAll_other fileTestID fileTest l m name :
  name ∉ map (λ i, pathName fileTestID (Z.of_nat i)) l →
  uploadAll randRead fileTestID fileTest l m !! name = m !! name.
Proof.
  induction l as [|i l IH] using rev_ind; [done|]. intros Hin.
  rewrite map_app in Hin. apply not_elem_of_app in Hin as [Hl Hi].
  rewrite uploadAll_snoc. rewrite lookup_insert_ne; [by apply IH|].
  intros <-. apply Hi. left.
Qed.

Lemma lookup_uploadAll_in fileTestID fileTest l m i :
  i ∈ l →
  uploadAll randRead fileTestID fileTest l m
    !! pathName fileTestID (Z.of_nat i) =
  Some (content (fileReader randRead fileTest (Z.of_nat i))).
Proof.
  induction l as [|j l IH] using rev_ind; [by intros ?%elem_of_nil|].
  intros Hin. rewrite uploadAll_snoc.
  destruct (decide (j = i)) as [->|Hne].
  - by rewrite lookup_insert_eq.
  - rewrite lookup_insert_ne.
    + apply IH. apply elem_of_app in Hin as [?|Hin]; [done|].
      apply list_elem_of_singleton in Hin. by subst.
    + intros Heq%pathName_inj. lia.
Qed.

Lemma lookup_deleteAll fileTestID l m name :
  deleteAll fileTestID l m !! name =
  if decide (name ∈ map (λ i, pathName fileTestID (Z.of_nat i)) l)
  then None else m !! name.
Proof.
  induction l as [|i l IH] using rev_ind.
  - rewrite decide_False; [done|]. by intros ?%elem_of_nil.
  - rewrite deleteAll_snoc, map_app. simpl.
    destruct (decide (name = pathName fileTestID (Z.of_nat i))) as [->|Hne].
    + rewrite lookup_delete_eq. rewrite decide_True; [done|].
      apply elem_of_app. right. left.
    + rewrite lookup_delete_ne by done. rewrite IH.
      destruct (decide (name ∈ map (λ i, pathName fileTestID (Z.of_nat i)) l))
        as [Hin|Hin].
      * rewrite decide_True; [done|]. apply elem_of_app. by left.
      * rewrite decide_False; [done|].
        intros [?|Hi%list_elem_of_singleton]%elem_of_app; done.
Qed.

Lemma now_stored m evs :
  hoare (stored objectsOf m evs) (call now) (λ _, stored objectsOf m evs).
Proof.
  apply hoare_call. intros st [Hm Hev]. split; [|done]. simpl.
  by rewrite now_objects.
Qed.

Lemma newResultNow_stored m evs :
  hoare (stored objectsOf m evs) (newResultNow now)
    (λ r st, Error r = "" ∧ stored objectsOf m evs st).
Proof.
  unfold newResultNow. eapply hoare_bind; [apply now_stored|].
  intros t. by apply hoare_ret.
Qed.

Lemma WithTimeout_stored m evs ctx d :
  hoare (stored objectsOf m evs) (WithTimeout now ctx d)
    (λ _, stored objectsOf m evs).
Proof.
  unfold WithTimeout. eapply hoare_bind; [apply now_stored|].
  intros t. by apply hoare_ret.
Qed.

Lemma finish_stored m evs result :
  Error result = "" →
  hoare (stored objectsOf m evs) (finish now result None)
    (λ r st, succeeded r ∧ stored objectsOf m evs st).
Proof.
  intros Hres. unfold finish, Since.
  apply (hoare_bind _ _ _ (λ _, stored objectsOf m evs)).
  { eapply hoare_bind; [apply now_stored|]. intros t. by apply hoare_ret. }
  intros d. apply hoare_ret. intros st Hst. by split.
Qed.

Lemma report_stored m evs operation fileTestID endpointID result :
  hoare (stored objectsOf m evs)
    (report c operation fileTestID endpointID result)
    (λ err st,
       err = None ∧
       stored objectsOf m
         (evs ++ [EReport operation fileTestID endpointID result None]) st).
Proof.
  unfold report.
  apply (hoare_bind _ _ _ (λ err st, err = None ∧ stored objectsOf m evs st)).
  { apply hoare_call. intros st [Hm Hev]. split; [apply report_quiet|].
    split; [|done]. simpl. by rewrite report_objects. }
  intros err.
  apply (hoare_bind _ _ _ (λ _ st, err = None ∧
    stored objectsOf m
      (evs ++ [EReport operation fileTestID endpointID result None]) st)).
  { apply hoare_emit. intros st (-> & Hm & Hev). split; [done|].
    split; [done|]. simpl. by rewrite Hev. }
  intros []. by apply hoare_ret.
Qed.

(** A fan-out whose workers return [nil] and write one event each. *)
Lemma runParallel_stored (S : list nat → gmap string (list Byte.byte)) evs
    ctx numParallel (f : Z → M W Go.error) (g : nat → Event) :
  (∀ pre i post evs',
     schedule (Z.to_nat numParallel) = pre ++ i :: post →
     hoare (stored objectsOf (S pre) evs') (f (Z.of_nat i))
       (λ err st, err = None ∧
                  stored objectsOf (S (pre ++ [i])) (evs' ++ [g i]) st)) →
  hoare (stored objectsOf (S []) evs)
    (runParallel schedule ctx numParallel f)
    (λ err st,
       err = None ∧
       stored objectsOf (S (schedule (Z.to_nat numParallel)))
         (evs ++ map g (schedule (Z.to_nat numParallel))) st).
Proof.
  intros Hf. unfold runParallel.
  apply (hoare_bind _ _ _
           (λ errs st, Forall (λ err, err = None) errs ∧
              stored objectsOf (S (schedule (Z.to_nat numParallel)))
                (evs ++ map g (schedule (Z.to_nat numParallel))) st)).
  - eapply hoare_conseq.
    + apply (hoare_forM_all _ _ (λ err, err = None)
               (λ pre, stored objectsOf (S pre) (evs ++ map g pre))).
      intros pre i post Hl. eapply hoare_conseq.
      * by apply (Hf pre i post (evs ++ map g pre)).
      * done.
      * intros a st [Ha Hst]. split; [done|].
        by rewrite map_app, app_assoc.
    + intros st Hst. simpl. by rewrite app_nil_r.
    + done.
  - intros errs. apply hoare_ret. intros st [Herrs Hst]. split; [|done].
    by apply firstError_None.
Qed.

Lemma schedule_NoDup n : NoDup (schedule n).
Proof. rewrite (schedule_perm n). apply NoDup_seq. Qed.

Section operations.

Variable ctx : Context.
Variable fileTestID : ID.
Variable fileTest : FileTest.
Variable endpoint : Endpoint W.
Hypothesis endpoint_store : storeClient objectsOf (Endpoint_Client endpoint).

Lemma Checker_Upload_stored m evs :
  hoare (stored objectsOf m evs)
    (Checker_Upload randRead now schedule c ctx fileTestID fileTest endpoint)
    (λ err st, err = None ∧ ∃ r,
       succeeded r ∧
       stored objectsOf
         (uploadAll randRead fileTestID fileTest
            (schedule (Z.to_nat (NumParallel fileTest))) m)
         (evs ++
          uploadEvents randRead (Endpoint_ID endpoint) fileTestID fileTest
            (schedule (Z.to_nat (NumParallel fileTest))) ++
          [EReport Upload fileTestID (Endpoint_ID endpoint) r None]) st).
Proof.
  destruct endpoint_store as (Hup & _ & _). unfold Checker_Upload.
  eapply hoare_bind; [apply newResultNow_stored|].
  intros result. cbv beta. apply hoare_pure. intros Hres.
  eapply hoare_bind.
  { unfold upload. eapply hoare_bind; [apply WithTimeout_stored|].
    intros ctx'.
    apply (runParallel_stored
             (λ l, uploadAll randRead fileTestID fileTest l m) evs ctx' _ _
             (λ i, EUpload (Endpoint_ID endpoint)
                     (pathName fileTestID (Z.of_nat i))
                     (content (fileReader randRead fileTest (Z.of_nat i))))).
    intros pre i post evs' _. unfold uploadWorker.
    apply (hoare_bind _ _ _ (λ _, stored objectsOf
      (uploadAll randRead fileTestID fileTest pre m)
      (evs' ++ [EUpload (Endpoint_ID endpoint)
                  (pathName fileTestID (Z.of_nat i))
                  (content (fileReader randRead fileTest (Z.of_nat i)))]))).
    { apply hoare_emit. intros st [Hm Hev]. split; [done|]. simpl.
      by rewrite Hev. }
    intros []. apply hoare_call. intros st [Hm Hev].
    destruct (Hup ctx' (pathName fileTestID (Z.of_nat i))
                (fileReader randRead fileTest (Z.of_nat i)) (world st)
                eq_refl) as [Herr Hobj].
    split; [done|]. split; [|done]. simpl.
    by rewrite Hobj, Hm, uploadAll_snoc. }
  intros err. cbv beta. apply hoare_pure. intros ->.
  eapply hoare_bind; [by apply finish_stored|].
  intros r. cbv beta. apply hoare_pure. intros Hr.
  eapply hoare_conseq; [apply report_stored|done|].
  intros err' st [-> Hst]. split; [done|]. exists r. split; [done|].
  by rewrite <- app_assoc in Hst.
Qed.

Lemma Checker_Download_stored m evs :
  0 ≤ NumParallel fileTest →
  (∀ i, i ∈ schedule (Z.to_nat (NumParallel fileTest)) →
        m !! pathName fileTestID (Z.of_nat i) =
        Some (content (fileReader randRead fileTest (Z.of_nat i)))) →
  hoare (stored objectsOf m evs)
    (Checker_Download randRead sha256_Sum now schedule Quote c ctx
       fileTestID fileTest endpoint)
    (λ err st, err = None ∧ ∃ r,
       succeeded r ∧
       stored objectsOf m
         (evs ++
          downloadEvents (Endpoint_ID endpoint) fileTestID
            (schedule (Z.to_nat (NumParallel fileTest))) ++
          [EReport Download fileTestID (Endpoint_ID endpoint) r None]) st).
Proof.
  intros Hn Hm. destruct endpoint_store as (_ & Hdown & _).
  unfold Checker_Download.
  rewrite (proj2 (Z.ltb_ge _ _) Hn), expectedHashesLoop_inr.
  eapply hoare_bind; [apply newResultNow_stored|].
  intros result. cbv beta. apply hoare_pure. intros Hres.
  eapply hoare_bind.
  { unfold download. eapply hoare_bind; [apply WithTimeout_stored|].
    intros ctx'.
    apply (runParallel_stored (λ _, m) evs ctx' _ _
             (λ i, EDownload (Endpoint_ID endpoint)
                     (pathName fileTestID (Z.of_nat i)))).
    intros pre i post evs' Hl. unfold downloadWorker.
    assert (i ∈ schedule (Z.to_nat (NumParallel fileTest))) as Hi.
    { rewrite Hl. apply elem_of_app. right. left. }
    apply (hoare_bind _ _ _ (λ _, stored objectsOf m
      (evs' ++ [EDownload (Endpoint_ID endpoint)
                  (pathName fileTestID (Z.of_nat i))]))).
    { apply hoare_emit. intros st [Hst Hev]. split; [done|]. simpl.
      by rewrite Hev. }
    intros [].
    apply (hoare_bind _ _ _ (λ r st,
      (∃ strm, r = inl strm ∧
               content (stream strm) =
                 content (fileReader randRead fileTest (Z.of_nat i)) ∧
               failure (stream strm) = None) ∧
      stored objectsOf m
        (evs' ++ [EDownload (Endpoint_ID endpoint)
                    (pathName fileTestID (Z.of_nat i))]) st)).
    { apply hoare_call. intros st [Hst Hev].
      destruct (Hdown ctx' (pathName fileTestID (Z.of_nat i)) (world st)
                  (content (fileReader randRead fileTest (Z.of_nat i))))
        as [Hobj Hstrm].
      { rewrite Hst. by apply Hm. }
      split; [done|]. split; [|done]. simpl. by rewrite Hobj. }
    intros r. cbv beta. apply hoare_pure.
    intros (strm & -> & Hcontent & Hfail). rewrite Hfail, Hcontent.
    rewrite Nat2Z.id, app_nil_l, list_lookup_fmap, lookup_seq_lt.
    - simpl. rewrite decide_True by done. by apply hoare_ret.
    - rewrite (schedule_perm _) in Hi. apply elem_of_seq in Hi. lia. }
  intros err. cbv beta. apply hoare_pure. intros ->.
  eapply hoare_bind; [by apply finish_stored|].
  intros r. cbv beta. apply hoare_pure. intros Hr.
  eapply hoare_conseq; [apply report_stored|done|].
  intros err' st [-> Hst]. split; [done|]. exists r. split; [done|].
  by rewrite <- app_assoc in Hst.
Qed.

Lemma Checker_Delete_stored m evs :
  (∀ i, i ∈ schedule (Z.to_nat (NumParallel fileTest)) →
        is_Some (m !! pathName fileTestID (Z.of_nat i))) →
  hoare (stored objectsOf m evs)
    (Checker_Delete now schedule c ctx fileTestID fileTest endpoint)
    (λ err st, err = None ∧ ∃ r,
       succeeded r ∧
       stored objectsOf
         (deleteAll fileTestID (schedule (Z.to_nat (NumParallel fileTest))) m)
         (evs ++
          deleteEvents (Endpoint_ID endpoint) fileTestID
            (schedule (Z.to_nat (NumParallel fileTest))) ++
          [EReport Delete fileTestID (Endpoint_ID endpoint) r None]) st).
Proof.
  intros Hm. destruct endpoint_store as (_ & _ & Hdel).
  unfold Checker_Delete.
  eapply hoare_bind; [apply newResultNow_stored|].
  intros result. cbv beta. apply hoare_pure. intros Hres.
  eapply hoare_bind.
  { unfold del. eapply hoare_bind; [apply WithTimeout_stored|].
    intros ctx'.
    apply (runParallel_stored (λ l, deleteAll fileTestID l m) evs ctx' _ _
             (λ i, EDelete (Endpoint_ID endpoint)
                     (pathName fileTestID (Z.of_nat i)))).
    intros pre i post evs' Hl. unfold delWorker.
    assert (i ∈ schedule (Z.to_nat (NumParallel fileTest))) as Hi.
    { rewrite Hl. apply elem_of_app. right. left. }
    assert (i ∉ pre) as Hpre.
    { pose proof (schedule_NoDup (Z.to_nat (NumParallel fileTest))) as Hnd.
      rewrite Hl in Hnd. apply NoDup_app in Hnd as (_ & Hnd & _).
      intros Hin. apply (Hnd i Hin). left. }
    apply (hoare_bind _ _ _ (λ _, stored objectsOf
      (deleteAll fileTestID pre m)
      (evs' ++ [EDelete (Endpoint_ID endpoint)
                  (pathName fileTestID (Z.of_nat i))]))).
    { apply hoare_emit. intros st [Hst Hev]. split; [done|]. simpl.
      by rewrite Hev. }
    intros []. apply hoare_call. intros st [Hst Hev].
    destruct (Hdel ctx' (pathName fileTestID (Z.of_nat i)) (world st))
      as [Herr Hobj].
    { rewrite Hst, lookup_deleteAll. rewrite decide_False; [by apply Hm|].
      intros (j & Heq & Hj)%list_elem_of_fmap.
      apply pathName_inj in Heq. apply Hpre.
      by replace i with j by lia. }
    split; [done|]. split; [|done]. simpl.
    by rewrite Hobj, Hst, deleteAll_snoc. }
  intros err. cbv beta. apply hoare_pure. intros ->.
  eapply hoare_bind; [by apply finish_stored|].
  intros r. cbv beta. apply hoare_pure. intros Hr.
  eapply hoare_conseq; [apply report_stored|done|].
  intros err' st [-> Hst]. split; [done|]. exists r. split; [done|].
  by rewrite <- app_assoc in Hst.
Qed.

Lemma runOperations_stored m evs :
  0 < NumParallel fileTest →
  hoare (stored objectsOf m evs)
    (runOperations randRead sha256_Sum now schedule Quote c ctx fileTestID
       fileTest endpoint)
    (λ err st, err = None ∧ ∃ r1 r2 r3 evs',
       succeeded r1 ∧ succeeded r2 ∧ succeeded r3 ∧
       reportsOf evs' =
         [EReport Upload fileTestID (Endpoint_ID endpoint) r1 None;
          EReport Download fileTestID (Endpoint_ID endpoint) r2 None;
          EReport Delete fileTestID (Endpoint_ID endpoint) r3 None] ∧
       stored objectsOf
         (deleteAll fileTestID (schedule (Z.to_nat (NumParallel fileTest)))
            (uploadAll randRead fileTestID fileTest
               (schedule (Z.to_nat (NumParallel fileTest))) m))
         (evs ++ evs') st).
Proof.
  intros Hn. unfold runOperations.
  set (l := schedule (Z.to_nat (NumParallel fileTest))).
  eapply hoare_bind; [apply Checker_Upload_stored|].
  intros err. cbv beta. apply hoare_pure. intros ->.
  apply hoare_exists. intros r1. apply hoare_pure. intros Hr1.
  eapply hoare_bind.
  { apply Checker_Download_stored; [lia|]. intros i Hi.
    by apply lookup_uploadAll_in. }
  intros err. cbv beta. apply hoare_pure. intros ->.
  apply hoare_exists. intros r2. apply hoare_pure. intros Hr2.
  eapply hoare_bind.
  { apply Checker_Delete_stored. intros i Hi.
    rewrite lookup_uploadAll_in by done. by eexists. }
  intros err. cbv beta. apply hoare_pure. intros ->.
  apply hoare_exists. intros r3. apply hoare_pure. intros Hr3.
  apply hoare_ret. intros st Hst. split; [done|].
  eexists r1, r2, r3, _. split_and!; [done..| |].
  2: { rewrite <- !app_assoc in Hst. exact Hst. }
  fold l.
  assert (∀ evs1, (∀ e, e ∈ evs1 → isReport e = false) → reportsOf evs1 = [])
    as Hnone.
  { intros evs1 Hall. unfold reportsOf. induction evs1 as [|e evs1 IH];
      [done|].
    rewrite filter_cons_False.
    - apply IH. intros e' He'. apply Hall. by right.
    - rewrite (Hall e); [done|left]. }
  rewrite !reportsOf_app.
  rewrite (Hnone (uploadEvents _ _ _ _ _)),
          (Hnone (downloadEvents _ _ _)), (Hnone (deleteEvents _ _ _)).
  - done.
  - by intros e (i & -> & _)%list_elem_of_fmap.
  - by intros e (i & -> & _)%list_elem_of_fmap.
  - by intros e (i & -> & _)%list_elem_of_fmap.
Qed.

End operations.

(** [RunCheck] runs the three operations on the file-test with its
    defaults. *)
Lemma RunCheck_operations (P : State W → Prop)
    (Q : Go.error → State W → Prop) ctx fileTestID fileTest endpoint :
  (∀ st, P st → P {| world := (now (world st)).2; events := events st |}) →
  (∀ fileTest',
     resolved c fileTest fileTest' →
     hoare P
       (runOperations randRead sha256_Sum now schedule Quote c ctx
          fileTestID fileTest' endpoint) Q) →
  hoare P
    (RunCheck randRead sha256_Sum now schedule Quote c ctx fileTestID
       fileTest endpoint) Q.
Proof.
  intros Hnow Hops. unfold RunCheck.
  set (ft1 := if Timeout fileTest <=? 0 then _ else fileTest).
  assert (NumParallel ft1 = NumParallel fileTest ∧
          Size ft1 = Size fileTest ∧ Seed ft1 = Seed fileTest ∧
          Timeout ft1 =
            if Timeout fileTest <=? 0 then timeout c else Timeout fileTest)
    as (Hn1 & Hs1 & Hd1 & Ht1) by (unfold ft1; by case_match).
  apply (hoare_bind _ _ _ (λ ft2 st,
    (NumParallel ft2 = NumParallel fileTest ∧
     Timeout ft2 = Timeout ft1 ∧ Size ft2 = Size fileTest ∧
     (0 < Seed fileTest → Seed ft2 = Seed fileTest)) ∧ P st)).
  { destruct (Z.leb_spec (Seed ft1) 0) as [Hle|Hlt].
    - apply (hoare_bind _ _ _ (λ _, P)).
      + apply hoare_call. intros st Hst. by apply Hnow.
      + intros t. apply hoare_ret. intros st Hst. simpl.
        split; [|done]. split_and!; (done || lia).
    - apply hoare_ret. intros st Hst. split; [|done].
      split_and!; (done || lia). }
  intros ft2. cbv beta. apply hoare_pure. intros (Hn & Ht & Hs & Hd).
  apply Hops. destruct (Z.leb_spec (NumParallel ft2) 0);
    split_and!; simpl; (lia || congruence || done).
Qed.



End store.

Section store_example.

Import check runs example.

Lemma memoryClient_store : storeClient objects memoryClient.
Proof.
  split_and!.
  - intros ctx name r w Hr. simpl. by rewrite Hr.
  - intros ctx name w bs Hbs. simpl. rewrite Hbs. split; [done|].
    by eexists.
  - intros ctx name w [bs Hbs]. simpl. by rewrite Hbs.
Qed.


End store_example.

(** ** The program *)

Section program.

Import check runs main report spec.

Context {W : Type}.
Variable randRead : Z → nat → list Byte.byte.
Variable sha256_Sum : list Byte.byte → list Byte.byte.
Variable now : W → Z * W.
Variable schedule : nat → list nat.
Variable Quote : string → string.

Hypothesis schedule_perm : ∀ n, schedule n ≡ₚ seq 0 n.

Lemma submissionsOf_app evs1 evs2 :
  submissionsOf (evs1 ++ evs2) = submissionsOf evs1 ++ submissionsOf evs2.
Proof. apply omap_app. Qed.

Lemma submissionsOf_reportsOf evs :
  submissionsOf (reportsOf evs) = submissionsOf evs.
Proof.
  induction evs as [|e evs IH]; [done|].
  change (e :: evs) with ([e] ++ evs).
  rewrite reportsOf_app, !submissionsOf_app, IH. by destruct e.
Qed.

Lemma keys_submissionsOf evs : map key (submissionsOf evs) = reportKeys evs.
Proof.
  induction evs as [|e evs IH]; [done|]. destruct e; simpl; try done.
  f_equal. exact IH.
Qed.

Lemma tracks_now sizes out base (w : World W) rs :
  tracks sizes out base w rs → tracks sizes out base (lift now w).2 rs.
Proof. unfold lift. by destruct (now (outside w)). Qed.

Lemma tracks_client sizes out base (client : Client W) :
  clientKeeps (tracks sizes out base) (liftClient client).
Proof.
  split_and!.
  - intros ctx name r w rs Hw. simpl. unfold lift.
    by destruct (Client_Upload client ctx name r (outside w)).
  - intros ctx name w rs Hw. simpl. unfold lift.
    by destruct (Client_Download client ctx name (outside w)).
  - intros ctx name w rs Hw. simpl. unfold lift.
    by destruct (Client_Delete client ctx name (outside w)).
Qed.

Lemma tracks_reporter sizes out base :
  reporterKeeps (tracks sizes out base) (textReport (W := W)).
Proof.
  intros operation fileTestID endpointID result w rs (rs' & -> & Hnil & Hrep & Hout).
  exists (rs' ++ [EReport operation fileTestID endpointID result None]).
  split_and!.
  - by rewrite app_assoc.
  - apply Forall_app. split; [done|]. by apply Forall_singleton.
  - unfold textReport. simpl. rewrite submissionsOf_app. simpl.
    unfold reportAll. rewrite foldl_app. simpl. unfold submit at 1. simpl.
    unfold reportAll in Hrep. by rewrite Hrep.
  - done.
Qed.

Lemma tracks_nil sizes out base (w : World W) rs :
  tracks sizes out base w (base ++ rs) →
  Forall (λ e, returned e = None) rs.
Proof. intros (rs' & Heq & Hnil & _). by apply app_inv_head in Heq as ->. Qed.

Lemma sizesOf_lookup (fileTests : gmap ID FileTest) id :
  sizesOf fileTests !! id = Size <$> fileTests !! id.
Proof.
  unfold sizesOf.
  assert (∀ l : list (ID * FileTest), NoDup l.*1 →
    foldl (λ fileTestSizes '(fileTestID, fileTest),
             <[fileTestID := Size fileTest]> fileTestSizes)
      (∅ : gmap ID Z) l !! id =
    Size <$> (list_to_map l : gmap ID FileTest) !! id) as Hgen.
  { induction l as [|[k v] l IH] using rev_ind; intros Hnd; [done|].
    rewrite foldl_app. simpl.
    rewrite fmap_app in Hnd. apply NoDup_app in Hnd as (Hl & Hk & _).
    destruct (decide (k = id)) as [->|Hne].
    - rewrite lookup_insert_eq. symmetry.
      erewrite (elem_of_list_to_map_1 (l ++ [(id, v)]) id v); [done| |].
      + rewrite fmap_app. apply NoDup_app. split; [done|].
        split; [|apply NoDup_singleton]. intros x Hx Hx'.
        apply list_elem_of_singleton in Hx'. simpl in Hx'. subst x.
        apply (Hk id Hx). left.
      + apply elem_of_app. right. left.
    - rewrite lookup_insert_ne by done. rewrite (IH Hl).
      f_equal. rewrite list_to_map_app. simpl.
      rewrite lookup_union_l; [done|].
      by rewrite lookup_insert_ne. }
  rewrite Hgen by apply NoDup_fst_map_to_list.
  by rewrite list_to_map_to_list.
Qed.

Lemma elem_of_sweepKeys (c : Checker (World W)) fileTestID operation
    endpointID :
  (fileTestID, operation, endpointID) ∈ sweepKeys c ↔
  is_Some (fileTests c !! fileTestID) ∧
  endpointID ∈ map Endpoint_ID (endpoints c).
Proof.
  unfold sweepKeys. rewrite list_elem_of_In, in_flat_map. split.
  - intros ([id ft] & Hin & Hk). apply list_elem_of_In in Hin.
    apply elem_of_map_to_list in Hin. apply in_flat_map in Hk
      as (endpoint & Hep & Hk).
    apply list_elem_of_In in Hep, Hk. unfold checkKeys in Hk.
    assert (fileTestID = id ∧ endpointID = Endpoint_ID endpoint) as [-> ->].
    { repeat (apply elem_of_cons in Hk as [Hk|Hk]; [by injection Hk|]).
      by apply elem_of_nil in Hk. }
    split; [by eexists|]. by apply list_elem_of_fmap_2.
  - intros [[ft Hft] (endpoint & -> & Hep)%list_elem_of_fmap].
    exists (fileTestID, ft). split.
    + apply list_elem_of_In. by apply elem_of_map_to_list.
    + apply in_flat_map. exists endpoint. split; [by apply list_elem_of_In|].
      apply list_elem_of_In. unfold checkKeys. destruct operation.
      * left.
      * right. left.
      * right. right. left.
Qed.

Lemma runChecks_outcome ctx conf (endpoints : list (Endpoint W))
    (st : State (World W)) :
  ∃ err st' evs,
    runChecks randRead sha256_Sum now schedule Quote ctx conf endpoints st =
      Ok (err, st') ∧
    events st' = events st ++ evs ∧
    reportKeys evs =
      sweepKeys (NewChecker textReport (map liftEndpoint endpoints)
                   (FileTests conf) (Config_Timeout conf)) ∧
    reporterOf (world st') =
      reportAll (sizesOf (FileTests conf)) (submissionsOf evs) ∧
    match FormatResults (reporterOf (world st')) with
    | Ok text => err = None ∧ stdout (world st') = stdout (world st) +:+ text
    | Err msg => err = Some msg ∧ stdout (world st') = stdout (world st)
    | Panic _ => False
    end.
Proof.
  set (sizes := sizesOf (FileTests conf)).
  set (c := NewChecker textReport (map liftEndpoint endpoints)
              (FileTests conf) (Config_Timeout conf)).
  set (st1 := {| world := {| reporterOf := NewTextReporter sizes;
                             stdout := stdout (world st);
                             outside := outside (world st) |};
                 events := events st |}).
  set (I := tracks (W := W) sizes (stdout (world st))
              (reportsOf (events st))).
  destruct (RunChecks_quiet randRead sha256_Sum (lift now) schedule Quote
              schedule_perm I) with (c := c) (evs := events st) (ctx := ctx)
              (st := st1)
    as (err & st2 & Hrun & -> & evs & Hk & [Hev (rs' & Hrs & Hnil & Hrep & Hout)]).
  - intros w rs. apply tracks_now.
  - apply tracks_reporter.
  - intros w rs. apply tracks_nil.
  - apply Forall_forall. intros endpoint (e & -> & _)%list_elem_of_fmap.
    apply tracks_client.
  - split; [done|]. exists []. by rewrite app_nil_r.
  - rewrite reportsOf_app in Hrs. apply app_inv_head in Hrs. subst rs'.
    rewrite submissionsOf_reportsOf in Hrep.
    assert (∀ msg, FormatResults (reporterOf (world st2)) ≠ Panic msg)
      as Hpanic.
    { intros msg. apply formatResults_cases_inv. }
    unfold runChecks. fold sizes. fold c.
    unfold mbind, M_mbind, M_bind, call at 1. simpl. fold st1.
    rewrite Hrun. unfold call. simpl.
    destruct (FormatResults (reporterOf (world st2))) as [text|msg|msg]
      eqn:Hfmt.
    + eexists None, _, evs. split; [reflexivity|]. simpl.
      rewrite Hfmt. by rewrite Hout.
    + eexists (Some msg), _, evs. split; [reflexivity|]. simpl.
      by rewrite Hfmt.
    + by destruct (Hpanic msg).
Qed.

Lemma reported_sized conf (endpoints : list (Endpoint W)) evs sub :
  reportKeys evs =
    sweepKeys (NewChecker (textReport (W := W)) (map liftEndpoint endpoints)
                 (FileTests conf) (Config_Timeout conf)) →
  sub ∈ submissionsOf evs →
  endpoints ≠ [] ∧
  ∃ fileTest,
    FileTests conf !! sub_fileTestID sub = Some fileTest ∧
    sizeOf (sizesOf (FileTests conf)) (sub_fileTestID sub) = Size fileTest.
Proof.
  intros Hk Hin.
  assert (key sub ∈ reportKeys evs) as Hkey.
  { rewrite <- keys_submissionsOf. by apply list_elem_of_fmap_2. }
  rewrite Hk in Hkey. apply elem_of_sweepKeys in Hkey as [[ft Hft] Hep].
  simpl in Hft, Hep. split.
  - intros ->. by apply elem_of_nil in Hep.
  - exists ft. split; [done|]. unfold sizeOf.
    by rewrite sizesOf_lookup, Hft.
Qed.

(** X18. When every file-test has a size that is not zero, or there is
    no endpoint, the end of [run] returns [nil] whatever the clients
    return: it reports every operation of every file-test on every
    endpoint to the text reporter and prints the report of these
    Results. *)
Theorem run_prints_report (ctx : Context) (conf : Config)
    (endpoints : list (Endpoint W)) (st : State (World W)) :
  endpoints = [] ∨ sized (FileTests conf) →
  ∃ st' evs text,
    runChecks randRead sha256_Sum now schedule Quote ctx conf endpoints st =
      Ok (None, st') ∧
    events st' = events st ++ evs ∧
    reportKeys evs =
      sweepKeys (NewChecker textReport (map liftEndpoint endpoints)
                   (FileTests conf) (Config_Timeout conf)) ∧
    FormatResults (reportAll (sizesOf (FileTests conf)) (submissionsOf evs)) =
      Ok text ∧
    stdout (world st') = stdout (world st) +:+ text.
Proof.
  intros Hsized.
  destruct (runChecks_outcome ctx conf endpoints st)
    as (err & st' & evs & Hrun & Hev & Hk & Hrep & Hout).
  rewrite Hrep in Hout.
  destruct (proj2 (FormatResults_Ok_iff (sizesOf (FileTests conf))
                     (submissionsOf evs))) as [text Htext].
  { intros sub Hin.
    destruct (reported_sized conf endpoints evs sub Hk Hin)
      as (Hne & ft & Hft & ->).
    destruct Hsized as [?|Hsized]; [done|]. by apply (Hsized _ _ Hft). }
  rewrite Htext in Hout. destruct Hout as [-> Hout].
  by exists st', evs, text.
Qed.

(** X19. When there is an endpoint and a file-test of size zero, the
    end of [run] makes all checks on all endpoints and then returns the
    error of a file-test of size zero of the configuration, and prints
    nothing. *)
Theorem run_fails_on_size_zero (ctx : Context) (conf : Config)
    (endpoints : list (Endpoint W)) (st : State (World W))
    (fileTestID : ID) (fileTest : FileTest) :
  endpoints ≠ [] →
  FileTests conf !! fileTestID = Some fileTest →
  Size fileTest = 0 →
  ∃ st' evs id fileTest',
    runChecks randRead sha256_Sum now schedule Quote ctx conf endpoints st =
      Ok (Some ("Unknown fileTestSize for " +:+ id), st') ∧
    FileTests conf !! id = Some fileTest' ∧ Size fileTest' = 0 ∧
    events st' = events st ++ evs ∧
    reportKeys evs =
      sweepKeys (NewChecker textReport (map liftEndpoint endpoints)
                   (FileTests conf) (Config_Timeout conf)) ∧
    stdout (world st') = stdout (world st).
Proof.
  intros Hne Hft Hzero.
  destruct (runChecks_outcome ctx conf endpoints st)
    as (err & st' & evs & Hrun & Hev & Hk & Hrep & Hout).
  rewrite Hrep in Hout.
  destruct (FormatResults (reportAll (sizesOf (FileTests conf))
                             (submissionsOf evs))) as [text|msg|msg] eqn:Hfmt.
  - exfalso.
    destruct endpoints as [|endpoint endpoints]; [done|].
    assert ((fileTestID, Upload, Endpoint_ID endpoint) ∈ reportKeys evs)
      as Hkey.
    { rewrite Hk. apply elem_of_sweepKeys. simpl. split; [by eexists|].
      left. }
    rewrite <- keys_submissionsOf in Hkey.
    apply list_elem_of_fmap in Hkey as (sub & Hsub & Hin).
    assert (sub_fileTestID sub = fileTestID) as Hid.
    { unfold key in Hsub. by injection Hsub. }
    pose proof (proj1 (FormatResults_Ok_iff (sizesOf (FileTests conf))
                         (submissionsOf evs)) (ex_intro _ text Hfmt)
                  sub Hin) as Hsize.
    apply Hsize. rewrite Hid. unfold sizeOf.
    by rewrite sizesOf_lookup, Hft.
  - destruct Hout as [-> Hout].
    unfold FormatResults in Hfmt. rewrite reportAll_sizes in Hfmt.
    destruct (proj2 (formatResults_cases_inv _ _) msg Hfmt)
      as (x & -> & Hx & Hsize).
    apply reportAll_fileTests in Hx.
    apply list_elem_of_fmap in Hx as (sub & -> & Hin).
    destruct (reported_sized conf endpoints evs sub Hk Hin)
      as (_ & ft & Hft' & Heq).
    exists st', evs, (sub_fileTestID sub), ft.
    split_and!; try done. by rewrite <- Heq.
  - done.
Qed.

Variable NewProduction : W → Go.error * W.
Variable LoadConfig : string → W → (Config * Go.error) * W.
Variable s3_New : S3Endpoint → W → (Client W + string) * W.
Variable storjclient_New :
  Context → StorjEndpoint → W → (Client W + string) * W.

Lemma s3Endpoints_run l : ∀ endpoints (st : State (World W)),
  ∃ r st',
    s3Endpoints s3_New l endpoints st = Ok (r, st') ∧
    events st' = events st ∧ stdout (world st') = stdout (world st) ∧
    match r with
    | inl _ => True
    | inr endpoints' =>
        map Endpoint_ID endpoints' = map Endpoint_ID endpoints ++ l.*1
    end.
Proof.
  induction l as [|[id endpoint] l IH]; intros endpoints st.
  - exists (inr endpoints), st. by rewrite app_nil_r.
  - cbn [s3Endpoints]. unfold mbind, M_mbind, M_bind, call, lift.
    destruct (s3_New endpoint (outside (world st))) as [[client|err] o].
    + match goal with
      | |- context [s3Endpoints _ l ?e ?s] =>
          destruct (IH e s) as (r & st' & Hrun & Hev & Hout & Hr)
      end.
      exists r, st'. split; [done|]. split; [done|]. split; [done|].
      destruct r as [|endpoints']; [done|].
      rewrite Hr, map_app. simpl. by rewrite <- app_assoc.
    + by eexists (inl err), _.
Qed.

Lemma storjEndpoints_run ctx l : ∀ endpoints (st : State (World W)),
  ∃ r st',
    storjEndpoints storjclient_New ctx l endpoints st = Ok (r, st') ∧
    events st' = events st ∧ stdout (world st') = stdout (world st) ∧
    match r with
    | inl _ => True
    | inr endpoints' =>
        map Endpoint_ID endpoints' = map Endpoint_ID endpoints ++ l.*1
    end.
Proof.
  induction l as [|[id endpoint] l IH]; intros endpoints st.
  - exists (inr endpoints), st. by rewrite app_nil_r.
  - cbn [storjEndpoints]. unfold mbind, M_mbind, M_bind, call, lift.
    destruct (storjclient_New ctx endpoint (outside (world st)))
      as [[client|err] o].
    + match goal with
      | |- context [storjEndpoints _ _ l ?e ?s] =>
          destruct (IH e s) as (r & st' & Hrun & Hev & Hout & Hr)
      end.
      exists r, st'. split; [done|]. split; [done|]. split; [done|].
      destruct r as [|endpoints']; [done|].
      rewrite Hr, map_app. simpl. by rewrite <- app_assoc.
    + by eexists (inl err), _.
Qed.

End program.

Section program_example.

Import check runs main report spec example main_example.

Lemma run_prints_report_witness :
  ∃ st' evs text,
    runChecks randRead sum_Sum now schedule Quote None oneTest
      [memoryEndpoint] start = Ok (None, st') ∧
    events st' = events start ++ evs ∧
    reportKeys evs =
      sweepKeys (NewChecker textReport (map liftEndpoint [memoryEndpoint])
                   (FileTests oneTest) (Config_Timeout oneTest)) ∧
    FormatResults (reportAll (sizesOf (FileTests oneTest))
                     (submissionsOf evs)) = Ok text ∧
    stdout (world st') = stdout (world start) +:+ text.
Proof.
  apply (run_prints_report randRead sum_Sum now schedule Quote
           schedule_Permutation None oneTest [memoryEndpoint] start).
  right. apply map_Forall_singleton. discriminate.
Defined.

Lemma run_fails_on_size_zero_witness :
  ∃ st' evs id fileTest',
    runChecks randRead sum_Sum now schedule Quote None twoTests
      [memoryEndpoint] start =
      Ok (Some ("Unknown fileTestSize for " +:+ id), st') ∧
    FileTests twoTests !! id = Some fileTest' ∧ Size fileTest' = 0 ∧
    events st' = events start ++ evs ∧
    reportKeys evs =
      sweepKeys (NewChecker textReport (map liftEndpoint [memoryEndpoint])
                   (FileTests twoTests) (Config_Timeout twoTests)) ∧
    stdout (world st') = stdout (world start).
Proof.
  apply (run_fails_on_size_zero randRead sum_Sum now schedule Quote
           schedule_Permutation None twoTests [memoryEndpoint] start "ft2"
           {| NumParallel := 1; Timeout := 0; Size := 0; Seed := 3 |}).
  - discriminate.
  - vm_compute. reflexivity.
  - reflexivity.
Defined.

End program_example.

(** ** Contexts, and the S3 client *)

Section contexts.

Import check runs.

Context {W : Type}.
Variable randRead : Z → nat → list Byte.byte.
Variable sha256_Sum : list Byte.byte → list Byte.byte.
Variable now : W → Z * W.
Variable schedule : nat → list nat.
Variable Quote : string → string.

Lemma bind_ext {A B} (m1 m2 : M W A) (f1 f2 : A → M W B) st :
  m1 st = m2 st →
  (∀ a st', f1 a st' = f2 a st') →
  (m1 ≫= f1) st = (m2 ≫= f2) st.
Proof.
  intros Hm Hf. unfold mbind, M_mbind, M_bind. rewrite Hm.
  destruct (m2 st) as [[a st']| |]; [apply Hf|done..].
Qed.

Lemma forM_ext {A B} (l : list A) (b1 b2 : A → M W B) :
  (∀ x st, b1 x st = b2 x st) → ∀ st, forM l b1 st = forM l b2 st.
Proof.
  intros Hb. induction l as [|x l IH]; intros st; [done|]. simpl.
  apply bind_ext; [apply Hb|]. intros y st'.
  apply bind_ext; [apply IH|done].
Qed.

(** What follows [context.WithTimeout] gets a context; when it makes no
    use of it, neither the context before nor the timeout matters. *)
Lemma WithTimeout_ext {B} ctx1 ctx2 d1 d2 (k1 k2 : Context → M W B) st :
  (∀ c1 c2 st', k1 c1 st' = k2 c2 st') →
  (WithTimeout now ctx1 d1 ≫= k1) st = (WithTimeout now ctx2 d2 ≫= k2) st.
Proof.
  intros Hk. unfold WithTimeout, mbind, M_mbind, M_bind, call. simpl.
  destruct (now (world st)) as [t w]. simpl. apply Hk.
Qed.

Lemma runParallel_ext ctx1 ctx2 n (f1 f2 : Z → M W Go.error) st :
  (∀ i st', f1 i st' = f2 i st') →
  runParallel schedule ctx1 n f1 st = runParallel schedule ctx2 n f2 st.
Proof.
  intros Hf. unfold runParallel. apply bind_ext; [|done].
  apply forM_ext. intros i st'. apply Hf.
Qed.

Section check.

Variable c : Checker W.
Variable fileTestID : ID.
Variable endpoint : Endpoint W.
Hypothesis endpoint_ignores : ignoresContext (Endpoint_Client endpoint).

Lemma Checker_Upload_ext ctx1 ctx2 t1 t2 fileTest d1 d2 st :
  Checker_Upload randRead now schedule (checkerWithTimeout c t1) ctx1
    fileTestID (withTimeout fileTest d1) endpoint st =
  Checker_Upload randRead now schedule (checkerWithTimeout c t2) ctx2
    fileTestID (withTimeout fileTest d2) endpoint st.
Proof.
  unfold Checker_Upload. apply bind_ext; [done|]. intros result st1.
  apply bind_ext; [|done]. unfold upload.
  apply WithTimeout_ext. intros c1 c2 st2. apply runParallel_ext.
  intros i st3. unfold uploadWorker. apply bind_ext; [done|].
  intros [] st4. unfold call.
  destruct (endpoint_ignores c1 c2 (pathName fileTestID i) (world st4))
    as (Hup & _ & _).
  by rewrite (Hup (fileReader randRead (withTimeout fileTest d1) i)).
Qed.

Lemma Checker_Delete_ext ctx1 ctx2 t1 t2 fileTest d1 d2 st :
  Checker_Delete now schedule (checkerWithTimeout c t1) ctx1 fileTestID
    (withTimeout fileTest d1) endpoint st =
  Checker_Delete now schedule (checkerWithTimeout c t2) ctx2 fileTestID
    (withTimeout fileTest d2) endpoint st.
Proof.
  unfold Checker_Delete. apply bind_ext; [done|]. intros result st1.
  apply bind_ext; [|done]. unfold del.
  apply WithTimeout_ext. intros c1 c2 st2. apply runParallel_ext.
  intros i st3. unfold delWorker. apply bind_ext; [done|].
  intros [] st4. unfold call.
  destruct (endpoint_ignores c1 c2 (pathName fileTestID i) (world st4))
    as (_ & _ & Hdel).
  by rewrite Hdel.
Qed.

Lemma Checker_Download_ext ctx1 ctx2 t1 t2 fileTest d1 d2 st :
  Checker_Download randRead sha256_Sum now schedule Quote
    (checkerWithTimeout c t1) ctx1 fileTestID (withTimeout fileTest d1)
    endpoint st =
  Checker_Download randRead sha256_Sum now schedule Quote
    (checkerWithTimeout c t2) ctx2 fileTestID (withTimeout fileTest d2)
    endpoint st.
Proof.
  unfold Checker_Download. cbn [NumParallel withTimeout].
  destruct (NumParallel fileTest <? 0); [done|].
  rewrite !expectedHashesLoop_inr. cbv iota.
  apply bind_ext; [done|]. intros result st1.
  apply bind_ext; [|done]. unfold download.
  apply WithTimeout_ext. intros c1 c2 st2. apply runParallel_ext.
  intros i st3. unfold downloadWorker. apply bind_ext; [done|].
  intros [] st4. apply bind_ext; [|done]. unfold call.
  destruct (endpoint_ignores c1 c2 (pathName fileTestID i) (world st4))
    as (_ & Hdown & _).
  by rewrite Hdown.
Qed.

Lemma runOperations_ext ctx1 ctx2 t1 t2 fileTest d1 d2 st :
  runOperations randRead sha256_Sum now schedule Quote
    (checkerWithTimeout c t1) ctx1 fileTestID (withTimeout fileTest d1)
    endpoint st =
  runOperations randRead sha256_Sum now schedule Quote
    (checkerWithTimeout c t2) ctx2 fileTestID (withTimeout fileTest d2)
    endpoint st.
Proof.
  unfold runOperations. apply bind_ext; [apply Checker_Upload_ext|].
  intros [msg|] st1; [done|].
  apply bind_ext; [apply Checker_Download_ext|].
  intros [msg|] st2; [done|].
  apply bind_ext; [apply Checker_Delete_ext|]. done.
Qed.

(** With a client that makes no use of the context, a check is the same
    for every context and all timeouts. *)
Lemma RunCheck_ext (ctx1 ctx2 : Context) (t1 t2 : Go.Duration)
    (fileTest : FileTest) (d1 d2 : Go.Duration) (st : State W) :
  RunCheck randRead sha256_Sum now schedule Quote (checkerWithTimeout c t1)
    ctx1 fileTestID (withTimeout fileTest d1) endpoint st =
  RunCheck randRead sha256_Sum now schedule Quote (checkerWithTimeout c t2)
    ctx2 fileTestID (withTimeout fileTest d2) endpoint st.
Proof.
  assert (∀ ft e1 e2 st',
    (let ft3 := if NumParallel (withTimeout ft e1) <=? 0
                then {| NumParallel := 1;
                        Timeout := Timeout (withTimeout ft e1);
                        Size := Size (withTimeout ft e1);
                        Seed := Seed (withTimeout ft e1) |}
                else withTimeout ft e1 in
     runOperations randRead sha256_Sum now schedule Quote
       (checkerWithTimeout c t1) ctx1 fileTestID ft3 endpoint) st' =
    (let ft3 := if NumParallel (withTimeout ft e2) <=? 0
                then {| NumParallel := 1;
                        Timeout := Timeout (withTimeout ft e2);
                        Size := Size (withTimeout ft e2);
                        Seed := Seed (withTimeout ft e2) |}
                else withTimeout ft e2 in
     runOperations randRead sha256_Sum now schedule Quote
       (checkerWithTimeout c t2) ctx2 fileTestID ft3 endpoint) st') as Hops.
  { intros ft e1 e2 st'. cbn [NumParallel withTimeout Timeout Size Seed].
    destruct (NumParallel ft <=? 0).
    - apply (runOperations_ext ctx1 ctx2 t1 t2
               {| NumParallel := 1; Timeout := 0; Size := Size ft;
                  Seed := Seed ft |} e1 e2).
    - apply runOperations_ext. }
  assert (∀ e1 e2 st',
    (ft2 ← (if Seed (withTimeout fileTest e1) <=? 0
            then t ← call now;
                 mret {| NumParallel := NumParallel (withTimeout fileTest e1);
                         Timeout := Timeout (withTimeout fileTest e1);
                         Size := Size (withTimeout fileTest e1); Seed := t |}
            else mret (withTimeout fileTest e1));
     let ft3 := if NumParallel ft2 <=? 0
                then {| NumParallel := 1; Timeout := Timeout ft2;
                        Size := Size ft2; Seed := Seed ft2 |}
                else ft2 in
     runOperations randRead sha256_Sum now schedule Quote
       (checkerWithTimeout c t1) ctx1 fileTestID ft3 endpoint) st' =
    (ft2 ← (if Seed (withTimeout fileTest e2) <=? 0
            then t ← call now;
                 mret {| NumParallel := NumParallel (withTimeout fileTest e2);
                         Timeout := Timeout (withTimeout fileTest e2);
                         Size := Size (withTimeout fileTest e2); Seed := t |}
            else mret (withTimeout fileTest e2));
     let ft3 := if NumParallel ft2 <=? 0
                then {| NumParallel := 1; Timeout := Timeout ft2;
                        Size := Size ft2; Seed := Seed ft2 |}
                else ft2 in
     runOperations randRead sha256_Sum now schedule Quote
       (checkerWithTimeout c t2) ctx2 fileTestID ft3 endpoint) st') as Hseed.
  { intros e1 e2 st'. cbn [Seed withTimeout].
    destruct (Seed fileTest <=? 0).
    - unfold mbind, M_mbind, M_bind, call. simpl.
      destruct (now (world st')) as [t w]. simpl.
      apply (Hops {| NumParallel := NumParallel fileTest; Timeout := 0;
                     Size := Size fileTest; Seed := t |} e1 e2).
    - unfold mbind, M_mbind, M_bind, mret, M_mret, M_ret.
      apply (Hops fileTest e1 e2). }
  unfold RunCheck. cbn [Timeout withTimeout timeout checkerWithTimeout].
  destruct (d1 <=? 0), (d2 <=? 0).
  - apply (Hseed t1 t2).
  - apply (Hseed t1 d2).
  - apply (Hseed d1 t2).
  - apply (Hseed d1 d2).
Qed.

End check.

End contexts.

Section s3_properties.

Import check runs.

Context {W Session : Type}.
Variable randRead : Z → nat → list Byte.byte.
Variable sha256_Sum : list Byte.byte → list Byte.byte.
Variable now : W → Z * W.
Variable schedule : nat → list nat.
Variable Quote : string → string.

Variable NewSession :
  string → string → string → string → W → (Session + string) * W.
Variable Uploader_Upload :
  Session → string → string → Reader → W → Go.error * W.
Variable GetObject :
  Session → string → string → W → (ReadCloser + string) * W.
Variable DeleteObject : Session → string → string → W → Go.error * W.
Variable path_Join : string → string → string.

(** X21. [s3.New] makes a client exactly when the region, the bucket,
    the access key and the secret key of the configuration are not empty
    and the session is made; the client has this configuration and this
    session. When one of the four is empty it returns an error that names
    one of them, the region first, and makes no session. The address and
    the path are not required. *)
Theorem s3_New_requires (cfg : S3Endpoint) (w : W) :
  let required :=
    S3_Region cfg ≠ "" ∧ S3_Bucket cfg ≠ "" ∧ S3_AccessKey cfg ≠ "" ∧
    S3_SecretKey cfg ≠ "" in
  let made :=
    NewSession (S3_Region cfg) (S3_AccessKey cfg) (S3_SecretKey cfg)
      (S3_Address cfg) w in
  (∀ client w',
     s3.New NewSession cfg w = (inl client, w') ↔
     required ∧ made = (inl (s3.session client), w') ∧ s3.cfg client = cfg) ∧
  (¬ required →
   ∃ msg,
     s3.New NewSession cfg w = (inr msg, w) ∧
     msg ∈ ["region is required"; "bucket is required";
            "access key is required"; "secret key is required"]) ∧
  (S3_Region cfg = "" →
   s3.New NewSession cfg w = (inr "region is required", w)).
Proof.
  intros required made. subst required made. unfold s3.New.
  destruct (String.eqb_spec (S3_Region cfg) "") as [Hr|Hr].
  { split_and!.
    - intros client w'. split; [done|]. by intros [[? _] _].
    - intros _. eexists. split; [done|]. left.
    - done. }
  destruct (String.eqb_spec (S3_Bucket cfg) "") as [Hb|Hb].
  { split_and!.
    - intros client w'. split; [done|]. by intros [(_ & ? & _) _].
    - intros _. eexists. split; [done|]. right. left.
    - done. }
  destruct (String.eqb_spec (S3_AccessKey cfg) "") as [Ha|Ha].
  { split_and!.
    - intros client w'. split; [done|]. by intros [(_ & _ & ? & _) _].
    - intros _. eexists. split; [done|]. right. right. left.
    - done. }
  destruct (String.eqb_spec (S3_SecretKey cfg) "") as [Hs|Hs].
  { split_and!.
    - intros client w'. split; [done|]. by intros [(_ & _ & _ & ?) _].
    - intros _. eexists. split; [done|]. right. right. right. left.
    - done. }
  split_and!.
  - intros client w'.
    destruct (NewSession (S3_Region cfg) (S3_AccessKey cfg)
                (S3_SecretKey cfg) (S3_Address cfg) w) as [[sess|err] w1].
    + split.
      * intros [= <- <-]. by split.
      * intros (_ & [= -> ->] & Hcfg). destruct client as [cfg' sess'].
        simpl in *. by subst.
    + split; [done|]. by intros (_ & ? & _).
  - intros Hnot. by destruct Hnot.
  - done.
Qed.

Lemma s3_ignoresContext (client : s3.Client (Session := Session)) :
  ignoresContext
    (s3.asClient Uploader_Upload GetObject DeleteObject path_Join Quote
       client).
Proof. by intros ctx1 ctx2 name w. Qed.

(** X22. The S3 client makes no use of the context of a call, so a
    check on an S3 endpoint is the same whatever the timeout of the
    file-test and the timeout of the checker: the calls of its operations
    have no deadline. *)
Theorem s3_ignores_timeouts (c : Checker W) (id : ID)
    (client : s3.Client (Session := Session)) (fileTestID : ID)
    (fileTest : FileTest) (ctx : Context) (t1 t2 d1 d2 : Go.Duration)
    (st : State W) :
  RunCheck randRead sha256_Sum now schedule Quote (checkerWithTimeout c t1)
    ctx fileTestID (withTimeout fileTest d1)
    (s3.s3Endpoint Uploader_Upload GetObject DeleteObject path_Join Quote
       id client) st =
  RunCheck randRead sha256_Sum now schedule Quote (checkerWithTimeout c t2)
    ctx fileTestID (withTimeout fileTest d2)
    (s3.s3Endpoint Uploader_Upload GetObject DeleteObject path_Join Quote
       id client) st.
Proof.
  apply RunCheck_ext. apply s3_ignoresContext.
Qed.

End s3_properties.

(** ** The order of the maps in uniqueSortedIDs *)

Section range_order.

Import config report spec.

Variable orderFileTests :
  fileTestResults → list (ID * gmap Operation (gmap ID (option Result))).
Variable orderOperations :
  ID → gmap Operation (gmap ID (option Result)) →
  list (Operation * gmap ID (option Result)).
Variable orderEndpoints :
  ID → Operation → gmap ID (option Result) → list (ID * option Result).

Hypothesis orderFileTests_perm : ∀ m, orderFileTests m ≡ₚ map_to_list m.
Hypothesis orderOperations_perm :
  ∀ x m, orderOperations x m ≡ₚ map_to_list m.
Hypothesis orderEndpoints_perm :
  ∀ x o m, orderEndpoints x o m ≡ₚ map_to_list m.

Lemma collect_operations_in (x : ID)
    (l : list (Operation * gmap ID (option Result))) : ∀ st,
  wfIds st →
  let st' :=
    foldl (λ st '(operation, endpointResults),
      foldl (λ st '(endpointID, _), noteEndpointID st endpointID)
        (noteOperation st operation)
        (orderEndpoints x operation endpointResults)) st l in
  wfIds st' ∧ fileTestIDs st' = fileTestIDs st ∧
  (∀ o, o ∈ operations st' ↔ o ∈ operations st ∨ o ∈ l.*1) ∧
  (∀ e, e ∈ endpointIDs st' ↔
        e ∈ endpointIDs st ∨
        ∃ o (eps : gmap ID (option Result)), (o, eps) ∈ l ∧ is_Some (eps !! e)).
Proof.
  induction l as [|[o eps] l IH]; intros st Hwf; simpl.
  - split; [done|]. split; [done|]. split.
    + intros y. rewrite elem_of_nil. tauto.
    + intros e. split; [by left|]. intros [?|(? & ? & []%elem_of_nil & _)].
      done.
  - destruct (noteOperation_spec st o Hwf) as (Hwf1 & Hop1 & Hep1 & Hft1).
    destruct (collect_endpoints (orderEndpoints x o eps) _ Hwf1)
      as (Hwf2 & Hft2 & Hop2 & Hep2).
    destruct (IH _ Hwf2) as (Hwf3 & Hft3 & Hop3 & Hep3).
    split; [done|]. split; [congruence|]. split.
    + intros y. rewrite Hop3, Hop2, Hop1, elem_of_cons. tauto.
    + intros e. rewrite Hep3, Hep2, Hep1, orderEndpoints_perm, elem_of_keys.
      split.
      * intros [[?|?]|(o' & eps' & Hin & Hs)]; [by left| |].
        -- right. exists o, eps. split; [left|done].
        -- right. exists o', eps'. split; [by right|done].
      * intros [?|(o' & eps' & Hin & Hs)]; [by left; left|].
        apply elem_of_cons in Hin as [[= -> ->]|Hin]; [by left; right|].
        right. by exists o', eps'.
Qed.

Lemma collect_fileTests_in
    (l : list (ID * gmap Operation (gmap ID (option Result)))) : ∀ st,
  wfIds st →
  let st' :=
    foldl (λ st '(fileTestID, operationResults),
      foldl (λ st '(operation, endpointResults),
        foldl (λ st '(endpointID, _), noteEndpointID st endpointID)
          (noteOperation st operation)
          (orderEndpoints fileTestID operation endpointResults))
        (noteFileTestID st fileTestID)
        (orderOperations fileTestID operationResults)) st l in
  wfIds st' ∧
  (∀ x, x ∈ fileTestIDs st' ↔ x ∈ fileTestIDs st ∨ x ∈ l.*1) ∧
  (∀ o, o ∈ operations st' ↔
        o ∈ operations st ∨
        ∃ x (ops : gmap Operation (gmap ID (option Result))),
          (x, ops) ∈ l ∧ is_Some (ops !! o)) ∧
  (∀ e, e ∈ endpointIDs st' ↔
        e ∈ endpointIDs st ∨
        ∃ x (ops : gmap Operation (gmap ID (option Result))) o
          (eps : gmap ID (option Result)),
          (x, ops) ∈ l ∧ ops !! o = Some eps ∧ is_Some (eps !! e)).
Proof.
  induction l as [|[x ops] l IH]; intros st Hwf; simpl.
  - split; [done|]. split; [|split].
    + intros y. rewrite elem_of_nil. tauto.
    + intros o. split; [by left|]. intros [?|(? & ? & []%elem_of_nil & _)].
      done.
    + intros e. split; [by left|].
      intros [?|(? & ? & ? & ? & []%elem_of_nil & _)]. done.
  - destruct (noteFileTestID_spec st x Hwf) as (Hwf1 & Hft1 & Hep1 & Hop1).
    destruct (collect_operations_in x (orderOperations x ops) _ Hwf1)
      as (Hwf2 & Hft2 & Hop2 & Hep2).
    destruct (IH _ Hwf2) as (Hwf3 & Hft3 & Hop3 & Hep3).
    split; [done|]. split; [|split].
    + intros y. rewrite Hft3, Hft2, Hft1, elem_of_cons. tauto.
    + intros o. rewrite Hop3, Hop2, Hop1, orderOperations_perm, elem_of_keys.
      split.
      * intros [[?|?]|(x' & ops' & Hin & Hs)]; [by left| |].
        -- right. exists x, ops. split; [left|done].
        -- right. exists x', ops'. split; [by right|done].
      * intros [?|(x' & ops' & Hin & Hs)]; [by left; left|].
        apply elem_of_cons in Hin as [[= -> ->]|Hin]; [by left; right|].
        right. by exists x', ops'.
    + intros e. rewrite Hep3, Hep2, Hep1. split.
      * intros [[?|(o & eps & Hin & Hs)]|(x' & ops' & o & eps & Hin & Ho & Hs)];
          [by left| |].
        -- right. exists x, ops, o, eps. split; [left|].
           rewrite orderOperations_perm in Hin.
           split; [by apply elem_of_map_to_list|done].
        -- right. exists x', ops', o, eps. split; [by right|done].
      * intros [?|(x' & ops' & o & eps & Hin & Ho & Hs)]; [by left; left|].
        apply elem_of_cons in Hin as [[= -> ->]|Hin].
        -- left; right. exists o, eps. split; [|done].
           rewrite orderOperations_perm. by apply elem_of_map_to_list.
        -- right. by exists x', ops', o, eps.
Qed.

Lemma collectIDsIn_spec results :
  let st := collectIDsIn orderFileTests orderOperations orderEndpoints
              results in
  wfIds st ∧
  (∀ x, x ∈ fileTestIDs st ↔ hasFileTest results x) ∧
  (∀ o, o ∈ operations st ↔ hasOperation results o) ∧
  (∀ e, e ∈ endpointIDs st ↔ hasEndpoint results e).
Proof.
  destruct (collect_fileTests_in (orderFileTests results) _ wfIds_init)
    as (Hwf & Hft & Hop & Hep).
  split; [done|]. split; [|split].
  - intros x. unfold collectIDsIn. rewrite Hft, orderFileTests_perm,
      elem_of_keys. simpl.
    rewrite elem_of_nil. unfold hasFileTest. tauto.
  - intros o. unfold collectIDsIn. rewrite Hop. simpl. rewrite elem_of_nil.
    unfold hasOperation. split.
    + intros [[]|(x & ops & Hin & Hs)]. rewrite orderFileTests_perm in Hin.
      apply elem_of_map_to_list in Hin. by exists x, ops.
    + intros (x & ops & Hin & Hs). right. exists x, ops.
      rewrite orderFileTests_perm.
      split; [by apply elem_of_map_to_list|done].
  - intros e. unfold collectIDsIn. rewrite Hep. simpl. rewrite elem_of_nil.
    unfold hasEndpoint. split.
    + intros [[]|(x & ops & o & eps & Hin & Ho & Hs)].
      rewrite orderFileTests_perm in Hin. apply elem_of_map_to_list in Hin.
      by exists x, ops, o, eps.
    + intros (x & ops & o & eps & Hin & Ho & Hs). right.
      exists x, ops, o, eps. rewrite orderFileTests_perm.
      split; [by apply elem_of_map_to_list|done].
Qed.

(** X24. The result of [uniqueSortedIDs] does not depend on the order in
    which the maps of the store are ranged over: in every order the three
    lists are the same, each one strictly ascending (so without
    duplicates) and holding exactly the file-tests, the endpoints and the
    operations of the store. *)
Theorem uniqueSortedIDs_any_order (results : fileTestResults) :
  let '(fts, eps, ops) :=
    uniqueSortedIDsIn orderFileTests orderOperations orderEndpoints results in
  uniqueSortedIDs results = (fts, eps, ops) ∧
  (StronglySorted ID_lt fts ∧ ∀ x, x ∈ fts ↔ hasFileTest results x) ∧
  (StronglySorted ID_lt eps ∧ ∀ e, e ∈ eps ↔ hasEndpoint results e) ∧
  (StronglySorted Operation_lt ops ∧ ∀ o, o ∈ ops ↔ hasOperation results o).
Proof.
  unfold uniqueSortedIDsIn.
  destruct (collectIDsIn_spec results)
    as ((Hf & He & Ho & _) & Hft & Hop & Hep).
  set (st := collectIDsIn _ _ _ results) in *. cbv zeta.
  assert (StronglySorted ID_lt (sort_Slice ID_less (fileTestIDs st))) as S1
    by (by apply sort_Slice_sorted; [apply _|]).
  assert (StronglySorted ID_lt (sort_Slice ID_less (endpointIDs st))) as S2
    by (by apply sort_Slice_sorted; [apply _|]).
  assert (StronglySorted Operation_lt
            (sort_Slice Operation_less (operations st))) as S3
    by (by apply sort_Slice_sorted; [apply _|]).
  assert (∀ x, x ∈ sort_Slice ID_less (fileTestIDs st) ↔
               hasFileTest results x) as F1
    by (intros x; by rewrite sort_Slice_elem_of).
  assert (∀ x, x ∈ sort_Slice ID_less (endpointIDs st) ↔
               hasEndpoint results x) as F2
    by (intros x; by rewrite sort_Slice_elem_of).
  assert (∀ x, x ∈ sort_Slice Operation_less (operations st) ↔
               hasOperation results x) as F3
    by (intros x; by rewrite sort_Slice_elem_of).
  split; [|done].
  destruct (uniqueSortedIDs results) as [[fts2 eps2] ops2] eqn:E2.
  apply uniqueSortedIDs_spec in E2 as ((T1 & G1) & (T2 & G2) & (T3 & G3)).
  f_equal; [f_equal|].
  - apply (strictly_sorted_unique ID_less); [done..|].
    intros x. by rewrite F1, G1.
  - apply (strictly_sorted_unique ID_less); [done..|].
    intros x. by rewrite F2, G2.
  - apply (strictly_sorted_unique Operation_less); [done..|].
    intros x. by rewrite F3, G3.
Qed.

End range_order.

Section range_order_example.

Import config report spec.

Lemma uniqueSortedIDs_any_order_witness :
  let results : fileTestResults :=
    {[ "b" := {[ Download := {[ "y" := None ]};
                 Upload := {[ "x" := None; "y" := None ]} ]};
       "a" := {[ Upload := {[ "y" := None ]} ]} ]} in
  let '(fts, eps, ops) :=
    uniqueSortedIDsIn (λ m, reverse (map_to_list m))
      (λ _ m, reverse (map_to_list m)) (λ _ _ m, reverse (map_to_list m))
      results in
  uniqueSortedIDs results = (fts, eps, ops) ∧
  (StronglySorted ID_lt fts ∧ ∀ x, x ∈ fts ↔ hasFileTest results x) ∧
  (StronglySorted ID_lt eps ∧ ∀ e, e ∈ eps ↔ hasEndpoint results e) ∧
  (StronglySorted Operation_lt ops ∧ ∀ o, o ∈ ops ↔ hasOperation results o).
Proof.
  intros results.
  apply (uniqueSortedIDs_any_order (λ m, reverse (map_to_list m))
           (λ _ m, reverse (map_to_list m))
           (λ _ _ m, reverse (map_to_list m))
           (λ m, reverse_Permutation (map_to_list m))
           (λ _ m, reverse_Permutation (map_to_list m))
           (λ _ _ m, reverse_Permutation (map_to_list m)) results).
Defined.

End range_order_example.

(** * The calls that the clients and the reporter receive *)

(** ** The log of the checker and the record of the calls *)

Section faithful.

Import check runs.

Context {W : Type}.

Lemma faithful_ret {A} (a : A) : faithful (mret a : M (W * list Event) A).
Proof.
  intros st a' st' [= <- <-]. exists []. by rewrite !app_nil_r.
Qed.

Lemma faithful_bind {A B} (m : M (W * list Event) A)
    (f : A → M (W * list Event) B) :
  faithful m → (∀ a, faithful (f a)) → faithful (m ≫= f).
Proof.
  intros Hm Hf st b st2 Hrun. unfold mbind, M_mbind, M_bind in Hrun.
  destruct (m st) as [[a st1]|msg|msg] eqn:Hrun1; [|done..].
  destruct (Hm _ _ _ Hrun1) as (evs1 & Hev1 & Hrec1).
  destruct (Hf a _ _ _ Hrun) as (evs2 & Hev2 & Hrec2).
  exists (evs1 ++ evs2). rewrite Hev2, Hev1, Hrec2, Hrec1.
  by rewrite !app_assoc.
Qed.

Lemma faithful_panic {A} msg : faithful (M_panic msg : M (W * list Event) A).
Proof. by intros st a st'. Qed.

Lemma faithful_forM {A B} (l : list A) (body : A → M (W * list Event) B) :
  (∀ x, faithful (body x)) → faithful (forM l body).
Proof.
  intros Hbody. induction l as [|x l IH]; simpl.
  - apply faithful_ret.
  - apply faithful_bind; [done|]. intros y.
    apply faithful_bind; [done|]. intros ys. apply faithful_ret.
Qed.

Lemma faithful_untilError {A} (l : list A)
    (body : A → M (W * list Event) Go.error) :
  (∀ x, faithful (body x)) → faithful (untilError l body).
Proof.
  intros Hbody. induction l as [|x l IH]; simpl.
  - apply faithful_ret.
  - apply faithful_bind; [done|]. intros [msg|]; [apply faithful_ret|done].
Qed.

(** A computation that is faithful and whose log is in [Q] has its
    record of calls in [Q]. *)
Lemma recorded_runs {A} (m : M (W * list Event) A)
    (Q : A → list Event → Prop) :
  faithful m → runs m Q → recorded m Q.
Proof.
  intros Hf Hr st. destruct (Hr st) as (a & st' & evs & Hrun & Hev & HQ).
  destruct (Hf _ _ _ Hrun) as (evs' & Hev' & Hrec).
  rewrite Hev in Hev'. apply app_inv_head in Hev' as <-.
  by exists a, st', evs.
Qed.

Lemma recorded_weaken {A} (m : M (W * list Event) A)
    (P Q : A → list Event → Prop) :
  recorded m P → (∀ a calls, P a calls → Q a calls) → recorded m Q.
Proof.
  intros Hm HPQ st. destruct (Hm st) as (a & st' & calls & Hrun & Hrec & HP).
  exists a, st', calls. eauto.
Qed.

Variable randRead : Z → nat → list Byte.byte.
Variable sha256_Sum : list Byte.byte → list Byte.byte.
Variable now : W → Z * W.
Variable schedule : nat → list nat.
Variable Quote : string → string.

Lemma faithful_clock : faithful (call (recordingClock now)).
Proof.
  intros st a st'. unfold call, recordingClock. simpl. intros [= <- <-].
  exists []. simpl. by rewrite !app_nil_r.
Qed.

Lemma faithful_newResultNow : faithful (newResultNow (recordingClock now)).
Proof.
  unfold newResultNow. apply faithful_bind; [apply faithful_clock|].
  intros t. apply faithful_ret.
Qed.

Lemma faithful_WithTimeout ctx d :
  faithful (WithTimeout (recordingClock now) ctx d).
Proof.
  unfold WithTimeout. apply faithful_bind; [apply faithful_clock|].
  intros t. apply faithful_ret.
Qed.

Lemma faithful_finish result err :
  faithful (finish (recordingClock now) result err).
Proof.
  unfold finish, Since. apply faithful_bind.
  - apply faithful_bind; [apply faithful_clock|]. intros t.
    apply faithful_ret.
  - intros d. apply faithful_ret.
Qed.

(** The call of [Report] that the checker logs is the call that the
    reporter receives. *)
Lemma faithful_report (c : Checker W) operation fileTestID endpointID result :
  faithful (report (recordingChecker c) operation fileTestID endpointID
              result).
Proof.
  intros st err st'. unfold report, mbind, M_mbind, M_bind, call, emit.
  simpl. intros [= <- <-]. simpl. by eexists.
Qed.

(** The upload, the download and the delete that a worker logs are the
    calls that the client receives. *)
Lemma faithful_uploadWorker ctx fileTestID fileTest (endpoint : Endpoint W)
    i :
  faithful (uploadWorker randRead ctx fileTestID fileTest
              (recordingEndpoint endpoint) i).
Proof.
  intros st err st'. unfold uploadWorker, mbind, M_mbind, M_bind, call, emit.
  simpl. intros [= <- <-]. simpl. by eexists.
Qed.

Lemma faithful_delWorker ctx fileTestID (endpoint : Endpoint W) i :
  faithful (delWorker ctx fileTestID (recordingEndpoint endpoint) i).
Proof.
  intros st err st'. unfold delWorker, mbind, M_mbind, M_bind, call, emit.
  simpl. intros [= <- <-]. simpl. by eexists.
Qed.

Lemma faithful_downloadWorker ctx fileTestID (endpoint : Endpoint W)
    expectedHashes i :
  faithful (downloadWorker sha256_Sum Quote ctx fileTestID
              (recordingEndpoint endpoint) expectedHashes i).
Proof.
  intros st err st'.
  unfold downloadWorker, mbind, M_mbind, M_bind, call, emit. simpl.
  destruct (Client_Download (Endpoint_Client endpoint) ctx
              (pathName fileTestID i) (world st).1) as [[strm|msg] w'];
    simpl.
  - destruct (failure (stream strm)).
    + intros [= <- <-]. simpl. by eexists.
    + destruct (expectedHashes !! Z.to_nat i); [|done].
      case_decide; intros [= <- <-]; simpl; by eexists.
  - intros [= <- <-]. simpl. by eexists.
Qed.

Lemma faithful_runParallel ctx numParallel
    (f : Z → M (W * list Event) Go.error) :
  (∀ i, faithful (f i)) → faithful (runParallel schedule ctx numParallel f).
Proof.
  intros Hf. unfold runParallel. apply faithful_bind.
  - apply faithful_forM. intros i. apply Hf.
  - intros errs. apply faithful_ret.
Qed.

Lemma faithful_upload ctx fileTestID fileTest (endpoint : Endpoint W) :
  faithful (upload randRead (recordingClock now) schedule ctx fileTestID
              fileTest (recordingEndpoint endpoint)).
Proof.
  unfold upload. apply faithful_bind; [apply faithful_WithTimeout|].
  intros ctx'. apply faithful_runParallel. intros i.
  apply faithful_uploadWorker.
Qed.

Lemma faithful_del ctx fileTestID fileTest (endpoint : Endpoint W) :
  faithful (del (recordingClock now) schedule ctx fileTestID fileTest
              (recordingEndpoint endpoint)).
Proof.
  unfold del. apply faithful_bind; [apply faithful_WithTimeout|].
  intros ctx'. apply faithful_runParallel. intros i.
  apply faithful_delWorker.
Qed.

Lemma faithful_download ctx fileTestID fileTest (endpoint : Endpoint W)
    expectedHashes :
  faithful (download sha256_Sum (recordingClock now) schedule Quote ctx
              fileTestID fileTest (recordingEndpoint endpoint)
              expectedHashes).
Proof.
  unfold download. apply faithful_bind; [apply faithful_WithTimeout|].
  intros ctx'. apply faithful_runParallel. intros i.
  apply faithful_downloadWorker.
Qed.

Lemma faithful_Checker_Upload (c : Checker W) ctx fileTestID fileTest
    (endpoint : Endpoint W) :
  faithful (Checker_Upload randRead (recordingClock now) schedule
              (recordingChecker c) ctx fileTestID fileTest
              (recordingEndpoint endpoint)).
Proof.
  unfold Checker_Upload. apply faithful_bind; [apply faithful_newResultNow|].
  intros result. apply faithful_bind; [apply faithful_upload|].
  intros err. apply faithful_bind; [apply faithful_finish|].
  intros r. apply faithful_report.
Qed.

Lemma faithful_Checker_Delete (c : Checker W) ctx fileTestID fileTest
    (endpoint : Endpoint W) :
  faithful (Checker_Delete (recordingClock now) schedule
              (recordingChecker c) ctx fileTestID fileTest
              (recordingEndpoint endpoint)).
Proof.
  unfold Checker_Delete. apply faithful_bind; [apply faithful_newResultNow|].
  intros result. apply faithful_bind; [apply faithful_del|].
  intros err. apply faithful_bind; [apply faithful_finish|].
  intros r. apply faithful_report.
Qed.

Lemma faithful_Checker_Download (c : Checker W) ctx fileTestID fileTest
    (endpoint : Endpoint W) :
  faithful (Checker_Download randRead sha256_Sum (recordingClock now)
              schedule Quote (recordingChecker c) ctx fileTestID fileTest
              (recordingEndpoint endpoint)).
Proof.
  unfold Checker_Download. case_match; [apply faithful_panic|].
  case_match; [apply faithful_ret|].
  apply faithful_bind; [apply faithful_newResultNow|].
  intros result. apply faithful_bind; [apply faithful_download|].
  intros err. apply faithful_bind; [apply faithful_finish|].
  intros r. apply faithful_report.
Qed.

Lemma faithful_RunCheck (c : Checker W) ctx fileTestID fileTest
    (endpoint : Endpoint W) :
  faithful (RunCheck randRead sha256_Sum (recordingClock now) schedule Quote
              (recordingChecker c) ctx fileTestID fileTest
              (recordingEndpoint endpoint)).
Proof.
  unfold RunCheck. apply faithful_bind.
  { case_match; [|apply faithful_ret].
    apply faithful_bind; [apply faithful_clock|]. intros t.
    apply faithful_ret. }
  intros fileTest2.
  apply faithful_bind; [apply faithful_Checker_Upload|].
  intros [msg1|]; [apply faithful_ret|].
  apply faithful_bind; [apply faithful_Checker_Download|].
  intros [msg2|]; [apply faithful_ret|].
  apply faithful_bind; [apply faithful_Checker_Delete|].
  intros [msg3|]; apply faithful_ret.
Qed.

Lemma faithful_RunChecks (c : Checker W) ctx :
  faithful (RunChecks randRead sha256_Sum (recordingClock now) schedule Quote
              (recordingChecker c) ctx).
Proof.
  unfold RunChecks. apply faithful_untilError. intros [fileTestID fileTest].
  simpl. induction (endpoints c) as [|endpoint l IH]; simpl.
  - apply faithful_ret.
  - apply faithful_bind; [apply faithful_RunCheck|].
    intros [msg|]; [apply faithful_ret|exact IH].
Qed.

End faithful.

(** ** The record of calls changes nothing *)

Section erases.

Import check runs.

Context {W : Type}.

Lemma erases_ret {A} (a : A) :
  erases (mret a : M (W * list Event) A) (mret a).
Proof. by intros st. Qed.

Lemma erases_bind {A B} (m' : M (W * list Event) A) (m : M W A)
    (f' : A → M (W * list Event) B) (f : A → M W B) :
  erases m' m → (∀ a, erases (f' a) (f a)) → erases (m' ≫= f') (m ≫= f).
Proof.
  intros Hm Hf st. unfold mbind, M_mbind, M_bind. specialize (Hm st).
  destruct (m' st) as [[a st1]|msg|msg]; rewrite Hm; [|done..].
  apply Hf.
Qed.

Lemma erases_panic {A} msg :
  erases (M_panic msg : M (W * list Event) A) (M_panic msg).
Proof. by intros st. Qed.

Lemma erases_forM {A B} (l : list A) (body' : A → M (W * list Event) B)
    (body : A → M W B) :
  (∀ x, erases (body' x) (body x)) → erases (forM l body') (forM l body).
Proof.
  intros Hbody. induction l as [|x l IH]; simpl.
  - apply erases_ret.
  - apply erases_bind; [done|]. intros y.
    apply erases_bind; [done|]. intros ys. apply erases_ret.
Qed.

Lemma erases_untilError {A} (l : list A)
    (body' : A → M (W * list Event) Go.error) (body : A → M W Go.error) :
  (∀ x, erases (body' x) (body x)) →
  erases (untilError l body') (untilError l body).
Proof.
  intros Hbody. induction l as [|x l IH]; simpl.
  - apply erases_ret.
  - apply erases_bind; [done|]. intros [msg|]; [apply erases_ret|done].
Qed.

Lemma erases_emit e : erases (emit e : M (W * list Event) unit) (emit e).
Proof. by intros st. Qed.

Variable randRead : Z → nat → list Byte.byte.
Variable sha256_Sum : list Byte.byte → list Byte.byte.
Variable now : W → Z * W.
Variable schedule : nat → list nat.
Variable Quote : string → string.

Lemma erases_clock : erases (call (recordingClock now)) (call now).
Proof.
  intros st. unfold call, recordingClock, erase. simpl.
  by destruct (now (world st).1).
Qed.

Lemma erases_newResultNow :
  erases (newResultNow (recordingClock now)) (newResultNow now).
Proof.
  unfold newResultNow. apply erases_bind; [apply erases_clock|].
  intros t. apply erases_ret.
Qed.

Lemma erases_WithTimeout ctx d :
  erases (WithTimeout (recordingClock now) ctx d) (WithTimeout now ctx d).
Proof.
  unfold WithTimeout. apply erases_bind; [apply erases_clock|].
  intros t. apply erases_ret.
Qed.

Lemma erases_finish result err :
  erases (finish (recordingClock now) result err) (finish now result err).
Proof.
  unfold finish, Since. apply erases_bind.
  - apply erases_bind; [apply erases_clock|]. intros t. apply erases_ret.
  - intros d. apply erases_ret.
Qed.

Lemma erases_report (c : Checker W) operation fileTestID endpointID result :
  erases (report (recordingChecker c) operation fileTestID endpointID result)
    (report c operation fileTestID endpointID result).
Proof.
  unfold report. apply erases_bind.
  - intros st. unfold call, erase. simpl.
    by destruct (checker_reporter c operation fileTestID endpointID result
                   (world st).1).
  - intros err. apply erases_bind; [apply erases_emit|].
    intros []. apply erases_ret.
Qed.

Lemma erases_uploadWorker ctx fileTestID fileTest (endpoint : Endpoint W) i :
  erases (uploadWorker randRead ctx fileTestID fileTest
            (recordingEndpoint endpoint) i)
    (uploadWorker randRead ctx fileTestID fileTest endpoint i).
Proof.
  unfold uploadWorker. apply erases_bind; [apply erases_emit|].
  intros []. intros st. unfold call, erase. simpl.
  by destruct (Client_Upload (Endpoint_Client endpoint) ctx
                 (pathName fileTestID i) (fileReader randRead fileTest i)
                 (world st).1).
Qed.

Lemma erases_delWorker ctx fileTestID (endpoint : Endpoint W) i :
  erases (delWorker ctx fileTestID (recordingEndpoint endpoint) i)
    (delWorker ctx fileTestID endpoint i).
Proof.
  unfold delWorker. apply erases_bind; [apply erases_emit|].
  intros []. intros st. unfold call, erase. simpl.
  by destruct (Client_Delete (Endpoint_Client endpoint) ctx
                 (pathName fileTestID i) (world st).1).
Qed.

Lemma erases_downloadWorker ctx fileTestID (endpoint : Endpoint W)
    expectedHashes i :
  erases (downloadWorker sha256_Sum Quote ctx fileTestID
            (recordingEndpoint endpoint) expectedHashes i)
    (downloadWorker sha256_Sum Quote ctx fileTestID endpoint expectedHashes
       i).
Proof.
  unfold downloadWorker. apply erases_bind; [apply erases_emit|].
  intros []. apply erases_bind.
  - intros st. unfold call, erase. simpl.
    by destruct (Client_Download (Endpoint_Client endpoint) ctx
                   (pathName fileTestID i) (world st).1).
  - intros [strm|msg]; [|apply erases_ret].
    destruct (failure (stream strm)); [apply erases_ret|].
    destruct (expectedHashes !! Z.to_nat i); [|apply erases_panic].
    case_decide; apply erases_ret.
Qed.

Lemma erases_runParallel ctx numParallel
    (f' : Z → M (W * list Event) Go.error) (f : Z → M W Go.error) :
  (∀ i, erases (f' i) (f i)) →
  erases (runParallel schedule ctx numParallel f')
    (runParallel schedule ctx numParallel f).
Proof.
  intros Hf. unfold runParallel. apply erases_bind.
  - apply erases_forM. intros i. apply Hf.
  - intros errs. apply erases_ret.
Qed.

Lemma erases_Checker_Upload (c : Checker W) ctx fileTestID fileTest
    (endpoint : Endpoint W) :
  erases (Checker_Upload randRead (recordingClock now) schedule
            (recordingChecker c) ctx fileTestID fileTest
            (recordingEndpoint endpoint))
    (Checker_Upload randRead now schedule c ctx fileTestID fileTest endpoint).
Proof.
  unfold Checker_Upload. apply erases_bind; [apply erases_newResultNow|].
  intros result. apply erases_bind.
  { unfold upload. apply erases_bind; [apply erases_WithTimeout|].
    intros ctx'. apply erases_runParallel. intros i.
    apply erases_uploadWorker. }
  intros err. apply erases_bind; [apply erases_finish|].
  intros r. apply erases_report.
Qed.

Lemma erases_Checker_Delete (c : Checker W) ctx fileTestID fileTest
    (endpoint : Endpoint W) :
  erases (Checker_Delete (recordingClock now) schedule (recordingChecker c)
            ctx fileTestID fileTest (recordingEndpoint endpoint))
    (Checker_Delete now schedule c ctx fileTestID fileTest endpoint).
Proof.
  unfold Checker_Delete. apply erases_bind; [apply erases_newResultNow|].
  intros result. apply erases_bind.
  { unfold del. apply erases_bind; [apply erases_WithTimeout|].
    intros ctx'. apply erases_runParallel. intros i.
    apply erases_delWorker. }
  intros err. apply erases_bind; [apply erases_finish|].
  intros r. apply erases_report.
Qed.

Lemma erases_Checker_Download (c : Checker W) ctx fileTestID fileTest
    (endpoint : Endpoint W) :
  erases (Checker_Download randRead sha256_Sum (recordingClock now) schedule
            Quote (recordingChecker c) ctx fileTestID fileTest
            (recordingEndpoint endpoint))
    (Checker_Download randRead sha256_Sum now schedule Quote c ctx fileTestID
       fileTest endpoint).
Proof.
  unfold Checker_Download. case_match; [apply erases_panic|].
  case_match; [apply erases_ret|].
  apply erases_bind; [apply erases_newResultNow|].
  intros result. apply erases_bind.
  { unfold download. apply erases_bind; [apply erases_WithTimeout|].
    intros ctx'. apply erases_runParallel. intros i.
    apply erases_downloadWorker. }
  intros err. apply erases_bind; [apply erases_finish|].
  intros r. apply erases_report.
Qed.

Lemma erases_RunCheck (c : Checker W) ctx fileTestID fileTest
    (endpoint : Endpoint W) :
  erases (RunCheck randRead sha256_Sum (recordingClock now) schedule Quote
            (recordingChecker c) ctx fileTestID fileTest
            (recordingEndpoint endpoint))
    (RunCheck randRead sha256_Sum now schedule Quote c ctx fileTestID
       fileTest endpoint).
Proof.
  unfold RunCheck. apply erases_bind.
  { simpl. case_match; [|apply erases_ret].
    apply erases_bind; [apply erases_clock|]. intros t. apply erases_ret. }
  intros fileTest2.
  apply erases_bind; [apply erases_Checker_Upload|].
  intros [msg1|]; [apply erases_ret|].
  apply erases_bind; [apply erases_Checker_Download|].
  intros [msg2|]; [apply erases_ret|].
  apply erases_bind; [apply erases_Checker_Delete|].
  intros [msg3|]; apply erases_ret.
Qed.

(** The checker with the recording clients and the recording reporter
    does what the checker does with the clients and the reporter that they
    record. *)
Lemma erases_RunChecks (c : Checker W) ctx :
  erases (RunChecks randRead sha256_Sum (recordingClock now) schedule Quote
            (recordingChecker c) ctx)
    (RunChecks randRead sha256_Sum now schedule Quote c ctx).
Proof.
  unfold RunChecks. apply erases_untilError. intros [fileTestID fileTest].
  simpl. induction (endpoints c) as [|endpoint l IH]; simpl.
  - apply erases_ret.
  - apply erases_bind; [apply erases_RunCheck|].
    intros [msg|]; [apply erases_ret|exact IH].
Qed.

End erases.

(** ** The Results and the paths that the reporter and the clients receive *)

Section recorded_checker.

Import check runs.

Context {W : Type}.
Variable randRead : Z → nat → list Byte.byte.
Variable sha256_Sum : list Byte.byte → list Byte.byte.
Variable now : W → Z * W.
Variable schedule : nat → list nat.
Variable Quote : string → string.

Hypothesis schedule_perm : ∀ n, schedule n ≡ₚ seq 0 n.

Lemma runs_conj {V A} (m : M V A) (P Q : A → list Event → Prop) :
  runs m P → runs m Q → runs m (λ a evs, P a evs ∧ Q a evs).
Proof.
  intros HP HQ st.
  destruct (HP st) as (a & st' & evs & Hrun & Hev & Ha).
  destruct (HQ st) as (a2 & st2 & evs2 & Hrun2 & Hev2 & Ha2).
  rewrite Hrun in Hrun2. injection Hrun2 as <- <-.
  rewrite Hev in Hev2. apply app_inv_head in Hev2 as <-.
  by exists a, st', evs.
Qed.

Lemma recording_errors E (endpointID : ID) (client : Client W) :
  clientErrorsIn E client →
  clientErrorsIn E (recordingClient endpointID client).
Proof.
  intros (Hup & Hdown & Hdel). split_and!.
  - intros ctx name r wc. apply Hup.
  - intros ctx name wc. apply Hdown.
  - intros ctx name wc. apply Hdel.
Qed.

(** A run of all checks that returns an error has the call of [Report]
    that returned it as the last event of its log. *)
Lemma RunChecks_aborts {V} (nowV : V → Z * V) (c : Checker V) ctx :
  runs (RunChecks randRead sha256_Sum nowV schedule Quote c ctx)
    (λ err evs,
       ∀ msg, err = Some msg →
         ∃ evs' operation fileTestID endpointID r,
           evs = evs' ++ [EReport operation fileTestID endpointID r
                            (Some msg)]).
Proof.
  set (P := λ (err : Go.error) (evs : list Event),
         ∀ msg, err = Some msg →
           ∃ evs' operation fileTestID endpointID r,
             evs = evs' ++ [EReport operation fileTestID endpointID r
                              (Some msg)]).
  assert (∀ evs1 evs2 err, P None evs1 → P err evs2 → P err (evs1 ++ evs2))
    as Happ.
  { intros evs1 evs2 err _ H2 msg Hmsg.
    destruct (H2 msg Hmsg) as (evs' & operation & ft & ep & r & ->).
    exists (evs1 ++ evs'), operation, ft, ep, r. by rewrite app_assoc. }
  unfold RunChecks. apply runs_untilError; [done|exact Happ|].
  intros [fileTestID fileTest] _.
  apply runs_untilError; [done|exact Happ|].
  intros endpoint _. eapply runs_weaken.
  { apply (RunCheck_trace randRead sha256_Sum nowV schedule Quote
             schedule_perm). }
  intros err evs (ft' & _ & r1 & e1 & rest1 & -> & H1) msg ->.
  assert (∀ (l1 l2 : list Event) x y,
            l1 ++ x :: l2 ++ [y] = (l1 ++ x :: l2) ++ [y]) as Hsnoc.
  { intros l1 l2 x y. by rewrite <- app_assoc. }
  destruct e1 as [msg1|].
  { destruct H1 as [-> [= ->]]. by eexists _, _, _, _, _. }
  destruct H1 as (r2 & e2 & rest2 & -> & H2). destruct e2 as [msg2|].
  { destruct H2 as [-> [= ->]]. rewrite Hsnoc. by eexists _, _, _, _, _. }
  destruct H2 as (r3 & ->). rewrite !Hsnoc. by eexists _, _, _, _, _.
Qed.

(** C4. Every run of Upload, of Delete and (with a parallelism that is not
    negative, as the checker runs it) of Download gives to the reporter
    exactly one Result, for its operation, file-test and endpoint, and
    returns what the reporter returned for it, whatever the client does. In
    a check the reporter receives one Result for every operation that is
    run, and the check leaves with the error of the first call that
    returns one; so does the run of all checks, in which the call of
    [Report] that returns an error is the last call that any client or the
    reporter receives. The record of the calls changes nothing: the run
    with the recording reporter and clients is the run with the reporter
    and the clients themselves. *)
Theorem one_result_per_operation (c : Checker W) (ctx : Context)
    (fileTestID : ID) (fileTest : FileTest) (endpoint : Endpoint W) :
  recorded (Checker_Upload randRead (recordingClock now) schedule
              (recordingChecker c) ctx fileTestID fileTest
              (recordingEndpoint endpoint))
    (λ err calls,
       ∃ r, reportsOf calls =
              [EReport Upload fileTestID (Endpoint_ID endpoint) r err]) ∧
  (0 ≤ NumParallel fileTest →
   recorded (Checker_Download randRead sha256_Sum (recordingClock now)
               schedule Quote (recordingChecker c) ctx fileTestID fileTest
               (recordingEndpoint endpoint))
     (λ err calls,
        ∃ r, reportsOf calls =
               [EReport Download fileTestID (Endpoint_ID endpoint) r err])) ∧
  recorded (Checker_Delete (recordingClock now) schedule (recordingChecker c)
              ctx fileTestID fileTest (recordingEndpoint endpoint))
    (λ err calls,
       ∃ r, reportsOf calls =
              [EReport Delete fileTestID (Endpoint_ID endpoint) r err]) ∧
  recorded (RunCheck randRead sha256_Sum (recordingClock now) schedule Quote
              (recordingChecker c) ctx fileTestID fileTest
              (recordingEndpoint endpoint))
    (λ err calls,
       checkReports fileTestID (Endpoint_ID endpoint) (reportsOf calls)
         err) ∧
  recorded (RunChecks randRead sha256_Sum (recordingClock now) schedule
              Quote (recordingChecker c) ctx)
    (λ err calls,
       stopsAtFirstError (reportsOf calls) err ∧
       ∀ msg, err = Some msg →
         ∃ calls' operation fileTestID endpointID r,
           calls = calls' ++ [EReport operation fileTestID endpointID r
                                (Some msg)]) ∧
  erases (RunChecks randRead sha256_Sum (recordingClock now) schedule Quote
            (recordingChecker c) ctx)
    (RunChecks randRead sha256_Sum now schedule Quote c ctx).
Proof.
  split_and!; [| | | | |apply erases_RunChecks].
  - apply recorded_runs; [apply faithful_Checker_Upload|].
    eapply runs_weaken.
    + by apply (Checker_Upload_runs randRead _ schedule schedule_perm
                  (λ _, True)), any_client.
    + intros err evs (r & Hr & _). by exists r.
  - intros Hn. apply recorded_runs; [apply faithful_Checker_Download|].
    eapply runs_weaken.
    + by apply (Checker_Download_runs randRead sha256_Sum _ schedule Quote
                  schedule_perm (λ _, True)); [|apply any_client|].
    + intros err evs (r & Hr & _). by exists r.
  - apply recorded_runs; [apply faithful_Checker_Delete|].
    eapply runs_weaken.
    + by apply (Checker_Delete_runs _ schedule schedule_perm (λ _, True)),
        any_client.
    + intros err evs (r & Hr & _). by exists r.
  - apply recorded_runs; [apply faithful_RunCheck|].
    eapply runs_weaken.
    + by apply (RunCheck_runs randRead sha256_Sum _ schedule Quote
                  schedule_perm (λ _, True)); [|apply any_client].
    + by intros err evs [Hr _].
  - apply recorded_runs; [apply faithful_RunChecks|].
    apply runs_conj; [|apply RunChecks_aborts].
    eapply runs_weaken.
    + apply (RunChecks_runs randRead sha256_Sum _ schedule Quote
               schedule_perm (λ _, True)); [done|].
      apply Forall_forall. intros ? _. apply any_client.
    + by intros err evs [Hr _].
Qed.

(** The end of an operation, from the error that the operation returned:
    the reporter receives the Result for this error. *)
Lemma finish_report_outcome (c : Checker W) operation fileTestID endpointID
    result err (st2 : State (W * list Event)) :
  Error result = "" →
  ∃ r err' st3,
    (result' ← finish (recordingClock now) result err;
     report (recordingChecker c) operation fileTestID endpointID result') st2
    = Ok (err', st3) ∧
    (world st3).2 =
      (world st2).2 ++ [EReport operation fileTestID endpointID r err'] ∧
    resultFor err r.
Proof.
  intros Hres.
  unfold finish, Since, report, mbind, M_mbind, M_bind, call, emit. simpl.
  eexists _, _, _. split; [reflexivity|]. simpl. split; [reflexivity|].
  destruct err as [msg|]; split; simpl; done.
Qed.

Lemma Checker_Upload_outcome (c : Checker W) ctx fileTestID fileTest
    (endpoint : Endpoint W) :
  reportsOutcome (recordingClock now) Upload fileTestID (Endpoint_ID endpoint)
    (upload randRead (recordingClock now) schedule ctx fileTestID fileTest
       (recordingEndpoint endpoint))
    (Checker_Upload randRead (recordingClock now) schedule
       (recordingChecker c) ctx fileTestID fileTest
       (recordingEndpoint endpoint)).
Proof.
  intros st.
  destruct (newResultNow_runs (recordingClock now) st)
    as (result & st1 & evs1 & Hrun1 & _ & _ & Hres).
  destruct (upload_runs randRead (recordingClock now) schedule schedule_perm
              (λ _, True) ctx fileTestID fileTest
              (recordingEndpoint endpoint) (any_client _) st1)
    as (err & st2 & evs2 & Hrun2 & _).
  destruct (finish_report_outcome c Upload fileTestID (Endpoint_ID endpoint)
              result err st2 Hres) as (r & err' & st3 & Hrun3 & Hrec & Hr).
  exists result, st1, err, st2, r, err', st3. split_and!; try done.
  unfold Checker_Upload.
  unfold mbind at 1, M_mbind at 1, M_bind at 1. rewrite Hrun1.
  unfold mbind at 1, M_mbind at 1, M_bind at 1. rewrite Hrun2.
  exact Hrun3.
Qed.

Lemma Checker_Delete_outcome (c : Checker W) ctx fileTestID fileTest
    (endpoint : Endpoint W) :
  reportsOutcome (recordingClock now) Delete fileTestID (Endpoint_ID endpoint)
    (del (recordingClock now) schedule ctx fileTestID fileTest
       (recordingEndpoint endpoint))
    (Checker_Delete (recordingClock now) schedule (recordingChecker c) ctx
       fileTestID fileTest (recordingEndpoint endpoint)).
Proof.
  intros st.
  destruct (newResultNow_runs (recordingClock now) st)
    as (result & st1 & evs1 & Hrun1 & _ & _ & Hres).
  destruct (del_runs (recordingClock now) schedule schedule_perm
              (λ _, True) ctx fileTestID fileTest
              (recordingEndpoint endpoint) (any_client _) st1)
    as (err & st2 & evs2 & Hrun2 & _).
  destruct (finish_report_outcome c Delete fileTestID (Endpoint_ID endpoint)
              result err st2 Hres) as (r & err' & st3 & Hrun3 & Hrec & Hr).
  exists result, st1, err, st2, r, err', st3. split_and!; try done.
  unfold Checker_Delete.
  unfold mbind at 1, M_mbind at 1, M_bind at 1. rewrite Hrun1.
  unfold mbind at 1, M_mbind at 1, M_bind at 1. rewrite Hrun2.
  exact Hrun3.
Qed.

Lemma Checker_Download_outcome (c : Checker W) ctx fileTestID fileTest
    (endpoint : Endpoint W) :
  0 ≤ NumParallel fileTest →
  ∃ expectedHashes,
    expectedHashesLoop randRead sha256_Sum fileTest
      (seq 0 (Z.to_nat (NumParallel fileTest))) [] = inr expectedHashes ∧
    reportsOutcome (recordingClock now) Download fileTestID
      (Endpoint_ID endpoint)
      (download sha256_Sum (recordingClock now) schedule Quote ctx fileTestID
         fileTest (recordingEndpoint endpoint) expectedHashes)
      (Checker_Download randRead sha256_Sum (recordingClock now) schedule
         Quote (recordingChecker c) ctx fileTestID fileTest
         (recordingEndpoint endpoint)).
Proof.
  intros Hn. eexists. split; [apply expectedHashesLoop_inr|].
  intros st.
  destruct (newResultNow_runs (recordingClock now) st)
    as (result & st1 & evs1 & Hrun1 & _ & _ & Hres).
  match goal with
  | |- context [download _ _ _ _ _ _ _ _ ?hs] =>
      assert (length hs = Z.to_nat (NumParallel fileTest)) as Hlen
        by (simpl; by rewrite length_map, length_seq);
      destruct (download_runs sha256_Sum (recordingClock now) schedule Quote
                  schedule_perm (λ _, True) (λ _ _ _ _, I) ctx fileTestID
                  fileTest (recordingEndpoint endpoint) hs (any_client _)
                  Hlen st1)
        as (err & st2 & evs2 & Hrun2 & _)
  end.
  destruct (finish_report_outcome c Download fileTestID
              (Endpoint_ID endpoint) result err st2 Hres)
    as (r & err' & st3 & Hrun3 & Hrec & Hr).
  exists result, st1, err, st2, r, err', st3. split_and!; try done.
  unfold Checker_Download.
  rewrite (proj2 (Z.ltb_ge _ _) Hn), expectedHashesLoop_inr.
  unfold mbind at 1, M_mbind at 1, M_bind at 1. rewrite Hrun1.
  unfold mbind at 1, M_mbind at 1, M_bind at 1. rewrite Hrun2.
  exact Hrun3.
Qed.

(** C7, as the code has it. The Result that Upload, Download and Delete
    give to the reporter has the success flag exactly when the operation
    returned no error in this run, and has the message of the error that
    it returned, the empty message when there is none. So in every Result
    that the reporter receives in the run of all checks, the message is
    empty when the flag is true; and the flag is true when the message is
    empty provided that no error of the clients has an empty message. *)
Theorem success_and_error (c : Checker W) (ctx : Context) :
  (∀ fileTestID fileTest (endpoint : Endpoint W),
     reportsOutcome (recordingClock now) Upload fileTestID
       (Endpoint_ID endpoint)
       (upload randRead (recordingClock now) schedule ctx fileTestID
          fileTest (recordingEndpoint endpoint))
       (Checker_Upload randRead (recordingClock now) schedule
          (recordingChecker c) ctx fileTestID fileTest
          (recordingEndpoint endpoint)) ∧
     reportsOutcome (recordingClock now) Delete fileTestID
       (Endpoint_ID endpoint)
       (del (recordingClock now) schedule ctx fileTestID fileTest
          (recordingEndpoint endpoint))
       (Checker_Delete (recordingClock now) schedule (recordingChecker c)
          ctx fileTestID fileTest (recordingEndpoint endpoint)) ∧
     (0 ≤ NumParallel fileTest →
      ∃ expectedHashes,
        expectedHashesLoop randRead sha256_Sum fileTest
          (seq 0 (Z.to_nat (NumParallel fileTest))) [] =
          inr expectedHashes ∧
        reportsOutcome (recordingClock now) Download fileTestID
          (Endpoint_ID endpoint)
          (download sha256_Sum (recordingClock now) schedule Quote ctx
             fileTestID fileTest (recordingEndpoint endpoint)
             expectedHashes)
          (Checker_Download randRead sha256_Sum (recordingClock now)
             schedule Quote (recordingChecker c) ctx fileTestID fileTest
             (recordingEndpoint endpoint)))) ∧
  recorded (RunChecks randRead sha256_Sum (recordingClock now) schedule
              Quote (recordingChecker c) ctx)
    (λ _ calls,
       ∀ operation fileTestID endpointID r err,
         EReport operation fileTestID endpointID r err ∈ calls →
         Success r = true → Error r = "") ∧
  (Forall (λ endpoint,
             clientErrorsIn (λ msg, msg ≠ "") (Endpoint_Client endpoint))
     (endpoints c) →
   recorded (RunChecks randRead sha256_Sum (recordingClock now) schedule
               Quote (recordingChecker c) ctx)
     (λ _ calls,
        ∀ operation fileTestID endpointID r err,
          EReport operation fileTestID endpointID r err ∈ calls →
          (Success r = true ↔ Error r = ""))).
Proof.
  split_and!.
  - intros fileTestID fileTest endpoint. split_and!.
    + apply Checker_Upload_outcome.
    + apply Checker_Delete_outcome.
    + apply Checker_Download_outcome.
  - apply recorded_runs; [apply faithful_RunChecks|].
    eapply runs_weaken.
    + apply (RunChecks_runs randRead sha256_Sum _ schedule Quote
               schedule_perm (λ _, True)); [done|].
      apply Forall_forall. intros ? _. apply any_client.
    + intros _ evs [_ Hres] operation fileTestID endpointID r err Hin.
      pose proof (reported_elem_of _ _ _ Hres Hin eq_refl) as Hr.
      simpl in Hr. destruct Hr as [[_ ?]|[Hs _]]; [done|].
      rewrite Hs. discriminate.
  - intros Hcl. apply recorded_runs; [apply faithful_RunChecks|].
    eapply runs_weaken.
    + apply (RunChecks_runs randRead sha256_Sum _ schedule Quote
               schedule_perm (λ msg, msg ≠ "")).
      * apply unexpectedContents_nonempty.
      * simpl. apply Forall_fmap. eapply Forall_impl; [exact Hcl|].
        intros endpoint Hep. simpl. by apply recording_errors.
    + intros _ evs [_ Hres] operation fileTestID endpointID r err Hin.
      pose proof (reported_elem_of _ _ _ Hres Hin eq_refl) as Hr.
      simpl in Hr. destruct Hr as [[? ?]|[Hs Hne]]; [done|].
      rewrite Hs. split; [discriminate|done].
Qed.

(** C10. For one file-test identifier, two worker indices that differ have
    paths that differ; the path is the identifier followed by the index in
    decimal; the workers of Upload, Download and Delete of one file-test
    identifier and one index make one call each to the client, and the
    client receives all three with this same path; and two file-tests can
    have a path in common: the path of ["a"] and 11 is the path of ["a1"]
    and 1. *)
Theorem paths (ctx : Context) (fileTestID : ID) (fileTest : FileTest)
    (endpoint : Endpoint W) (expectedHashes : list (list Byte.byte)) (i : Z) :
  (∀ j, i ≠ j → pathName fileTestID i ≠ pathName fileTestID j) ∧
  pathName fileTestID i = fileTestID +:+ pretty i ∧
  recorded (uploadWorker randRead ctx fileTestID fileTest
              (recordingEndpoint endpoint) i)
    (λ _ calls,
       ∃ data, calls = [EUpload (Endpoint_ID endpoint)
                          (pathName fileTestID i) data]) ∧
  ((Z.to_nat i < length expectedHashes)%nat →
   recorded (downloadWorker sha256_Sum Quote ctx fileTestID
               (recordingEndpoint endpoint) expectedHashes i)
     (λ _ calls,
        calls = [EDownload (Endpoint_ID endpoint)
                   (pathName fileTestID i)])) ∧
  recorded (delWorker ctx fileTestID (recordingEndpoint endpoint) i)
    (λ _ calls,
       calls = [EDelete (Endpoint_ID endpoint) (pathName fileTestID i)]) ∧
  pathName "a" 11 = pathName "a1" 1.
Proof.
  split_and!.
  - intros j Hij Heq. unfold pathName, Go.Itoa in Heq.
    apply (inj (String.app fileTestID)) in Heq.
    by apply (inj pretty) in Heq.
  - done.
  - apply recorded_runs; [apply faithful_uploadWorker|].
    eapply runs_weaken; [apply uploadWorker_event|].
    intros _ evs ->. by eexists.
  - intros Hi. apply recorded_runs; [apply faithful_downloadWorker|].
    eapply runs_weaken; [by apply downloadWorker_event|]. by intros _ evs ->.
  - apply recorded_runs; [apply faithful_delWorker|].
    eapply runs_weaken; [apply delWorker_event|]. by intros _ evs ->.
  - reflexivity.
Qed.

End recorded_checker.

Section recorded_traces.

Import check runs.

Context {W : Type}.
Variable randRead : Z → nat → list Byte.byte.
Variable sha256_Sum : list Byte.byte → list Byte.byte.
Variable now : W → Z * W.
Variable schedule : nat → list nat.
Variable Quote : string → string.

Hypothesis schedule_perm : ∀ n, schedule n ≡ₚ seq 0 n.

Lemma reportsOf_uploadEvents endpointID fileTestID fileTest l :
  reportsOf (uploadEvents randRead endpointID fileTestID fileTest l) = [].
Proof. by induction l. Qed.

Lemma reportsOf_downloadEvents endpointID fileTestID l :
  reportsOf (downloadEvents endpointID fileTestID l) = [].
Proof. by induction l. Qed.

Lemma reportsOf_deleteEvents endpointID fileTestID l :
  reportsOf (deleteEvents endpointID fileTestID l) = [].
Proof. by induction l. Qed.

(** The log of a check, in which every call of [Report] has the error
    that the reporter returns for it. *)
Lemma RunCheck_returned {V} (nowV : V → Z * V) (c : Checker V) ctx fileTestID
    fileTest (endpoint : Endpoint V) :
  runs (RunCheck randRead sha256_Sum nowV schedule Quote c ctx fileTestID
          fileTest endpoint)
    (λ err evs, ∃ fileTest',
       resolved c fileTest fileTest' ∧
       checkTrace randRead schedule (Endpoint_ID endpoint) fileTestID
         fileTest' err evs ∧
       Forall (fromReporter (checker_reporter c)) (reportsOf evs)).
Proof.
  intros st.
  destruct (RunCheck_hoare randRead sha256_Sum nowV schedule Quote
              schedule_perm
              (allReports (fromReporter (checker_reporter c))
                 (reportsOf (events st))))
    with (c := c) (evs := events st) (ctx := ctx) (fileTestID := fileTestID)
         (fileTest := fileTest) (endpoint := endpoint) (st := st)
    as (err & st' & Hrun & ft' & evs' & Hres & Htrace & Hev & rs' & Hrs & Hall).
  - done.
  - intros operation ft ep result w rs (rs' & -> & Hrs).
    exists (rs' ++ [EReport operation ft ep result
                      (checker_reporter c operation ft ep result w).1]).
    split; [by rewrite app_assoc|].
    apply Forall_app. split; [done|]. apply Forall_singleton. simpl.
    by exists w.
  - by split_and!.
  - split; [done|]. exists []. split; [by rewrite app_nil_r|done].
  - exists err, st', evs'. split; [done|]. split; [done|]. exists ft'.
    split; [done|]. split; [done|].
    rewrite reportsOf_app in Hrs. by apply app_inv_head in Hrs as <-.
Qed.

Lemma fromReporter_recording (rep : reporter W) e :
  fromReporter (recordingReporter rep) e → fromReporter rep e.
Proof.
  destruct e as [| | |operation ft ep result err]; try done.
  intros [wc ->]. by exists wc.1.
Qed.

(** X13. A check stops at the call of [Report] that returns an error.
    With a reporter that refuses the Result of Upload, the check returns
    the error of the reporter once the uploads are made: the clients
    receive no download and no delete. With a reporter that takes the
    Result of Upload and refuses the Result of Download, the check returns
    the error once the downloads are made, and the clients receive no
    delete. *)
Theorem report_error_stops_check (c : Checker W) (ctx : Context)
    (fileTestID : ID) (fileTest : FileTest) (endpoint : Endpoint W)
    (msg : string) :
  let names :=
    pathsOf fileTestID (Z.to_nat (Z.max 1 (NumParallel fileTest))) in
  ((∀ r w,
      (checker_reporter c Upload fileTestID (Endpoint_ID endpoint) r w).1 =
      Some msg) →
   recorded (RunCheck randRead sha256_Sum (recordingClock now) schedule Quote
               (recordingChecker c) ctx fileTestID fileTest
               (recordingEndpoint endpoint))
     (λ err calls,
        err = Some msg ∧
        uploadedPaths calls ≡ₚ names ∧
        downloadedPaths calls = [] ∧ deletedPaths calls = [] ∧
        ∃ r, reportsOf calls =
               [EReport Upload fileTestID (Endpoint_ID endpoint) r
                  (Some msg)])) ∧
  ((∀ r w,
      (checker_reporter c Upload fileTestID (Endpoint_ID endpoint) r w).1 =
      None) →
   (∀ r w,
      (checker_reporter c Download fileTestID (Endpoint_ID endpoint) r w).1 =
      Some msg) →
   recorded (RunCheck randRead sha256_Sum (recordingClock now) schedule Quote
               (recordingChecker c) ctx fileTestID fileTest
               (recordingEndpoint endpoint))
     (λ err calls,
        err = Some msg ∧
        uploadedPaths calls ≡ₚ names ∧ downloadedPaths calls ≡ₚ names ∧
        deletedPaths calls = [] ∧
        ∃ r1 r2, reportsOf calls =
                   [EReport Upload fileTestID (Endpoint_ID endpoint) r1 None;
                    EReport Download fileTestID (Endpoint_ID endpoint) r2
                      (Some msg)])).
Proof.
  intros names.
  assert (recorded
            (RunCheck randRead sha256_Sum (recordingClock now) schedule Quote
               (recordingChecker c) ctx fileTestID fileTest
               (recordingEndpoint endpoint))
            (λ err calls, ∃ fileTest',
               NumParallel fileTest' = Z.max 1 (NumParallel fileTest) ∧
               checkTrace randRead schedule (Endpoint_ID endpoint) fileTestID
                 fileTest' err calls ∧
               Forall (fromReporter (checker_reporter c)) (reportsOf calls)))
    as Hrun.
  { apply recorded_runs; [apply faithful_RunCheck|].
    eapply runs_weaken; [apply RunCheck_returned|].
    intros err evs (ft' & (Hn & _) & Htrace & Hall). exists ft'.
    split; [done|]. split; [done|].
    eapply Forall_impl; [exact Hall|]. apply fromReporter_recording. }
  split.
  - intros Hup. eapply recorded_weaken; [exact Hrun|].
    intros err calls (ft' & Hn & (r1 & e1 & rest1 & -> & H1) & Hall).
    unfold names. rewrite <- Hn.
    set (l := schedule (Z.to_nat (NumParallel ft'))) in *.
    destruct (paths_uploadEvents randRead (Endpoint_ID endpoint) fileTestID
                ft' l) as (Hu1 & Hu2 & Hu3).
    assert (e1 = Some msg) as ->.
    { destruct (reported_elem_of _ _
                  (EReport Upload fileTestID (Endpoint_ID endpoint) r1 e1)
                  Hall) as [w ->]; [|done|apply Hup].
      apply elem_of_app. right. left. }
    destruct H1 as [-> ->]. split; [done|].
    rewrite uploadedPaths_app, downloadedPaths_app, deletedPaths_app,
      reportsOf_app, Hu1, Hu2, Hu3, reportsOf_uploadEvents. simpl.
    rewrite app_nil_r. split_and!; try done.
    + apply (pathsOf_schedule schedule schedule_perm).
    + by exists r1.
  - intros Hup Hdown. eapply recorded_weaken; [exact Hrun|].
    intros err calls (ft' & Hn & (r1 & e1 & rest1 & -> & H1) & Hall).
    unfold names. rewrite <- Hn.
    set (l := schedule (Z.to_nat (NumParallel ft'))) in *.
    destruct (paths_uploadEvents randRead (Endpoint_ID endpoint) fileTestID
                ft' l) as (Hu1 & Hu2 & Hu3).
    destruct (paths_downloadEvents (Endpoint_ID endpoint) fileTestID l)
      as (Hd1 & Hd2 & Hd3).
    assert (e1 = None) as ->.
    { destruct (reported_elem_of _ _
                  (EReport Upload fileTestID (Endpoint_ID endpoint) r1 e1)
                  Hall) as [w ->]; [|done|apply Hup].
      apply elem_of_app. right. left. }
    destruct H1 as (r2 & e2 & rest2 & -> & H2).
    assert (e2 = Some msg) as ->.
    { destruct (reported_elem_of _ _
                  (EReport Download fileTestID (Endpoint_ID endpoint) r2 e2)
                  Hall) as [w ->]; [|done|apply Hdown].
      apply elem_of_app. right. right. apply elem_of_app. right. left. }
    destruct H2 as [-> ->]. split; [done|].
    match goal with
    | |- context [?up ++ ?R1 :: ?down ++ [?R2]] =>
        change (up ++ R1 :: down ++ [R2]) with (up ++ [R1] ++ down ++ [R2])
    end.
    rewrite !uploadedPaths_app, !downloadedPaths_app, !deletedPaths_app,
      !reportsOf_app, Hu1, Hu2, Hu3, Hd1, Hd2, Hd3, reportsOf_uploadEvents,
      reportsOf_downloadEvents.
    simpl. rewrite !app_nil_r. split_and!; try done.
    + apply (pathsOf_schedule schedule schedule_perm).
    + apply (pathsOf_schedule schedule schedule_perm).
    + by exists r1, r2.
Qed.

Lemma RunCheck_paths {V} (nowV : V → Z * V) (c : Checker V) ctx fileTestID
    fileTest (endpoint : Endpoint V) :
  runs (RunCheck randRead sha256_Sum nowV schedule Quote c ctx fileTestID
          fileTest endpoint)
    (λ err evs,
       let names :=
         pathsOf fileTestID (Z.to_nat (Z.max 1 (NumParallel fileTest))) in
       uploadedPaths evs ≡ₚ names ∧
       (err = None →
        downloadedPaths evs ≡ₚ names ∧ deletedPaths evs ≡ₚ names)).
Proof.
  eapply runs_weaken.
  { apply (RunCheck_trace randRead sha256_Sum nowV schedule Quote
             schedule_perm). }
  intros err evs (ft' & (Hn & _) & r1 & e1 & rest1 & -> & H1). cbv zeta.
  rewrite <- Hn.
  set (l := schedule (Z.to_nat (NumParallel ft'))) in *.
  destruct (paths_uploadEvents randRead (Endpoint_ID endpoint) fileTestID
              ft' l) as (Hu1 & Hu2 & Hu3).
  destruct (paths_downloadEvents (Endpoint_ID endpoint) fileTestID l)
    as (Hd1 & Hd2 & Hd3).
  destruct (paths_deleteEvents (Endpoint_ID endpoint) fileTestID l)
    as (Hx1 & Hx2 & Hx3).
  pose proof (pathsOf_schedule schedule schedule_perm fileTestID
                (Z.to_nat (NumParallel ft'))) as Hperm.
  fold l in Hperm.
  destruct e1 as [msg1|].
  { destruct H1 as [-> ->]. split; [|done].
    rewrite uploadedPaths_app, Hu1. simpl. by rewrite app_nil_r. }
  destruct H1 as (r2 & e2 & rest2 & -> & H2). destruct e2 as [msg2|].
  { destruct H2 as [-> ->]. split; [|done].
    rewrite uploadedPaths_app, Hu1. simpl.
    rewrite uploadedPaths_app, Hd1. simpl. by rewrite app_nil_r. }
  destruct H2 as (r3 & ->). split; [|intros _; split].
  - rewrite uploadedPaths_app, Hu1. simpl.
    rewrite uploadedPaths_app, Hd1. simpl.
    rewrite uploadedPaths_app, Hx1. simpl. by rewrite app_nil_r.
  - rewrite downloadedPaths_app, Hu2. simpl.
    rewrite downloadedPaths_app, Hd2. simpl.
    rewrite downloadedPaths_app, Hx2. simpl. by rewrite app_nil_r.
  - rewrite deletedPaths_app, Hu3. simpl.
    rewrite deletedPaths_app, Hd3. simpl.
    rewrite deletedPaths_app, Hx3. simpl. by rewrite app_nil_r.
Qed.

(** X14. In a check, the uploads that the client receives are at the
    paths of the indices below the parallelism, which is 1 when the
    file-test has none that is positive; and in a check that returns
    [nil], the downloads and the deletes that the client receives are at
    these same paths. *)
Theorem check_deletes_what_it_uploads (c : Checker W) (ctx : Context)
    (fileTestID : ID) (fileTest : FileTest) (endpoint : Endpoint W) :
  recorded (RunCheck randRead sha256_Sum (recordingClock now) schedule Quote
              (recordingChecker c) ctx fileTestID fileTest
              (recordingEndpoint endpoint))
    (λ err calls,
       let names :=
         pathsOf fileTestID (Z.to_nat (Z.max 1 (NumParallel fileTest))) in
       uploadedPaths calls ≡ₚ names ∧
       (err = None →
        downloadedPaths calls ≡ₚ names ∧ deletedPaths calls ≡ₚ names)).
Proof.
  apply recorded_runs; [apply faithful_RunCheck|]. apply RunCheck_paths.
Qed.

End recorded_traces.

Section recorded_example.

Import check runs example.

(** The run of all checks with a reporter that refuses the Result of
    Download: the client receives the two uploads and the two downloads,
    the reporter the Result of Upload and the Result of Download, and the
    run returns the error of the reporter. *)
Example refused_download_run :
  ∃ calls,
    recordOf (RunChecks randRead sum_Sum (recordingClock now) schedule Quote
                (recordingChecker (refusingChecker Download [memoryEndpoint]))
                None recordingInitial) = Ok (Some "refused", calls) ∧
    uploadedPaths calls = ["ft10"; "ft11"] ∧
    downloadedPaths calls = ["ft10"; "ft11"] ∧
    deletedPaths calls = [] ∧
    reportKeys calls = [("ft1", Upload, "mem"); ("ft1", Download, "mem")] ∧
    map returned (reportsOf calls) = [None; Some "refused"].
Proof.
  eexists. split; [vm_compute; reflexivity|]. by vm_compute.
Qed.

Lemma one_result_per_operation_witness :
  recorded (Checker_Download randRead sum_Sum (recordingClock now) schedule
              Quote
              (recordingChecker (refusingChecker Download [memoryEndpoint]))
              None "ft1" smallTest (recordingEndpoint memoryEndpoint))
    (λ err calls,
       ∃ r, reportsOf calls = [EReport Download "ft1" "mem" r err]) ∧
  recorded (RunCheck randRead sum_Sum (recordingClock now) schedule Quote
              (recordingChecker (refusingChecker Download [memoryEndpoint]))
              None "ft1" smallTest (recordingEndpoint memoryEndpoint))
    (λ err calls, checkReports "ft1" "mem" (reportsOf calls) err) ∧
  recorded (RunChecks randRead sum_Sum (recordingClock now) schedule Quote
              (recordingChecker (refusingChecker Download [memoryEndpoint]))
              None)
    (λ err calls,
       stopsAtFirstError (reportsOf calls) err ∧
       ∀ msg, err = Some msg →
         ∃ calls' operation fileTestID endpointID r,
           calls = calls' ++ [EReport operation fileTestID endpointID r
                                (Some msg)]).
Proof.
  pose proof (one_result_per_operation randRead sum_Sum now schedule Quote
                schedule_Permutation
                (refusingChecker Download [memoryEndpoint]) None "ft1"
                smallTest memoryEndpoint)
    as (_ & Hdown & _ & Hcheck & Hall & _).
  split; [|split; [exact Hcheck|exact Hall]].
  apply Hdown. discriminate.
Defined.

Lemma success_and_error_witness :
  reportsOutcome (recordingClock now) Upload "ft1" "mem"
    (upload randRead (recordingClock now) schedule None "ft1" smallTest
       (recordingEndpoint memoryEndpoint))
    (Checker_Upload randRead (recordingClock now) schedule
       (recordingChecker (checker [memoryEndpoint])) None "ft1" smallTest
       (recordingEndpoint memoryEndpoint)) ∧
  recorded (RunChecks randRead sum_Sum (recordingClock now) schedule Quote
              (recordingChecker (checker [memoryEndpoint])) None)
    (λ _ calls,
       ∀ operation fileTestID endpointID r err,
         EReport operation fileTestID endpointID r err ∈ calls →
         (Success r = true ↔ Error r = "")).
Proof.
  pose proof (success_and_error randRead sum_Sum now schedule Quote
                schedule_Permutation (checker [memoryEndpoint]) None)
    as (Hout & _ & Hiff).
  split.
  - apply (Hout "ft1" smallTest memoryEndpoint).
  - apply Hiff. apply Forall_singleton, memoryClient_errors.
Defined.

(** C7, as it is stated, fails for a client whose error has an empty
    message: the reporter receives for the upload a Result that has no
    success and an empty error message, and the text reporter holds it. *)
Lemma empty_message_result :
  ∃ err st' r,
    RunChecks randRead sum_Sum (recordingClock now) schedule Quote
      (recordingChecker (checker [silentEndpoint])) None recordingInitial =
      Ok (err, st') ∧
    EReport Upload "ft1" "silent" r None ∈ (world st').2 ∧
    report.lookup3 (report.results (textReporter (world st').1)) "ft1" Upload
      "silent" = Some r ∧
    ¬ (Success r = true ↔ Error r = "").
Proof.
  eexists _, _, {| StartTime := 0; Duration := 2000000000;
                   Success := false; Error := "" |}.
  split; [vm_compute; reflexivity|]. split; [|split].
  - do 2 apply list_elem_of_further. apply list_elem_of_here.
  - vm_compute. reflexivity.
  - simpl. intros [_ H]. exact (Bool.diff_false_true (H eq_refl)).
Qed.

Lemma paths_witness :
  pathName "ft1" 0 ≠ pathName "ft1" 1 ∧
  recorded (uploadWorker randRead None "ft1" smallTest
              (recordingEndpoint memoryEndpoint) 0)
    (λ _ calls, ∃ data, calls = [EUpload "mem" "ft10" data]) ∧
  recorded (downloadWorker sum_Sum Quote None "ft1"
              (recordingEndpoint memoryEndpoint) [[]] 0)
    (λ _ calls, calls = [EDownload "mem" "ft10"]) ∧
  recorded (delWorker None "ft1" (recordingEndpoint memoryEndpoint) 0)
    (λ _ calls, calls = [EDelete "mem" "ft10"]).
Proof.
  pose proof (paths (W := World) randRead sum_Sum Quote None "ft1" smallTest
                memoryEndpoint [[]] 0) as (Hne & _ & Hup & Hdown & Hdel & _).
  split; [apply Hne; discriminate|].
  split; [exact Hup|]. split; [|exact Hdel].
  apply Hdown. simpl. apply Nat.lt_0_1.
Defined.

Lemma report_error_stops_check_witness :
  recorded (RunCheck randRead sum_Sum (recordingClock now) schedule Quote
              (recordingChecker (refusingChecker Upload [memoryEndpoint]))
              None "ft1" smallTest (recordingEndpoint memoryEndpoint))
    (λ err calls,
       err = Some "refused" ∧
       uploadedPaths calls ≡ₚ ["ft10"; "ft11"] ∧
       downloadedPaths calls = [] ∧ deletedPaths calls = [] ∧
       ∃ r, reportsOf calls =
              [EReport Upload "ft1" "mem" r (Some "refused")]) ∧
  recorded (RunCheck randRead sum_Sum (recordingClock now) schedule Quote
              (recordingChecker (refusingChecker Download [memoryEndpoint]))
              None "ft1" smallTest (recordingEndpoint memoryEndpoint))
    (λ err calls,
       err = Some "refused" ∧
       uploadedPaths calls ≡ₚ ["ft10"; "ft11"] ∧
       downloadedPaths calls ≡ₚ ["ft10"; "ft11"] ∧
       deletedPaths calls = [] ∧
       ∃ r1 r2, reportsOf calls =
                  [EReport Upload "ft1" "mem" r1 None;
                   EReport Download "ft1" "mem" r2 (Some "refused")]).
Proof.
  split.
  - apply (report_error_stops_check randRead sum_Sum now schedule Quote
             schedule_Permutation (refusingChecker Upload [memoryEndpoint])
             None "ft1" smallTest memoryEndpoint "refused").
    intros r w. reflexivity.
  - apply (report_error_stops_check randRead sum_Sum now schedule Quote
             schedule_Permutation (refusingChecker Download [memoryEndpoint])
             None "ft1" smallTest memoryEndpoint "refused").
    + intros r w. reflexivity.
    + intros r w. reflexivity.
Defined.

Lemma check_deletes_what_it_uploads_witness :
  recorded (RunCheck randRead sum_Sum (recordingClock now) schedule Quote
              (recordingChecker (checker [memoryEndpoint])) None "ft1"
              smallTest (recordingEndpoint memoryEndpoint))
    (λ err calls,
       uploadedPaths calls ≡ₚ ["ft10"; "ft11"] ∧
       (err = None →
        downloadedPaths calls ≡ₚ ["ft10"; "ft11"] ∧
        deletedPaths calls ≡ₚ ["ft10"; "ft11"])).
Proof.
  apply (check_deletes_what_it_uploads randRead sum_Sum now schedule Quote
           schedule_Permutation (checker [memoryEndpoint]) None "ft1"
           smallTest memoryEndpoint).
Defined.

End recorded_example.

(** ** The Results of the operations on an S3 endpoint *)

Section operation_results.

Import check runs.

Context {V : Type}.
Variable randRead : Z → nat → list Byte.byte.
Variable now : V → Z * V.
Variable schedule : nat → list nat.

Hypothesis schedule_perm : ∀ n, schedule n ≡ₚ seq 0 n.

(** A loop, with what every element gives. *)
Lemma runs_forM2 {A B} (l : list A) (body : A → M V B) (R : A → B → Prop)
    (Inv : list Event → Prop) :
  Inv [] →
  (∀ evs1 evs2, Inv evs1 → Inv evs2 → Inv (evs1 ++ evs2)) →
  (∀ x, x ∈ l → runs (body x) (λ y evs, R x y ∧ Inv evs)) →
  runs (forM l body) (λ ys evs, Forall2 R l ys ∧ Inv evs).
Proof.
  intros Hnil Happ. induction l as [|x l IH]; intros Hbody; simpl.
  - apply runs_ret. by split; [constructor|].
  - eapply runs_bind; [apply Hbody; by left|].
    intros y evs1 [Hy Hevs1]. eapply runs_bind.
    + apply IH. intros z Hz. apply Hbody. by right.
    + intros ys evs2 [Hys Hevs2]. apply runs_ret.
      rewrite app_nil_r. split; [by constructor|by apply Happ].
Qed.

(** A fan-out returns the first error, in the order of the schedule, of
    what its workers return. *)
Lemma runParallel_first ctx numParallel (f : Z → M V Go.error)
    (R : nat → Go.error → Prop) :
  (∀ i, i ∈ schedule (Z.to_nat numParallel) →
        runs (f (Z.of_nat i)) (λ err evs, R i err ∧ reportsOf evs = [])) →
  runs (runParallel schedule ctx numParallel f)
    (λ err evs, ∃ errs,
       Forall2 R (schedule (Z.to_nat numParallel)) errs ∧
       err = firstError errs ∧ reportsOf evs = []).
Proof.
  intros Hf. unfold runParallel. eapply runs_bind.
  - apply (runs_forM2 _ _ R (λ evs, reportsOf evs = [])).
    + done.
    + intros evs1 evs2 H1 H2. by rewrite reportsOf_app, H1, H2.
    + exact Hf.
  - intros errs evs1 [Herrs Hevs1]. apply runs_ret. rewrite app_nil_r.
    by exists errs.
Qed.

Lemma finish_result_runs result err :
  Error result = "" →
  runs (finish now result err) (λ r evs, evs = [] ∧ resultFor err r).
Proof.
  intros Hres. unfold finish.
  eapply runs_bind; [apply Since_runs|].
  intros d evs1 ->. apply runs_ret. split; [done|].
  by destruct err as [msg|].
Qed.

(** The end of an operation whose error is in [P]: one call of [Report],
    with the Result for this error. *)
Lemma finish_report_result (c : Checker V) operation fileTestID endpointID
    result err :
  Error result = "" →
  runs (result' ← finish now result err;
        report c operation fileTestID endpointID result')
    (λ err' evs,
       ∃ r, evs = [EReport operation fileTestID endpointID r err'] ∧
            resultFor err r).
Proof.
  intros Hres. eapply runs_bind; [by apply finish_result_runs|].
  intros r evs1 [-> Hr]. eapply runs_weaken; [apply report_runs|].
  intros err' evs2 ->. by exists r.
Qed.

Section client.

Variable endpoint : Endpoint V.
Variable c : Checker V.

Lemma upload_first ctx fileTestID fileTest (R : string → Go.error → Prop) :
  (∀ ctx name r w,
     R name (Client_Upload (Endpoint_Client endpoint) ctx name r w).1) →
  runs (upload randRead now schedule ctx fileTestID fileTest endpoint)
    (λ err evs, ∃ errs,
       Forall2 (λ i, R (pathName fileTestID (Z.of_nat i)))
         (schedule (Z.to_nat (NumParallel fileTest))) errs ∧
       err = firstError errs ∧ reportsOf evs = []).
Proof.
  intros Hup. unfold upload.
  eapply runs_bind; [apply WithTimeout_runs|].
  intros ctx' evs1 ->.
  apply (runParallel_first ctx' _ _
           (λ i, R (pathName fileTestID (Z.of_nat i)))).
  intros i _. unfold uploadWorker.
  eapply runs_bind; [by apply (runs_emit _ (λ _ evs, reportsOf evs = []))|].
  intros [] evs2 Hevs2. apply runs_call. intros w. rewrite app_nil_r.
  split; [apply Hup|done].
Qed.

Lemma del_first ctx fileTestID fileTest (R : string → Go.error → Prop) :
  (∀ ctx name w,
     R name (Client_Delete (Endpoint_Client endpoint) ctx name w).1) →
  runs (del now schedule ctx fileTestID fileTest endpoint)
    (λ err evs, ∃ errs,
       Forall2 (λ i, R (pathName fileTestID (Z.of_nat i)))
         (schedule (Z.to_nat (NumParallel fileTest))) errs ∧
       err = firstError errs ∧ reportsOf evs = []).
Proof.
  intros Hdel. unfold del.
  eapply runs_bind; [apply WithTimeout_runs|].
  intros ctx' evs1 ->.
  apply (runParallel_first ctx' _ _
           (λ i, R (pathName fileTestID (Z.of_nat i)))).
  intros i _. unfold delWorker.
  eapply runs_bind; [by apply (runs_emit _ (λ _ evs, reportsOf evs = []))|].
  intros [] evs2 Hevs2. apply runs_call. intros w. rewrite app_nil_r.
  split; [apply Hdel|done].
Qed.

Lemma Checker_Upload_result ctx fileTestID fileTest
    (R : string → Go.error → Prop) :
  (∀ ctx name r w,
     R name (Client_Upload (Endpoint_Client endpoint) ctx name r w).1) →
  runs (Checker_Upload randRead now schedule c ctx fileTestID fileTest
          endpoint)
    (λ err' evs, ∃ errs r,
       Forall2 (λ i, R (pathName fileTestID (Z.of_nat i)))
         (schedule (Z.to_nat (NumParallel fileTest))) errs ∧
       resultFor (firstError errs) r ∧
       reportsOf evs =
         [EReport Upload fileTestID (Endpoint_ID endpoint) r err']).
Proof.
  intros Hup. unfold Checker_Upload.
  eapply runs_bind; [apply newResultNow_runs|].
  intros result evs1 [-> Hres].
  eapply runs_bind; [by apply upload_first|].
  intros err evs2 (errs & Herrs & -> & Hevs2).
  eapply runs_weaken; [by apply finish_report_result|].
  intros err' evs3 (r & -> & Hr). exists errs, r.
  split; [done|]. split; [done|]. simpl. by rewrite reportsOf_app, Hevs2.
Qed.

Lemma Checker_Delete_result ctx fileTestID fileTest
    (R : string → Go.error → Prop) :
  (∀ ctx name w,
     R name (Client_Delete (Endpoint_Client endpoint) ctx name w).1) →
  runs (Checker_Delete now schedule c ctx fileTestID fileTest endpoint)
    (λ err' evs, ∃ errs r,
       Forall2 (λ i, R (pathName fileTestID (Z.of_nat i)))
         (schedule (Z.to_nat (NumParallel fileTest))) errs ∧
       resultFor (firstError errs) r ∧
       reportsOf evs =
         [EReport Delete fileTestID (Endpoint_ID endpoint) r err']).
Proof.
  intros Hdel. unfold Checker_Delete.
  eapply runs_bind; [apply newResultNow_runs|].
  intros result evs1 [-> Hres].
  eapply runs_bind; [by apply del_first|].
  intros err evs2 (errs & Herrs & -> & Hevs2).
  eapply runs_weaken; [by apply finish_report_result|].
  intros err' evs3 (r & -> & Hr). exists errs, r.
  split; [done|]. split; [done|]. simpl. by rewrite reportsOf_app, Hevs2.
Qed.

End client.

(** The Result for the first error of workers whose errors have messages
    that are not empty. *)
Lemma resultFor_flags {A} (R : A → Go.error → Prop) (l : list A) errs r :
  (∀ x msg, R x (Some msg) → msg ≠ "") →
  Forall2 R l errs →
  resultFor (firstError errs) r →
  (Success r = true ↔ Error r = "").
Proof.
  intros HR Herrs [Hs He].
  assert (errorIn (λ msg, msg ≠ "") (firstError errs)) as Hin.
  { apply errorIn_firstError. clear Hs He.
    induction Herrs as [|x err l errs Hx _ IH]; constructor; [|done].
    intros msg ->. by eapply HR. }
  destruct (firstError errs) as [msg|]; simpl in *.
  - rewrite Hs, He. split; [done|]. intros ->. by destruct (Hin "").
  - by rewrite Hs, He.
Qed.

(** The Result for the first error of workers that all fail, when there
    is a worker. *)
Lemma resultFor_failed (g : string → string) fileTestID (n : nat) errs r :
  (0 < n)%nat →
  Forall2 (λ i err, err = Some (g (pathName fileTestID (Z.of_nat i))))
    (schedule n) errs →
  resultFor (firstError errs) r →
  ∃ name, name ∈ pathsOf fileTestID n ∧
          Success r = false ∧ Error r = g name.
Proof.
  intros Hn Herrs [Hs He].
  pose proof (schedule_perm n) as Hperm.
  destruct (schedule n) as [|i l].
  { apply Permutation_length in Hperm. rewrite length_seq in Hperm.
    simpl in Hperm. lia. }
  apply Forall2_cons_inv_l in Herrs as (err & errs' & -> & _ & ->).
  simpl in Hs, He.
  exists (pathName fileTestID (Z.of_nat i)). split; [|done].
  unfold pathsOf.
  apply (list_elem_of_fmap_2 (λ i, pathName fileTestID (Z.of_nat i))).
  rewrite <- Hperm. left.
Qed.

End operation_results.

Section s3_results.

Import check runs.

Context {W Session : Type}.
Variable randRead : Z → nat → list Byte.byte.
Variable now : W → Z * W.
Variable schedule : nat → list nat.
Variable Quote : string → string.

Variable Uploader_Upload :
  Session → string → string → Reader → W → Go.error * W.
Variable GetObject :
  Session → string → string → W → (ReadCloser + string) * W.
Variable DeleteObject : Session → string → string → W → Go.error * W.
Variable path_Join : string → string → string.

Hypothesis schedule_perm : ∀ n, schedule n ≡ₚ seq 0 n.

(** X23. On an S3 endpoint the reporter receives from Upload and from
    Delete one Result each, whose success flag is true exactly when its
    error message is empty: the errors of the S3 client for them have a
    message that is not empty. When there is a worker and every call of
    the uploader of the AWS library fails with [msg], the Result of Upload
    has no success and the message that the S3 client makes of [msg] for
    the path of one of its workers; and so for Delete, when every
    [DeleteObject] fails. *)
Theorem s3_failure_is_reported (c : Checker W) (ctx : Context) (id : ID)
    (client : s3.Client (Session := Session)) (fileTestID : ID)
    (fileTest : FileTest) (msg : string) :
  let endpoint :=
    recordingEndpoint
      (s3.s3Endpoint Uploader_Upload GetObject DeleteObject path_Join Quote
         id client) in
  let names := pathsOf fileTestID (Z.to_nat (NumParallel fileTest)) in
  recorded (Checker_Upload randRead (recordingClock now) schedule
              (recordingChecker c) ctx fileTestID fileTest endpoint)
    (λ err calls, ∃ r,
       reportsOf calls = [EReport Upload fileTestID id r err] ∧
       (Success r = true ↔ Error r = "")) ∧
  recorded (Checker_Delete (recordingClock now) schedule (recordingChecker c)
              ctx fileTestID fileTest endpoint)
    (λ err calls, ∃ r,
       reportsOf calls = [EReport Delete fileTestID id r err] ∧
       (Success r = true ↔ Error r = "")) ∧
  (0 < NumParallel fileTest →
   (∀ sess bucket key r w, (Uploader_Upload sess bucket key r w).1 = Some msg) →
   recorded (Checker_Upload randRead (recordingClock now) schedule
               (recordingChecker c) ctx fileTestID fileTest endpoint)
     (λ err calls, ∃ r name,
        reportsOf calls = [EReport Upload fileTestID id r err] ∧
        name ∈ names ∧ Success r = false ∧
        Error r =
          "failed to upload file " +:+ Quote name +:+ ": " +:+ msg)) ∧
  (0 < NumParallel fileTest →
   (∀ sess bucket key w, (DeleteObject sess bucket key w).1 = Some msg) →
   recorded (Checker_Delete (recordingClock now) schedule
               (recordingChecker c) ctx fileTestID fileTest endpoint)
     (λ err calls, ∃ r name,
        reportsOf calls = [EReport Delete fileTestID id r err] ∧
        name ∈ names ∧ Success r = false ∧
        Error r =
          "failed to delete file " +:+ Quote name +:+ ": " +:+ msg)).
Proof.
  intros endpoint names.
  assert (∀ ctx name r wc,
    (Client_Upload (Endpoint_Client endpoint) ctx name r wc).1 =
    match (Uploader_Upload (s3.session client) (S3_Bucket (s3.cfg client))
             (s3.bucketKey path_Join client name) r wc.1).1 with
    | Some err =>
        Some ("failed to upload file " +:+ Quote name +:+ ": " +:+ err)
    | None => None
    end) as Hup.
  { intros ctx' name r wc. simpl. unfold s3.Upload.
    by destruct (Uploader_Upload _ _ _ _ _) as [[err|] w']. }
  assert (∀ ctx name wc,
    (Client_Delete (Endpoint_Client endpoint) ctx name wc).1 =
    match (DeleteObject (s3.session client) (S3_Bucket (s3.cfg client))
             (s3.bucketKey path_Join client name) wc.1).1 with
    | Some err =>
        Some ("failed to delete file " +:+ Quote name +:+ ": " +:+ err)
    | None => None
    end) as Hdel.
  { intros ctx' name wc. simpl. unfold s3.Delete.
    by destruct (DeleteObject _ _ _ _) as [[err|] w']. }
  split_and!.
  - apply recorded_runs; [apply faithful_Checker_Upload|].
    eapply runs_weaken.
    + apply (Checker_Upload_result randRead (recordingClock now) schedule
               endpoint (recordingChecker c) ctx fileTestID fileTest
               (λ _ err, ∀ m, err = Some m → m ≠ "")).
      intros ctx' name r wc m. rewrite Hup.
      destruct (Uploader_Upload _ _ _ _ _).1; [|done]. by intros [= <-].
    + intros err evs (errs & r & Herrs & Hr & Hevs). exists r.
      split; [done|]. eapply resultFor_flags; [|exact Herrs|exact Hr].
      intros x m Hm. by apply Hm.
  - apply recorded_runs; [apply faithful_Checker_Delete|].
    eapply runs_weaken.
    + apply (Checker_Delete_result (recordingClock now) schedule
               endpoint (recordingChecker c) ctx fileTestID fileTest
               (λ _ err, ∀ m, err = Some m → m ≠ "")).
      intros ctx' name wc m. rewrite Hdel.
      destruct (DeleteObject _ _ _ _).1; [|done]. by intros [= <-].
    + intros err evs (errs & r & Herrs & Hr & Hevs). exists r.
      split; [done|]. eapply resultFor_flags; [|exact Herrs|exact Hr].
      intros x m Hm. by apply Hm.
  - intros Hn Hfail.
    apply recorded_runs; [apply faithful_Checker_Upload|].
    eapply runs_weaken.
    + apply (Checker_Upload_result randRead (recordingClock now) schedule
               endpoint (recordingChecker c) ctx fileTestID fileTest
               (λ name err,
                  err = Some ("failed to upload file " +:+ Quote name +:+
                              ": " +:+ msg))).
      intros ctx' name r wc. by rewrite Hup, Hfail.
    + intros err evs (errs & r & Herrs & Hr & Hevs).
      destruct (resultFor_failed schedule schedule_perm
                  (λ name, "failed to upload file " +:+ Quote name +:+
                           ": " +:+ msg)
                  fileTestID (Z.to_nat (NumParallel fileTest)) errs r)
        as (name & Hname & Hs & He); [lia|done..|].
      by exists r, name.
  - intros Hn Hfail.
    apply recorded_runs; [apply faithful_Checker_Delete|].
    eapply runs_weaken.
    + apply (Checker_Delete_result (recordingClock now) schedule
               endpoint (recordingChecker c) ctx fileTestID fileTest
               (λ name err,
                  err = Some ("failed to delete file " +:+ Quote name +:+
                              ": " +:+ msg))).
      intros ctx' name wc. by rewrite Hdel, Hfail.
    + intros err evs (errs & r & Herrs & Hr & Hevs).
      destruct (resultFor_failed schedule schedule_perm
                  (λ name, "failed to delete file " +:+ Quote name +:+
                           ": " +:+ msg)
                  fileTestID (Z.to_nat (NumParallel fileTest)) errs r)
        as (name & Hname & Hs & He); [lia|done..|].
      by exists r, name.
Qed.

End s3_results.

Section s3_example.

Import check runs example.

Lemma s3_failure_is_reported_witness :
  let client : s3.Client (Session := unit) :=
    {| s3.cfg := {| S3_Region := "r"; S3_AccessKey := "a";
                    S3_SecretKey := "s"; S3_Bucket := "b"; S3_Path := "";
                    S3_Address := "" |};
       s3.session := tt |} in
  recorded (Checker_Upload randRead (recordingClock now) schedule
              (recordingChecker (checker [memoryEndpoint])) None "ft1"
              smallTest
              (recordingEndpoint
                 (s3.s3Endpoint
                    (λ _ _ _ _ w, (Some "no network", w))
                    (λ _ _ key w, Client_Download memoryClient None key w)
                    (λ _ _ key w, Client_Delete memoryClient None key w)
                    (λ dir name, dir +:+ "/" +:+ name) Quote "s3" client)))
    (λ err calls, ∃ r name,
       reportsOf calls = [EReport Upload "ft1" "s3" r err] ∧
       name ∈ pathsOf "ft1" 2 ∧ Success r = false ∧
       Error r = "failed to upload file " +:+ name +:+ ": no network").
Proof.
  intros client.
  apply (s3_failure_is_reported randRead now schedule Quote
           (λ _ _ _ _ w, (Some "no network", w))
           (λ _ _ key w, Client_Download memoryClient None key w)
           (λ _ _ key w, Client_Delete memoryClient None key w)
           (λ dir name, dir +:+ "/" +:+ name) schedule_Permutation
           (checker [memoryEndpoint]) None "s3" client "ft1" smallTest
           "no network").
  - reflexivity.
  - intros sess bucket key r w. reflexivity.
Defined.

End s3_example.

(** ** The start of the program *)

Section setup.

Import check runs main report spec.

Context {W : Type}.
Variable randRead : Z → nat → list Byte.byte.
Variable sha256_Sum : list Byte.byte → list Byte.byte.
Variable now : W → Z * W.
Variable schedule : nat → list nat.
Variable Quote : string → string.
Variable NewProduction : W → Go.error * W.
Variable LoadConfig : string → W → (Config * Go.error) * W.
Variable s3_New : S3Endpoint → W → (Client W + string) * W.
Variable storjclient_New :
  Context → StorjEndpoint → W → (Client W + string) * W.

Lemma untouched_refl (st : State (World W)) : untouched st st.
Proof. by split_and!. Qed.

Lemma untouched_trans (st1 st2 st3 : State (World W)) :
  untouched st1 st2 → untouched st2 st3 → untouched st1 st3.
Proof.
  intros (H1 & H2 & H3) (G1 & G2 & G3). split_and!; congruence.
Qed.

Lemma untouched_lift {A} (f : W → A * W) (st : State (World W)) :
  untouched st {| world := (lift f (world st)).2; events := events st |}.
Proof. unfold lift. by destruct (f (outside (world st))). Qed.

(** The loop over the S3 endpoints: the error of a constructor for one
    of them, or one endpoint for each of them, in their order. *)
Lemma s3Endpoints_made l : ∀ endpoints (st : State (World W)),
  ∃ r st',
    s3Endpoints s3_New l endpoints st = Ok (r, st') ∧ untouched st st' ∧
    match r with
    | inl msg =>
        ∃ id cfg w, (id, cfg) ∈ l ∧ (s3_New cfg w).1 = inr msg
    | inr endpoints' =>
        ∃ new, endpoints' = endpoints ++ new ∧ Forall2 (madeS3 s3_New) l new
    end.
Proof.
  induction l as [|[id endpoint] l IH]; intros endpoints st.
  - exists (inr endpoints), st. split; [done|].
    split; [apply untouched_refl|]. exists []. by rewrite app_nil_r.
  - cbn [s3Endpoints]. unfold mbind, M_mbind, M_bind, call.
    pose proof (untouched_lift (s3_New endpoint) st) as Hun.
    unfold lift in *.
    destruct (s3_New endpoint (outside (world st))) as [[client|err] o]
      eqn:Hnew.
    + match goal with
      | |- context [s3Endpoints _ l ?e ?s] =>
          destruct (IH e s) as (r & st' & Hrun & Hun' & Hr)
      end.
      exists r, st'. split; [done|].
      split; [by eapply untouched_trans|].
      destruct r as [msg|endpoints'].
      * destruct Hr as (id' & cfg & w & Hin & Hw).
        exists id', cfg, w. split; [by right|done].
      * destruct Hr as (new & -> & Hnew').
        eexists (_ :: new). split; [by rewrite <- app_assoc|].
        constructor; [|done]. split_and!; try done.
        exists (outside (world st)). simpl. by rewrite Hnew.
    + eexists (inl err), _. split; [done|]. split; [done|].
      exists id, endpoint, (outside (world st)).
      split; [left|]. by rewrite Hnew.
Qed.

Lemma storjEndpoints_made ctx l : ∀ endpoints (st : State (World W)),
  ∃ r st',
    storjEndpoints storjclient_New ctx l endpoints st = Ok (r, st') ∧
    untouched st st' ∧
    match r with
    | inl msg =>
        ∃ id cfg w, (id, cfg) ∈ l ∧ (storjclient_New ctx cfg w).1 = inr msg
    | inr endpoints' =>
        ∃ new, endpoints' = endpoints ++ new ∧
               Forall2 (madeStorj storjclient_New ctx) l new
    end.
Proof.
  induction l as [|[id endpoint] l IH]; intros endpoints st.
  - exists (inr endpoints), st. split; [done|].
    split; [apply untouched_refl|]. exists []. by rewrite app_nil_r.
  - cbn [storjEndpoints]. unfold mbind, M_mbind, M_bind, call.
    pose proof (untouched_lift (storjclient_New ctx endpoint) st) as Hun.
    unfold lift in *.
    destruct (storjclient_New ctx endpoint (outside (world st)))
      as [[client|err] o] eqn:Hnew.
    + match goal with
      | |- context [storjEndpoints _ _ l ?e ?s] =>
          destruct (IH e s) as (r & st' & Hrun & Hun' & Hr)
      end.
      exists r, st'. split; [done|].
      split; [by eapply untouched_trans|].
      destruct r as [msg|endpoints'].
      * destruct Hr as (id' & cfg & w & Hin & Hw).
        exists id', cfg, w. split; [by right|done].
      * destruct Hr as (new & -> & Hnew').
        eexists (_ :: new). split; [by rewrite <- app_assoc|].
        constructor; [|done]. split_and!; try done.
        exists (outside (world st)). simpl. by rewrite Hnew.
    + eexists (inl err), _. split; [done|]. split; [done|].
      exists id, endpoint, (outside (world st)).
      split; [left|]. by rewrite Hnew.
Qed.

(** An endpoint is made of an entry for which the constructor fails in no
    world only. *)
Lemma Forall2_made {A B} (R : A → B → Prop) (l : list A) (l' : list B) x :
  Forall2 R l l' → x ∈ l → ∃ y, R x y.
Proof.
  induction 1 as [|a b l l' Hab _ IH]; intros Hin.
  - by apply elem_of_nil in Hin.
  - apply elem_of_cons in Hin as [->|Hin]; [by exists b|by apply IH].
Qed.

(** [run], with its calls written out. *)
Lemma run_unfold (ConfigPath : string) (ctx : Context)
    (st : State (World W)) :
  let after (o : W) : State (World W) :=
    {| world := {| reporterOf := reporterOf (world st);
                   stdout := stdout (world st); outside := o |};
       events := events st |} in
  run randRead sha256_Sum now schedule Quote NewProduction LoadConfig
    s3_New storjclient_New ConfigPath ctx st =
  if String.eqb ConfigPath "" then Ok (Some "empty config path", st)
  else
    match (NewProduction (outside (world st))).1 with
    | Some msg =>
        Ok (Some msg, after (NewProduction (outside (world st))).2)
    | None =>
        let loaded :=
          LoadConfig ConfigPath (NewProduction (outside (world st))).2 in
        match loaded.1.2 with
        | Some msg => Ok (Some msg, after loaded.2)
        | None =>
            match s3Endpoints s3_New
                    (map_to_list (S3 (Config_Endpoints loaded.1.1))) []
                    (after loaded.2) with
            | Ok (inl msg, st3) => Ok (Some msg, st3)
            | Ok (inr endpoints, st3) =>
                match storjEndpoints storjclient_New ctx
                        (map_to_list (Storj (Config_Endpoints loaded.1.1)))
                        endpoints st3 with
                | Ok (inl msg, st4) => Ok (Some msg, st4)
                | Ok (inr endpoints', st4) =>
                    runChecks randRead sha256_Sum now schedule Quote ctx
                      loaded.1.1 endpoints' st4
                | Err e => Err e
                | Panic e => Panic e
                end
            | Err e => Err e
            | Panic e => Panic e
            end
        end
    end.
Proof.
  intros after. unfold run. destruct (String.eqb ConfigPath ""); [done|].
  unfold mbind at 1, M_mbind at 1, M_bind at 1, call at 1, lift at 1.
  destruct (NewProduction (outside (world st))) as [[msg1|] o1]; [done|].
  cbv zeta. simpl.
  unfold mbind at 1, M_mbind at 1, M_bind at 1, call at 1, lift at 1. simpl.
  destruct (LoadConfig ConfigPath o1) as [[conf [msg2|]] o2]; [done|]. simpl.
  unfold mbind at 1, M_mbind at 1, M_bind at 1. fold (after o2).
  destruct (s3Endpoints s3_New _ [] (after o2)) as [[[msg|endpoints] st3]|e|e];
    try done.
  unfold mbind at 1, M_mbind at 1, M_bind at 1.
  by destruct (storjEndpoints storjclient_New ctx _ endpoints st3)
    as [[[msg|endpoints'] st4]|e|e].
Qed.


End setup.

Section setup_example.

Import check runs main report spec example main_example.


End setup_example.
